(** * NYC taxi trip pipeline: the algorithm library, the cleaning pipeline
    and the feature engineering pipeline, embedded from
    [src/data_processing/custom_algorithms.py], [data_cleaner.py] and
    [feature_engineering.py].

    Conventions of the embedding.
    - Python numbers ([int] and [float]) are exact rationals [Q]; rounding,
      infinities and NaN of IEEE doubles are not modelled.  Numeric equality
      [==] is [Qeq].
    - An exception is a value of [exn]; code that may raise lives in the
      error monad [result].
    - Recursive methods carry a depth budget; running out of it is
      [RecursionError].  The public entry points pass a budget that is
      proved sufficient.
    - A [dict] is a [gmap]; dict objects that are mutated while several
      lists refer to them live in an explicit object store, and the lists
      hold references. *)

From Stdlib Require Import QArith Qround Qminmax Qabs OrderedTypeEx Sorted.
From Stdlib Require Import Ascii String DecimalString.
From Stdlib Require Import Reals Psatz.
From stdpp Require Import base list strings gmap.

Set Default Proof Using "Type".

Local Open Scope Q_scope.
Local Open Scope nat_scope.

(** ** Exceptions and the error monad *)

Inductive exn : Type :=
| IndexError
| KeyError
| TypeError
| ValueError
| RecursionError.

Inductive result (A : Type) : Type :=
| Ok (a : A)
| Raise (e : exn).
Arguments Ok {A} a.
Arguments Raise {A} e.

#[global] Instance result_ret : MRet result := fun _ a => Ok a.
#[global] Instance result_bind : MBind result := fun _ _ f m =>
  match m with
  | Ok a => f a
  | Raise e => Raise e
  end.

(** ** Python values that occur as tuple components *)

Inductive value : Type :=
| VNum (q : Q)
| VStr (s : string).

Abbreviation tuple := (list value).

(** [t[i]] on a tuple. *)
Definition getitem {A} (t : list A) (i : nat) : result A :=
  match t !! i with
  | Some v => Ok v
  | None => Raise IndexError
  end.

(** [d[k]] on a dict. *)
Definition dict_get `{Countable K} {V} (d : gmap K V) (k : K) : result V :=
  match d !! k with
  | Some v => Ok v
  | None => Raise KeyError
  end.

Definition Qltb (a b : Q) : bool :=
  match (a ?= b)%Q with Lt => true | _ => false end.

(** [a < b]: numbers compare by value, strings lexicographically, a number
    against a string raises. *)
Definition py_lt (a b : value) : result bool :=
  match a, b with
  | VNum x, VNum y => Ok (Qltb x y)
  | VStr x, VStr y => Ok (String.ltb x y)
  | _, _ => Raise TypeError
  end.

(** [a > b] is the reflected [b < a]. *)
Definition py_gt (a b : value) : result bool := py_lt b a.

(** [a == b] never raises. *)
Definition py_eq (a b : value) : bool :=
  match a, b with
  | VNum x, VNum y => Qeq_bool x y
  | VStr x, VStr y => String.eqb x y
  | _, _ => false
  end.

(** ** CustomAlgorithms.quick_sort *)

Module CustomAlgorithms.

(** The three buckets filled by the [for item in arr] loop. *)
Record buckets := Buckets {
  b_left : list tuple;
  b_middle : list tuple;
  b_right : list tuple }.

(** The condition of the [if] in the loop body:
    [(not reverse and item_value < pivot_value) or
     (reverse and item_value > pivot_value)]. *)
Definition goes_left (reverse : bool) (item_value pivot_value : value)
  : result bool :=
  if reverse then py_gt item_value pivot_value
  else py_lt item_value pivot_value.

Fixpoint partition_loop (key_index : nat) (reverse : bool)
    (pivot_value : value) (arr : list tuple) : result buckets :=
  match arr with
  | [] => Ok (Buckets [] [] [])
  | item :: rest =>
      item_value ← getitem item key_index;
      l ← goes_left reverse item_value pivot_value;
      b ← partition_loop key_index reverse pivot_value rest;
      Ok (if l : bool
          then Buckets (item :: b_left b) (b_middle b) (b_right b)
          else if py_eq item_value pivot_value
          then Buckets (b_left b) (item :: b_middle b) (b_right b)
          else Buckets (b_left b) (b_middle b) (item :: b_right b))
  end.

Fixpoint quick_sort_rec (depth : nat) (arr : list tuple) (key_index : nat)
    (reverse : bool) : result (list tuple) :=
  if length arr <=? 1 then Ok arr
  else
    match depth with
    | O => Raise RecursionError
    | S depth' =>
        pivot ← getitem arr (length arr / 2);
        pivot_value ← getitem pivot key_index;
        b ← partition_loop key_index reverse pivot_value arr;
        sorted_left ← quick_sort_rec depth' (b_left b) key_index reverse;
        sorted_right ← quick_sort_rec depth' (b_right b) key_index reverse;
        Ok (sorted_left ++ b_middle b ++ sorted_right)
    end.

(** The recursion never goes deeper than the length of the list. *)
Definition quick_sort (arr : list tuple) (key_index : nat) (reverse : bool)
  : result (list tuple) :=
  quick_sort_rec (length arr) arr key_index reverse.

(** *** calculate_percentiles *)

(** [l[i]] on a list with a signed index: negative indices count from the
    end. *)
Definition py_index {A} (l : list A) (i : Z) : result A :=
  let n := Z.of_nat (length l) in
  if (0 <=? i)%Z then getitem l (Z.to_nat i)
  else if (- n <=? i)%Z then getitem l (Z.to_nat (n + i))
  else Raise IndexError.

(** [int(x)] on a float truncates toward zero. *)
Definition int_of_float (x : Q) : Z := Z.quot (Qnum x) (Zpos (Qden x)).

(** A tuple component used in arithmetic must be a number. *)
Definition as_num (v : value) : result Q :=
  match v with
  | VNum q => Ok q
  | VStr _ => Raise TypeError
  end.

(** [[(v, i) for i, v in enumerate(values)]], counting from [i]. *)
Fixpoint enumerate_pairs (i : Z) (values : list Q) : list tuple :=
  match values with
  | [] => []
  | v :: rest => [VNum v; VNum (inject_Z i)] :: enumerate_pairs (i + 1) rest
  end.

(** [[t[0] for t in sorted_tuples]]. *)
Fixpoint first_components (ts : list tuple) : result (list Q) :=
  match ts with
  | [] => Ok []
  | t :: rest =>
      v ← getitem t 0;
      q ← as_num v;
      qs ← first_components rest;
      Ok (q :: qs)
  end.

(** One round of the [for p in percentiles] loop, for an admissible [p]. *)
Definition percentile_value (sorted_values : list Q) (p : Z) : result Q :=
  let n := Z.of_nat (length sorted_values) in
  if (p =? 0)%Z then py_index sorted_values 0
  else if (p =? 100)%Z then py_index sorted_values (-1)
  else
    let position := ((inject_Z p / 100) * inject_Z (n - 1))%Q in
    let lower_index := int_of_float position in
    let upper_index := Z.min (lower_index + 1) (n - 1) in
    let weight := (position - inject_Z lower_index)%Q in
    lo ← py_index sorted_values lower_index;
    hi ← py_index sorted_values upper_index;
    Ok (lo * (1 - weight) + hi * weight)%Q.

Fixpoint percentile_loop (sorted_values : list Q) (percentiles : list Z)
    (res : gmap Z Q) : result (gmap Z Q) :=
  match percentiles with
  | [] => Ok res
  | p :: rest =>
      if ((p <? 0) || (100 <? p))%Z
      then percentile_loop sorted_values rest res
      else
        x ← percentile_value sorted_values p;
        percentile_loop sorted_values rest (<[p := x]> res)
  end.

Definition calculate_percentiles (values : list Q) (percentiles : list Z)
  : result (gmap Z Q) :=
  match values with
  | [] => Ok (list_to_map ((λ p, (p, 0%Q)) <$> percentiles))
  | _ =>
      sorted_tuples ← quick_sort (enumerate_pairs 0 values) 0 false;
      sorted_values ← first_components sorted_tuples;
      percentile_loop sorted_values percentiles ∅
  end.

(** *** detect_outliers_iqr *)

(** [[i for i, value in enumerate(values) if value < lower or value > upper]],
    counting from [i]. *)
Fixpoint outlier_scan (i : Z) (lower_bound upper_bound : Q)
    (values : list Q) : list Z :=
  match values with
  | [] => []
  | v :: rest =>
      if Qltb v lower_bound || Qltb upper_bound v
      then i :: outlier_scan (i + 1) lower_bound upper_bound rest
      else outlier_scan (i + 1) lower_bound upper_bound rest
  end.

Definition detect_outliers_iqr (values : list Q) (multiplier : Q)
  : result (list Z * gmap string Q) :=
  if length values <? 4 then Ok ([], ∅)
  else
    percentiles ← calculate_percentiles values [25; 75]%Z;
    q1 ← dict_get percentiles 25%Z;
    q3 ← dict_get percentiles 75%Z;
    let iqr := (q3 - q1)%Q in
    let lower_bound := (q1 - multiplier * iqr)%Q in
    let upper_bound := (q3 + multiplier * iqr)%Q in
    let outlier_indices := outlier_scan 0 lower_bound upper_bound values in
    let stats : gmap string Q :=
      <["outlier_count" := inject_Z (Z.of_nat (length outlier_indices))]>
      (<["upper_bound" := upper_bound]>
      (<["lower_bound" := lower_bound]>
      (<["iqr" := iqr]> (<["q3" := q3]> (<["q1" := q1]> ∅))))) in
    Ok (outlier_indices, stats).

(** *** find_top_k and its heap helpers *)

(** [heap[i][key_index]]. *)
Definition heap_key (heap : list tuple) (i key_index : nat) : result value :=
  t ← getitem heap i;
  getitem t key_index.

(** [heap[i], heap[j] = heap[j], heap[i]]. *)
Definition swap (heap : list tuple) (i j : nat) : result (list tuple) :=
  hj ← getitem heap j;
  hi ← getitem heap i;
  Ok (<[j := hi]> (<[i := hj]> heap)).

Fixpoint _heapify_up_rec (depth : nat) (heap : list tuple)
    (index key_index : nat) : result (list tuple) :=
  let parent_index := (index - 1) / 2 in
  c ← (if 0 <? index
       then a ← heap_key heap index key_index;
            b ← heap_key heap parent_index key_index;
            py_lt a b
       else Ok false);
  if c : bool then
    match depth with
    | O => Raise RecursionError
    | S depth' =>
        heap' ← swap heap index parent_index;
        _heapify_up_rec depth' heap' parent_index key_index
    end
  else Ok heap.

Definition _heapify_up (heap : list tuple) (index key_index : nat)
  : result (list tuple) :=
  _heapify_up_rec index heap index key_index.

(** The guard [child < len(heap) and heap[child][k] < heap[smallest][k]]. *)
Definition child_smaller (heap : list tuple) (child smallest key_index : nat)
  : result bool :=
  if child <? length heap
  then a ← heap_key heap child key_index;
       b ← heap_key heap smallest key_index;
       py_lt a b
  else Ok false.

Fixpoint _heapify_down_rec (depth : nat) (heap : list tuple)
    (index key_index : nat) : result (list tuple) :=
  let left_child := 2 * index + 1 in
  let right_child := 2 * index + 2 in
  let smallest := index in
  c1 ← child_smaller heap left_child smallest key_index;
  let smallest := if c1 : bool then left_child else smallest in
  c2 ← child_smaller heap right_child smallest key_index;
  let smallest := if c2 : bool then right_child else smallest in
  if smallest =? index then Ok heap
  else
    match depth with
    | O => Raise RecursionError
    | S depth' =>
        heap' ← swap heap index smallest;
        _heapify_down_rec depth' heap' smallest key_index
    end.

Definition _heapify_down (heap : list tuple) (index key_index : nat)
  : result (list tuple) :=
  _heapify_down_rec (length heap) heap index key_index.

(** The body of [for item in data], threading the heap. *)
Fixpoint top_k_loop (data : list tuple) (k : Z) (key_index : nat)
    (heap : list tuple) : result (list tuple) :=
  match data with
  | [] => Ok heap
  | item :: rest =>
      heap' ←
        (if (Z.of_nat (length heap) <? k)%Z
         then _heapify_up (heap ++ [item]) (length heap) key_index
         else
           a ← getitem item key_index;
           b ← heap_key heap 0 key_index;
           c ← py_gt a b;
           if c : bool
           then _heapify_down (<[0 := item]> heap) 0 key_index
           else Ok heap);
      top_k_loop rest k key_index heap'
  end.

Definition find_top_k (data : list tuple) (k : Z) (key_index : nat)
  : result (list tuple) :=
  if (Z.of_nat (length data) <=? k)%Z then quick_sort data key_index true
  else
    heap ← top_k_loop data k key_index [];
    quick_sort heap key_index true.

(** *** The comparison counter of quick_sort *)

(** The loop of [quick_sort] with [self.comparison_count] threaded
    through: the counter is incremented before the key of the item is
    read. *)
Fixpoint partition_loop_counted (key_index : nat) (reverse : bool)
    (pivot_value : value) (arr : list tuple) (comparison_count : nat)
  : result (buckets * nat) :=
  match arr with
  | [] => Ok (Buckets [] [] [], comparison_count)
  | item :: rest =>
      let comparison_count := S comparison_count in
      item_value ← getitem item key_index;
      l ← goes_left reverse item_value pivot_value;
      '(b, comparison_count) ←
        partition_loop_counted key_index reverse pivot_value rest
          comparison_count;
      Ok (if l : bool
          then Buckets (item :: b_left b) (b_middle b) (b_right b)
          else if py_eq item_value pivot_value
          then Buckets (b_left b) (item :: b_middle b) (b_right b)
          else Buckets (b_left b) (b_middle b) (item :: b_right b),
          comparison_count)
  end.

Fixpoint quick_sort_counted_rec (depth : nat) (arr : list tuple)
    (key_index : nat) (reverse : bool) (comparison_count : nat)
  : result (list tuple * nat) :=
  if length arr <=? 1 then Ok (arr, comparison_count)
  else
    match depth with
    | O => Raise RecursionError
    | S depth' =>
        pivot ← getitem arr (length arr / 2);
        pivot_value ← getitem pivot key_index;
        '(b, comparison_count) ←
          partition_loop_counted key_index reverse pivot_value arr
            comparison_count;
        '(sorted_left, comparison_count) ←
          quick_sort_counted_rec depth' (b_left b) key_index reverse
            comparison_count;
        '(sorted_right, comparison_count) ←
          quick_sort_counted_rec depth' (b_right b) key_index reverse
            comparison_count;
        Ok (sorted_left ++ b_middle b ++ sorted_right, comparison_count)
    end.

(** [quick_sort] as a method: the sorted list and the value of
    [self.comparison_count] after the call. *)
Definition quick_sort_counted (arr : list tuple) (key_index : nat)
    (reverse : bool) (comparison_count : nat) : result (list tuple * nat) :=
  quick_sort_counted_rec (length arr) arr key_index reverse comparison_count.

(** *** custom_filter *)

(** A record of a dataset: a dict from field names to values. *)
Abbreviation row := (gmap string value).

(** A filter condition that is a dict: any of the entries [min], [max] and
    [in]. *)
Record bounds := Bounds {
  c_min : option value;
  c_max : option value;
  c_in : option (list value) }.

(** The three kinds of condition told apart by [isinstance]: a dict, a list
    or tuple of admissible values, anything else. *)
Inductive condition : Type :=
| CDict (b : bounds)
| CList (l : list value)
| CValue (v : value).

(** [x in l] on a list or tuple: some element [==] [x]. *)
Definition py_in (x : value) (l : list value) : bool := existsb (py_eq x) l.

(** The tests made on one field of a record; [false] stands for
    [matches_all_filters = False; break]. *)
Definition check_condition (record_value : value) (c : condition)
  : result bool :=
  match c with
  | CDict b =>
      below ← match c_min b with
              | Some m => py_lt record_value m
              | None => Ok false
              end;
      if below : bool then Ok false
      else
        above ← match c_max b with
                | Some m => py_gt record_value m
                | None => Ok false
                end;
        if above : bool then Ok false
        else Ok (match c_in b with
                 | Some l => py_in record_value l
                 | None => true
                 end)
  | CList l => Ok (py_in record_value l)
  | CValue v => Ok (py_eq record_value v)
  end.

(** The loop [for field, condition in filters.items()]; the filters are
    listed in the insertion order of the dict. *)
Fixpoint matches_all (record : row) (filters : list (string * condition))
  : result bool :=
  match filters with
  | [] => Ok true
  | (field, c) :: rest =>
      match record !! field with
      | None => Ok false
      | Some record_value =>
          ok ← check_condition record_value c;
          if ok : bool then matches_all record rest else Ok false
      end
  end.

Fixpoint custom_filter (data : list row) (filters : list (string * condition))
  : result (list row) :=
  match data with
  | [] => Ok []
  | record :: rest =>
      m ← matches_all record filters;
      filtered_data ← custom_filter rest filters;
      Ok (if m : bool then record :: filtered_data else filtered_data)
  end.

(** *** custom_group_by *)

(** [groups] is a dict kept in insertion order; [key_value not in groups]
    and [groups[key_value]] find a key by [==].  The step
    [if key_value not in groups: groups[key_value] = []] followed by
    [groups[key_value].append(record)]. *)
Fixpoint group_append (groups : list (value * list row)) (key_value : value)
    (record : row) : list (value * list row) :=
  match groups with
  | [] => [(key_value, [record])]
  | (k, members) :: rest =>
      if py_eq k key_value then (k, members ++ [record]) :: rest
      else (k, members) :: group_append rest key_value record
  end.

Definition custom_group_by (data : list row) (group_key : string)
  : list (value * list row) :=
  fold_left (λ groups record,
               match record !! group_key with
               | Some key_value => group_append groups key_value record
               | None => groups
               end) data [].

End CustomAlgorithms.

Example quick_sort_demo :
  CustomAlgorithms.quick_sort
    [[VNum 5; VStr "a"]; [VNum 5; VStr "b"]; [VNum 3; VStr "c"]] 0 false
  = Ok [[VNum 3; VStr "c"]; [VNum 5; VStr "a"]; [VNum 5; VStr "b"]].
Proof. reflexivity. Qed.


(** * Properties of the algorithm library *)

(** ** The order on values *)

(** A total comparison on values that agrees with [py_lt] and [py_eq]
    wherever [py_lt] does not raise; a number is placed before a string. *)
Definition vcmp (a b : value) : comparison :=
  match a, b with
  | VNum x, VNum y => (x ?= y)%Q
  | VStr x, VStr y => String.compare x y
  | VNum _, VStr _ => Lt
  | VStr _, VNum _ => Gt
  end.

(** The comparison in the direction of the sort. *)
Definition dcmp (reverse : bool) (a b : value) : comparison :=
  if reverse then vcmp b a else vcmp a b.

Definition same_kind (a b : value) : Prop :=
  match a, b with
  | VNum _, VNum _ | VStr _, VStr _ => True
  | _, _ => False
  end.

Definition is_Lt (c : comparison) : bool :=
  match c with Lt => true | _ => false end.
Definition is_Eq (c : comparison) : bool :=
  match c with Eq => true | _ => false end.
Definition is_Gt (c : comparison) : bool :=
  match c with Gt => true | _ => false end.

Lemma string_compare_trans a b c :
  String.compare a b = Lt → String.compare b c = Lt → String.compare a c = Lt.
Proof.
  intros H1 H2.
  apply String_as_OT.cmp_lt.
  eapply String_as_OT.lt_trans; apply String_as_OT.cmp_lt; eassumption.
Qed.

Lemma vcmp_antisym a b : vcmp b a = CompOpp (vcmp a b).
Proof.
  destruct a, b; simpl; try reflexivity.
  - symmetry. apply Qcompare_antisym.
  - apply String.compare_antisym.
Qed.

Lemma vcmp_trans a b c : vcmp a b = Lt → vcmp b c = Lt → vcmp a c = Lt.
Proof.
  destruct a, b, c; simpl; try congruence.
  - rewrite <- !Qlt_alt. apply Qlt_trans.
  - apply string_compare_trans.
Qed.

Lemma vcmp_eq_l a b c : vcmp a b = Eq → vcmp a c = vcmp b c.
Proof.
  destruct a, b, c; simpl; try congruence.
  - rewrite <- Qeq_alt. intros ->. reflexivity.
  - intros H. apply String.compare_eq_iff in H. by subst.
Qed.

Lemma vcmp_eq_r a b c : vcmp a b = Eq → vcmp c a = vcmp c b.
Proof.
  intros H. rewrite (vcmp_antisym a c), (vcmp_antisym b c).
  by rewrite (vcmp_eq_l a b c).
Qed.

Lemma vcmp_refl a : vcmp a a = Eq.
Proof.
  destruct a; simpl.
  - by apply Qeq_alt.
  - by apply String_as_OT.cmp_eq.
Qed.

Lemma dcmp_antisym r a b : dcmp r b a = CompOpp (dcmp r a b).
Proof. destruct r; apply vcmp_antisym. Qed.

Lemma dcmp_trans r a b c : dcmp r a b = Lt → dcmp r b c = Lt → dcmp r a c = Lt.
Proof. destruct r; simpl; eauto using vcmp_trans. Qed.

Lemma dcmp_eq_l r a b c : dcmp r a b = Eq → dcmp r a c = dcmp r b c.
Proof.
  destruct r; simpl; [|apply vcmp_eq_l].
  intros H. apply vcmp_eq_r. rewrite (vcmp_antisym b a), H. done.
Qed.

Lemma dcmp_eq_r r a b c : dcmp r a b = Eq → dcmp r c a = dcmp r c b.
Proof.
  intros H. rewrite (dcmp_antisym r a c), (dcmp_antisym r b c).
  by rewrite (dcmp_eq_l r a b c).
Qed.

Lemma dcmp_Eq_vcmp r a b : dcmp r a b = Eq ↔ vcmp a b = Eq.
Proof.
  destruct r; simpl; [|done].
  rewrite (vcmp_antisym a b). destruct (vcmp a b); simpl; split; congruence.
Qed.

Lemma py_eq_vcmp a b : py_eq a b = is_Eq (vcmp a b).
Proof.
  destruct a, b; simpl; try reflexivity.
  - destruct (Qeq_bool q q0) eqn:E.
    + apply Qeq_bool_iff, Qeq_alt in E. by rewrite E.
    + destruct (q ?= q0)%Q eqn:C; try reflexivity.
      apply Qeq_alt, Qeq_bool_iff in C. congruence.
  - destruct (String.eqb_spec s s0) as [->|N].
    + by rewrite (proj2 (String_as_OT.cmp_eq _ _) eq_refl).
    + destruct (String.compare s s0) eqn:C; try reflexivity.
      apply String.compare_eq_iff in C. done.
Qed.

Lemma py_lt_vcmp a b : same_kind a b → py_lt a b = Ok (is_Lt (vcmp a b)).
Proof. destruct a, b; simpl; try done. Qed.

Lemma goes_left_dcmp r a p :
  same_kind a p → CustomAlgorithms.goes_left r a p = Ok (is_Lt (dcmp r a p)).
Proof.
  intros H. destruct r; simpl; unfold py_gt; apply py_lt_vcmp;
    destruct a, p; done.
Qed.

(** ** quick_sort: permutation, order and stability *)

Section QuickSort.
Import CustomAlgorithms.
Variable key_index : nat.
Variable reverse : bool.

(** The key of an item (a dummy where the component is missing). *)
Definition key_at (t : tuple) : value := default (VNum 0) (t !! key_index).

(** The item has a key of the same kind as [p]. *)
Definition keyed (p : value) (t : tuple) : Prop :=
  ∃ v, t !! key_index = Some v ∧ same_kind v p.

Definition side (p : value) (t : tuple) : comparison :=
  dcmp reverse (key_at t) p.

Lemma keyed_getitem p t :
  keyed p t → getitem t key_index = Ok (key_at t) ∧ same_kind (key_at t) p.
Proof.
  intros (v & Hv & Hk). unfold getitem, key_at. rewrite Hv. done.
Qed.

Lemma partition_loop_filter p arr :
  Forall (keyed p) arr →
  partition_loop key_index reverse p arr =
    Ok (Buckets (List.filter (λ t, is_Lt (side p t)) arr)
                (List.filter (λ t, is_Eq (side p t)) arr)
                (List.filter (λ t, is_Gt (side p t)) arr)).
Proof.
  induction 1 as [|t arr Ht _ IH]; [done|].
  destruct (keyed_getitem _ _ Ht) as [Hg Hk].
  simpl. rewrite Hg. simpl. rewrite (goes_left_dcmp _ _ _ Hk). simpl.
  rewrite IH. simpl. rewrite py_eq_vcmp. unfold side.
  destruct (dcmp reverse (key_at t) p) eqn:E; simpl.
  - apply dcmp_Eq_vcmp in E. by rewrite E.
  - done.
  - destruct (vcmp (key_at t) p) eqn:E'; simpl; try done.
    apply (proj2 (dcmp_Eq_vcmp reverse _ _)) in E'. congruence.
Qed.

(** The order of the output: no later item comes strictly before an
    earlier one in the direction of the sort. *)
Definition in_order (a b : tuple) : Prop :=
  dcmp reverse (key_at a) (key_at b) ≠ Gt.

(** The items whose key equals [v]. *)
Definition with_key (v : value) (l : list tuple) : list tuple :=
  List.filter (λ t, py_eq (key_at t) v) l.

Lemma three_way_perm (f : tuple → comparison) l :
  List.filter (λ t, is_Lt (f t)) l ++ List.filter (λ t, is_Eq (f t)) l
    ++ List.filter (λ t, is_Gt (f t)) l ≡ₚ l.
Proof.
  induction l as [|t l IH]; [done|]. simpl.
  destruct (f t); simpl.
  - rewrite <- Permutation_middle. by constructor.
  - by constructor.
  - rewrite app_assoc, <- Permutation_middle, <- app_assoc. by constructor.
Qed.

Lemma filter_length_lt {A} (f : A → bool) l x :
  In x l → f x = false → length (List.filter f l) < length l.
Proof.
  induction l as [|y l IH]; simpl; [done|].
  intros [->|Hin] Hx.
  - rewrite Hx. pose proof (List.filter_length_le f l). lia.
  - specialize (IH Hin Hx). destruct (f y); simpl; lia.
Qed.

Lemma filter_filter_keep {A} (f g : A → bool) l :
  (∀ x, f x = true → g x = true) →
  List.filter f (List.filter g l) = List.filter f l.
Proof.
  intros H. induction l as [|x l IH]; simpl; [done|].
  destruct (g x) eqn:G; simpl.
  - by rewrite IH.
  - destruct (f x) eqn:F; [|done]. apply H in F. congruence.
Qed.

Lemma filter_filter_drop {A} (f g : A → bool) l :
  (∀ x, f x = true → g x = false) →
  List.filter f (List.filter g l) = [].
Proof.
  intros H. induction l as [|x l IH]; simpl; [done|].
  destruct (g x) eqn:G; simpl; [|done].
  destruct (f x) eqn:F; [|done]. apply H in F. congruence.
Qed.

Lemma side_of_key p v t :
  py_eq (key_at t) v = true → side p t = dcmp reverse v p.
Proof.
  rewrite py_eq_vcmp. unfold side. intros H.
  apply dcmp_eq_l, dcmp_Eq_vcmp. by destruct (vcmp (key_at t) v).
Qed.

Lemma with_key_buckets p v l :
  with_key v (List.filter (λ t, is_Lt (side p t)) l)
    ++ with_key v (List.filter (λ t, is_Eq (side p t)) l)
    ++ with_key v (List.filter (λ t, is_Gt (side p t)) l)
  = with_key v l.
Proof.
  unfold with_key.
  destruct (dcmp reverse v p) eqn:E.
  - rewrite (filter_filter_drop _ (λ t, is_Lt (side p t))),
      (filter_filter_keep _ (λ t, is_Eq (side p t))),
      (filter_filter_drop _ (λ t, is_Gt (side p t))).
    + by rewrite app_nil_r.
    + intros t Ht. by rewrite (side_of_key _ _ _ Ht), E.
    + intros t Ht. by rewrite (side_of_key _ _ _ Ht), E.
    + intros t Ht. by rewrite (side_of_key _ _ _ Ht), E.
  - rewrite (filter_filter_keep _ (λ t, is_Lt (side p t))),
      (filter_filter_drop _ (λ t, is_Eq (side p t))),
      (filter_filter_drop _ (λ t, is_Gt (side p t))).
    + by rewrite app_nil_r.
    + intros t Ht. by rewrite (side_of_key _ _ _ Ht), E.
    + intros t Ht. by rewrite (side_of_key _ _ _ Ht), E.
    + intros t Ht. by rewrite (side_of_key _ _ _ Ht), E.
  - rewrite (filter_filter_drop _ (λ t, is_Lt (side p t))),
      (filter_filter_drop _ (λ t, is_Eq (side p t))),
      (filter_filter_keep _ (λ t, is_Gt (side p t))).
    + done.
    + intros t Ht. by rewrite (side_of_key _ _ _ Ht), E.
    + intros t Ht. by rewrite (side_of_key _ _ _ Ht), E.
    + intros t Ht. by rewrite (side_of_key _ _ _ Ht), E.
Qed.

Lemma strongly_sorted_app (R : tuple → tuple → Prop) l1 l2 :
  StronglySorted R l1 → StronglySorted R l2 →
  (∀ x y, In x l1 → In y l2 → R x y) →
  StronglySorted R (l1 ++ l2).
Proof.
  intros H1 H2 H. induction H1 as [|a l1 Hs IH Ha]; simpl; [done|].
  constructor.
  - apply IH. intros x y Hx Hy. apply H; [by right|done].
  - apply Forall_app. split; [done|].
    apply List.Forall_forall. intros y Hy. apply H; [by left|done].
Qed.

Lemma in_order_sides p a b :
  (side p a = Lt ∧ side p b ≠ Lt) ∨ (side p a = Eq ∧ side p b ≠ Lt)
  ∨ (side p a ≠ Gt ∧ side p b = Gt) →
  in_order a b.
Proof.
  unfold side, in_order. intros H E.
  assert (Hba : dcmp reverse (key_at b) (key_at a) = Lt).
  { rewrite dcmp_antisym, E. done. }
  destruct H as [[Ha Hb]|[[Ha Hb]|[Ha Hb]]].
  - apply Hb. eapply dcmp_trans; eassumption.
  - apply Hb. by rewrite <- (dcmp_eq_r _ _ _ (key_at b) Ha).
  - destruct (dcmp reverse (key_at a) p) eqn:Ea; [| |done].
    + rewrite (dcmp_eq_r _ _ _ (key_at b) Ea) in Hba.
      rewrite Hb in Hba. done.
    + pose proof (dcmp_trans _ _ _ _ Hba Ea) as Hbp. congruence.
Qed.
Lemma same_kind_trans_r a b c : same_kind a c → same_kind b c → same_kind a b.
Proof. destruct a, b, c; done. Qed.

Lemma keyed_change p q t : same_kind q p → keyed p t → keyed q t.
Proof.
  intros Hq (v & Hv & Hk). exists v. split; [done|].
  eapply same_kind_trans_r; eassumption.
Qed.

Lemma side_pivot t : side (key_at t) t = Eq.
Proof. unfold side. apply dcmp_Eq_vcmp, vcmp_refl. Qed.

Lemma Forall_filter_keep {A} (P : A → Prop) f l :
  Forall P l → Forall P (List.filter f l).
Proof.
  rewrite !List.Forall_forall. intros H x Hx.
  apply List.filter_In in Hx. apply H, Hx.
Qed.

Lemma short_sorted (R : tuple → tuple → Prop) l :
  length l ≤ 1 → StronglySorted R l.
Proof.
  destruct l as [|a [|b l]]; simpl; intros H; try lia;
    repeat constructor.
Qed.

(** Sorting one level: what the recursive calls establish is enough for
    the concatenation. *)
Lemma quick_sort_combine p arr sl sr :
  sl ≡ₚ List.filter (λ t, is_Lt (side p t)) arr →
  sr ≡ₚ List.filter (λ t, is_Gt (side p t)) arr →
  StronglySorted in_order sl → StronglySorted in_order sr →
  (∀ v, with_key v sl = with_key v (List.filter (λ t, is_Lt (side p t)) arr)) →
  (∀ v, with_key v sr = with_key v (List.filter (λ t, is_Gt (side p t)) arr)) →
  let out := sl ++ List.filter (λ t, is_Eq (side p t)) arr ++ sr in
  out ≡ₚ arr ∧ StronglySorted in_order out ∧ ∀ v, with_key v out = with_key v arr.
Proof.
  intros Pl Pr Sl Sr Kl Kr out. subst out.
  assert (Hl : ∀ x, In x sl → side p x = Lt).
  { intros x Hx. eapply Permutation_in in Hx; [|exact Pl].
    apply List.filter_In in Hx as [_ Hx]. by destruct (side p x). }
  assert (Hr : ∀ x, In x sr → side p x = Gt).
  { intros x Hx. eapply Permutation_in in Hx; [|exact Pr].
    apply List.filter_In in Hx as [_ Hx]. by destruct (side p x). }
  assert (Hm : ∀ x, In x (List.filter (λ t, is_Eq (side p t)) arr) →
                    side p x = Eq).
  { intros x Hx. apply List.filter_In in Hx as [_ Hx]. by destruct (side p x). }
  split; [|split].
  - rewrite Pl, Pr. apply three_way_perm.
  - apply strongly_sorted_app; [done| |].
    + apply strongly_sorted_app; [|done|].
      * induction (List.filter (λ t, is_Eq (side p t)) arr) as [|a l IH];
          constructor.
        -- apply IH. intros x Hx. apply Hm. by right.
        -- apply List.Forall_forall. intros y Hy.
           apply (in_order_sides p). right; left.
           rewrite (Hm a), (Hm y); [done|by right|by left].
      * intros x y Hx Hy. apply (in_order_sides p). right; right.
        rewrite (Hm x Hx), (Hr y Hy). done.
    + intros x y Hx Hy. apply (in_order_sides p). left.
      rewrite (Hl x Hx). split; [done|].
      apply in_app_or in Hy as [Hy|Hy].
      * by rewrite (Hm y Hy).
      * by rewrite (Hr y Hy).
  - intros v. unfold with_key in *. rewrite !List.filter_app.
    fold (with_key v sl). fold (with_key v sr). unfold with_key.
    rewrite Kl, Kr. apply with_key_buckets.
Qed.

Lemma quick_sort_rec_step d arr :
  quick_sort_rec (S d) arr key_index reverse =
    if length arr <=? 1 then Ok arr
    else
      pivot ← getitem arr (length arr / 2);
      pivot_value ← getitem pivot key_index;
      b ← partition_loop key_index reverse pivot_value arr;
      sorted_left ← quick_sort_rec d (b_left b) key_index reverse;
      sorted_right ← quick_sort_rec d (b_right b) key_index reverse;
      Ok (sorted_left ++ b_middle b ++ sorted_right).
Proof. reflexivity. Qed.

Lemma quick_sort_rec_spec p0 depth : ∀ arr,
  length arr ≤ depth → Forall (keyed p0) arr →
  ∃ out, quick_sort_rec depth arr key_index reverse = Ok out
         ∧ out ≡ₚ arr ∧ StronglySorted in_order out
         ∧ ∀ v, with_key v out = with_key v arr.
Proof.
  induction depth as [|d IH]; intros arr Hlen Hk.
  - destruct arr; [|simpl in Hlen; lia].
    exists []. repeat split; constructor.
  - rewrite quick_sort_rec_step. destruct (length arr <=? 1) eqn:Hshort.
    + apply Nat.leb_le in Hshort. exists arr.
      split; [done|]. split; [done|]. split; [by apply short_sorted|done].
    + apply Nat.leb_gt in Hshort.
      destruct (lookup_lt_is_Some_2 arr (length arr / 2)) as [pivot Hp].
      { apply Nat.div_lt; lia. }
      assert (Hin : In pivot arr).
      { apply list_elem_of_In, list_elem_of_lookup. eauto. }
      pose proof (proj1 (List.Forall_forall _ _) Hk pivot Hin) as Hpk.
      destruct (keyed_getitem _ _ Hpk) as [Hg Hkind].
      assert (Hgp : getitem arr (length arr / 2) = Ok pivot).
      { unfold getitem. by rewrite Hp. }
      rewrite Hgp. simpl. rewrite Hg. simpl.
      rewrite partition_loop_filter; cycle 1.
      { eapply Forall_impl; [exact Hk|]. intros t. by apply keyed_change. }
      simpl.
      destruct (IH (List.filter (λ t, is_Lt (side (key_at pivot) t)) arr))
        as (sl & -> & Pl & Sl & Kl).
      { apply Nat.lt_succ_r. eapply Nat.lt_le_trans; [|exact Hlen].
        apply (filter_length_lt _ arr pivot Hin). by rewrite side_pivot. }
      { by apply Forall_filter_keep. }
      destruct (IH (List.filter (λ t, is_Gt (side (key_at pivot) t)) arr))
        as (sr & -> & Pr & Sr & Kr).
      { apply Nat.lt_succ_r. eapply Nat.lt_le_trans; [|exact Hlen].
        apply (filter_length_lt _ arr pivot Hin). by rewrite side_pivot. }
      { by apply Forall_filter_keep. }
      simpl. eexists. split; [done|].
      by apply quick_sort_combine.
Qed.
End QuickSort.

(** *** The statement in terms of Python's [<] and [==] *)

Definition has_num_key (key_index : nat) (t : tuple) : Prop :=
  ∃ q, t !! key_index = Some (VNum q).
Definition has_str_key (key_index : nat) (t : tuple) : Prop :=
  ∃ s, t !! key_index = Some (VStr s).

(** Every item has a component [key_index], and these keys are all numbers
    or all strings, so that [<] between two of them does not raise. *)
Definition comparable_keys (key_index : nat) (arr : list tuple) : Prop :=
  Forall (has_num_key key_index) arr ∨ Forall (has_str_key key_index) arr.

(** [a] may stand before [b]: ascending, [b[k] < a[k]] is false;
    descending, [a[k] < b[k]] is false. *)
Definition key_ordered (key_index : nat) (reverse : bool) (a b : tuple) : Prop :=
  ∃ x y, a !! key_index = Some x ∧ b !! key_index = Some y ∧
         (if reverse then py_lt x y else py_lt y x) = Ok false.

(** The items of [l] whose key [==] [v], in the order of [l]. *)
Definition items_with_key (key_index : nat) (v : value) (l : list tuple)
  : list tuple :=
  List.filter (λ t, match t !! key_index with
                    | Some x => py_eq x v
                    | None => false
                    end) l.

Lemma comparable_keys_keyed k arr :
  comparable_keys k arr → ∃ p, Forall (keyed k p) arr.
Proof.
  intros [H|H]; [exists (VNum 0)|exists (VStr "")];
    (eapply Forall_impl; [exact H|]); intros t [x Hx]; eexists; split; eauto;
    done.
Qed.

Lemma in_order_key_ordered k r p a b :
  keyed k p a → keyed k p b → in_order k r a b → key_ordered k r a b.
Proof.
  intros (x & Hx & Kx) (y & Hy & Ky) H.
  exists x, y. split; [done|]. split; [done|].
  unfold in_order, key_at in H. rewrite Hx, Hy in H. simpl in H.
  assert (Hxy : same_kind x y) by (eapply same_kind_trans_r; eassumption).
  assert (Hyx : same_kind y x) by (eapply same_kind_trans_r; eassumption).
  destruct r; simpl in H.
  - rewrite py_lt_vcmp by done. rewrite (vcmp_antisym y x).
    by destruct (vcmp y x).
  - rewrite py_lt_vcmp by done. rewrite (vcmp_antisym x y).
    by destruct (vcmp x y).
Qed.

Lemma strongly_sorted_impl_in {A} (R S : A → A → Prop) l :
  (∀ a b, In a l → In b l → R a b → S a b) →
  StronglySorted R l → StronglySorted S l.
Proof.
  intros H Hs. induction Hs as [|a l Hs IH Ha]; constructor.
  - apply IH. intros x y Hx Hy. apply H; by right.
  - apply List.Forall_forall. intros y Hy.
    apply H; [by left|by right|].
    by apply (proj1 (List.Forall_forall _ _) Ha).
Qed.

Lemma items_with_key_with_key k v l :
  items_with_key k v l = with_key k v l ∨ ¬ Forall (λ t, is_Some (t !! k)) l.
Proof.
  destruct (decide (Forall (λ t, is_Some (t !! k)) l)) as [H|H]; [left|by right].
  apply List.filter_ext_in. intros t Ht.
  apply (proj1 (List.Forall_forall _ _) H) in Ht as [x Hx].
  unfold key_at. by rewrite Hx.
Qed.

Lemma keyed_is_Some k p l :
  Forall (keyed k p) l → Forall (λ t, is_Some (t !! k)) l.
Proof.
  intros H. eapply Forall_impl; [exact H|]. intros t (v & Hv & _). by exists v.
Qed.

Lemma quick_sort_short (arr : list tuple) (key_index : nat) (reverse : bool) :
  length arr ≤ 1 →
  CustomAlgorithms.quick_sort arr key_index reverse = Ok arr.
Proof.
  intros H. unfold CustomAlgorithms.quick_sort.
  destruct arr as [|a [|b l]]; simpl in *; try done; lia.
Qed.

Lemma quick_sort_sorts (arr : list tuple) (key_index : nat)
    (reverse : bool) :
  comparable_keys key_index arr →
  ∃ out, CustomAlgorithms.quick_sort arr key_index reverse = Ok out
         ∧ out ≡ₚ arr
         ∧ StronglySorted (key_ordered key_index reverse) out
         ∧ ∀ v, items_with_key key_index v out = items_with_key key_index v arr.
Proof.
  - intros Hc. apply comparable_keys_keyed in Hc as [p Hp].
    destruct (quick_sort_rec_spec key_index reverse p (length arr) arr)
      as (out & Hout & Hperm & Hsorted & Hstable); [done|done|].
    exists out. split; [done|]. split; [done|].
    assert (Hpo : Forall (keyed key_index p) out) by by rewrite Hperm.
    split.
    + eapply strongly_sorted_impl_in; [|exact Hsorted].
      intros a b Ha Hb. apply (in_order_key_ordered _ _ p).
      * by apply (proj1 (List.Forall_forall _ _) Hpo).
      * by apply (proj1 (List.Forall_forall _ _) Hpo).
    + intros v.
      destruct (items_with_key_with_key key_index v out) as [->|N];
        [|destruct N; by eapply keyed_is_Some].
      destruct (items_with_key_with_key key_index v arr) as [->|N];
        [|destruct N; by eapply keyed_is_Some].
      apply Hstable.
Qed.

(** C3. [quick_sort] returns a list of 0 or 1 items unchanged; on a list
    whose keys are comparable it returns a permutation of the input that is
    ordered by the key in the requested direction and stable: for every key
    value, the items carrying it come in their input order. *)
Theorem quick_sort_stable_sorted (arr : list tuple) (key_index : nat)
    (reverse : bool) :
  (length arr ≤ 1 →
   CustomAlgorithms.quick_sort arr key_index reverse = Ok arr) ∧
  (comparable_keys key_index arr →
   ∃ out, CustomAlgorithms.quick_sort arr key_index reverse = Ok out
          ∧ out ≡ₚ arr
          ∧ StronglySorted (key_ordered key_index reverse) out
          ∧ ∀ v, items_with_key key_index v out = items_with_key key_index v arr).
Proof.
  split; [apply quick_sort_short|apply quick_sort_sorts].
Qed.

(** The example of the specification: ties keep their input order. *)
Lemma quick_sort_stable_sorted_witness :
  ∃ out,
    CustomAlgorithms.quick_sort
      [[VNum 5; VStr "a"]; [VNum 5; VStr "b"]; [VNum 3; VStr "c"]] 0 false
    = Ok out
    ∧ out ≡ₚ [[VNum 5; VStr "a"]; [VNum 5; VStr "b"]; [VNum 3; VStr "c"]]
    ∧ StronglySorted (key_ordered 0 false) out
    ∧ ∀ v, items_with_key 0 v out
           = items_with_key 0 v
               [[VNum 5; VStr "a"]; [VNum 5; VStr "b"]; [VNum 3; VStr "c"]].
Proof.
  apply (proj2 (quick_sort_stable_sorted _ 0 false)).
  left. repeat constructor; eexists; reflexivity.
Defined.

(** ** calculate_percentiles *)

Section Percentiles.
Import CustomAlgorithms.

(** The first component of a pair built by [enumerate_pairs]. *)
Definition first_num (t : tuple) : Q :=
  match t with
  | VNum q :: _ => q
  | _ => 0%Q
  end.

Lemma enumerate_pairs_keys i values :
  Forall (has_num_key 0) (enumerate_pairs i values).
Proof.
  revert i. induction values as [|v values IH]; intros i; simpl;
    constructor; [by exists v|apply IH].
Qed.

Lemma enumerate_pairs_first i values :
  first_num <$> enumerate_pairs i values = values.
Proof.
  revert i. induction values as [|v values IH]; intros i; simpl; [done|].
  f_equal. apply IH.
Qed.

Lemma first_components_map ts :
  Forall (has_num_key 0) ts → first_components ts = Ok (first_num <$> ts).
Proof.
  induction 1 as [|t ts [q Hq] _ IH]; [done|].
  simpl. destruct t as [|v t]; [done|]. simpl in Hq.
  injection Hq as ->. simpl. by rewrite IH.
Qed.

Lemma Qltb_false_le x y : Qltb y x = false → (x <= y)%Q.
Proof.
  unfold Qltb. intros H. apply Qnot_lt_le. intros Hlt.
  pose proof (proj1 (Qlt_alt y x) Hlt) as E. by rewrite E in H.
Qed.

Lemma Qltb_true_lt x y : Qltb x y = true ↔ (x < y)%Q.
Proof.
  unfold Qltb. rewrite Qlt_alt. destruct (x ?= y)%Q; split; congruence.
Qed.

Lemma key_ordered_first a b :
  has_num_key 0 a → has_num_key 0 b → key_ordered 0 false a b →
  (first_num a <= first_num b)%Q.
Proof.
  intros [x Hx] [y Hy] (x' & y' & Hx' & Hy' & H).
  destruct a as [|? a], b as [|? b]; simplify_eq/=.
  by apply Qltb_false_le.
Qed.

(** The sorted copy made by [calculate_percentiles]. *)
Lemma sorted_copy values :
  ∃ sorted_tuples,
    quick_sort (enumerate_pairs 0 values) 0 false = Ok sorted_tuples
    ∧ first_components sorted_tuples = Ok (first_num <$> sorted_tuples)
    ∧ first_num <$> sorted_tuples ≡ₚ values
    ∧ StronglySorted Qle (first_num <$> sorted_tuples).
Proof.
  pose proof (enumerate_pairs_keys 0 values) as Hk.
  destruct (quick_sort_sorts (enumerate_pairs 0 values) 0 false)
    as (out & Hout & Hperm & Hsorted & _); [by left|].
  assert (Hko : Forall (has_num_key 0) out) by by rewrite Hperm.
  exists out. split; [done|]. split; [by apply first_components_map|].
  split.
  - rewrite Hperm. by rewrite enumerate_pairs_first.
  - clear Hout Hperm. induction Hsorted as [|a l Hs IH Ha]; simpl;
      constructor.
    + apply IH. by inversion Hko.
    + inversion Hko as [|? ? Hka Hkl]; subst.
      apply Forall_fmap. apply List.Forall_forall. intros b Hb.
      apply key_ordered_first; [done| |].
      * by apply (proj1 (List.Forall_forall _ _) Hkl).
      * by apply (proj1 (List.Forall_forall _ _) Ha).
Qed.

(** The fractional rank [(p / 100.0) * (n - 1)]. *)
Definition rank (p : Z) (n : nat) : Q :=
  ((inject_Z p / 100) * inject_Z (Z.of_nat n - 1))%Q.

Lemma int_of_float_floor x : (0 <= x)%Q → int_of_float x = Qfloor x.
Proof.
  destruct x as [n d]. unfold int_of_float, Qfloor, Qle. simpl.
  intros H. apply Z.quot_div_nonneg; lia.
Qed.

Lemma fraction_bounds p :
  (0 < p < 100)%Z → (0 < inject_Z p / 100 ∧ inject_Z p / 100 < 1)%Q.
Proof.
  intros [H0 H1]. split.
  - apply Qlt_shift_div_l; [done|]. rewrite Qmult_0_l.
    change 0%Q with (inject_Z 0). by rewrite <- Zlt_Qlt.
  - apply Qlt_shift_div_r; [done|]. rewrite Qmult_1_l.
    change 100%Q with (inject_Z 100). by rewrite <- Zlt_Qlt.
Qed.

Lemma rank_bounds p n :
  (0 < p < 100)%Z → 1 ≤ n →
  (0 <= rank p n ∧ rank p n <= inject_Z (Z.of_nat n - 1))%Q.
Proof.
  intros Hp Hn. destruct (fraction_bounds p Hp) as [Ha0 Ha1].
  assert (Hm : (0 <= inject_Z (Z.of_nat n - 1))%Q).
  { change 0%Q with (inject_Z 0). rewrite <- Zle_Qle. lia. }
  unfold rank. split.
  - apply Qmult_le_0_compat; [by apply Qlt_le_weak|done].
  - rewrite <- (Qmult_1_l (inject_Z (Z.of_nat n - 1))) at 2.
    apply Qmult_le_compat_r; [by apply Qlt_le_weak|done].
Qed.

Lemma floor_ceiling_cases x :
  (Qceiling x = Qfloor x ∧ (x == inject_Z (Qfloor x))%Q)
  ∨ Qceiling x = (Qfloor x + 1)%Z.
Proof.
  pose proof (Qfloor_le x) as H1. pose proof (Qlt_floor x) as H2.
  pose proof (Qle_ceiling x) as H3. pose proof (Qceiling_lt x) as H4.
  assert (Hlo : (Qfloor x <= Qceiling x)%Z).
  { rewrite Zle_Qle. by eapply Qle_trans. }
  assert (Hhi : (Qceiling x - 1 < Qfloor x + 1)%Z).
  { rewrite Zlt_Qlt. by eapply Qlt_trans. }
  destruct (decide (Qceiling x = Qfloor x)) as [E|N]; [left|right; lia].
  split; [done|]. apply Qle_antisym; [|done]. by rewrite <- E.
Qed.

Lemma py_index_nat {A} (l : list A) (i : Z) x :
  (0 <= i)%Z → l !! Z.to_nat i = Some x → py_index l i = Ok x.
Proof.
  intros Hi Hx. unfold py_index, getitem.
  destruct (0 <=? i)%Z eqn:E; [by rewrite Hx|lia].
Qed.

Lemma py_index_last {A} (l : list A) x :
  last l = Some x → py_index l (-1) = Ok x.
Proof.
  intros Hx. unfold py_index, getitem. simpl.
  rewrite last_lookup in Hx.
  assert (Hn : l ≠ []) by (intros ->; done).
  assert (0 < length l) by (destruct l; simpl; [done|lia]).
  destruct (- Z.of_nat (length l) <=? -1)%Z eqn:E; [|lia].
  replace (Z.to_nat (Z.of_nat (length l) + -1)) with (pred (length l)) by lia.
  by rewrite Hx.
Qed.

(** The value computed for a percentile strictly between 0 and 100. *)
Lemma percentile_value_interp sorted_values p :
  sorted_values ≠ [] → (0 < p < 100)%Z →
  let position := rank p (length sorted_values) in
  let weight := (position - inject_Z (Qfloor position))%Q in
  ∃ x lo hi,
    percentile_value sorted_values p = Ok x
    ∧ sorted_values !! Z.to_nat (Qfloor position) = Some lo
    ∧ sorted_values !! Z.to_nat (Qceiling position) = Some hi
    ∧ (x == lo * (1 - weight) + hi * weight)%Q.
Proof.
  intros Hne Hp position weight.
  assert (Hn : 1 ≤ length sorted_values).
  { destruct sorted_values; simpl; [done|lia]. }
  destruct (rank_bounds p _ Hp Hn) as [Hr0 Hr1]. fold position in Hr0, Hr1.
  assert (Hf0 : (0 <= Qfloor position)%Z).
  { change 0%Z with (Qfloor (inject_Z 0)). rewrite Qfloor_Z.
    rewrite <- (Qfloor_Z 0). by apply Qfloor_resp_le. }
  assert (Hf1 : (Qfloor position <= Z.of_nat (length sorted_values) - 1)%Z).
  { rewrite <- (Qfloor_Z (Z.of_nat (length sorted_values) - 1)).
    by apply Qfloor_resp_le. }
  assert (Hc1 : (Qceiling position <= Z.of_nat (length sorted_values) - 1)%Z).
  { rewrite <- (Qceiling_Z (Z.of_nat (length sorted_values) - 1)).
    by apply Qceiling_resp_le. }
  destruct (lookup_lt_is_Some_2 sorted_values (Z.to_nat (Qfloor position)))
    as [lo Hlo]; [lia|].
  set (upper := Z.min (Qfloor position + 1)
                      (Z.of_nat (length sorted_values) - 1)).
  destruct (lookup_lt_is_Some_2 sorted_values (Z.to_nat upper))
    as [hi Hhi]; [lia|].
  assert (Hval : percentile_value sorted_values p
                 = Ok (lo * (1 - weight) + hi * weight)%Q).
  { unfold percentile_value.
    destruct (p =? 0)%Z eqn:E0; [lia|]. destruct (p =? 100)%Z eqn:E1; [lia|].
    fold (rank p (length sorted_values)). fold position.
    rewrite (int_of_float_floor position Hr0).
    rewrite (py_index_nat _ _ lo Hf0 Hlo). simpl.
    fold upper. rewrite (py_index_nat _ upper hi); [done|lia|done]. }
  destruct (floor_ceiling_cases position) as [[Ec Epos]|Ec].
  - exists (lo * (1 - weight) + hi * weight)%Q, lo, lo.
    rewrite Ec. repeat split; try done.
    assert (Hw : (weight == 0)%Q) by (unfold weight; rewrite <- Epos; ring).
    rewrite Hw. ring.
  - exists (lo * (1 - weight) + hi * weight)%Q, lo, hi.
    repeat split; try done.
    rewrite Ec. replace (Qfloor position + 1)%Z with upper; [done|].
    unfold upper. lia.
Qed.

Lemma strongly_sorted_head_min (l : list Q) m :
  StronglySorted Qle l → l !! 0 = Some m → ∀ v, In v l → (m <= v)%Q.
Proof.
  intros Hs Hm v Hv. destruct l as [|a l]; [done|].
  injection Hm as ->. inversion Hs as [|? ? _ Ha]; subst.
  destruct Hv as [->|Hv]; [apply Qle_refl|].
  by apply (proj1 (List.Forall_forall _ _) Ha).
Qed.

Lemma strongly_sorted_last_max (l : list Q) m :
  StronglySorted Qle l → last l = Some m → ∀ v, In v l → (v <= m)%Q.
Proof.
  intros Hs. induction Hs as [|a l Hs IH Ha]; intros Hm v Hv; [done|].
  destruct l as [|b l].
  - injection Hm as ->. destruct Hv as [->|[]]. apply Qle_refl.
  - change (last (b :: l) = Some m) in Hm.
    destruct Hv as [->|Hv]; [|by apply IH].
    apply (proj1 (List.Forall_forall _ _) Ha).
    apply list_elem_of_In. eapply list_elem_of_lookup_2.
    rewrite last_lookup in Hm. exact Hm.
Qed.

Lemma percentile_value_total sorted_values p :
  sorted_values ≠ [] → (0 <= p <= 100)%Z →
  ∃ x, percentile_value sorted_values p = Ok x.
Proof.
  intros Hne Hp.
  destruct (decide (p = 0%Z)) as [->|N0].
  { destruct sorted_values as [|a l]; [done|]. by exists a. }
  destruct (decide (p = 100%Z)) as [->|N1].
  { destruct (last sorted_values) as [m|] eqn:Hm.
    - exists m. unfold percentile_value. simpl. by apply py_index_last.
    - apply last_None in Hm. done. }
  destruct (percentile_value_interp sorted_values p Hne) as (x & _ & _ & H & _);
    [lia|]. by exists x.
Qed.

Lemma percentile_loop_spec sorted_values percentiles :
  sorted_values ≠ [] → ∀ res,
  ∃ res', percentile_loop sorted_values percentiles res = Ok res'
    ∧ (∀ p, In p percentiles → (0 <= p <= 100)%Z →
         ∃ x, percentile_value sorted_values p = Ok x ∧ res' !! p = Some x)
    ∧ (∀ p, ¬ In p percentiles → res' !! p = res !! p).
Proof.
  intros Hne. induction percentiles as [|p0 ps IH]; intros res.
  { exists res. split; [done|]. split; [intros ? []|done]. }
  simpl. destruct ((p0 <? 0)%Z || (100 <? p0)%Z) eqn:Hout.
  - destruct (IH res) as (res' & -> & Hin & Hnot).
    exists res'. split; [done|]. split.
    + intros p [<-|Hp] Hr; [|by apply Hin].
      apply orb_true_iff in Hout. lia.
    + intros p Hp. apply Hnot. tauto.
  - apply orb_false_iff in Hout as [H0 H1].
    destruct (percentile_value_total sorted_values p0 Hne) as [x0 Hx0]; [lia|].
    rewrite Hx0. simpl.
    destruct (IH (<[p0 := x0]> res)) as (res' & -> & Hin & Hnot).
    exists res'. split; [done|]. split.
    + intros p [<-|Hp] Hr; [|by apply Hin].
      destruct (List.in_dec Z.eq_dec p0 ps) as [Hp|Hp]; [by apply Hin|].
      exists x0. split; [done|]. rewrite Hnot by done.
      apply lookup_insert_eq.
    + intros p Hp. rewrite Hnot by tauto.
      apply lookup_insert_ne. tauto.
Qed.

Lemma zero_sentinel_lookup (percentiles : list Z) p :
  In p percentiles →
  (list_to_map ((λ p, (p, 0%Q)) <$> percentiles) : gmap Z Q) !! p = Some 0%Q.
Proof.
  induction percentiles as [|p0 ps IH]; simpl; [done|].
  intros Hp. destruct (decide (p0 = p)) as [->|N].
  - apply lookup_insert_eq.
  - rewrite lookup_insert_ne by done. apply IH. tauto.
Qed.

(** What [calculate_percentiles] returns on a non-empty list. *)
Lemma calculate_percentiles_nonempty values percentiles :
  values ≠ [] →
  ∃ res sorted_values,
    calculate_percentiles values percentiles = Ok res
    ∧ sorted_values ≡ₚ values
    ∧ StronglySorted Qle sorted_values
    ∧ ∀ p, In p percentiles → (0 <= p <= 100)%Z →
        ∃ x, percentile_value sorted_values p = Ok x ∧ res !! p = Some x.
Proof.
  intros Hne.
  destruct (sorted_copy values) as (ts & Hts & Hfc & Hperm & Hsorted).
  assert (Hne' : first_num <$> ts ≠ []).
  { intros E. rewrite E in Hperm. apply Permutation_nil in Hperm. done. }
  destruct (percentile_loop_spec (first_num <$> ts) percentiles Hne' ∅)
    as (res & Hres & Hin & _).
  exists res, (first_num <$> ts).
  split; [|done].
  unfold calculate_percentiles. destruct values; [done|].
  rewrite Hts. simpl. rewrite Hfc. simpl. exact Hres.
Qed.
End Percentiles.

(** C2. On the empty list every requested percentile is the sentinel 0.
    On a non-empty list, percentile 0 is the minimum, percentile 100 the
    maximum, and a percentile strictly in between is the interpolation
    between the elements of the ascending sorted values at the floor and
    the ceiling of the rank [(p / 100) * (n - 1)], weighted by the
    fractional part of the rank.  In particular the 50th and the 25th
    percentile of 1..10 are 5.5 and 3.25. *)
Theorem calculate_percentiles_spec :
  (∀ percentiles, ∃ res,
      CustomAlgorithms.calculate_percentiles [] percentiles = Ok res
      ∧ ∀ p, In p percentiles → res !! p = Some 0%Q)
  ∧ (∀ values percentiles, values ≠ [] →
      ∃ res sorted_values,
        CustomAlgorithms.calculate_percentiles values percentiles = Ok res
        ∧ sorted_values ≡ₚ values
        ∧ StronglySorted Qle sorted_values
        ∧ ∀ p, In p percentiles →
            (p = 0%Z → ∃ m, res !! p = Some m ∧ In m values
                            ∧ ∀ v, In v values → (m <= v)%Q)
            ∧ (p = 100%Z → ∃ m, res !! p = Some m ∧ In m values
                                ∧ ∀ v, In v values → (v <= m)%Q)
            ∧ ((0 < p < 100)%Z →
               let position := rank p (length values) in
               let weight := (position - inject_Z (Qfloor position))%Q in
               ∃ x lo hi,
                 res !! p = Some x
                 ∧ sorted_values !! Z.to_nat (Qfloor position) = Some lo
                 ∧ sorted_values !! Z.to_nat (Qceiling position) = Some hi
                 ∧ (x == lo * (1 - weight) + hi * weight)%Q))
  ∧ (∃ res x y,
        CustomAlgorithms.calculate_percentiles
          [1; 2; 3; 4; 5; 6; 7; 8; 9; 10]%Q [50; 25]%Z = Ok res
        ∧ res !! 50%Z = Some x ∧ (x == 11 # 2)%Q
        ∧ res !! 25%Z = Some y ∧ (y == 13 # 4)%Q).
Proof.
  split; [|split].
  - intros ps. eexists. split; [reflexivity|].
    intros p Hp. by apply zero_sentinel_lookup.
  - intros values ps Hne.
    destruct (calculate_percentiles_nonempty values ps Hne)
      as (res & sorted & Hres & Hperm & Hsorted & Hin).
    exists res, sorted. do 3 (split; [done|]).
    assert (Hsne : sorted ≠ []).
    { intros ->. apply Permutation_nil in Hperm. done. }
    assert (Hmem : ∀ v, In v values ↔ In v sorted).
    { intros v. split; apply Permutation_in; [by symmetry|done]. }
    intros p Hp. split; [|split].
    + intros ->. destruct (Hin 0%Z Hp) as (x & Hx & Hres0); [lia|].
      exists x. split; [done|].
      assert (H0 : sorted !! 0 = Some x).
      { destruct sorted; [done|]. by injection Hx as ->. }
      split.
      * apply Hmem, list_elem_of_In. by eapply list_elem_of_lookup_2.
      * intros v Hv. apply (strongly_sorted_head_min sorted); [done|done|].
        by apply Hmem.
    + intros ->. destruct (Hin 100%Z Hp) as (x & Hx & Hres100); [lia|].
      exists x. split; [done|].
      assert (Hl : last sorted = Some x).
      { destruct (last sorted) as [m|] eqn:Hm.
        - unfold CustomAlgorithms.percentile_value in Hx. simpl in Hx.
          rewrite (py_index_last _ _ Hm) in Hx. congruence.
        - by apply last_None in Hm. }
      split.
      * apply Hmem, list_elem_of_In. rewrite last_lookup in Hl.
        by eapply list_elem_of_lookup_2.
      * intros v Hv. apply (strongly_sorted_last_max sorted); [done|done|].
        by apply Hmem.
    + intros Hr position weight.
      destruct (Hin p Hp) as (x & Hx & Hresp); [lia|].
      destruct (percentile_value_interp sorted p Hsne Hr)
        as (x' & lo & hi & Hx' & Hlo & Hhi & Heq).
      assert (x' = x) as -> by congruence.
      rewrite (Permutation_length Hperm) in Hlo, Hhi, Heq.
      by exists x, lo, hi.
  - vm_compute. do 3 eexists. repeat split.
Qed.

Lemma calculate_percentiles_spec_witness :
  ∃ res sorted_values,
    CustomAlgorithms.calculate_percentiles [3; 1; 2]%Q [0; 50; 100]%Z = Ok res
    ∧ sorted_values ≡ₚ [3; 1; 2]%Q
    ∧ StronglySorted Qle sorted_values.
Proof.
  destruct (proj1 (proj2 calculate_percentiles_spec)
              [3; 1; 2]%Q [0; 50; 100]%Z ltac:(discriminate))
    as (res & sorted_values & H1 & H2 & H3 & _).
  by exists res, sorted_values.
Defined.

(** ** detect_outliers_iqr *)

Section IQR.
Import CustomAlgorithms.

Lemma outlier_scan_spec lower_bound upper_bound values : ∀ start i,
  In i (outlier_scan start lower_bound upper_bound values) ↔
  ∃ v, (start <= i)%Z ∧ values !! Z.to_nat (i - start) = Some v
       ∧ ((v < lower_bound)%Q ∨ (upper_bound < v)%Q).
Proof.
  induction values as [|v0 values IH]; intros start i; simpl.
  { split; [done|]. by intros (v & _ & H & _). }
  assert (Hhead : Qltb v0 lower_bound || Qltb upper_bound v0 = true
                  ↔ (v0 < lower_bound)%Q ∨ (upper_bound < v0)%Q).
  { rewrite orb_true_iff, !Qltb_true_lt. done. }
  assert (Htail : In i (outlier_scan (start + 1) lower_bound upper_bound values)
                  ↔ ∃ v, (start + 1 <= i)%Z
                         ∧ (v0 :: values) !! Z.to_nat (i - start) = Some v
                         ∧ ((v < lower_bound)%Q ∨ (upper_bound < v)%Q)).
  { rewrite IH. split; intros (v & Hi & Hv & Hout); exists v;
      (split; [done|]); (split; [|done]).
    - replace (Z.to_nat (i - start)) with (S (Z.to_nat (i - (start + 1))))
        by lia. done.
    - replace (Z.to_nat (i - start)) with (S (Z.to_nat (i - (start + 1))))
        in Hv by lia. done. }
  destruct (Qltb v0 lower_bound || Qltb upper_bound v0) eqn:E.
  - simpl. rewrite Htail. split.
    + intros [<-|(v & Hi & Hv & Hout)].
      * exists v0. rewrite Z.sub_diag. split; [done|]. split; [done|].
        by apply Hhead.
      * exists v. split; [lia|done].
    + intros (v & Hi & Hv & Hout).
      destruct (decide (i = start)) as [->|N]; [by left|right].
      exists v. split; [lia|done].
  - rewrite Htail. split.
    + intros (v & Hi & Hv & Hout). exists v. split; [lia|done].
    + intros (v & Hi & Hv & Hout). exists v. split; [|done].
      destruct (decide (i = start)) as [->|N]; [|lia].
      rewrite Z.sub_diag in Hv. injection Hv as ->.
      apply Hhead in Hout. congruence.
Qed.

Lemma detect_outliers_iqr_long values multiplier :
  4 ≤ length values →
  ∃ percentiles q1 q3,
    calculate_percentiles values [25; 75]%Z = Ok percentiles
    ∧ percentiles !! 25%Z = Some q1 ∧ percentiles !! 75%Z = Some q3
    ∧ let iqr := (q3 - q1)%Q in
      let lower_bound := (q1 - multiplier * iqr)%Q in
      let upper_bound := (q3 + multiplier * iqr)%Q in
      let outlier_indices := outlier_scan 0 lower_bound upper_bound values in
      detect_outliers_iqr values multiplier =
        Ok (outlier_indices,
            <["outlier_count" := inject_Z (Z.of_nat (length outlier_indices))]>
            (<["upper_bound" := upper_bound]>
            (<["lower_bound" := lower_bound]>
            (<["iqr" := iqr]> (<["q3" := q3]> (<["q1" := q1]> ∅)))))).
Proof.
  intros Hlen.
  assert (Hne : values ≠ []) by (intros ->; simpl in Hlen; lia).
  destruct (calculate_percentiles_nonempty values [25; 75]%Z Hne)
    as (ps & sorted & Hps & _ & _ & Hin).
  destruct (Hin 25%Z) as (q1 & _ & Hq1); [simpl; tauto|lia|].
  destruct (Hin 75%Z) as (q3 & _ & Hq3); [simpl; tauto|lia|].
  exists ps, q1, q3. do 3 (split; [done|]).
  unfold detect_outliers_iqr.
  destruct (length values <? 4) eqn:E; [apply Nat.ltb_lt in E; lia|].
  rewrite Hps. simpl. unfold dict_get. rewrite Hq1. simpl.
  rewrite Hq3. simpl. done.
Qed.
End IQR.

(** C5. With fewer than four values [detect_outliers_iqr] returns no
    outliers and no statistics.  Otherwise the statistics hold
    Q1 = Percentile(25), Q3 = Percentile(75), IQR = Q3 - Q1 and the bounds
    Q1 - m * IQR and Q3 + m * IQR, and an index is reported exactly when its
    value lies strictly outside the bounds: every index that is not
    reported has its value within them. *)
Theorem detect_outliers_iqr_spec (values : list Q) (multiplier : Q) :
  (length values < 4 →
   CustomAlgorithms.detect_outliers_iqr values multiplier = Ok ([], ∅))
  ∧ (4 ≤ length values →
     ∃ percentiles q1 q3 outlier_indices stats,
       CustomAlgorithms.calculate_percentiles values [25; 75]%Z = Ok percentiles
       ∧ percentiles !! 25%Z = Some q1 ∧ percentiles !! 75%Z = Some q3
       ∧ CustomAlgorithms.detect_outliers_iqr values multiplier
         = Ok (outlier_indices, stats)
       ∧ let iqr := (q3 - q1)%Q in
         let lower_bound := (q1 - multiplier * iqr)%Q in
         let upper_bound := (q3 + multiplier * iqr)%Q in
         stats !! "q1" = Some q1 ∧ stats !! "q3" = Some q3
         ∧ stats !! "iqr" = Some iqr
         ∧ stats !! "lower_bound" = Some lower_bound
         ∧ stats !! "upper_bound" = Some upper_bound
         ∧ (∀ i, In i outlier_indices → (0 <= i < Z.of_nat (length values))%Z)
         ∧ (∀ (i : nat) v, values !! i = Some v →
              (In (Z.of_nat i) outlier_indices
               ↔ (v < lower_bound)%Q ∨ (upper_bound < v)%Q)
              ∧ (¬ In (Z.of_nat i) outlier_indices
                 ↔ (lower_bound <= v)%Q ∧ (v <= upper_bound)%Q))).
Proof.
  split.
  - intros H. unfold CustomAlgorithms.detect_outliers_iqr.
    destruct (length values <? 4) eqn:E; [done|]. apply Nat.ltb_ge in E. lia.
  - intros H.
    destruct (detect_outliers_iqr_long values multiplier H)
      as (ps & q1 & q3 & Hps & Hq1 & Hq3 & Hres).
    eexists ps, q1, q3, _, _. do 3 (split; [done|]).
    split; [exact Hres|]. simpl.
    do 5 (split; [by simplify_map_eq|]).
    split.
    + intros i Hi. apply outlier_scan_spec in Hi as (v & Hi & Hv & _).
      rewrite Z.sub_0_r in Hv. apply lookup_lt_Some in Hv. lia.
    + intros i v Hv.
      assert (Hiff : In (Z.of_nat i) (CustomAlgorithms.outlier_scan 0
                             (q1 - multiplier * (q3 - q1))
                             (q3 + multiplier * (q3 - q1)) values)
                     ↔ (v < q1 - multiplier * (q3 - q1))%Q
                       ∨ (q3 + multiplier * (q3 - q1) < v)%Q).
      { rewrite outlier_scan_spec. rewrite Z.sub_0_r, Nat2Z.id. split.
        - intros (v' & _ & Hv' & Hout). by simplify_eq.
        - intros Hout. exists v. split; [lia|done]. }
      split; [exact Hiff|]. rewrite Hiff. split.
      * intros Hn. split; apply Qnot_lt_le; tauto.
      * intros [H1 H2] [H3|H3]; by eapply Qlt_not_le.
Qed.

Lemma detect_outliers_iqr_spec_witness :
  CustomAlgorithms.detect_outliers_iqr [1; 2; 3]%Q 2 = Ok ([], ∅)
  ∧ ∃ q1 q3 outlier_indices stats,
      CustomAlgorithms.detect_outliers_iqr [10; 12; 14; 16; 100]%Q 2
      = Ok (outlier_indices, stats)
      ∧ (q1 == 12)%Q ∧ (q3 == 16)%Q
      ∧ stats !! "lower_bound" = Some (q1 - 2 * (q3 - q1))%Q
      ∧ stats !! "upper_bound" = Some (q3 + 2 * (q3 - q1))%Q
      ∧ In 4%Z outlier_indices ∧ ¬ In 3%Z outlier_indices.
Proof.
  split.
  - apply (proj1 (detect_outliers_iqr_spec [1; 2; 3]%Q 2)). simpl. lia.
  - destruct (proj2 (detect_outliers_iqr_spec [10; 12; 14; 16; 100]%Q 2))
      as (ps & q1 & q3 & idx & stats & Hps & Hq1 & Hq3 & Hrun & Hs).
    { simpl. lia. }
    vm_compute in Hps. injection Hps as <-.
    vm_compute in Hq1. injection Hq1 as <-.
    vm_compute in Hq3. injection Hq3 as <-.
    cbv zeta in Hs.
    destruct Hs as (_ & _ & _ & Hlower & Hupper & _ & Hidx).
    match type of Hlower with
    | _ = Some (?a - _ * (?b - _))%Q => exists a, b, idx, stats
    end.
    split; [exact Hrun|].
    split; [vm_compute; reflexivity|]. split; [vm_compute; reflexivity|].
    split; [exact Hlower|]. split; [exact Hupper|]. split.
    + apply (proj2 (proj1 (Hidx 4 100%Q eq_refl))). right.
      vm_compute. reflexivity.
    + apply (proj2 (proj2 (Hidx 3 16%Q eq_refl))). split; vm_compute; discriminate.
Defined.

(** * calculate_distance: the haversine formula

    The formula needs sine, cosine, arcsine and square root, so this part
    of the library is embedded over the real numbers. *)

Module Haversine.
Local Open Scope R_scope.

(** [math.radians]. *)
Definition radians (x : R) : R := x * PI / 180.

(** [math.sqrt] raises on a negative argument. *)
Definition math_sqrt (x : R) : result R :=
  if Rle_dec 0 x then Ok (sqrt x) else Raise ValueError.

(** [math.asin] raises outside of [-1, 1]. *)
Definition math_asin (x : R) : result R :=
  if Rle_dec (-1) x
  then if Rle_dec x 1 then Ok (asin x) else Raise ValueError
  else Raise ValueError.

Definition earth_radius_km : R := 6371.

Definition calculate_distance (lat1 lon1 lat2 lon2 : R) : result R :=
  let lat1_rad := radians lat1 in
  let lon1_rad := radians lon1 in
  let lat2_rad := radians lat2 in
  let lon2_rad := radians lon2 in
  let dlat := lat2_rad - lat1_rad in
  let dlon := lon2_rad - lon1_rad in
  let a := sin (dlat / 2) ^ 2
           + cos lat1_rad * cos lat2_rad * sin (dlon / 2) ^ 2 in
  r ← math_sqrt a;
  s ← math_asin r;
  let c := 2 * s in
  Ok (earth_radius_km * c).

(** The quantity under the square root. *)
Definition haversine_a (lat1 lon1 lat2 lon2 : R) : R :=
  sin ((radians lat2 - radians lat1) / 2) ^ 2
  + cos (radians lat1) * cos (radians lat2)
    * sin ((radians lon2 - radians lon1) / 2) ^ 2.

Lemma calculate_distance_a lat1 lon1 lat2 lon2 :
  calculate_distance lat1 lon1 lat2 lon2 =
    r ← math_sqrt (haversine_a lat1 lon1 lat2 lon2);
    s ← math_asin r;
    Ok (earth_radius_km * (2 * s)).
Proof. reflexivity. Qed.

Lemma sin_half_sq_sym x y : sin ((x - y) / 2) ^ 2 = sin ((y - x) / 2) ^ 2.
Proof.
  replace ((x - y) / 2) with (- ((y - x) / 2)) by lra.
  rewrite sin_neg. ring.
Qed.

Lemma haversine_a_sym lat1 lon1 lat2 lon2 :
  haversine_a lat1 lon1 lat2 lon2 = haversine_a lat2 lon2 lat1 lon1.
Proof.
  unfold haversine_a.
  rewrite (sin_half_sq_sym (radians lat2)), (sin_half_sq_sym (radians lon2)).
  ring.
Qed.

Lemma haversine_a_same lat lon : haversine_a lat lon lat lon = 0.
Proof.
  unfold haversine_a.
  replace ((radians lat - radians lat) / 2) with 0 by lra.
  replace ((radians lon - radians lon) / 2) with 0 by lra.
  rewrite sin_0. ring.
Qed.

Lemma sin_half_sq x : sin (x / 2) ^ 2 = (1 - cos x) / 2.
Proof.
  replace x with (2 * (x / 2)) at 2 by lra.
  rewrite cos_2a_sin. lra.
Qed.

Lemma unit_products_bound c1 s1 c2 s2 u :
  c1 * c1 + s1 * s1 = 1 → c2 * c2 + s2 * s2 = 1 → -1 <= u <= 1 →
  -1 <= s1 * s2 + c1 * c2 * u <= 1.
Proof.
  intros H1 H2 [Hu0 Hu1].
  pose proof (Rle_0_sqr (s1 - s2)) as Sm. pose proof (Rle_0_sqr (s1 + s2)) as Sp.
  pose proof (Rle_0_sqr (c1 - c2)) as Cm. pose proof (Rle_0_sqr (c1 + c2)) as Cp.
  unfold Rsqr in Sm, Sp, Cm, Cp.
  assert (A : 0 <= 1 - s1 * s2 - c1 * c2) by lra.
  assert (B : 0 <= 1 - s1 * s2 + c1 * c2) by lra.
  assert (C : 0 <= 1 + s1 * s2 + c1 * c2) by lra.
  assert (D : 0 <= 1 + s1 * s2 - c1 * c2) by lra.
  split.
  - pose proof (Rmult_le_pos (1 + u) _ ltac:(lra) C) as P1.
    pose proof (Rmult_le_pos (1 - u) _ ltac:(lra) D) as P2.
    lra.
  - pose proof (Rmult_le_pos (1 + u) _ ltac:(lra) A) as P1.
    pose proof (Rmult_le_pos (1 - u) _ ltac:(lra) B) as P2.
    lra.
Qed.

Lemma haversine_a_range lat1 lon1 lat2 lon2 :
  0 <= haversine_a lat1 lon1 lat2 lon2 <= 1.
Proof.
  unfold haversine_a. rewrite !sin_half_sq, cos_minus.
  set (p1 := radians lat1). set (p2 := radians lat2).
  set (dl := radians lon2 - radians lon1).
  pose proof (sin2_cos2 p1) as H1. pose proof (sin2_cos2 p2) as H2.
  unfold Rsqr in H1, H2.
  pose proof (COS_bound dl) as Hu.
  pose proof (unit_products_bound (cos p1) (sin p1) (cos p2) (sin p2) (cos dl)
                ltac:(lra) ltac:(lra) Hu) as [Hlo Hhi].
  split; nra.
Qed.

Lemma asin_nonneg x : 0 <= x → 0 <= asin x.
Proof.
  intros Hx. pose proof PI_RGT_0 as Hpi. unfold asin.
  destruct (Rle_dec x (-1)); [lra|].
  destruct (Rle_dec 1 x); [lra|].
  assert (Hs : 0 < sqrt (1 - x²)).
  { apply sqrt_lt_R0. unfold Rsqr. nra. }
  assert (Hq : 0 <= x / sqrt (1 - x²)).
  { apply Rmult_le_pos; [done|]. by apply Rlt_le, Rinv_0_lt_compat. }
  destruct Hq as [Hq|<-].
  - rewrite <- atan_0. by apply Rlt_le, atan_increasing.
  - rewrite atan_0. lra.
Qed.

Lemma calculate_distance_value lat1 lon1 lat2 lon2 :
  calculate_distance lat1 lon1 lat2 lon2 =
    Ok (earth_radius_km * (2 * asin (sqrt (haversine_a lat1 lon1 lat2 lon2)))).
Proof.
  rewrite calculate_distance_a.
  destruct (haversine_a_range lat1 lon1 lat2 lon2) as [H0 H1].
  unfold math_sqrt. destruct (Rle_dec _ _) as [Y|N]; [|lra]. simpl.
  assert (Hs0 : 0 <= sqrt (haversine_a lat1 lon1 lat2 lon2)) by apply sqrt_pos.
  assert (Hs1 : sqrt (haversine_a lat1 lon1 lat2 lon2) <= 1).
  { rewrite <- sqrt_1. by apply sqrt_le_1_alt. }
  unfold math_asin. destruct (Rle_dec _ _) as [Y1|N]; [|lra].
  destruct (Rle_dec _ _) as [Y2|N]; [|lra]. done.
Qed.

End Haversine.

(** * calculate_statistics

    The standard deviation needs a square root, so this part is embedded
    over the real numbers as well. *)

Module Statistics.
Local Open Scope R_scope.

(** The loop [for value in values: total += value], from [total]. *)
Definition sum_loop (total : R) (values : list R) : R :=
  fold_left Rplus values total.

(** The body of the second loop over [(variance_sum, min_val, max_val)]. *)
Definition scan (mean : R) (acc : R * R * R) (value : R) : R * R * R :=
  let '(variance_sum, min_val, max_val) := acc in
  (variance_sum + (value - mean) ^ 2,
   if Rlt_dec value min_val then value else min_val,
   if Rgt_dec value max_val then value else max_val).

Definition calculate_statistics (values : list R) : result (gmap string R) :=
  match values with
  | [] => Ok ∅
  | first :: _ =>
      let n := INR (length values) in
      let mean := sum_loop 0 values / n in
      let '(variance_sum, min_val, max_val) :=
        fold_left (scan mean) values (0, first, first) in
      let variance := variance_sum / n in
      std_dev ← Haversine.math_sqrt variance;
      Ok (<["range" := max_val - min_val]>
          (<["max" := max_val]>
          (<["min" := min_val]>
          (<["std_dev" := std_dev]>
          (<["variance" := variance]>
          (<["mean" := mean]> (<["count" := n]> ∅)))))))
  end.

End Statistics.

(** C6. In exact arithmetic the great-circle distance is defined for every
    pair of points (the square root and the arcsine are applied inside
    their domains), it is symmetric, zero for coincident points and never
    negative. *)
Theorem calculate_distance_metric (lat1 lon1 lat2 lon2 : R) :
  ∃ d, Haversine.calculate_distance lat1 lon1 lat2 lon2 = Ok d
       ∧ Haversine.calculate_distance lat2 lon2 lat1 lon1 = Ok d
       ∧ (0 <= d)%R
       ∧ Haversine.calculate_distance lat1 lon1 lat1 lon1 = Ok 0%R.
Proof.
  eexists. split; [apply Haversine.calculate_distance_value|].
  split; [|split].
  - rewrite Haversine.calculate_distance_value.
    by rewrite Haversine.haversine_a_sym.
  - unfold Haversine.earth_radius_km.
    pose proof (Haversine.asin_nonneg _
                  (sqrt_pos (Haversine.haversine_a lat1 lon1 lat2 lon2))).
    nra.
  - rewrite Haversine.calculate_distance_value, Haversine.haversine_a_same.
    rewrite sqrt_0, asin_0. f_equal. unfold Haversine.earth_radius_km.
    ring.
Qed.

(** * The pipelines *)

(** ** Built-in and library functions used by the pipelines

    Parsing and printing of numbers and timestamps belong to the Python
    runtime, not to the repository; the pipelines are stated over any
    implementation of them.  [None] stands for the [ValueError] that the
    callers catch. *)

Record datetime := Datetime {
  dt_epoch : Z;          (* seconds on the time line, for [<] and [-] *)
  dt_hour : Z;           (* [.hour] *)
  dt_month : Z;          (* [.month] *)
  dt_day_name : string   (* [.strftime('%A')] *)
}.

Class Builtins := {
  (** [float(s)] *)
  py_float : string → option Q;
  (** [int(s)] *)
  py_int : string → option Z;
  (** [datetime.strptime(s, '%Y-%m-%d %H:%M:%S')] *)
  strptime : string → option datetime;
  (** [str(n)] for an integer *)
  str_int : Z → string;
  (** [str(x)] for a float *)
  str_float : Q → string;
  (** [f"{x:.{d}f}"] *)
  format_fixed : nat → Q → string;
  (** [calculate_distance] as evaluated on floats *)
  distance_km : Q → Q → Q → Q → option Q
}.

Abbreviation record := (gmap string string).
Abbreviation counters := (gmap string Z).

(** [stats[k] += n] *)
Definition bump (k : string) (n : Z) (stats : counters) : counters :=
  <[k := (default 0 (stats !! k) + n)%Z]> stats.

(** [record.get(k, dflt)] followed by [float(...)], for a numeric default. *)
Definition float_field `{Builtins} (r : record) (k : string) (dflt : Q)
  : option Q :=
  match r !! k with
  | Some s => py_float s
  | None => Some dflt
  end.

(** [record.get(k, dflt)] followed by [int(...)], for an integer default. *)
Definition int_field `{Builtins} (r : record) (k : string) (dflt : Z)
  : option Z :=
  match r !! k with
  | Some s => py_int s
  | None => Some dflt
  end.

(** ** An implementation of the built-ins for the examples

    Decimal literals without exponent, timestamps in the fixed layout
    [YYYY-MM-DD HH:MM:SS] of the input file, and a flat approximation of the
    distance.  The theorems below hold for every implementation; this one is
    used to evaluate the pipelines on concrete records. *)

Module DecimalBuiltins.

Definition digit_of (c : ascii) : option Z :=
  let n := Z.of_N (N_of_ascii c) in
  if ((48 <=? n) && (n <=? 57))%Z then Some (n - 48)%Z else None.

Fixpoint digits_value (acc : Z) (s : string) : option Z :=
  match s with
  | EmptyString => Some acc
  | String c rest =>
      match digit_of c with
      | Some d => digits_value (10 * acc + d)%Z rest
      | None => None
      end
  end.

Definition parse_digits (s : string) : option Z :=
  match s with
  | EmptyString => None
  | _ => digits_value 0 s
  end.

Definition parse_int (s : string) : option Z :=
  match s with
  | String "-" rest => Z.opp <$> parse_digits rest
  | String "+" rest => parse_digits rest
  | _ => parse_digits s
  end.

(** The text before the first dot and, if there is a dot, the text after. *)
Fixpoint split_dot (s : string) : string * option string :=
  match s with
  | EmptyString => (EmptyString, None)
  | String "." rest => (EmptyString, Some rest)
  | String c rest =>
      let '(a, b) := split_dot rest in (String c a, b)
  end.

Definition parse_unsigned_float (s : string) : option Q :=
  let '(whole, frac) := split_dot s in
  match parse_digits whole, frac with
  | Some w, None => Some (inject_Z w)
  | Some w, Some EmptyString => Some (inject_Z w)
  | Some w, Some f =>
      match digits_value 0 f with
      | Some fv =>
          Some (Qred (inject_Z w
                      + inject_Z fv / inject_Z (10 ^ Z.of_nat (String.length f))))
      | None => None
      end
  | None, _ => None
  end.

Definition parse_float (s : string) : option Q :=
  match s with
  | String "-" rest => Qopp <$> parse_unsigned_float rest
  | String "+" rest => parse_unsigned_float rest
  | _ => parse_unsigned_float s
  end.

(** Days since 1970-01-01 of a date of the proleptic Gregorian calendar. *)
Definition days_from_civil (y m d : Z) : Z :=
  let y' := (if m <=? 2 then y - 1 else y)%Z in
  let era := (y' / 400)%Z in
  let yoe := (y' - era * 400)%Z in
  let mp := (if 2 <? m then m - 3 else m + 9)%Z in
  let doy := ((153 * mp + 2) / 5 + d - 1)%Z in
  let doe := (yoe * 365 + yoe / 4 - yoe / 100 + doy)%Z in
  (era * 146097 + doe - 719468)%Z.

Definition day_names : list string :=
  ["Sunday"; "Monday"; "Tuesday"; "Wednesday"; "Thursday"; "Friday";
   "Saturday"].

Definition field (s : string) (start len : nat) : option Z :=
  parse_digits (String.substring start len s).

Definition separator (s : string) (i : nat) (c : ascii) : bool :=
  match String.get i s with
  | Some c' => Ascii.eqb c c'
  | None => false
  end.

Definition parse_datetime (s : string) : option datetime :=
  if negb (String.length s =? 19) then None
  else if negb (separator s 4 "-" && separator s 7 "-" && separator s 10 " "
                && separator s 13 ":" && separator s 16 ":") then None
  else
    y ← field s 0 4; m ← field s 5 2; d ← field s 8 2;
    hh ← field s 11 2; mm ← field s 14 2; ss ← field s 17 2;
    if ((1 <=? m) && (m <=? 12) && (1 <=? d) && (d <=? 31)
        && (hh <? 24) && (mm <? 60) && (ss <? 60))%Z
    then
      let days := days_from_civil y m d in
      Some (Datetime (days * 86400 + hh * 3600 + mm * 60 + ss)%Z hh m
              (default "" (day_names !! Z.to_nat ((days + 4) mod 7))))
    else None.

Definition string_of_Z (z : Z) : string :=
  NilZero.string_of_int (Z.to_int z).

(** Rounding to the nearest integer, ties to even. *)
Definition round_half_even (x : Q) : Z :=
  let f := Qfloor x in
  let r := (x - inject_Z f)%Q in
  match (r ?= 1 # 2)%Q with
  | Lt => f
  | Gt => (f + 1)%Z
  | Eq => if Z.even f then f else (f + 1)%Z
  end.

Fixpoint pad_left (width : nat) (s : string) : string :=
  if width <=? String.length s then s
  else match width with
       | O => s
       | S w => pad_left w (String "0" s)
       end.

Definition print_fixed (digits : nat) (x : Q) : string :=
  let scaled := round_half_even (Qabs x * inject_Z (10 ^ Z.of_nat digits)) in
  let whole := (scaled / 10 ^ Z.of_nat digits)%Z in
  let frac := (scaled mod 10 ^ Z.of_nat digits)%Z in
  let sign := if Qltb x 0 then "-" else "" in
  match digits with
  | O => sign +:+ string_of_Z whole
  | _ => sign +:+ string_of_Z whole +:+ "." +:+ pad_left digits (string_of_Z frac)
  end.

Definition print_float (x : Q) : string :=
  if Qeq_bool x (inject_Z (Qfloor x))
  then string_of_Z (Qfloor x) +:+ ".0"
  else print_fixed 6 x.

(** Distance on a flat map: 111 km for a degree in either direction. *)
Definition flat_distance (lat1 lon1 lat2 lon2 : Q) : option Q :=
  Some (111 * (Qabs (lat2 - lat1) + Qabs (lon2 - lon1)))%Q.

#[export] Instance builtins : Builtins := {
  py_float := parse_float;
  py_int := parse_int;
  strptime := parse_datetime;
  str_int := string_of_Z;
  str_float := print_float;
  format_fixed := print_fixed;
  distance_km := flat_distance
}.

End DecimalBuiltins.

Example parse_float_demo :
  DecimalBuiltins.parse_float "-73.9712" = Some (-46232 # 625)%Q
  ∧ DecimalBuiltins.parse_int "120" = Some 120%Z
  ∧ DecimalBuiltins.print_fixed 2 (1234567 # 1000) = "1234.57"
  ∧ DecimalBuiltins.print_float 120 = "120.0"
  ∧ DecimalBuiltins.parse_datetime "2016-03-14 17:24:55"
    = Some (Datetime 1457976295 17 3 "Monday").
Proof. vm_compute. repeat split. Qed.

(** [set(l)] for a list of integers: the key set of a dict that has every
    element of [l] as a key. *)
Definition py_set (l : list Z) : gset Z :=
  dom (list_to_map ((λ i, (i, ())) <$> l) : gmap Z unit).

(** ** TaxiDataCleaner *)

Module TaxiDataCleaner.
Section Cleaner.
Context `{Builtins}.

(** The state of a run: the record objects read from the file, addressed
    by reference, and the statistics of the cleaner.  The working lists of
    the stages hold references, so a record that a stage drops from its
    result keeps what was written on it. *)
Record cleaner := Cleaner {
  objs : gmap N record;
  stats : counters
}.

Definition deref (st : cleaner) (ref : N) : record :=
  default ∅ (objs st !! ref).

(** [record[k] = v] on the object behind [ref]. *)
Definition set_field (ref : N) (k v : string) (st : cleaner) : cleaner :=
  Cleaner (<[ref := <[k := v]> (deref st ref)]> (objs st)) (stats st).

(** [self.stats[k] += 1] *)
Definition count (k : string) (st : cleaner) : cleaner :=
  Cleaner (objs st) (bump k 1 (stats st)).

Definition initial_stats : counters :=
  list_to_map
    [("total_records", 0); ("valid_records", 0); ("invalid_records", 0);
     ("duplicates_removed", 0); ("missing_values_fixed", 0);
     ("outliers_detected", 0); ("coordinate_errors", 0);
     ("datetime_errors", 0); ("duration_errors", 0)]%Z.

Definition min_lat : Q := 40.4774.
Definition max_lat : Q := 40.9176.
Definition min_lon : Q := -74.2591.
Definition max_lon : Q := -73.7004.

Definition min_duration : Z := 60.
Definition max_duration : Z := 3600.
Definition max_passenger : Z := 8.

(** *** _remove_duplicates *)

(** [record.get(k, '')] *)
Definition get_or_empty (r : record) (k : string) : string :=
  default "" (r !! k).

Definition unique_key (r : record) : string :=
  String.concat "|"
    [get_or_empty r "pickup_datetime"; get_or_empty r "dropoff_datetime";
     get_or_empty r "pickup_longitude"; get_or_empty r "pickup_latitude";
     get_or_empty r "trip_duration"].

Fixpoint remove_duplicates_loop (data : list N) (seen_records : gset string)
    (st : cleaner) : list N * cleaner :=
  match data with
  | [] => ([], st)
  | ref :: rest =>
      let key := unique_key (deref st ref) in
      if decide (key ∈ seen_records)
      then remove_duplicates_loop rest seen_records
             (count "duplicates_removed" st)
      else
        let '(unique_data, st') :=
          remove_duplicates_loop rest ({[key]} ∪ seen_records) st in
        (ref :: unique_data, st')
  end.

Definition _remove_duplicates (data : list N) (st : cleaner)
  : list N * cleaner :=
  remove_duplicates_loop data ∅ st.

(** *** _fix_missing_values *)

(** [not record.get(k) or record[k] == '']: the field is absent or
    empty. *)
Definition is_missing (r : record) (k : string) : bool :=
  match r !! k with
  | None => true
  | Some s => String.eqb s ""
  end.

(** One of the three [if] blocks of the loop body: the record store and
    the local flag [fixed]. *)
Definition fix_field (ref : N) (k dflt : string) (acc : cleaner * bool)
  : cleaner * bool :=
  if is_missing (deref acc.1 ref) k
  then (set_field ref k dflt acc.1, true)
  else acc.

Definition fix_record (ref : N) (st : cleaner) : cleaner :=
  let acc := (st, false) in
  let acc := fix_field ref "passenger_count" "1" acc in
  let acc := fix_field ref "store_and_fwd_flag" "N" acc in
  let acc := fix_field ref "vendor_id" "1" acc in
  if acc.2 then count "missing_values_fixed" acc.1 else acc.1.

Definition _fix_missing_values (data : list N) (st : cleaner)
  : list N * cleaner :=
  (data, foldl (λ st ref, fix_record ref st) st data).

(** *** The shape shared by the three validation stages: a record is
    appended to [valid_data], or counted and flagged. *)

Fixpoint validate_loop (check : N → cleaner → result (bool * cleaner))
    (data : list N) (st : cleaner) : result (list N * cleaner) :=
  match data with
  | [] => Ok ([], st)
  | ref :: rest =>
      '(keep, st1) ← check ref st;
      '(valid_data, st2) ← validate_loop check rest st1;
      Ok (if keep : bool then ref :: valid_data else valid_data, st2)
  end.

(** [self.stats[counter] += 1; record['validity_flag'] = flag] *)
Definition reject (counter flag : string) (ref : N) (st : cleaner)
  : cleaner :=
  set_field ref "validity_flag" flag (count counter st).

(** *** _validate_coordinates *)

Definition in_nyc (lat lon : Q) : bool :=
  Qle_bool min_lat lat && Qle_bool lat max_lat
  && Qle_bool min_lon lon && Qle_bool lon max_lon.

Definition check_coordinates (ref : N) (st : cleaner)
  : result (bool * cleaner) :=
  let r := deref st ref in
  let parsed :=
    pickup_lon ← float_field r "pickup_longitude" 0;
    pickup_lat ← float_field r "pickup_latitude" 0;
    dropoff_lon ← float_field r "dropoff_longitude" 0;
    dropoff_lat ← float_field r "dropoff_latitude" 0;
    Some (pickup_lon, pickup_lat, dropoff_lon, dropoff_lat) in
  match parsed with
  | Some (pickup_lon, pickup_lat, dropoff_lon, dropoff_lat) =>
      let valid_pickup := in_nyc pickup_lat pickup_lon in
      let valid_dropoff := in_nyc dropoff_lat dropoff_lon in
      if valid_pickup && valid_dropoff then Ok (true, st)
      else Ok (false, reject "coordinate_errors" "INVALID_COORDINATES" ref st)
  | None =>
      Ok (false, reject "coordinate_errors" "INVALID_COORDINATES" ref st)
  end.

Definition _validate_coordinates : list N → cleaner → result (list N * cleaner) :=
  validate_loop check_coordinates.

(** *** _validate_datetime *)

(** [record['pickup_datetime']] raises [KeyError] on a record without the
    field, and the [except] clause does not catch it. *)
Definition check_datetime (ref : N) (st : cleaner)
  : result (bool * cleaner) :=
  let r := deref st ref in
  let bad := Ok (false, reject "datetime_errors" "INVALID_DATETIME" ref st) in
  pickup_s ← dict_get r "pickup_datetime";
  match strptime pickup_s with
  | None => bad
  | Some pickup_dt =>
      dropoff_s ← dict_get r "dropoff_datetime";
      match strptime dropoff_s with
      | None => bad
      | Some dropoff_dt =>
          if (dt_epoch pickup_dt <? dt_epoch dropoff_dt)%Z
          then
            let actual_duration := (dt_epoch dropoff_dt - dt_epoch pickup_dt)%Z in
            Ok (true, set_field ref "calculated_duration"
                        (str_int actual_duration) st)
          else bad
      end
  end.

Definition _validate_datetime : list N → cleaner → result (list N * cleaner) :=
  validate_loop check_datetime.

(** *** _validate_trip_duration *)

Definition check_trip_duration (ref : N) (st : cleaner)
  : result (bool * cleaner) :=
  let r := deref st ref in
  let bad := Ok (false, reject "duration_errors"
                          "INVALID_DURATION_OR_PASSENGERS" ref st) in
  let parsed :=
    trip_duration ← int_field r "trip_duration" 0;
    passenger_count ← int_field r "passenger_count" 1;
    Some (trip_duration, passenger_count) in
  match parsed with
  | Some (trip_duration, passenger_count) =>
      let valid_duration :=
        ((min_duration <=? trip_duration) && (trip_duration <=? max_duration))%Z in
      let valid_passengers :=
        ((1 <=? passenger_count) && (passenger_count <=? max_passenger))%Z in
      if valid_duration && valid_passengers then Ok (true, st) else bad
  | None => bad
  end.

Definition _validate_trip_duration : list N → cleaner → result (list N * cleaner) :=
  validate_loop check_trip_duration.

(** *** _detect_outliers *)

(** [float(record.get('trip_duration', 0))], or [0] when that raises. *)
Definition duration_of (r : record) : Q :=
  default 0%Q (float_field r "trip_duration" 0).

Definition large_dataset_threshold : Z := 100000.
Definition max_sample_size : Z := 50000.

(** The thresholds of the sampling branch applied to the full list. *)
Definition sampled_outliers (sample_durations durations : list Q)
  : result (gset Z) :=
  '(_, outlier_stats) ← CustomAlgorithms.detect_outliers_iqr sample_durations 2;
  q1 ← dict_get outlier_stats "q1";
  q3 ← dict_get outlier_stats "q3";
  let iqr := (q3 - q1)%Q in
  let lower_bound := (q1 - 2 * iqr)%Q in
  let upper_bound := (q3 + 2 * iqr)%Q in
  Ok (py_set
        (CustomAlgorithms.outlier_scan 0 lower_bound upper_bound durations)).

(** The last loop: every record of the list gets its [outlier_flag]. *)
Fixpoint mark_outliers (i : Z) (outlier_indices : gset Z)
    (data : list N) (st : cleaner) : cleaner :=
  match data with
  | [] => st
  | ref :: rest =>
      let st' :=
        if decide (i ∈ outlier_indices)
        then count "outliers_detected"
               (set_field ref "outlier_flag" "DURATION_OUTLIER" st)
        else set_field ref "outlier_flag" "NORMAL" st in
      mark_outliers (i + 1) outlier_indices rest st'
  end.

(** [random_sample population k] is the list that the call
    [random.sample(population, k)] returns in this run.  The source passes
    no seed and no generator: the choice is made by the global generator
    of the interpreter. *)
Definition _detect_outliers (random_sample : list Q → nat → list Q)
    (data : list N) (st : cleaner) : result (list N * cleaner) :=
  let durations := (λ ref, duration_of (deref st ref)) <$> data in
  let n := Z.of_nat (length durations) in
  outlier_indices ←
    (if (large_dataset_threshold <? n)%Z
     then
       let sample_size := Z.to_nat (Z.min max_sample_size n) in
       let sample_durations := random_sample durations sample_size in
       sampled_outliers sample_durations durations
     else
       '(outlier_indices, _) ← CustomAlgorithms.detect_outliers_iqr durations 2;
       Ok (py_set outlier_indices));
  Ok (data, mark_outliers 0 outlier_indices data st).

(** *** clean_dataset *)

(** The records as [_read_csv_data] leaves them: one object per row, the
    working list refers to all of them in file order. *)
Fixpoint load_rows (next : N) (rows : list record) (st : cleaner)
  : list N * cleaner :=
  match rows with
  | [] => ([], st)
  | r :: rest =>
      let st1 :=
        count "total_records" (Cleaner (<[next := r]> (objs st)) (stats st)) in
      let '(data, st2) := load_rows (N.succ next) rest st1 in
      (next :: data, st2)
  end.

Definition load (raw_data : list record) : list N * cleaner :=
  load_rows 0 raw_data (Cleaner ∅ initial_stats).

(** The statistics written by [_write_cleaned_data]; nothing is written
    for an empty result. *)
Definition record_totals (data : list N) (st : cleaner) : cleaner :=
  match data with
  | [] => st
  | _ =>
      let valid := Z.of_nat (length data) in
      let total := default 0%Z (stats st !! "total_records") in
      Cleaner (objs st)
        (<["invalid_records" := (total - valid)%Z]>
           (<["valid_records" := valid]> (stats st)))
  end.

(** The stages of [clean_dataset] on records already read; the result is
    the cleaned list together with the final state. *)
Definition clean_dataset (random_sample : list Q → nat → list Q)
    (raw_data : list record) : result (list N * cleaner) :=
  let '(data, st) := load raw_data in
  let '(cleaned_data, st) := _remove_duplicates data st in
  let '(cleaned_data, st) := _fix_missing_values cleaned_data st in
  '(cleaned_data, st) ← _validate_coordinates cleaned_data st;
  '(cleaned_data, st) ← _validate_datetime cleaned_data st;
  '(cleaned_data, st) ← _validate_trip_duration cleaned_data st;
  '(cleaned_data, st) ← _detect_outliers random_sample cleaned_data st;
  Ok (cleaned_data, record_totals cleaned_data st).

End Cleaner.
End TaxiDataCleaner.

(** ** TaxiFeatureEngineer *)

Module TaxiFeatureEngineer.
Section Engineer.
Context `{Builtins}.

Definition initial_stats : counters :=
  list_to_map
    [("records_processed", 0); ("features_created", 0);
     ("distance_calculations", 0); ("time_features", 0);
     ("efficiency_metrics", 0)]%Z.

Definition borough_centers : list (string * (Q * Q)) :=
  [("Manhattan", (40.7831, -73.9712)); ("Brooklyn", (40.6782, -73.9442));
   ("Queens", (40.7282, -73.7949)); ("Bronx", (40.8448, -73.8648));
   ("Staten Island", (40.5795, -74.1502))]%Q.

(** A [for record in data] loop whose body updates the record and the
    statistics; the list that is returned is the list that was passed. *)
Fixpoint for_each (body : record → counters → record * counters)
    (data : list record) (stats : counters) : list record * counters :=
  match data with
  | [] => ([], stats)
  | r :: rest =>
      let '(r', stats1) := body r stats in
      let '(rest', stats2) := for_each body rest stats1 in
      (r' :: rest', stats2)
  end.

(** [float(record[k])]: a missing field and an unparsable one both end in
    the [except] clause. *)
Definition required_float (r : record) (k : string) : option Q :=
  s ← r !! k; py_float s.

(** *** _calculate_trip_distance *)

Definition trip_distance (r : record) (stats : counters) : record * counters :=
  let computed :=
    pickup_lat ← required_float r "pickup_latitude";
    pickup_lon ← required_float r "pickup_longitude";
    dropoff_lat ← required_float r "dropoff_latitude";
    dropoff_lon ← required_float r "dropoff_longitude";
    distance_km pickup_lat pickup_lon dropoff_lat dropoff_lon in
  match computed with
  | Some d =>
      (<["trip_distance_km" := format_fixed 3 d]> r,
       bump "features_created" 1 (bump "distance_calculations" 1 stats))
  | None => (<["trip_distance_km" := "0.000"]> r, stats)
  end.

Definition _calculate_trip_distance := for_each trip_distance.

(** *** _calculate_trip_speed *)

Definition trip_speed (r : record) (stats : counters) : record * counters :=
  let parsed :=
    distance ← float_field r "trip_distance_km" 0;
    duration_seconds ← float_field r "trip_duration" 0;
    Some (distance, duration_seconds) in
  match parsed with
  | Some (distance, duration_seconds) =>
      let r' :=
        if Qltb 0 duration_seconds
        then
          let duration_hours := (duration_seconds / 3600)%Q in
          let speed_kmh := (distance / duration_hours)%Q in
          <["trip_speed_kmh" := format_fixed 2 speed_kmh]> r
        else <["trip_speed_kmh" := "0.00"]> r in
      (r', bump "features_created" 1 stats)
  | None => (<["trip_speed_kmh" := "0.00"]> r, stats)
  end.

Definition _calculate_trip_speed := for_each trip_speed.

(** *** _extract_temporal_features *)

Definition py_bool (b : bool) : string := if b then "True" else "False".

Definition time_of_day (hour : Z) : string :=
  if ((5 <=? hour) && (hour <? 12))%Z then "Morning"
  else if ((12 <=? hour) && (hour <? 17))%Z then "Afternoon"
  else if ((17 <=? hour) && (hour <? 21))%Z then "Evening"
  else "Night".

Definition temporal_features (r : record) (stats : counters)
  : record * counters :=
  match r !! "pickup_datetime" ≫= strptime with
  | Some pickup_dt =>
      let hour := dt_hour pickup_dt in
      let day_of_week := dt_day_name pickup_dt in
      let is_weekend :=
        String.eqb day_of_week "Saturday" || String.eqb day_of_week "Sunday" in
      let is_rush_hour :=
        ((((7 <=? hour) && (hour <=? 9)) || ((17 <=? hour) && (hour <=? 19)))%Z
         && negb is_weekend)%bool in
      (<["is_rush_hour" := py_bool is_rush_hour]>
       (<["pickup_month" := str_int (dt_month pickup_dt)]>
       (<["is_weekend" := py_bool is_weekend]>
       (<["day_of_week" := day_of_week]>
       (<["time_of_day" := time_of_day hour]>
       (<["pickup_hour" := str_int hour]> r))))),
       bump "features_created" 6 (bump "time_features" 6 stats))
  | None =>
      (<["is_rush_hour" := "False"]>
       (<["pickup_month" := "1"]>
       (<["is_weekend" := "False"]>
       (<["day_of_week" := "Unknown"]>
       (<["time_of_day" := "Unknown"]>
       (<["pickup_hour" := "0"]> r))))),
       stats)
  end.

Definition _extract_temporal_features := for_each temporal_features.

(** *** _calculate_efficiency_metrics *)

Definition max_reasonable_speed : Q := 40.

Definition efficiency_metrics (r : record) (stats : counters)
  : record * counters :=
  let parsed :=
    distance ← float_field r "trip_distance_km" 0;
    duration_seconds ← float_field r "trip_duration" 0;
    speed_kmh ← float_field r "trip_speed_kmh" 0;
    Some (distance, duration_seconds, speed_kmh) in
  match parsed with
  | Some (distance, duration_seconds, speed_kmh) =>
      let duration_minutes := (duration_seconds / 60)%Q in
      let r1 :=
        if Qltb 0 duration_minutes
        then
          let distance_per_minute := (distance / duration_minutes)%Q in
          <["distance_per_minute" := format_fixed 4 distance_per_minute]> r
        else <["distance_per_minute" := "0.0000"]> r in
      let r2 :=
        if Qltb 0 speed_kmh
        then
          let theoretical_time := (distance / speed_kmh * 3600)%Q in
          let idle_time := Qmax 0 (duration_seconds - theoretical_time) in
          <["estimated_idle_time" := format_fixed 0 idle_time]> r1
        else <["estimated_idle_time" := str_float duration_seconds]> r1 in
      let r3 :=
        if Qltb 0 speed_kmh
        then
          let efficiency := Qmin 100 (speed_kmh / max_reasonable_speed * 100) in
          <["efficiency_score" := format_fixed 1 efficiency]> r2
        else <["efficiency_score" := "0.0"]> r2 in
      let r4 :=
        if Qltb 0 distance && Qltb 0 duration_seconds
        then
          let expected_duration := (distance / 20 * 3600)%Q in
          let complexity_ratio := (duration_seconds / expected_duration)%Q in
          <["trip_complexity" := format_fixed 2 complexity_ratio]> r3
        else <["trip_complexity" := "1.00"]> r3 in
      (r4, bump "features_created" 4 (bump "efficiency_metrics" 4 stats))
  | None =>
      (<["trip_complexity" := "1.00"]>
       (<["efficiency_score" := "0.0"]>
       (<["estimated_idle_time" := "0"]>
       (<["distance_per_minute" := "0.0000"]> r))),
       stats)
  end.

Definition _calculate_efficiency_metrics := for_each efficiency_metrics.

(** *** _classify_trip_zones *)

(** The loop of [_find_closest_borough]; [min_distance = None] is the
    initial [float('inf')]. *)
Fixpoint closest_loop (lat lon : Q) (centers : list (string * (Q * Q)))
    (min_distance : option Q) (closest_borough : string) : option string :=
  match centers with
  | [] => Some closest_borough
  | (borough, (b_lat, b_lon)) :: rest =>
      distance ← distance_km lat lon b_lat b_lon;
      let closer :=
        match min_distance with
        | None => true
        | Some m => Qltb distance m
        end in
      if closer then closest_loop lat lon rest (Some distance) borough
      else closest_loop lat lon rest min_distance closest_borough
  end.

Definition _find_closest_borough (lat lon : Q) : option string :=
  closest_loop lat lon borough_centers None "Manhattan".

Definition trip_zones (r : record) (stats : counters) : record * counters :=
  let classified :=
    pickup_lat ← required_float r "pickup_latitude";
    pickup_lon ← required_float r "pickup_longitude";
    dropoff_lat ← required_float r "dropoff_latitude";
    dropoff_lon ← required_float r "dropoff_longitude";
    pickup_borough ← _find_closest_borough pickup_lat pickup_lon;
    dropoff_borough ← _find_closest_borough dropoff_lat dropoff_lon;
    Some (pickup_borough, dropoff_borough) in
  match classified with
  | Some (pickup_borough, dropoff_borough) =>
      let trip_type :=
        if String.eqb pickup_borough dropoff_borough
        then "Intra-borough" else "Inter-borough" in
      (<["trip_type" := trip_type]>
       (<["dropoff_borough" := dropoff_borough]>
       (<["pickup_borough" := pickup_borough]> r)),
       bump "features_created" 3 stats)
  | None =>
      (<["trip_type" := "Unknown"]>
       (<["dropoff_borough" := "Unknown"]>
       (<["pickup_borough" := "Unknown"]> r)),
       stats)
  end.

Definition _classify_trip_zones := for_each trip_zones.

(** *** _detect_trip_patterns *)

(** The three lists filled by the first loop; a record whose conversion
    fails is skipped from the failing [append] on. *)
Fixpoint collect_values (data : list record)
  : list Q * list Q * list Q :=
  match data with
  | [] => ([], [], [])
  | r :: rest =>
      let '(speeds, distances, durations) := collect_values rest in
      match float_field r "trip_speed_kmh" 0 with
      | None => (speeds, distances, durations)
      | Some s =>
          match float_field r "trip_distance_km" 0 with
          | None => (s :: speeds, distances, durations)
          | Some d =>
              match float_field r "trip_duration" 0 with
              | None => (s :: speeds, d :: distances, durations)
              | Some t => (s :: speeds, d :: distances, t :: durations)
              end
          end
      end
  end.

(** The tag of one of the three measures: below the 10th percentile, above
    the 90th, or none.  A missing percentile would be a [KeyError]. *)
Definition relative_tag (x : Q) (percentiles : gmap Z Q) (low high : string)
  : option (list string) :=
  p10 ← percentiles !! 10%Z;
  if Qltb x p10 then Some [low]
  else p90 ← percentiles !! 90%Z;
       Some (if Qltb p90 x then [high] else []).

Definition trip_patterns
    (speed_percentiles distance_percentiles duration_percentiles : gmap Z Q)
    (r : record) (stats : counters) : record * counters :=
  let tagged :=
    speed ← float_field r "trip_speed_kmh" 0;
    distance ← float_field r "trip_distance_km" 0;
    duration ← float_field r "trip_duration" 0;
    p1 ← relative_tag speed speed_percentiles "Slow" "Fast";
    p2 ← relative_tag distance distance_percentiles "Short" "Long";
    p3 ← relative_tag duration duration_percentiles "Quick" "Extended";
    Some (p1 ++ p2 ++ p3
          ++ (if Qltb speed 5 then ["Traffic"] else [])
          ++ (if Qltb distance 0.5 then ["Local"] else [])
          ++ (if Qltb 1800 duration then ["Journey"] else [])) in
  match tagged with
  | Some patterns =>
      let text :=
        match patterns with
        | [] => "Normal"
        | _ => String.concat ";" patterns
        end in
      (<["trip_patterns" := text]> r, bump "features_created" 1 stats)
  | None => (<["trip_patterns" := "Unknown"]> r, stats)
  end.

Definition _detect_trip_patterns (data : list record) (stats : counters)
  : result (list record * counters) :=
  let '(speeds, distances, durations) := collect_values data in
  speed_percentiles ← CustomAlgorithms.calculate_percentiles speeds [10; 90]%Z;
  distance_percentiles ←
    CustomAlgorithms.calculate_percentiles distances [10; 90]%Z;
  duration_percentiles ←
    CustomAlgorithms.calculate_percentiles durations [10; 90]%Z;
  Ok (for_each
        (trip_patterns speed_percentiles distance_percentiles
           duration_percentiles)
        data stats).

(** *** engineer_features *)

(** The stages of [engineer_features] on records already loaded. *)
Definition engineer_features (data : list record)
  : result (list record * counters) :=
  let stats := bump "records_processed" (Z.of_nat (length data)) initial_stats in
  let '(enhanced_data, stats) := _calculate_trip_distance data stats in
  let '(enhanced_data, stats) := _calculate_trip_speed enhanced_data stats in
  let '(enhanced_data, stats) :=
    _extract_temporal_features enhanced_data stats in
  let '(enhanced_data, stats) :=
    _calculate_efficiency_metrics enhanced_data stats in
  let '(enhanced_data, stats) := _classify_trip_zones enhanced_data stats in
  _detect_trip_patterns enhanced_data stats.

End Engineer.
End TaxiFeatureEngineer.

(** * Properties of the cleaning pipeline *)

(** ** Sampling in _detect_outliers *)

(** What [random.sample(population, k)] may return: the elements at [k]
    distinct positions of the population, in any order. *)
Definition is_sample (population : list Q) (k : nat) (s : list Q) : Prop :=
  ∃ positions : list nat,
    NoDup positions ∧ length positions = k
    ∧ Forall2 (λ i x, population !! i = Some x) positions s.

(** Two of the possible outcomes: the first [k] and the last [k] elements. *)
Definition sample_first (population : list Q) (k : nat) : list Q :=
  take k population.
Definition sample_last (population : list Q) (k : nat) : list Q :=
  drop (length population - k) population.

Lemma sample_first_valid population k :
  k ≤ length population → is_sample population k (sample_first population k).
Proof.
  intros Hk. exists (seq 0 k). split; [apply NoDup_seq|].
  split; [apply length_seq|].
  apply Forall2_same_length_lookup. split.
  - unfold sample_first. rewrite length_seq, length_take. lia.
  - intros i p x Hp Hx. apply lookup_seq in Hp as [-> Hi].
    unfold sample_first in Hx. rewrite lookup_take_lt in Hx by done. done.
Qed.

Lemma sample_last_valid population k :
  k ≤ length population → is_sample population k (sample_last population k).
Proof.
  intros Hk. exists (seq (length population - k) k). split; [apply NoDup_seq|].
  split; [apply length_seq|].
  apply Forall2_same_length_lookup. split.
  - unfold sample_last. rewrite length_seq, length_drop. lia.
  - intros i p x Hp Hx. apply lookup_seq in Hp as [-> Hi].
    unfold sample_last in Hx. rewrite lookup_drop in Hx. done.
Qed.

(** A survivor list of 100001 trips: 50000 of 100 s, one of 150 s and 50000
    of 200 s. *)
Definition trip_of (duration : string) : record :=
  <["trip_duration" := duration]> ∅.

Definition sampling_rows : list record :=
  replicate (Z.to_nat 50000) (trip_of "100") ++ [trip_of "150"]
  ++ replicate (Z.to_nat 50000) (trip_of "200").

(** The outlier flag of the first row after [_detect_outliers] has run on
    [rows] with the given outcome of the sampling call. *)
Definition first_flag_after (random_sample : list Q → nat → list Q)
    (rows : list record) : option string :=
  let '(data, st) := TaxiDataCleaner.load rows in
  match TaxiDataCleaner._detect_outliers (H := DecimalBuiltins.builtins)
          random_sample data st with
  | Ok (_, st') => TaxiDataCleaner.deref st' 0 !! "outlier_flag"
  | Raise _ => None
  end.

(** ** The object store *)

Section Store.
Import TaxiDataCleaner.

Lemma objs_set_field_ne ref r k v st :
  r ≠ ref → objs (set_field ref k v st) !! r = objs st !! r.
Proof. intros Hr. unfold set_field. simpl. by rewrite lookup_insert_ne. Qed.

Lemma deref_set_field ref k v st :
  deref (set_field ref k v st) ref = <[k := v]> (deref st ref).
Proof. unfold deref, set_field. simpl. by rewrite lookup_insert_eq. Qed.

Lemma deref_count k st r : deref (count k st) r = deref st r.
Proof. done. Qed.

Lemma objs_count k st : objs (count k st) = objs st.
Proof. done. Qed.

Lemma deref_objs st st' r :
  objs st' !! r = objs st !! r → deref st' r = deref st r.
Proof. unfold deref. by intros ->. Qed.

Lemma objs_reject_ne counter flag ref r st :
  r ≠ ref → objs (reject counter flag ref st) !! r = objs st !! r.
Proof. intros Hr. unfold reject. by rewrite objs_set_field_ne. Qed.

Lemma deref_reject counter flag ref st :
  deref (reject counter flag ref st) ref
  = <["validity_flag" := flag]> (deref st ref).
Proof. unfold reject. by rewrite deref_set_field. Qed.

(** No stage ever deletes a field of a record. *)
Definition grows (st st' : cleaner) : Prop :=
  ∀ r k, is_Some (deref st r !! k) → is_Some (deref st' r !! k).

Lemma grows_refl st : grows st st.
Proof. by intros r k. Qed.

Lemma grows_trans st1 st2 st3 : grows st1 st2 → grows st2 st3 → grows st1 st3.
Proof. intros H1 H2 r k Hk. by apply H2, H1. Qed.

Lemma grows_count k st : grows st (count k st).
Proof. by intros r k'. Qed.

Lemma grows_set_field ref k v st : grows st (set_field ref k v st).
Proof.
  intros r k' Hk. destruct (decide (r = ref)) as [->|N].
  - rewrite deref_set_field. destruct (decide (k = k')) as [->|N'].
    + by rewrite lookup_insert_eq.
    + by rewrite lookup_insert_ne.
  - rewrite (deref_objs st (set_field ref k v st) r); [done|].
    by apply objs_set_field_ne.
Qed.

Lemma grows_reject counter flag ref st : grows st (reject counter flag ref st).
Proof.
  unfold reject. eapply grows_trans; [apply (grows_count counter)|].
  apply grows_set_field.
Qed.

(** *** _read_csv_data: the references are the row positions *)

Definition row_refs (next : N) (n : nat) : list N :=
  (λ i, (next + N.of_nat i)%N) <$> seq 0 n.

Lemma row_refs_S next n :
  row_refs next (S n) = next :: row_refs (N.succ next) n.
Proof.
  unfold row_refs. simpl. f_equal; [f_equal; lia|].
  rewrite <- fmap_S_seq, <- list_fmap_compose.
  apply list_fmap_ext. intros _ i _. simpl. lia.
Qed.

Lemma row_refs_lookup next n i :
  i < n → row_refs next n !! i = Some (next + N.of_nat i)%N.
Proof.
  intros Hi. unfold row_refs. rewrite list_lookup_fmap, lookup_seq_lt by done.
  done.
Qed.

Lemma elem_of_row_refs next n r :
  r ∈ row_refs next n ↔ ∃ i, i < n ∧ r = (next + N.of_nat i)%N.
Proof.
  unfold row_refs. rewrite list_elem_of_fmap. split.
  - intros (i & -> & Hi). apply elem_of_seq in Hi. exists i. split; [lia|done].
  - intros (i & Hi & ->). exists i. split; [done|]. apply elem_of_seq. lia.
Qed.

Lemma NoDup_row_refs next n : NoDup (row_refs next n).
Proof.
  unfold row_refs. apply NoDup_fmap_2; [|apply NoDup_seq].
  intros i j Hij. lia.
Qed.

Lemma load_rows_spec rows : ∀ next st data st',
  load_rows next rows st = (data, st') →
  data = row_refs next (length rows)
  ∧ (∀ i row, rows !! i = Some row →
       objs st' !! (next + N.of_nat i)%N = Some row)
  ∧ (∀ r, (r < next)%N → objs st' !! r = objs st !! r).
Proof.
  induction rows as [|row rows IH]; intros next st data st' Hload.
  { injection Hload as <- <-. split; [done|]. split; [|done].
    intros i row Hi. by rewrite lookup_nil in Hi. }
  simpl in Hload.
  destruct (load_rows (N.succ next) rows _) as [data1 st1] eqn:Hrest.
  injection Hload as <- <-.
  destruct (IH _ _ _ _ Hrest) as (Hdata & Hrows & Hbelow).
  split; [|split].
  - simpl. rewrite row_refs_S. by f_equal.
  - intros [|i] row' Hi; simpl in Hi.
    + injection Hi as ->. rewrite Hbelow by lia. simpl.
      replace (next + N.of_nat 0)%N with next by lia.
      apply lookup_insert_eq.
    + replace (next + N.of_nat (S i))%N with (N.succ next + N.of_nat i)%N
        by lia.
      by apply Hrows.
  - intros r Hr. rewrite Hbelow by lia. simpl.
    apply lookup_insert_ne. lia.
Qed.

Lemma load_spec rows data st :
  load rows = (data, st) →
  data = row_refs 0 (length rows)
  ∧ ∀ i row, rows !! i = Some row → objs st !! N.of_nat i = Some row.
Proof.
  intros Hload. apply load_rows_spec in Hload as (Hdata & Hrows & _).
  split; [done|]. intros i row Hi.
  specialize (Hrows i row Hi). by rewrite N.add_0_l in Hrows.
Qed.
End Store.

(** ** The stages one by one *)

Section Stages.
Context `{Builtins}.
Import TaxiDataCleaner.

(** A stage leaves every record that is not in its working list as it
    was. *)
Definition untouched_outside (data : list N) (st st' : cleaner) : Prop :=
  ∀ r, r ∉ data → objs st' !! r = objs st !! r.

(** The value of a counter of the statistics. *)
Definition counter (k : string) (st : cleaner) : Z :=
  default 0%Z (stats st !! k).

Lemma counter_count k st : counter k (count k st) = (counter k st + 1)%Z.
Proof. unfold counter, count, bump. simpl. by rewrite lookup_insert_eq. Qed.

Lemma counter_count_ne k k' st : k ≠ k' → counter k' (count k st) = counter k' st.
Proof.
  intros Hk. unfold counter, count, bump. simpl. by rewrite lookup_insert_ne.
Qed.

Lemma counter_set_field k ref f v st :
  counter k (set_field ref f v st) = counter k st.
Proof. done. Qed.

(** *** _remove_duplicates *)

Lemma remove_duplicates_loop_spec data : ∀ seen st unique st',
  remove_duplicates_loop data seen st = (unique, st') →
  objs st' = objs st
  ∧ unique `sublist_of` data
  ∧ counter "duplicates_removed" st'
    = (counter "duplicates_removed" st
       + (Z.of_nat (length data) - Z.of_nat (length unique)))%Z
  ∧ ∀ i ref, data !! i = Some ref → ref ∉ unique →
      unique_key (deref st ref) ∈ seen
      ∨ ∃ j ref', j < i ∧ data !! j = Some ref'
                  ∧ unique_key (deref st ref') = unique_key (deref st ref).
Proof.
  induction data as [|ref0 data IH]; intros seen st unique st' Hrun.
  { injection Hrun as <- <-. split; [done|]. split; [done|]. split.
    - simpl. lia.
    - intros i ref Hi. by rewrite lookup_nil in Hi. }
  simpl in Hrun.
  destruct (decide (unique_key (deref st ref0) ∈ seen)) as [Hseen|Hnew].
  - destruct (IH _ _ _ _ Hrun) as (Hobjs & Hsub & Hcount & Hdup).
    split; [done|]. split; [by apply sublist_cons|]. split.
    + rewrite Hcount, counter_count. simpl length.
      pose proof (sublist_length _ _ Hsub). lia.
    + intros [|i] ref Hi Hnot; simpl in Hi.
      * injection Hi as <-. by left.
      * destruct (Hdup i ref Hi Hnot) as [Hin|(j & ref' & Hj & Hj' & Hkey)].
        -- by left.
        -- right. exists (S j), ref'. split; [lia|]. split; [done|]. done.
  - destruct (remove_duplicates_loop data _ st) as [unique1 st1] eqn:Hrest.
    injection Hrun as <- <-.
    destruct (IH _ _ _ _ Hrest) as (Hobjs & Hsub & Hcount & Hdup).
    split; [done|]. split; [by apply sublist_skip|]. split.
    + rewrite Hcount. simpl length. lia.
    + intros [|i] ref Hi Hnot; simpl in Hi.
      * injection Hi as <-. destruct Hnot. by left.
      * assert (Hnot1 : ref ∉ unique1).
        { intros Hin. apply Hnot. by right. }
        destruct (Hdup i ref Hi Hnot1) as [Hin|(j & ref' & Hj & Hj' & Hkey)].
        -- apply elem_of_union in Hin as [Hin|Hin]; [|by left].
           apply elem_of_singleton in Hin. right.
           exists 0, ref0. split; [lia|]. split; [done|]. done.
        -- right. exists (S j), ref'. split; [lia|]. split; [done|]. done.
Qed.

(** *** _fix_missing_values *)

(** A default is filled in where the field is absent or empty. *)
Definition fill (k dflt : string) (r : record) : record :=
  if is_missing r k then <[k := dflt]> r else r.

Definition filled (r : record) : record :=
  fill "vendor_id" "1"
    (fill "store_and_fwd_flag" "N" (fill "passenger_count" "1" r)).

(** The record needs at least one default. *)
Definition needs_fix (r : record) : bool :=
  is_missing r "passenger_count" || is_missing r "store_and_fwd_flag"
  || is_missing r "vendor_id".

(** The number of defaults the record needs. *)
Definition substitutions (r : record) : Z :=
  ((if is_missing r "passenger_count" then 1 else 0)
   + (if is_missing r "store_and_fwd_flag" then 1 else 0)
   + (if is_missing r "vendor_id" then 1 else 0))%Z.

Lemma is_missing_insert_ne r k k' v :
  k ≠ k' → is_missing (<[k := v]> r) k' = is_missing r k'.
Proof. intros Hk. unfold is_missing. by rewrite lookup_insert_ne. Qed.

Lemma fix_record_spec ref st :
  deref (fix_record ref st) ref = filled (deref st ref)
  ∧ (∀ r, r ≠ ref → objs (fix_record ref st) !! r = objs st !! r)
  ∧ counter "missing_values_fixed" (fix_record ref st)
    = (counter "missing_values_fixed" st
       + if needs_fix (deref st ref) then 1 else 0)%Z
  ∧ (∀ k, k ≠ "missing_values_fixed" →
       counter k (fix_record ref st) = counter k st)
  ∧ grows st (fix_record ref st).
Proof.
  unfold fix_record, fix_field, filled, fill, needs_fix. cbn [fst snd].
  destruct (is_missing (deref st ref) "passenger_count") eqn:E1;
    cbn [fst snd orb];
    rewrite ?deref_set_field, ?is_missing_insert_ne by done;
    (destruct (is_missing (deref st ref) "store_and_fwd_flag") eqn:E2;
     cbn [fst snd orb];
     rewrite ?deref_set_field, ?is_missing_insert_ne by done;
     rewrite ?E2; cbn [fst snd orb];
     (destruct (is_missing (deref st ref) "vendor_id") eqn:E3;
      cbn [fst snd orb];
      rewrite ?deref_set_field, ?is_missing_insert_ne by done;
      rewrite ?E3; cbn [fst snd orb]));
    (split; [by rewrite ?deref_count, ?deref_set_field|]);
    (split; [intros r Hr; by rewrite ?objs_count, ?objs_set_field_ne by done|]);
    (split; [rewrite ?counter_count, ?counter_set_field; lia|]);
    (split; [intros k Hk;
             by rewrite ?counter_count_ne, ?counter_set_field by done|]);
    repeat (first [apply grows_refl
                  |eapply grows_trans; [|apply grows_count]
                  |eapply grows_trans; [|apply grows_set_field]]).
Qed.

(** The records of the working list that need at least one default. *)
Definition records_needing_fix (st : cleaner) (data : list N) : Z :=
  Z.of_nat (length (List.filter (λ ref, needs_fix (deref st ref)) data)).

Lemma fix_missing_values_spec data : ∀ st, NoDup data →
  ∃ st', _fix_missing_values data st = (data, st')
    ∧ (∀ ref, ref ∈ data → deref st' ref = filled (deref st ref))
    ∧ untouched_outside data st st'
    ∧ counter "missing_values_fixed" st'
      = (counter "missing_values_fixed" st + records_needing_fix st data)%Z
    ∧ (∀ k, k ≠ "missing_values_fixed" → counter k st' = counter k st)
    ∧ grows st st'.
Proof.
  unfold _fix_missing_values.
  induction data as [|ref data IH]; intros st Hnd.
  { exists st. simpl. split; [done|]. split; [by intros ? ?%elem_of_nil|].
    split; [done|]. split; [unfold records_needing_fix; simpl; lia|].
    split; [done|apply grows_refl]. }
  apply NoDup_cons in Hnd as [Hnotin Hnd].
  destruct (fix_record_spec ref st) as (Href & Hother & Hcount & Hcounters & Hg).
  destruct (IH (fix_record ref st) Hnd)
    as (st' & Hrun & Hdata & Hout & Hcount' & Hcounters' & Hg').
  injection Hrun as Hrun.
  exists st'. simpl. rewrite Hrun. split; [done|].
  assert (Hsame : ∀ r, r ∈ data → deref (fix_record ref st) r = deref st r).
  { intros r Hr. apply deref_objs, Hother. intros ->. done. }
  split; [|split; [|split; [|split]]].
  - intros r Hr. apply elem_of_cons in Hr as [->|Hr].
    + rewrite (deref_objs (fix_record ref st) st' ref); [done|].
      by apply Hout.
    + rewrite (Hdata r Hr). by rewrite Hsame.
  - intros r Hr. apply not_elem_of_cons in Hr as [Hne Hr].
    rewrite (Hout r Hr). by apply Hother.
  - rewrite Hcount', Hcount. unfold records_needing_fix. simpl.
    assert (Hfilter :
      List.filter (λ r, needs_fix (deref (fix_record ref st) r)) data
      = List.filter (λ r, needs_fix (deref st r)) data).
    { apply List.filter_ext_in. intros r Hr.
      by rewrite Hsame by by apply list_elem_of_In. }
    rewrite Hfilter. destruct (needs_fix (deref st ref)); simpl length; lia.
  - intros k Hk. rewrite Hcounters' by done. by apply Hcounters.
  - by eapply grows_trans.
Qed.

(** *** The validation stages *)

(** What a check does to the store: it writes at most on its own record,
    it flags the record when it rejects it, and it leaves the flag alone
    when it keeps it. *)
Definition flags_rejects (flag : string)
    (check : N → cleaner → result (bool * cleaner)) : Prop :=
  ∀ ref st keep st', check ref st = Ok (keep, st') →
    (∀ r, r ≠ ref → objs st' !! r = objs st !! r)
    ∧ (keep = false → deref st' ref !! "validity_flag" = Some flag)
    ∧ (keep = true →
       deref st' ref !! "validity_flag" = deref st ref !! "validity_flag")
    ∧ grows st st'.

Lemma validate_loop_spec flag check data :
  flags_rejects flag check → ∀ st valid st',
  validate_loop check data st = Ok (valid, st') →
  valid `sublist_of` data
  ∧ untouched_outside data st st'
  ∧ grows st st'
  ∧ (NoDup data → ∀ ref, ref ∈ data →
       if decide (ref ∈ valid)
       then deref st' ref !! "validity_flag" = deref st ref !! "validity_flag"
       else deref st' ref !! "validity_flag" = Some flag).
Proof.
  intros Hcheck. induction data as [|ref data IH]; intros st valid st' Hrun.
  { injection Hrun as <- <-. split; [done|]. split; [done|].
    split; [apply grows_refl|]. by intros _ ? ?%elem_of_nil. }
  simpl in Hrun.
  destruct (check ref st) as [[keep st1]|] eqn:Hc; [|done]. simpl in Hrun.
  destruct (validate_loop check data st1) as [[valid1 st2]|] eqn:Hrest;
    [|done].
  simpl in Hrun. injection Hrun as <- <-.
  destruct (Hcheck _ _ _ _ Hc) as (Hother & Hreject & Hkeep & Hg).
  destruct (IH _ _ _ Hrest) as (Hsub & Hout & Hg' & Hflags).
  split; [|split; [|split]].
  - destruct keep; [by apply sublist_skip|by apply sublist_cons].
  - intros r Hr. apply not_elem_of_cons in Hr as [Hne Hr].
    rewrite (Hout r Hr). by apply Hother.
  - by eapply grows_trans.
  - intros Hnd r Hr. apply NoDup_cons in Hnd as [Hnotin Hnd].
    assert (Hnotvalid : ref ∉ valid1).
    { intros Hin. apply Hnotin. by eapply elem_of_sublist. }
    apply elem_of_cons in Hr as [->|Hr].
    + rewrite (deref_objs st1 st2 ref) by by apply Hout.
      destruct keep.
      * rewrite decide_True by by left. by apply Hkeep.
      * rewrite decide_False by done. by apply Hreject.
    + assert (Hne : r ≠ ref) by (intros ->; done).
      specialize (Hflags Hnd r Hr).
      rewrite (deref_objs st st1 r) in Hflags by by apply Hother.
      destruct keep.
      * destruct (decide (r ∈ valid1)) as [Hin|Hnin].
        -- rewrite decide_True by by right. done.
        -- rewrite decide_False; [done|].
           intros [?|?]%elem_of_cons; done.
      * done.
Qed.

Lemma flags_rejects_coordinates :
  flags_rejects "INVALID_COORDINATES" check_coordinates.
Proof.
  intros ref st keep st' Hc. unfold check_coordinates in Hc.
  assert (Hbad : ∀ keep st',
    Ok (false, reject "coordinate_errors" "INVALID_COORDINATES" ref st)
    = Ok (keep, st') →
    (∀ r, r ≠ ref → objs st' !! r = objs st !! r)
    ∧ (keep = false →
       deref st' ref !! "validity_flag" = Some "INVALID_COORDINATES")
    ∧ (keep = true →
       deref st' ref !! "validity_flag" = deref st ref !! "validity_flag")
    ∧ grows st st').
  { intros ? ? [= <- <-]. split; [intros r Hr; by apply objs_reject_ne|].
    split; [intros _; by rewrite deref_reject, lookup_insert_eq|].
    split; [done|apply grows_reject]. }
  destruct (_ ≫= _) as [[[[? ?] ?] ?]|]; [|by apply Hbad].
  destruct (_ && _); [|by apply Hbad].
  injection Hc as <- <-. split; [done|]. split; [done|].
  split; [done|apply grows_refl].
Qed.

Lemma flags_rejects_datetime :
  flags_rejects "INVALID_DATETIME" check_datetime.
Proof.
  intros ref st keep st' Hc. unfold check_datetime in Hc.
  assert (Hbad : ∀ keep st',
    Ok (false, reject "datetime_errors" "INVALID_DATETIME" ref st)
    = Ok (keep, st') →
    (∀ r, r ≠ ref → objs st' !! r = objs st !! r)
    ∧ (keep = false →
       deref st' ref !! "validity_flag" = Some "INVALID_DATETIME")
    ∧ (keep = true →
       deref st' ref !! "validity_flag" = deref st ref !! "validity_flag")
    ∧ grows st st').
  { intros ? ? [= <- <-]. split; [intros r Hr; by apply objs_reject_ne|].
    split; [intros _; by rewrite deref_reject, lookup_insert_eq|].
    split; [done|apply grows_reject]. }
  destruct (dict_get (deref st ref) "pickup_datetime") as [pickup_s|];
    [|done]. simpl in Hc.
  destruct (strptime pickup_s) as [pickup_dt|]; [|by apply Hbad].
  destruct (dict_get (deref st ref) "dropoff_datetime") as [dropoff_s|];
    [|done]. simpl in Hc.
  destruct (strptime dropoff_s) as [dropoff_dt|]; [|by apply Hbad].
  destruct (_ <? _)%Z; [|by apply Hbad].
  injection Hc as <- <-.
  split; [intros r Hr; by apply objs_set_field_ne|].
  split; [done|].
  split; [intros _; by rewrite deref_set_field, lookup_insert_ne|].
  apply grows_set_field.
Qed.

Lemma flags_rejects_trip_duration :
  flags_rejects "INVALID_DURATION_OR_PASSENGERS" check_trip_duration.
Proof.
  intros ref st keep st' Hc. unfold check_trip_duration in Hc.
  assert (Hbad : ∀ keep st',
    Ok (false, reject "duration_errors" "INVALID_DURATION_OR_PASSENGERS"
                 ref st)
    = Ok (keep, st') →
    (∀ r, r ≠ ref → objs st' !! r = objs st !! r)
    ∧ (keep = false →
       deref st' ref !! "validity_flag"
       = Some "INVALID_DURATION_OR_PASSENGERS")
    ∧ (keep = true →
       deref st' ref !! "validity_flag" = deref st ref !! "validity_flag")
    ∧ grows st st').
  { intros ? ? [= <- <-]. split; [intros r Hr; by apply objs_reject_ne|].
    split; [intros _; by rewrite deref_reject, lookup_insert_eq|].
    split; [done|apply grows_reject]. }
  destruct (_ ≫= _) as [[? ?]|]; [|by apply Hbad].
  destruct (_ && _); [|by apply Hbad].
  injection Hc as <- <-. split; [done|]. split; [done|].
  split; [done|apply grows_refl].
Qed.

(** The validation stages return when their checks do. *)
Lemma validate_loop_total flag check (P : cleaner → N → Prop) :
  flags_rejects flag check →
  (∀ ref st, P st ref → ∃ keep st', check ref st = Ok (keep, st')) →
  (∀ st st' ref, grows st st' → P st ref → P st' ref) →
  ∀ data st, (∀ ref, ref ∈ data → P st ref) →
  ∃ valid st', validate_loop check data st = Ok (valid, st').
Proof.
  intros Hcheck Htotal Hmono.
  induction data as [|ref data IH]; intros st HP; [by eexists _, _|].
  simpl.
  destruct (Htotal ref st) as (keep & st1 & Hc); [apply HP; by left|].
  rewrite Hc. simpl.
  destruct (Hcheck _ _ _ _ Hc) as (_ & _ & _ & Hg).
  destruct (IH st1) as (valid & st2 & Hrest).
  { intros r Hr. apply (Hmono st); [done|]. apply HP. by right. }
  rewrite Hrest. simpl. by eexists _, _.
Qed.

Lemma check_coordinates_total ref st :
  ∃ keep st', check_coordinates ref st = Ok (keep, st').
Proof.
  unfold check_coordinates.
  destruct (_ ≫= _) as [[[[? ?] ?] ?]|]; [|by eexists _, _].
  destruct (_ && _); by eexists _, _.
Qed.

Lemma check_trip_duration_total ref st :
  ∃ keep st', check_trip_duration ref st = Ok (keep, st').
Proof.
  unfold check_trip_duration.
  destruct (_ ≫= _) as [[? ?]|]; [|by eexists _, _].
  destruct (_ && _); by eexists _, _.
Qed.

(** The record carries both timestamps. *)
Definition has_datetimes (r : record) : Prop :=
  is_Some (r !! "pickup_datetime") ∧ is_Some (r !! "dropoff_datetime").

Lemma check_datetime_total ref st :
  has_datetimes (deref st ref) →
  ∃ keep st', check_datetime ref st = Ok (keep, st').
Proof.
  intros [[p Hp] [d Hd]]. unfold check_datetime, dict_get.
  rewrite Hp. simpl. destruct (strptime p); [|by eexists _, _].
  rewrite Hd. simpl. destruct (strptime d); [|by eexists _, _].
  destruct (_ <? _)%Z; by eexists _, _.
Qed.

Lemma has_datetimes_grows st st' ref :
  grows st st' → has_datetimes (deref st ref) → has_datetimes (deref st' ref).
Proof. intros Hg [H1 H2]. split; by apply Hg. Qed.

(** *** _detect_outliers *)

Lemma mark_outliers_frame outlier_indices data : ∀ start st,
  untouched_outside data st (mark_outliers start outlier_indices data st)
  ∧ grows st (mark_outliers start outlier_indices data st)
  ∧ ∀ r, deref (mark_outliers start outlier_indices data st) r
           !! "validity_flag"
         = deref st r !! "validity_flag".
Proof.
  induction data as [|ref data IH]; intros start st; simpl.
  { split; [done|]. split; [apply grows_refl|done]. }
  set (st1 := if decide (start ∈ outlier_indices)
              then count "outliers_detected"
                     (set_field ref "outlier_flag" "DURATION_OUTLIER" st)
              else set_field ref "outlier_flag" "NORMAL" st).
  destruct (IH (start + 1)%Z st1) as (Hout & Hg & Hflag).
  assert (Hother : ∀ r, r ≠ ref → objs st1 !! r = objs st !! r).
  { intros r Hr. unfold st1. destruct (decide _); by apply objs_set_field_ne. }
  assert (Hg1 : grows st st1).
  { unfold st1. destruct (decide _).
    - eapply grows_trans; [apply grows_set_field|apply grows_count].
    - apply grows_set_field. }
  assert (Hflag1 : ∀ r, deref st1 r !! "validity_flag"
                        = deref st r !! "validity_flag").
  { intros r. destruct (decide (r = ref)) as [->|Hne].
    - unfold st1. destruct (decide _);
        by rewrite ?deref_count, deref_set_field, lookup_insert_ne.
    - by rewrite (deref_objs st st1 r) by by apply Hother. }
  split; [|split].
  - intros r Hr. apply not_elem_of_cons in Hr as [Hne Hr].
    rewrite (Hout r Hr). by apply Hother.
  - by eapply grows_trans.
  - intros r. by rewrite Hflag.
Qed.

Lemma mark_outliers_flag outlier_indices data : ∀ start st,
  NoDup data → ∀ i ref, data !! i = Some ref →
  deref (mark_outliers start outlier_indices data st) ref !! "outlier_flag"
  = Some (if decide ((start + Z.of_nat i)%Z ∈ outlier_indices)
          then "DURATION_OUTLIER" else "NORMAL").
Proof.
  induction data as [|ref0 data IH]; intros start st Hnd i ref Hi;
    [by rewrite lookup_nil in Hi|].
  apply NoDup_cons in Hnd as [Hnotin Hnd]. simpl.
  destruct i as [|i]; simpl in Hi.
  - injection Hi as <-.
    destruct (mark_outliers_frame outlier_indices data (start + 1)%Z
                (if decide (start ∈ outlier_indices)
                 then count "outliers_detected"
                        (set_field ref0 "outlier_flag" "DURATION_OUTLIER" st)
                 else set_field ref0 "outlier_flag" "NORMAL" st))
      as (Hout & _ & _).
    rewrite (deref_objs _ _ ref0 (Hout ref0 Hnotin)).
    rewrite Z.add_0_r.
    destruct (decide (start ∈ outlier_indices));
      by rewrite ?deref_count, deref_set_field, lookup_insert_eq.
  - rewrite (IH (start + 1)%Z _ Hnd i ref Hi).
    by replace (start + 1 + Z.of_nat i)%Z with (start + Z.of_nat (S i))%Z
      by lia.
Qed.

(** The statistics of [detect_outliers_iqr] carry the quartiles as soon as
    there are four values. *)
Lemma detect_outliers_iqr_total values multiplier :
  ∃ outlier_indices stats,
    CustomAlgorithms.detect_outliers_iqr values multiplier
    = Ok (outlier_indices, stats)
    ∧ (4 ≤ length values → is_Some (stats !! "q1") ∧ is_Some (stats !! "q3")).
Proof.
  destruct (decide (4 ≤ length values)) as [Hlong|Hshort].
  - destruct (detect_outliers_iqr_long values multiplier Hlong)
      as (ps & q1 & q3 & _ & _ & _ & Hres).
    eexists _, _. split; [exact Hres|]. intros _.
    split; by simplify_map_eq.
  - exists [], ∅. split; [|lia].
    unfold CustomAlgorithms.detect_outliers_iqr.
    destruct (length values <? 4) eqn:E; [done|].
    apply Nat.ltb_ge in E. lia.
Qed.

(** The stage returns the list it was given; it writes only the outlier
    flag of the records in it. *)
Lemma detect_outliers_result random_sample data st out st' :
  _detect_outliers random_sample data st = Ok (out, st') →
  out = data ∧ untouched_outside data st st' ∧ grows st st'
  ∧ ∀ r, deref st' r !! "validity_flag" = deref st r !! "validity_flag".
Proof.
  unfold _detect_outliers. intros Hrun.
  destruct (if (_ <? _)%Z then _ else _) as [outlier_indices|]; [|done].
  simpl in Hrun. injection Hrun as <- <-. split; [done|].
  apply mark_outliers_frame.
Qed.

(** A sampling call returns as many elements as it is asked for. *)
Definition sample_sized (random_sample : list Q → nat → list Q) : Prop :=
  ∀ population k, k ≤ length population →
    length (random_sample population k) = k.

Lemma detect_outliers_total random_sample data st :
  sample_sized random_sample →
  ∃ st', _detect_outliers random_sample data st = Ok (data, st').
Proof.
  intros Hsample. unfold _detect_outliers.
  set (durations := (λ ref, duration_of (deref st ref)) <$> data).
  destruct (large_dataset_threshold <? Z.of_nat (length durations))%Z eqn:E.
  - apply Z.ltb_lt in E. unfold large_dataset_threshold in E.
    unfold sampled_outliers.
    set (sample := random_sample durations _).
    assert (Hlen : 4 ≤ length sample).
    { unfold sample. rewrite Hsample; unfold max_sample_size; lia. }
    destruct (detect_outliers_iqr_total sample 2)
      as (idx & stats & -> & Hq).
    destruct (Hq Hlen) as [[q1 Hq1] [q3 Hq3]]. simpl.
    unfold dict_get. rewrite Hq1. simpl. rewrite Hq3. simpl.
    by eexists.
  - destruct (detect_outliers_iqr_total durations 2) as (idx & stats & -> & _).
    simpl. by eexists.
Qed.

(** *** clean_dataset as a chain of stages *)

Lemma objs_record_totals data st : objs (record_totals data st) = objs st.
Proof. by destruct data. Qed.

Lemma clean_dataset_stages random_sample raw_data cleaned st :
  clean_dataset random_sample raw_data = Ok (cleaned, st) →
  ∃ data st0 unique st1 st2 valid3 st3 valid4 st4 st5 st6,
    load raw_data = (data, st0)
    ∧ _remove_duplicates data st0 = (unique, st1)
    ∧ _fix_missing_values unique st1 = (unique, st2)
    ∧ _validate_coordinates unique st2 = Ok (valid3, st3)
    ∧ _validate_datetime valid3 st3 = Ok (valid4, st4)
    ∧ _validate_trip_duration valid4 st4 = Ok (cleaned, st5)
    ∧ _detect_outliers random_sample cleaned st5 = Ok (cleaned, st6)
    ∧ st = record_totals cleaned st6.
Proof.
  unfold clean_dataset. intros Hrun.
  destruct (load raw_data) as [data st0] eqn:H0.
  destruct (_remove_duplicates data st0) as [unique st1] eqn:H1.
  destruct (_fix_missing_values unique st1) as [fixed st2] eqn:H2.
  assert (fixed = unique) as -> by (by injection H2 as <- _).
  destruct (_validate_coordinates unique st2) as [[valid3 st3]|] eqn:H3;
    [|done]. simpl in Hrun.
  destruct (_validate_datetime valid3 st3) as [[valid4 st4]|] eqn:H4;
    [|done]. simpl in Hrun.
  destruct (_validate_trip_duration valid4 st4) as [[valid5 st5]|] eqn:H5;
    [|done]. simpl in Hrun.
  destruct (_detect_outliers random_sample valid5 st5) as [[out st6]|] eqn:H6;
    [|done]. simpl in Hrun.
  destruct (detect_outliers_result _ _ _ _ _ H6) as (-> & _).
  injection Hrun as <- <-.
  by eexists data, st0, unique, st1, st2, valid3, st3, valid4, st4, st5, st6.
Qed.

Lemma clean_dataset_count random_sample raw_data cleaned st :
  clean_dataset random_sample raw_data = Ok (cleaned, st) →
  length cleaned ≤ length raw_data.
Proof.
  intros Hrun.
  destruct (clean_dataset_stages _ _ _ _ Hrun)
    as (data & st0 & unique & st1 & st2 & valid3 & st3 & valid4 & st4 & st5
        & st6 & H0 & H1 & H2 & H3 & H4 & H5 & H6 & _).
  destruct (load_spec _ _ _ H0) as [-> _].
  destruct (remove_duplicates_loop_spec _ _ _ _ _ H1) as (_ & S1 & _).
  destruct (validate_loop_spec _ _ _ flags_rejects_coordinates _ _ _ H3)
    as (S3 & _).
  destruct (validate_loop_spec _ _ _ flags_rejects_datetime _ _ _ H4)
    as (S4 & _).
  destruct (validate_loop_spec _ _ _ flags_rejects_trip_duration _ _ _ H5)
    as (S5 & _).
  apply sublist_length in S1, S3, S4, S5.
  unfold row_refs in S1. rewrite length_fmap, length_seq in S1. lia.
Qed.

Lemma clean_dataset_total random_sample raw_data :
  sample_sized random_sample → Forall has_datetimes raw_data →
  ∃ cleaned st, clean_dataset random_sample raw_data = Ok (cleaned, st).
Proof.
  intros Hsample Hrows. unfold clean_dataset.
  destruct (load raw_data) as [data st0] eqn:H0.
  destruct (load_spec _ _ _ H0) as [-> Hobjs].
  destruct (_remove_duplicates _ st0) as [unique st1] eqn:H1.
  destruct (remove_duplicates_loop_spec _ _ _ _ _ H1) as (O1 & S1 & _).
  assert (Hnd : NoDup unique).
  { eapply sublist_NoDup; [apply NoDup_row_refs|exact S1]. }
  destruct (fix_missing_values_spec unique st1 Hnd)
    as (st2 & -> & _ & _ & _ & _ & G2).
  assert (Hdt : ∀ ref, ref ∈ unique → has_datetimes (deref st2 ref)).
  { intros ref Href. apply (has_datetimes_grows st1); [done|].
    eapply elem_of_sublist in Href; [|exact S1].
    apply elem_of_row_refs in Href as (i & Hi & ->).
    destruct (lookup_lt_is_Some_2 raw_data i Hi) as [row Hrow].
    unfold deref. rewrite O1, N.add_0_l, (Hobjs i row Hrow). simpl.
    by apply (proj1 (Forall_lookup _ _) Hrows i). }
  destruct (validate_loop_total _ check_coordinates (λ _ _, True)
              flags_rejects_coordinates
              (λ ref st _, check_coordinates_total ref st)
              (λ _ _ _ _ _, I) unique st2 (λ _ _, I))
    as (valid3 & st3 & H3).
  unfold _validate_coordinates. rewrite H3. simpl.
  destruct (validate_loop_spec _ _ _ flags_rejects_coordinates _ _ _ H3)
    as (S3 & _ & G3 & _).
  destruct (validate_loop_total _ check_datetime
              (λ st ref, has_datetimes (deref st ref))
              flags_rejects_datetime check_datetime_total
              has_datetimes_grows valid3 st3)
    as (valid4 & st4 & H4).
  { intros ref Href. apply (has_datetimes_grows st2); [done|].
    apply Hdt. by eapply elem_of_sublist. }
  unfold _validate_datetime. rewrite H4. simpl.
  destruct (validate_loop_total _ check_trip_duration (λ _ _, True)
              flags_rejects_trip_duration
              (λ ref st _, check_trip_duration_total ref st)
              (λ _ _ _ _ _, I) valid4 st4 (λ _ _, I))
    as (valid5 & st5 & H5).
  unfold _validate_trip_duration. rewrite H5. simpl.
  destruct (detect_outliers_total random_sample valid5 st5 Hsample)
    as (st6 & ->).
  simpl. by eexists _, _.
Qed.

(** The row is an exact duplicate of an earlier row. *)
Definition duplicate_row (raw_data : list record) (i : nat) (row : record)
  : Prop :=
  ∃ j row', j < i ∧ raw_data !! j = Some row'
            ∧ unique_key row' = unique_key row.

End Stages.

(** ** Outlier flags when the sample is constant *)

Section ConstantSample.
Context `{Builtins}.
Import TaxiDataCleaner.

Lemma dict_get_Some `{Countable K} {V} (d : gmap K V) k v :
  d !! k = Some v → dict_get d k = Ok v.
Proof. unfold dict_get. by intros ->. Qed.

Lemma py_set_list_to_set l : py_set l = list_to_set l.
Proof.
  unfold py_set. induction l as [|i l IH].
  - apply dom_empty_L.
  - rewrite fmap_cons, list_to_map_cons, dom_insert_L, IH. done.
Qed.

Lemma elem_of_py_set i l : i ∈ py_set l ↔ In i l.
Proof.
  rewrite py_set_list_to_set, elem_of_list_to_set. apply list_elem_of_In.
Qed.

(** Every percentile strictly between 0 and 100 of a constant list is the
    constant. *)
Lemma percentile_constant values percentiles c p :
  values ≠ [] → Forall (λ x, x = c) values →
  In p percentiles → (0 < p < 100)%Z →
  ∃ res x, CustomAlgorithms.calculate_percentiles values percentiles = Ok res
           ∧ res !! p = Some x ∧ (x == c)%Q.
Proof.
  intros Hne Hc Hp Hr.
  destruct (calculate_percentiles_nonempty values percentiles Hne)
    as (res & sorted & Hres & Hperm & _ & Hin).
  destruct (Hin p Hp) as (x & Hx & Hresp); [lia|].
  assert (Hsne : sorted ≠ []).
  { intros ->. apply Permutation_nil in Hperm. done. }
  destruct (percentile_value_interp sorted p Hsne Hr)
    as (x' & lo & hi & Hx' & Hlo & Hhi & Heq).
  assert (x' = x) as -> by congruence.
  assert (Hall : Forall (λ x, x = c) sorted) by by rewrite Hperm.
  assert (lo = c) as ->.
  { by apply (proj1 (Forall_lookup _ _) Hall _ _ Hlo). }
  assert (hi = c) as ->.
  { by apply (proj1 (Forall_lookup _ _) Hall _ _ Hhi). }
  exists res, x. split; [done|]. split; [done|].
  rewrite Heq. ring.
Qed.

(** With a constant sample both bounds are the constant. *)
Lemma sampled_outliers_constant sample durations c :
  4 ≤ length sample → Forall (λ x, x = c) sample →
  ∃ outlier_indices,
    sampled_outliers sample durations = Ok outlier_indices
    ∧ ∀ (i : nat) d, durations !! i = Some d →
        (Z.of_nat i ∈ outlier_indices ↔ ¬ (d == c)%Q).
Proof.
  intros Hlen Hc.
  assert (Hne : sample ≠ []) by (intros ->; simpl in Hlen; lia).
  destruct (detect_outliers_iqr_long sample 2 Hlen)
    as (ps & q1 & q3 & Hps & Hq1 & Hq3 & Hres).
  destruct (percentile_constant sample [25; 75]%Z c 25%Z Hne Hc)
    as (ps1 & x1 & Hps1 & Hx1 & Hx1c); [simpl; tauto|lia|].
  destruct (percentile_constant sample [25; 75]%Z c 75%Z Hne Hc)
    as (ps3 & x3 & Hps3 & Hx3 & Hx3c); [simpl; tauto|lia|].
  assert (ps1 = ps) as -> by congruence.
  assert (ps3 = ps) as -> by congruence.
  assert (x1 = q1) as -> by congruence.
  assert (x3 = q3) as -> by congruence.
  unfold sampled_outliers. rewrite Hres. simpl.
  rewrite (dict_get_Some _ "q1" q1) by by simplify_map_eq. simpl.
  rewrite (dict_get_Some _ "q3" q3) by by simplify_map_eq. simpl.
  eexists. split; [reflexivity|].
  intros i d Hd. rewrite elem_of_py_set, outlier_scan_spec.
  rewrite Z.sub_0_r, Nat2Z.id.
  assert (Hlo : (q1 - 2 * (q3 - q1) == c)%Q) by (rewrite Hx1c, Hx3c; ring).
  assert (Hhi : (q3 + 2 * (q3 - q1) == c)%Q) by (rewrite Hx1c, Hx3c; ring).
  split.
  - intros (d' & _ & Hd' & Hout) Heq. assert (d' = d) as -> by congruence.
    rewrite Hlo, Hhi, Heq in Hout.
    destruct Hout as [Hout|Hout]; by apply Qlt_irrefl in Hout.
  - intros Hneq. exists d. split; [lia|]. split; [done|].
    rewrite Hlo, Hhi.
    destruct (Q_dec d c) as [[Hlt|Hgt]|Heq]; [by left|by right|done].
Qed.

(** Above the threshold, a constant sample flags exactly the records whose
    duration differs from the constant. *)
Lemma detect_outliers_large_constant random_sample data st c :
  NoDup data →
  let durations := (λ ref, duration_of (deref st ref)) <$> data in
  let n := Z.of_nat (length durations) in
  (large_dataset_threshold < n)%Z →
  let sample :=
    random_sample durations (Z.to_nat (Z.min max_sample_size n)) in
  4 ≤ length sample → Forall (λ x, x = c) sample →
  ∃ st', _detect_outliers random_sample data st = Ok (data, st')
    ∧ ∀ i ref, data !! i = Some ref →
        deref st' ref !! "outlier_flag"
        = Some (if Qeq_bool (duration_of (deref st ref)) c
                then "NORMAL" else "DURATION_OUTLIER").
Proof.
  intros Hnd durations n Hlarge sample Hlen Hc.
  destruct (sampled_outliers_constant sample durations c Hlen Hc)
    as (outlier_indices & Hs & Hmem).
  unfold _detect_outliers. fold durations. fold n.
  destruct (large_dataset_threshold <? n)%Z eqn:E;
    [|apply Z.ltb_ge in E; lia].
  fold sample. rewrite Hs. simpl.
  eexists. split; [reflexivity|].
  intros i ref Hi.
  rewrite (mark_outliers_flag _ _ _ _ Hnd i ref Hi). rewrite Z.add_0_l.
  assert (Hd : durations !! i = Some (duration_of (deref st ref))).
  { unfold durations. by rewrite list_lookup_fmap, Hi. }
  specialize (Hmem i _ Hd).
  destruct (Qeq_bool (duration_of (deref st ref)) c) eqn:Eq.
  - apply Qeq_bool_iff in Eq. rewrite decide_False; [done|].
    intros Hin. by apply Hmem in Hin.
  - rewrite decide_True; [done|]. apply Hmem. intros Heq.
    apply Qeq_bool_iff in Heq. congruence.
Qed.

(** The durations read from freshly loaded rows. *)
Lemma durations_after_load rows data st :
  load rows = (data, st) →
  (λ ref, duration_of (deref st ref)) <$> data = duration_of <$> rows.
Proof.
  intros Hload. destruct (load_spec _ _ _ Hload) as [-> Hobjs].
  apply list_eq. intros i. rewrite !list_lookup_fmap.
  destruct (rows !! i) as [row|] eqn:Hrow.
  - rewrite row_refs_lookup by by eapply lookup_lt_Some.
    simpl. rewrite N.add_0_l. unfold deref.
    by rewrite (Hobjs i row Hrow).
  - apply lookup_ge_None in Hrow.
    assert (Hnone : row_refs 0 (length rows) !! i = None).
    { apply lookup_ge_None. unfold row_refs.
      by rewrite length_fmap, length_seq. }
    by rewrite Hnone.
Qed.
End ConstantSample.

(** The flag of the first row of a large input when the sample is
    constant. *)
Lemma first_flag_after_large random_sample rows row c :
  let durations := TaxiDataCleaner.duration_of (H := DecimalBuiltins.builtins) <$> rows in
  let n := Z.of_nat (length durations) in
  rows !! 0 = Some row →
  (TaxiDataCleaner.large_dataset_threshold < n)%Z →
  let sample :=
    random_sample durations
      (Z.to_nat (Z.min TaxiDataCleaner.max_sample_size n)) in
  4 ≤ length sample → Forall (λ x, x = c) sample →
  first_flag_after random_sample rows
  = Some (if Qeq_bool (TaxiDataCleaner.duration_of (H := DecimalBuiltins.builtins) row) c
          then "NORMAL" else "DURATION_OUTLIER").
Proof.
  intros durations n Hrow Hlarge sample Hlen Hc.
  unfold first_flag_after.
  destruct (TaxiDataCleaner.load rows) as [data st] eqn:Hload.
  pose proof (durations_after_load (H := DecimalBuiltins.builtins)
                rows data st Hload) as Hd.
  destruct (load_spec _ _ _ Hload) as [Hdata Hobjs].
  assert (Hnd : NoDup data) by (rewrite Hdata; apply NoDup_row_refs).
  destruct (detect_outliers_large_constant (H := DecimalBuiltins.builtins)
              random_sample data st c Hnd) as (st' & Hrun & Hflag).
  - rewrite Hd. exact Hlarge.
  - rewrite Hd. exact Hlen.
  - rewrite Hd. exact Hc.
  - rewrite Hrun.
    assert (H0 : data !! 0 = Some 0%N).
    { rewrite Hdata. rewrite row_refs_lookup; [done|].
      by eapply lookup_lt_Some. }
    rewrite (Hflag 0 0%N H0). unfold TaxiDataCleaner.deref.
    pose proof (Hobjs 0 row Hrow) as Ho.
    change (N.of_nat 0) with 0%N in Ho. by rewrite Ho.
Qed.

Lemma sampling_rows_durations :
  TaxiDataCleaner.duration_of (H := DecimalBuiltins.builtins) <$> sampling_rows
  = replicate (Z.to_nat 50000) 100%Q ++ [150%Q]
    ++ replicate (Z.to_nat 50000) 200%Q.
Proof.
  unfold sampling_rows. rewrite !fmap_app, !fmap_replicate. reflexivity.
Qed.

(** C9, as stated, fails: two runs on the same 100001 survivors flag the
    first trip differently when the sampling call returns different, equally
    possible, samples. *)
Lemma detect_outliers_depends_on_sample :
  (∀ population k, k ≤ length population →
     is_sample population k (sample_first population k)
     ∧ is_sample population k (sample_last population k))
  ∧ first_flag_after sample_first sampling_rows = Some "NORMAL"
  ∧ first_flag_after sample_last sampling_rows = Some "DURATION_OUTLIER".
Proof.
  split.
  { intros population k Hk.
    split; [by apply sample_first_valid|by apply sample_last_valid]. }
  pose proof sampling_rows_durations as Hd.
  remember (Z.to_nat 50000) as n eqn:Hn.
  assert (Hn' : Z.of_nat n = 50000%Z) by (subst n; lia).
  assert (Hrow : sampling_rows !! 0 = Some (trip_of "100")).
  { unfold sampling_rows. rewrite <- Hn. rewrite lookup_app_l.
    - apply lookup_replicate_2. lia.
    - rewrite length_replicate. lia. }
  assert (Hlen : length (replicate n 100%Q ++ [150%Q] ++ replicate n 200%Q)
                 = n + (1 + n)).
  { by rewrite !length_app, !length_replicate. }
  split.
  - rewrite (first_flag_after_large sample_first sampling_rows
               (trip_of "100") 100%Q Hrow).
    + reflexivity.
    + rewrite Hd, Hlen. unfold TaxiDataCleaner.large_dataset_threshold. lia.
    + rewrite Hd, Hlen. unfold TaxiDataCleaner.max_sample_size, sample_first.
      replace (Z.to_nat (Z.min 50000 (Z.of_nat (n + (1 + n))))) with n by lia.
      rewrite take_app_length' by by rewrite length_replicate.
      rewrite length_replicate. lia.
    + rewrite Hd, Hlen. unfold TaxiDataCleaner.max_sample_size, sample_first.
      replace (Z.to_nat (Z.min 50000 (Z.of_nat (n + (1 + n))))) with n by lia.
      rewrite take_app_length' by by rewrite length_replicate.
      apply Forall_replicate. done.
  - rewrite (first_flag_after_large sample_last sampling_rows
               (trip_of "100") 200%Q Hrow).
    + reflexivity.
    + rewrite Hd, Hlen. unfold TaxiDataCleaner.large_dataset_threshold. lia.
    + rewrite Hd, Hlen. unfold TaxiDataCleaner.max_sample_size, sample_last.
      replace (Z.to_nat (Z.min 50000 (Z.of_nat (n + (1 + n))))) with n by lia.
      rewrite Hlen. replace (n + (1 + n) - n) with (n + 1) by lia.
      rewrite (app_assoc (replicate n 100%Q)).
      rewrite drop_app_length'
        by (rewrite length_app, length_replicate; simpl; lia).
      rewrite length_replicate. lia.
    + rewrite Hd, Hlen. unfold TaxiDataCleaner.max_sample_size, sample_last.
      replace (Z.to_nat (Z.min 50000 (Z.of_nat (n + (1 + n))))) with n by lia.
      rewrite Hlen. replace (n + (1 + n) - n) with (n + 1) by lia.
      rewrite (app_assoc (replicate n 100%Q)).
      rewrite drop_app_length'
        by (rewrite length_app, length_replicate; simpl; lia).
      apply Forall_replicate. done.
Qed.

(** C9 (amended). Up to the threshold of 100000 survivors no sample is
    drawn and the result of [_detect_outliers] does not depend on the
    sampling call; above it the flags depend on the sample that the call
    returns, and the stage takes no seed. *)
Theorem detect_outliers_small_deterministic `{Builtins}
    (random_sample1 random_sample2 : list Q → nat → list Q)
    (data : list N) (st : TaxiDataCleaner.cleaner) :
  (Z.of_nat (length data) <= 100000)%Z →
  TaxiDataCleaner._detect_outliers random_sample1 data st
  = TaxiDataCleaner._detect_outliers random_sample2 data st.
Proof.
  intros Hsmall. unfold TaxiDataCleaner._detect_outliers.
  rewrite length_fmap.
  destruct (TaxiDataCleaner.large_dataset_threshold <? Z.of_nat (length data))%Z
    eqn:E; [|done].
  apply Z.ltb_lt in E. unfold TaxiDataCleaner.large_dataset_threshold in E. lia.
Qed.

(** Five loaded trips, the first one far longer than the others. *)
Definition short_rows : list record :=
  [trip_of "900"; trip_of "100"; trip_of "110"; trip_of "120"; trip_of "130"].

Lemma detect_outliers_small_deterministic_witness :
  let data := (TaxiDataCleaner.load short_rows).1 in
  let st := (TaxiDataCleaner.load short_rows).2 in
  TaxiDataCleaner._detect_outliers (H := DecimalBuiltins.builtins)
    sample_first data st
  = TaxiDataCleaner._detect_outliers (H := DecimalBuiltins.builtins)
      sample_last data st
  ∧ first_flag_after sample_first short_rows = Some "DURATION_OUTLIER"
  ∧ first_flag_after sample_last short_rows = Some "DURATION_OUTLIER".
Proof.
  intros data st. split.
  - apply detect_outliers_small_deterministic. vm_compute. discriminate.
  - split; vm_compute; reflexivity.
Defined.

(** * find_top_k with k = 0 *)

(** C4 fails on the code for k = 0: with a non-empty list the loop reads
    [heap[0]] of the empty heap, so the call raises [IndexError] instead of
    returning the empty list. *)
Theorem find_top_k_zero_raises (item : tuple) (rest : list tuple)
    (key_index : nat) :
  CustomAlgorithms.find_top_k (item :: rest) 0 key_index = Raise IndexError.
Proof.
  unfold CustomAlgorithms.find_top_k.
  destruct (Z.of_nat (length (item :: rest)) <=? 0)%Z eqn:E.
  { apply Z.leb_le in E. simpl length in E. lia. }
  simpl. unfold getitem. destruct (item !! key_index); done.
Qed.

(** * Properties of the feature engineering pipeline *)

Section Features.
Context `{Builtins}.
Import TaxiFeatureEngineer.

Lemma for_each_length body data : ∀ stats,
  length (for_each body data stats).1 = length data.
Proof.
  induction data as [|r data IH]; intros stats; simpl; [done|].
  destruct (body r stats) as [r' stats1].
  specialize (IH stats1).
  destruct (for_each body data stats1) as [rest' stats2]. simpl in *.
  by rewrite IH.
Qed.

Lemma calculate_percentiles_total values percentiles :
  ∃ res, CustomAlgorithms.calculate_percentiles values percentiles = Ok res.
Proof.
  destruct values as [|v values]; [by eexists|].
  destruct (calculate_percentiles_nonempty (v :: values) percentiles)
    as (res & _ & Hres & _); [done|]. by exists res.
Qed.

Lemma detect_trip_patterns_length data stats :
  ∃ enhanced stats',
    _detect_trip_patterns data stats = Ok (enhanced, stats')
    ∧ length enhanced = length data.
Proof.
  unfold _detect_trip_patterns.
  destruct (collect_values data) as [[speeds distances] durations].
  destruct (calculate_percentiles_total speeds [10; 90]%Z) as [sp ->].
  destruct (calculate_percentiles_total distances [10; 90]%Z) as [dp ->].
  destruct (calculate_percentiles_total durations [10; 90]%Z) as [tp ->].
  simpl.
  pose proof (for_each_length (trip_patterns sp dp tp) data stats) as Hlen.
  destruct (for_each (trip_patterns sp dp tp) data stats) as [out stats'].
  by exists out, stats'.
Qed.

Lemma engineer_features_length data :
  ∃ enhanced stats,
    engineer_features data = Ok (enhanced, stats)
    ∧ length enhanced = length data.
Proof.
  unfold engineer_features, _calculate_trip_distance, _calculate_trip_speed,
    _extract_temporal_features, _calculate_efficiency_metrics,
    _classify_trip_zones.
  set (stats0 := bump _ _ _).
  pose proof (for_each_length trip_distance data stats0) as L1.
  destruct (for_each trip_distance data stats0) as [d1 s1].
  pose proof (for_each_length trip_speed d1 s1) as L2.
  destruct (for_each trip_speed d1 s1) as [d2 s2].
  pose proof (for_each_length temporal_features d2 s2) as L3.
  destruct (for_each temporal_features d2 s2) as [d3 s3].
  pose proof (for_each_length efficiency_metrics d3 s3) as L4.
  destruct (for_each efficiency_metrics d3 s3) as [d4 s4].
  pose proof (for_each_length trip_zones d4 s4) as L5.
  destruct (for_each trip_zones d4 s4) as [d5 s5].
  destruct (detect_trip_patterns_length d5 s5) as (out & stats & Hrun & L6).
  exists out, stats. split; [done|]. simpl in *. congruence.
Qed.

(** The idle time written by the efficiency step. *)
Lemma efficiency_metrics_idle_time r stats distance duration_seconds speed_kmh :
  float_field r "trip_distance_km" 0 = Some distance →
  float_field r "trip_duration" 0 = Some duration_seconds →
  float_field r "trip_speed_kmh" 0 = Some speed_kmh →
  (efficiency_metrics r stats).1 !! "estimated_idle_time"
  = Some (if Qltb 0 speed_kmh
          then format_fixed 0
                 (Qmax 0 (duration_seconds - distance / speed_kmh * 3600))
          else str_float duration_seconds).
Proof.
  intros Hd Ht Hs. unfold efficiency_metrics. rewrite Hd, Ht, Hs.
  cbn -[Qltb Qmax Qmin Qdiv Qmult Qminus Qplus]. 
  destruct (Qltb 0 distance && Qltb 0 duration_seconds);
    (rewrite lookup_insert_ne by done);
    (destruct (Qltb 0 speed_kmh);
     rewrite lookup_insert_ne by done; by rewrite lookup_insert_eq).
Qed.
Lemma efficiency_metrics_unparsable r stats :
  float_field r "trip_distance_km" 0 = None
  ∨ float_field r "trip_duration" 0 = None
  ∨ float_field r "trip_speed_kmh" 0 = None →
  (efficiency_metrics r stats).1 !! "estimated_idle_time" = Some "0".
Proof.
  intros Hnone. unfold efficiency_metrics.
  assert (Hparsed :
    (distance ← float_field r "trip_distance_km" 0;
     duration_seconds ← float_field r "trip_duration" 0;
     speed_kmh ← float_field r "trip_speed_kmh" 0;
     Some (distance, duration_seconds, speed_kmh)) = None).
  { destruct Hnone as [E|[E|E]]; rewrite E;
      repeat (destruct (float_field _ _ _)); done. }
  rewrite Hparsed. cbn [fst].
  rewrite lookup_insert_ne by done. rewrite lookup_insert_ne by done.
  by rewrite lookup_insert_eq.
Qed.
End Features.

(** * The claims about the pipelines *)

(** A well-formed input row, for the examples. *)
Definition trip_row (pickup dropoff duration passengers : string) : record :=
  list_to_map
    [("id", "id0"); ("vendor_id", "2");
     ("pickup_datetime", pickup); ("dropoff_datetime", dropoff);
     ("passenger_count", passengers);
     ("pickup_longitude", "-73.98"); ("pickup_latitude", "40.75");
     ("dropoff_longitude", "-73.96"); ("dropoff_latitude", "40.76");
     ("store_and_fwd_flag", "N"); ("trip_duration", duration)].

Definition evening_trip : record :=
  trip_row "2016-03-14 17:24:55" "2016-03-14 17:32:30" "455" "1".

(** C1. The list returned by the cleaning stages is never longer than the
    input, and the stages do return a list when every row carries its two
    timestamps and the sampling call returns as many elements as it is asked
    for.  Every stage of the feature engineering pipeline, and the pipeline
    as a whole, returns a list of the length of its input. *)
Theorem pipeline_record_counts `{Builtins} :
  (∀ random_sample raw_data cleaned st,
     TaxiDataCleaner.clean_dataset random_sample raw_data = Ok (cleaned, st) →
     length cleaned ≤ length raw_data)
  ∧ (∀ random_sample raw_data,
       sample_sized random_sample → Forall has_datetimes raw_data →
       ∃ cleaned st,
         TaxiDataCleaner.clean_dataset random_sample raw_data
         = Ok (cleaned, st))
  ∧ (∀ data stats,
       length (TaxiFeatureEngineer._calculate_trip_distance data stats).1
       = length data
       ∧ length (TaxiFeatureEngineer._calculate_trip_speed data stats).1
         = length data
       ∧ length (TaxiFeatureEngineer._extract_temporal_features data stats).1
         = length data
       ∧ length (TaxiFeatureEngineer._calculate_efficiency_metrics data stats).1
         = length data
       ∧ length (TaxiFeatureEngineer._classify_trip_zones data stats).1
         = length data
       ∧ ∃ enhanced stats',
           TaxiFeatureEngineer._detect_trip_patterns data stats
           = Ok (enhanced, stats')
           ∧ length enhanced = length data)
  ∧ (∀ data, ∃ enhanced stats,
       TaxiFeatureEngineer.engineer_features data = Ok (enhanced, stats)
       ∧ length enhanced = length data).
Proof.
  split; [|split; [|split]].
  - intros. by eapply clean_dataset_count.
  - intros. by apply clean_dataset_total.
  - intros data stats. repeat split; try apply for_each_length.
    apply detect_trip_patterns_length.
  - apply engineer_features_length.
Qed.

Lemma pipeline_record_counts_witness :
  ∃ cleaned st,
    TaxiDataCleaner.clean_dataset (H := DecimalBuiltins.builtins) sample_first
      [evening_trip; evening_trip] = Ok (cleaned, st)
    ∧ length cleaned ≤ 2.
Proof.
  destruct (proj1 (proj2 (pipeline_record_counts (H := DecimalBuiltins.builtins)))
              sample_first [evening_trip; evening_trip])
    as (cleaned & st & Hrun).
  - intros population k Hk. unfold sample_first. rewrite length_take. lia.
  - repeat constructor; by eexists.
  - exists cleaned, st. split; [done|].
    by apply (proj1 (pipeline_record_counts (H := DecimalBuiltins.builtins))
                sample_first [evening_trip; evening_trip] cleaned st).
Defined.

(** C7, as stated, fails for exact duplicates: the second of two identical
    rows is dropped and counted, and no validity flag is written on it. *)
Lemma duplicate_removed_without_flag :
  match TaxiDataCleaner.clean_dataset (H := DecimalBuiltins.builtins)
          sample_first [evening_trip; evening_trip] with
  | Ok (cleaned, st) =>
      cleaned = [0%N]
      ∧ TaxiDataCleaner.deref st 1 !! "validity_flag" = None
      ∧ counter "duplicates_removed" st = 1%Z
  | Raise _ => False
  end.
Proof. vm_compute. done. Qed.

(** C8, as stated, fails on the counter: a row with two absent fields gets
    both defaults, and the counter of fixed missing values goes up by one. *)
Lemma missing_values_counted_per_record :
  let row : record := <["vendor_id" := "2"]> ∅ in
  let '(data, st) := TaxiDataCleaner.load [row] in
  let '(_, st') := TaxiDataCleaner._fix_missing_values data st in
  substitutions row = 2%Z
  ∧ counter "missing_values_fixed" st = 0%Z
  ∧ counter "missing_values_fixed" st' = 1%Z.
Proof. vm_compute. done. Qed.

Lemma filled_lookup (r : record) :
  filled r !! "passenger_count"
  = (if TaxiDataCleaner.is_missing r "passenger_count"
     then Some "1" else r !! "passenger_count")
  ∧ filled r !! "store_and_fwd_flag"
    = (if TaxiDataCleaner.is_missing r "store_and_fwd_flag"
       then Some "N" else r !! "store_and_fwd_flag")
  ∧ filled r !! "vendor_id"
    = (if TaxiDataCleaner.is_missing r "vendor_id"
       then Some "1" else r !! "vendor_id")
  ∧ ∀ k, k ≠ "passenger_count" → k ≠ "store_and_fwd_flag" →
         k ≠ "vendor_id" → filled r !! k = r !! k.
Proof.
  unfold filled, fill.
  destruct (TaxiDataCleaner.is_missing r "passenger_count") eqn:E1;
    cbv iota; rewrite ?is_missing_insert_ne by done;
    destruct (TaxiDataCleaner.is_missing r "store_and_fwd_flag") eqn:E2;
    cbv iota; rewrite ?is_missing_insert_ne by done;
    destruct (TaxiDataCleaner.is_missing r "vendor_id") eqn:E3;
    cbv iota;
    (split; [|split; [|split; [|intros k K1 K2 K3]]]);
    repeat first [rewrite lookup_insert_eq
                 |rewrite lookup_insert_ne by done];
    done.
Qed.

(** C8 (amended). The stage returns the list it was given; in every record
    of the list an absent or empty passenger count becomes ['1'], an absent
    or empty store-and-forward flag ['N'] and an absent or empty vendor id
    ['1'], and nothing else changes; the counter of fixed missing values
    goes up by one for each record that received at least one default. *)
Theorem fix_missing_values_defaults (data : list N)
    (st : TaxiDataCleaner.cleaner) :
  NoDup data →
  ∃ st', TaxiDataCleaner._fix_missing_values data st = (data, st')
    ∧ (∀ ref, ref ∈ data →
         let old := TaxiDataCleaner.deref st ref in
         let new := TaxiDataCleaner.deref st' ref in
         new !! "passenger_count"
         = (if TaxiDataCleaner.is_missing old "passenger_count"
            then Some "1" else old !! "passenger_count")
         ∧ new !! "store_and_fwd_flag"
           = (if TaxiDataCleaner.is_missing old "store_and_fwd_flag"
              then Some "N" else old !! "store_and_fwd_flag")
         ∧ new !! "vendor_id"
           = (if TaxiDataCleaner.is_missing old "vendor_id"
              then Some "1" else old !! "vendor_id")
         ∧ ∀ k, k ≠ "passenger_count" → k ≠ "store_and_fwd_flag" →
                k ≠ "vendor_id" → new !! k = old !! k)
    ∧ (∀ r, r ∉ data →
         TaxiDataCleaner.objs st' !! r = TaxiDataCleaner.objs st !! r)
    ∧ counter "missing_values_fixed" st'
      = (counter "missing_values_fixed" st + records_needing_fix st data)%Z.
Proof.
  intros Hnd.
  destruct (fix_missing_values_spec data st Hnd)
    as (st' & Hrun & Hdata & Hout & Hcount & _).
  exists st'. split; [done|]. split; [|split; [done|done]].
  intros ref Href. simpl. rewrite (Hdata ref Href). apply filled_lookup.
Qed.

Lemma fix_missing_values_defaults_witness :
  ∃ st',
    TaxiDataCleaner._fix_missing_values [0%N]
      (TaxiDataCleaner.Cleaner {[0%N := <["vendor_id" := "2"]> ∅]}
         TaxiDataCleaner.initial_stats)
    = ([0%N], st')
    ∧ TaxiDataCleaner.deref st' 0 !! "passenger_count" = Some "1"
    ∧ counter "missing_values_fixed" st' = 1%Z.
Proof.
  destruct (fix_missing_values_defaults [0%N]
              (TaxiDataCleaner.Cleaner {[0%N := <["vendor_id" := "2"]> ∅]}
                 TaxiDataCleaner.initial_stats))
    as (st' & Hrun & Hfields & _ & Hcount).
  - apply NoDup_singleton.
  - exists st'. split; [done|]. split.
    + destruct (Hfields 0%N) as (Hp & _); [by left|]. exact Hp.
    + rewrite Hcount. reflexivity.
Defined.

(** C10, as stated, fails for an unparsable speed field: the conversion
    raises, the [except] clause runs, and the estimated idle time is ['0'],
    not the trip duration.  The same happens along the pipeline when the
    trip duration is unparsable: the speed step derives the speed 0.00 and
    the efficiency step writes ['0']. *)
Lemma unparsable_speed_idle_time :
  let r : record :=
    <["trip_speed_kmh" := "fast"]>
      (<["trip_distance_km" := "1.000"]> (<["trip_duration" := "120"]> ∅)) in
  let r0 : record :=
    <["trip_distance_km" := "1.000"]> (<["trip_duration" := "2 min"]> ∅) in
  let r1 := (TaxiFeatureEngineer.trip_speed (H := DecimalBuiltins.builtins)
               r0 ∅).1 in
  float_field (H := DecimalBuiltins.builtins) r "trip_duration" 0 = Some 120%Q
  ∧ str_float (Builtins := DecimalBuiltins.builtins) 120 = "120.0"
  ∧ (TaxiFeatureEngineer.efficiency_metrics (H := DecimalBuiltins.builtins)
       r ∅).1 !! "estimated_idle_time" = Some "0"
  ∧ r1 !! "trip_speed_kmh" = Some "0.00"
  ∧ (TaxiFeatureEngineer.efficiency_metrics (H := DecimalBuiltins.builtins)
       r1 ∅).1 !! "estimated_idle_time" = Some "0".
Proof. vm_compute. done. Qed.

(** C10 (amended). In the efficiency step, when the distance, the duration
    and the speed all parse (an absent field counts as 0), a strictly
    positive speed gives the idle time max(0, duration - distance / speed *
    3600), printed without decimals, and a speed that is not positive gives
    the whole duration, printed as it is.  When one of the three fields is
    unparsable the idle time is ['0'], whatever the duration. *)
Theorem efficiency_idle_time `{Builtins} (r : record) (stats : counters) :
  let r' := (TaxiFeatureEngineer.efficiency_metrics r stats).1 in
  (∀ distance duration_seconds speed_kmh,
     float_field r "trip_distance_km" 0 = Some distance →
     float_field r "trip_duration" 0 = Some duration_seconds →
     float_field r "trip_speed_kmh" 0 = Some speed_kmh →
     ((0 < speed_kmh)%Q →
      r' !! "estimated_idle_time"
      = Some (format_fixed 0
                (Qmax 0 (duration_seconds - distance / speed_kmh * 3600))))
     ∧ ((speed_kmh <= 0)%Q →
        r' !! "estimated_idle_time" = Some (str_float duration_seconds)))
  ∧ (float_field r "trip_distance_km" 0 = None
     ∨ float_field r "trip_duration" 0 = None
     ∨ float_field r "trip_speed_kmh" 0 = None →
     r' !! "estimated_idle_time" = Some "0").
Proof.
  intros r'. unfold r'. split.
  - intros distance duration_seconds speed_kmh Hd Ht Hs.
    rewrite (efficiency_metrics_idle_time r stats _ _ _ Hd Ht Hs).
    split; intros Hspeed.
    + apply Qltb_true_lt in Hspeed. by rewrite Hspeed.
    + destruct (Qltb 0 speed_kmh) eqn:E; [|done].
      apply Qltb_true_lt in E. by apply Qlt_not_le in E.
  - intros Hnone. apply efficiency_metrics_unparsable. exact Hnone.
Qed.

Lemma efficiency_idle_time_witness :
  let moving : record :=
    <["trip_speed_kmh" := "30.00"]>
      (<["trip_distance_km" := "0.500"]> (<["trip_duration" := "120"]> ∅)) in
  let standing : record :=
    <["trip_speed_kmh" := "0.00"]>
      (<["trip_distance_km" := "0.000"]> (<["trip_duration" := "120"]> ∅)) in
  let unparsable : record :=
    <["trip_speed_kmh" := "fast"]>
      (<["trip_distance_km" := "1.000"]> (<["trip_duration" := "120"]> ∅)) in
  (TaxiFeatureEngineer.efficiency_metrics (H := DecimalBuiltins.builtins)
     moving ∅).1 !! "estimated_idle_time" = Some "60"
  ∧ (TaxiFeatureEngineer.efficiency_metrics (H := DecimalBuiltins.builtins)
       standing ∅).1 !! "estimated_idle_time" = Some "120.0"
  ∧ (TaxiFeatureEngineer.efficiency_metrics (H := DecimalBuiltins.builtins)
       unparsable ∅).1 !! "estimated_idle_time" = Some "0".
Proof.
  intros moving standing unparsable. split; [|split].
  - apply (proj1 (proj1 (efficiency_idle_time (H := DecimalBuiltins.builtins)
                           moving ∅) (1 # 2)%Q 120%Q 30%Q
                    eq_refl eq_refl eq_refl)).
    reflexivity.
  - apply (proj2 (proj1 (efficiency_idle_time (H := DecimalBuiltins.builtins)
                           standing ∅) 0%Q 120%Q 0%Q
                    eq_refl eq_refl eq_refl)).
    vm_compute. discriminate.
  - apply (proj2 (efficiency_idle_time (H := DecimalBuiltins.builtins)
                    unparsable ∅)).
    right; right. reflexivity.
Defined.

(** * Further properties of the algorithm library *)

(** ** When quick_sort raises *)

Lemma py_lt_ok_same_kind a b l : py_lt a b = Ok l → same_kind a b.
Proof. by destruct a, b. Qed.

Lemma goes_left_ok_same_kind r a p l :
  CustomAlgorithms.goes_left r a p = Ok l → same_kind a p.
Proof.
  destruct r; simpl; unfold py_gt; intros Hl%py_lt_ok_same_kind;
    by destruct a, p.
Qed.

Lemma partition_loop_ok_keyed k r p arr b :
  CustomAlgorithms.partition_loop k r p arr = Ok b → Forall (keyed k p) arr.
Proof.
  revert b. induction arr as [|t arr IH]; intros b Hb; [constructor|].
  simpl in Hb. unfold getitem in Hb.
  destruct (t !! k) as [v|] eqn:Hv; [|done]. simpl in Hb.
  destruct (CustomAlgorithms.goes_left r v p) as [l|] eqn:Hl; [|done].
  simpl in Hb.
  destruct (CustomAlgorithms.partition_loop k r p arr) as [b'|] eqn:Hb';
    [|done].
  constructor; [|by eapply IH].
  exists v. split; [done|]. by eapply goes_left_ok_same_kind.
Qed.

Lemma partition_loop_raises k r p arr e :
  CustomAlgorithms.partition_loop k r p arr = Raise e →
  e = IndexError ∨ e = TypeError.
Proof.
  induction arr as [|t arr IH]; intros He; [done|].
  simpl in He. unfold getitem in He.
  destruct (t !! k) as [v|]; [|injection He as <-; by left]. simpl in He.
  destruct (CustomAlgorithms.goes_left r v p) as [l|] eqn:Hl; simpl in He.
  - destruct (CustomAlgorithms.partition_loop k r p arr) as [b'|e'] eqn:Hb';
      [done|].
    simpl in He. injection He as <-. by apply IH.
  - injection He as <-. right.
    destruct r, v, p; simpl in Hl; unfold py_gt in Hl; simpl in Hl; congruence.
Qed.

Lemma keyed_comparable k p arr : Forall (keyed k p) arr → comparable_keys k arr.
Proof.
  intros Hk. destruct p as [q|s]; [left|right];
    (eapply Forall_impl; [exact Hk|]); intros t (v & Hv & Hkind);
    destruct v; try done; by eexists.
Qed.

Lemma quick_sort_rec_raises k r depth : ∀ arr e,
  length arr ≤ depth →
  CustomAlgorithms.quick_sort_rec depth arr k r = Raise e →
  e = IndexError ∨ e = TypeError.
Proof.
  induction depth as [|d IH]; intros arr e Hlen He.
  { destruct arr; [done|simpl in Hlen; lia]. }
  rewrite quick_sort_rec_step in He.
  destruct (length arr <=? 1) eqn:Hshort; [done|].
  apply Nat.leb_gt in Hshort.
  destruct (lookup_lt_is_Some_2 arr (length arr / 2)) as [pivot Hp].
  { apply Nat.div_lt; lia. }
  assert (Hin : In pivot arr).
  { apply list_elem_of_In, list_elem_of_lookup. eauto. }
  assert (Hgp : getitem arr (length arr / 2) = Ok pivot).
  { unfold getitem. by rewrite Hp. }
  rewrite Hgp in He. simpl in He.
  destruct (getitem pivot k) as [pv|e0] eqn:Hgv; cycle 1.
  { simpl in He. injection He as <-. unfold getitem in Hgv.
    destruct (pivot !! k); [done|]. injection Hgv as <-. by left. }
  assert (Hpv : pivot !! k = Some pv).
  { unfold getitem in Hgv. destruct (pivot !! k); congruence. }
  simpl in He.
  destruct (CustomAlgorithms.partition_loop k r pv arr) as [b|e1] eqn:Hb;
    cycle 1.
  { simpl in He. injection He as <-. by eapply partition_loop_raises. }
  simpl in He.
  pose proof (partition_loop_ok_keyed _ _ _ _ _ Hb) as Hk.
  assert (Hpiv : key_at k pivot = pv) by (unfold key_at; by rewrite Hpv).
  rewrite (partition_loop_filter k r pv arr Hk) in Hb. injection Hb as <-.
  simpl in He.
  assert (Hshorter : ∀ f, f pivot = false → length (List.filter f arr) ≤ d).
  { intros f Hf. apply Nat.lt_succ_r. eapply Nat.lt_le_trans; [|exact Hlen].
    by apply (filter_length_lt f arr pivot Hin). }
  destruct (CustomAlgorithms.quick_sort_rec d
              (List.filter (λ t, is_Lt (side k r pv t)) arr) k r)
    as [sl|e1] eqn:Hl; simpl in He; cycle 1.
  { injection He as <-. eapply IH; [|exact Hl].
    apply Hshorter. rewrite <- Hpiv. by rewrite side_pivot. }
  destruct (CustomAlgorithms.quick_sort_rec d
              (List.filter (λ t, is_Gt (side k r pv t)) arr) k r)
    as [sr|e2] eqn:Hr; simpl in He; [done|].
  injection He as <-. eapply IH; [|exact Hr].
  apply Hshorter. rewrite <- Hpiv. by rewrite side_pivot.
Qed.

Lemma quick_sort_ok_comparable arr k r out :
  2 ≤ length arr →
  CustomAlgorithms.quick_sort arr k r = Ok out → comparable_keys k arr.
Proof.
  intros Hlen Hout. unfold CustomAlgorithms.quick_sort in Hout.
  destruct (length arr) as [|d] eqn:Hd; [lia|].
  rewrite quick_sort_rec_step, Hd in Hout.
  destruct (S d <=? 1) eqn:Hshort; [apply Nat.leb_le in Hshort; lia|].
  destruct (getitem arr (S d / 2)) as [pivot|]; [|done]. simpl in Hout.
  destruct (getitem pivot k) as [pv|]; [|done]. simpl in Hout.
  destruct (CustomAlgorithms.partition_loop k r pv arr) as [b|] eqn:Hb;
    [|done].
  eapply keyed_comparable, partition_loop_ok_keyed, Hb.
Qed.

(** X1. [quick_sort] returns exactly when the list has at most one item or
    every item has the key component and the keys are all numbers or all
    strings; otherwise it raises [IndexError] or [TypeError], and the depth
    of the recursion never exceeds the length of the list. *)
Theorem quick_sort_returns_iff (arr : list tuple) (key_index : nat)
    (reverse : bool) :
  ((∃ out, CustomAlgorithms.quick_sort arr key_index reverse = Ok out)
   ↔ length arr ≤ 1 ∨ comparable_keys key_index arr)
  ∧ ∀ e, CustomAlgorithms.quick_sort arr key_index reverse = Raise e →
         e = IndexError ∨ e = TypeError.
Proof.
  split; [split|].
  - intros [out Hout].
    destruct (decide (length arr ≤ 1)) as [?|Hlong]; [by left|right].
    eapply quick_sort_ok_comparable; [lia|exact Hout].
  - intros [Hshort|Hc].
    + exists arr. by apply quick_sort_short.
    + destruct (quick_sort_sorts arr key_index reverse Hc) as (out & Hout & _).
      by exists out.
  - intros e He. by eapply quick_sort_rec_raises.
Qed.

Lemma quick_sort_returns_iff_witness :
  ∃ out, CustomAlgorithms.quick_sort [[VStr "b"]; [VStr "a"]] 0 true = Ok out.
Proof.
  apply (proj1 (quick_sort_returns_iff _ 0 true)). right. right.
  repeat constructor; eexists; reflexivity.
Defined.

(** ** Percentiles: requested keys, bounds and monotonicity *)

Lemma percentile_loop_keys sorted_values percentiles :
  sorted_values ≠ [] → ∀ res res',
  CustomAlgorithms.percentile_loop sorted_values percentiles res = Ok res' →
  ∀ p, is_Some (res' !! p)
       ↔ is_Some (res !! p) ∨ (In p percentiles ∧ (0 <= p <= 100)%Z).
Proof.
  intros Hne. induction percentiles as [|p0 ps IH]; intros res res' Hrun p.
  { injection Hrun as <-. simpl. tauto. }
  simpl in Hrun. destruct ((p0 <? 0)%Z || (100 <? p0)%Z) eqn:Hout.
  - rewrite (IH _ _ Hrun p). apply orb_true_iff in Hout. simpl.
    split; [tauto|]. intros [?|[[<-|?] ?]]; [tauto|lia|tauto].
  - apply orb_false_iff in Hout as [H0 H1].
    destruct (percentile_value_total sorted_values p0 Hne) as [x0 Hx0]; [lia|].
    rewrite Hx0 in Hrun. simpl in Hrun.
    rewrite (IH _ _ Hrun p). simpl.
    destruct (decide (p0 = p)) as [->|Hne'].
    + rewrite lookup_insert_eq. split; [intros _; right; split; [by left|lia]|].
      intros _. left. by eexists.
    + rewrite lookup_insert_ne by done. split; [tauto|].
      intros [?|[[?|?] ?]]; [tauto|done|tauto].
Qed.

(** X2. On a non-empty list the result has an entry exactly for the
    requested percentiles that lie in 0..100: a percentile outside of this
    range is skipped without an error, and a later lookup of it is a
    [KeyError].  On the empty list every requested percentile, in range or
    not, has the entry 0. *)
Theorem calculate_percentiles_keys (values : list Q) (percentiles : list Z)
    (res : gmap Z Q) :
  CustomAlgorithms.calculate_percentiles values percentiles = Ok res →
  ∀ p, (values ≠ [] →
        (is_Some (res !! p) ↔ In p percentiles ∧ (0 <= p <= 100)%Z)
        ∧ (In p percentiles → ¬ (0 <= p <= 100)%Z →
           dict_get res p = Raise KeyError))
       ∧ (values = [] →
          (In p percentiles → res !! p = Some 0%Q)
          ∧ (¬ In p percentiles → res !! p = None)).
Proof.
  intros Hres p. split.
  - intros Hne.
    assert (Hkeys : is_Some (res !! p)
                    ↔ In p percentiles ∧ (0 <= p <= 100)%Z).
    { destruct (sorted_copy values) as (ts & Hts & Hfc & Hperm & _).
      assert (Hne' : first_num <$> ts ≠ []).
      { intros E. rewrite E in Hperm. by apply Permutation_nil in Hperm. }
      unfold CustomAlgorithms.calculate_percentiles in Hres.
      destruct values; [done|]. rewrite Hts in Hres. simpl in Hres.
      rewrite Hfc in Hres. simpl in Hres.
      rewrite (percentile_loop_keys _ _ Hne' _ _ Hres p).
      rewrite lookup_empty. split; [|tauto].
      intros [[? ?]|?]; [done|tauto]. }
    split; [done|]. intros Hin Hout. unfold dict_get.
    destruct (res !! p) eqn:E; [|done].
    destruct Hout. apply Hkeys. by eexists.
  - intros ->. injection Hres as <-. split.
    + apply zero_sentinel_lookup.
    + intros Hnot. apply not_elem_of_list_to_map_1.
      rewrite <- list_fmap_compose. intros Hin.
      apply list_elem_of_fmap in Hin as (p' & -> & Hin). simpl in Hnot.
      by apply Hnot, list_elem_of_In.
Qed.

Lemma calculate_percentiles_keys_witness :
  ∃ res, CustomAlgorithms.calculate_percentiles [1; 2]%Q [50; 150]%Z = Ok res
         ∧ is_Some (res !! 50%Z) ∧ dict_get res 150%Z = Raise KeyError.
Proof.
  eexists. split; [vm_compute; reflexivity|].
  pose proof (calculate_percentiles_keys [1; 2]%Q [50; 150]%Z _
                ltac:(vm_compute; reflexivity)) as Hkeys.
  split.
  - apply (proj1 (Hkeys 50%Z)); [done|]. simpl. split; [tauto|lia].
  - apply (proj1 (Hkeys 150%Z)); [done|simpl; tauto|lia].
Defined.

Lemma rank_mono p q n :
  (0 <= p <= q)%Z → 1 ≤ n → (rank p n <= rank q n)%Q.
Proof.
  intros Hpq Hn. unfold rank.
  apply Qmult_le_compat_r.
  - unfold Qdiv. apply Qmult_le_compat_r; [|done].
    rewrite <- Zle_Qle. lia.
  - change 0%Q with (inject_Z 0). rewrite <- Zle_Qle. lia.
Qed.

Lemma rank_range p n :
  (0 <= p <= 100)%Z → 1 ≤ n →
  (0 <= rank p n ∧ rank p n <= inject_Z (Z.of_nat n - 1))%Q.
Proof.
  intros Hp Hn.
  assert (Hm : (0 <= inject_Z (Z.of_nat n - 1))%Q).
  { change 0%Q with (inject_Z 0). rewrite <- Zle_Qle. lia. }
  split.
  - assert (H0 : (rank 0 n == 0)%Q) by (unfold rank; field).
    rewrite <- H0. apply rank_mono; [lia|done].
  - assert (H1 : (rank 100 n == inject_Z (Z.of_nat n - 1))%Q)
      by (unfold rank; field).
    rewrite <- H1. apply rank_mono; [lia|done].
Qed.

(** The value of a percentile in 0..100 lies between the sorted elements at
    the floor and at the ceiling of its rank. *)
Lemma percentile_value_bracket sorted_values p :
  sorted_values ≠ [] → (0 <= p <= 100)%Z →
  let position := rank p (length sorted_values) in
  let weight := (position - inject_Z (Qfloor position))%Q in
  ∃ x lo hi,
    CustomAlgorithms.percentile_value sorted_values p = Ok x
    ∧ sorted_values !! Z.to_nat (Qfloor position) = Some lo
    ∧ sorted_values !! Z.to_nat (Qceiling position) = Some hi
    ∧ (x == lo * (1 - weight) + hi * weight)%Q.
Proof.
  intros Hne Hp position weight.
  assert (Hn : 1 ≤ length sorted_values).
  { destruct sorted_values; simpl; [done|lia]. }
  destruct (decide (p = 0%Z)) as [->|N0].
  { assert (Hpos : (position == 0)%Q) by (unfold position, rank; field).
    destruct sorted_values as [|a l] eqn:E; [done|]. rewrite <- E in *.
    assert (Hf : Qfloor position = 0%Z).
    { rewrite Hpos. reflexivity. }
    assert (Hc : Qceiling position = 0%Z).
    { rewrite Hpos. reflexivity. }
    exists a, a, a. rewrite Hf, Hc. subst sorted_values.
    repeat split; try done.
    unfold weight. rewrite Hf, Hpos. ring. }
  destruct (decide (p = 100%Z)) as [->|N1].
  { assert (Hpos : (position == inject_Z (Z.of_nat (length sorted_values) - 1))%Q)
      by (unfold position, rank; field).
    assert (Hf : Qfloor position = (Z.of_nat (length sorted_values) - 1)%Z).
    { rewrite Hpos. apply Qfloor_Z. }
    assert (Hc : Qceiling position = (Z.of_nat (length sorted_values) - 1)%Z).
    { rewrite Hpos. apply Qceiling_Z. }
    destruct (last sorted_values) as [m|] eqn:Hm;
      [|by apply last_None in Hm].
    exists m, m, m. rewrite Hf, Hc.
    replace (Z.to_nat (Z.of_nat (length sorted_values) - 1))
      with (pred (length sorted_values)) by lia.
    rewrite last_lookup in Hm.
    split; [|split; [done|split; [done|]]].
    - unfold CustomAlgorithms.percentile_value. simpl.
      apply py_index_last. by rewrite last_lookup.
    - unfold weight. rewrite Hf, Hpos. ring. }
  apply percentile_value_interp; [done|lia].
Qed.

Lemma strongly_sorted_lookup_le (l : list Q) i j a b :
  StronglySorted Qle l → i ≤ j → l !! i = Some a → l !! j = Some b →
  (a <= b)%Q.
Proof.
  intros Hs. revert i j. induction Hs as [|x l Hs IH Hx]; intros i j Hij Ha Hb;
    [by rewrite lookup_nil in Ha|].
  destruct i as [|i], j as [|j]; simpl in *; try lia.
  - injection Ha as <-. injection Hb as <-. apply Qle_refl.
  - injection Ha as <-. apply (proj1 (List.Forall_forall _ _) Hx).
    apply list_elem_of_In. by eapply list_elem_of_lookup_2.
  - eapply IH; [|done|done]. lia.
Qed.

(** The entries of the result on a non-empty list, read backwards: an entry
    exists only for a requested percentile in 0..100 and holds the value
    computed from the sorted copy. *)
Lemma calculate_percentiles_entries values percentiles res :
  values ≠ [] →
  CustomAlgorithms.calculate_percentiles values percentiles = Ok res →
  ∃ sorted_values,
    sorted_values ≡ₚ values
    ∧ StronglySorted Qle sorted_values
    ∧ ∀ p x, res !! p = Some x →
        In p percentiles ∧ (0 <= p <= 100)%Z
        ∧ CustomAlgorithms.percentile_value sorted_values p = Ok x.
Proof.
  intros Hne Hres.
  destruct (sorted_copy values) as (ts & Hts & Hfc & Hperm & Hsorted).
  assert (Hne' : first_num <$> ts ≠ []).
  { intros E. rewrite E in Hperm. by apply Permutation_nil in Hperm. }
  exists (first_num <$> ts). do 2 (split; [done|]).
  unfold CustomAlgorithms.calculate_percentiles in Hres.
  destruct values; [done|]. rewrite Hts in Hres. simpl in Hres.
  rewrite Hfc in Hres. simpl in Hres.
  intros p x Hp.
  destruct (proj1 (percentile_loop_keys _ _ Hne' _ _ Hres p)) as [Hin|[Hin Hr]].
  { by eexists. }
  { rewrite lookup_empty in Hin. by destruct Hin. }
  do 2 (split; [done|]).
  destruct (percentile_loop_spec (first_num <$> ts) percentiles Hne' ∅)
    as (res' & Hres' & Hval & _).
  assert (res' = res) as -> by congruence.
  destruct (Hval p Hin Hr) as (x' & Hx' & Hrx). congruence.
Qed.

(** ** detect_outliers_iqr: the quartiles *)

(** With four or more values the ceiling of the rank of the first quartile
    is at most the floor of the rank of the third. *)
Lemma quartile_ranks_apart n :
  4 ≤ n → (Qceiling (rank 25 n) <= Qfloor (rank 75 n))%Z.
Proof.
  intros Hn.
  set (P := rank 25 n). set (R := rank 75 n).
  assert (Hm : (3 <= inject_Z (Z.of_nat n - 1))%Q).
  { change 3%Q with (inject_Z 3). rewrite <- Zle_Qle. lia. }
  assert (HPR : (P + (3 # 2) <= R)%Q).
  { unfold P, R, rank. set (m := inject_Z (Z.of_nat n - 1)) in *.
    change (inject_Z 25) with 25%Q. change (inject_Z 75) with 75%Q.
    assert (E1 : (25 / 100 * m == m * (1 # 4))%Q) by field.
    assert (E2 : (75 / 100 * m == m * (3 # 4))%Q) by field.
    rewrite E1, E2. lra. }
  pose proof (Qceiling_lt P) as C. pose proof (Qlt_floor R) as F.
  rewrite inject_Z_plus in F. change (inject_Z 1) with 1%Q in F.
  unfold Z.sub in C. rewrite inject_Z_plus in C.
  change (inject_Z (- (1))) with (-1)%Q in C.
  apply Z.lt_succ_r. unfold Z.succ.
  rewrite Zlt_Qlt, inject_Z_plus. change (inject_Z 1) with 1%Q. lra.
Qed.

(** The quartiles of four or more values are in order, and some value lies
    between them. *)
Lemma quartiles_enclose values res q1 q3 :
  4 ≤ length values →
  CustomAlgorithms.calculate_percentiles values [25; 75]%Z = Ok res →
  res !! 25%Z = Some q1 → res !! 75%Z = Some q3 →
  ∃ v, In v values ∧ (q1 <= v)%Q ∧ (v <= q3)%Q.
Proof.
  intros Hlen Hres H1 H3.
  assert (Hne : values ≠ []) by (intros ->; simpl in Hlen; lia).
  destruct (calculate_percentiles_entries values _ res Hne Hres)
    as (sorted & Hperm & Hsorted & Hent).
  destruct (Hent _ _ H1) as (_ & _ & Hq1).
  destruct (Hent _ _ H3) as (_ & _ & Hq3).
  assert (Hsne : sorted ≠ []).
  { intros ->. by apply Permutation_nil in Hperm. }
  destruct (percentile_value_bracket sorted 25 Hsne)
    as (x & lo1 & hi1 & Hx & Hlo1 & Hhi1 & Ex); [lia|].
  destruct (percentile_value_bracket sorted 75 Hsne)
    as (y & lo2 & hi2 & Hy & Hlo2 & Hhi2 & Ey); [lia|].
  assert (x = q1) as -> by congruence. assert (y = q3) as -> by congruence.
  rewrite (Permutation_length Hperm) in *.
  set (n := length values) in *.
  set (P := rank 25 n) in *. set (R := rank 75 n) in *.
  pose proof (quartile_ranks_apart n Hlen) as Hcf. fold P R in Hcf.
  pose proof (Qfloor_le P) as FP1. pose proof (Qlt_floor P) as FP2.
  pose proof (Qfloor_le R) as FR1. pose proof (Qlt_floor R) as FR2.
  rewrite inject_Z_plus in FP2, FR2.
  change (inject_Z 1) with 1%Q in FP2, FR2.
  destruct (rank_range 25 n) as [HP0 _]; [lia|lia|]. fold P in HP0.
  assert (HfP0 : (0 <= Qfloor P)%Z).
  { rewrite <- (Qfloor_Z 0). by apply Qfloor_resp_le. }
  assert (Hlh1 : (lo1 <= hi1)%Q).
  { eapply (strongly_sorted_lookup_le sorted); [done| |done|done].
    destruct (floor_ceiling_cases P) as [[E _]|E]; lia. }
  assert (Hmid : (hi1 <= lo2)%Q).
  { eapply (strongly_sorted_lookup_le sorted); [done| |done|done].
    destruct (floor_ceiling_cases P) as [[E _]|E]; lia. }
  assert (Hlh2 : (lo2 <= hi2)%Q).
  { eapply (strongly_sorted_lookup_le sorted); [done| |done|done].
    destruct (floor_ceiling_cases R) as [[E _]|E]; lia. }
  exists hi1. split.
  { eapply Permutation_in; [exact Hperm|].
    apply list_elem_of_In. by eapply list_elem_of_lookup_2. }
  rewrite Ex, Ey. split; nra.
Qed.

(** ** calculate_distance: bounds and special cases *)

Lemma asin_sqrt_sin_sq (delta : R) :
  (- PI <= delta <= PI)%R →
  asin (sqrt (sin (delta / 2) ^ 2)) = (Rabs delta / 2)%R.
Proof.
  intros [Hlo Hhi]. pose proof PI_RGT_0 as Hpi.
  replace (sin (delta / 2) ^ 2)%R with (Rsqr (sin (delta / 2)))
    by (unfold Rsqr; ring).
  rewrite sqrt_Rsqr_abs.
  destruct (Rle_dec 0 delta) as [Hpos|Hneg].
  - rewrite (Rabs_right delta) by lra.
    rewrite Rabs_right.
    + apply asin_sin. lra.
    + apply Rle_ge, sin_ge_0; lra.
  - rewrite (Rabs_left delta) by lra.
    rewrite Rabs_left1.
    + rewrite <- sin_neg. rewrite asin_sin; lra.
    + replace (delta / 2)%R with (- (- delta / 2))%R by lra.
      rewrite sin_neg.
      assert (0 <= sin (- delta / 2))%R by (apply sin_ge_0; lra). lra.
Qed.

Lemma radians_bound (x : R) :
  (-180 <= x <= 180)%R → (- PI <= Haversine.radians x <= PI)%R.
Proof.
  intros [Hlo Hhi]. pose proof PI_RGT_0 as Hpi. unfold Haversine.radians.
  split; nra.
Qed.

Lemma radians_abs (x : R) :
  Haversine.radians (Rabs x) = Rabs (Haversine.radians x).
Proof.
  pose proof PI_RGT_0 as Hpi. unfold Haversine.radians.
  unfold Rdiv. rewrite !Rabs_mult.
  rewrite (Rabs_right PI) by lra. rewrite (Rabs_right (/ 180)); [done|].
  lra.
Qed.

(** X5. The distance never exceeds half of the circumference of the
    sphere, and it depends on the longitudes only through their
    difference: moving both points by the same angle in longitude leaves it
    unchanged. *)
Theorem calculate_distance_bounded (lat1 lon1 lat2 lon2 shift : R) :
  ∃ d, Haversine.calculate_distance lat1 lon1 lat2 lon2 = Ok d
       ∧ (d <= Haversine.earth_radius_km * PI)%R
       ∧ Haversine.calculate_distance lat1 (lon1 + shift) lat2 (lon2 + shift)
         = Ok d.
Proof.
  eexists. split; [apply Haversine.calculate_distance_value|]. split.
  - pose proof (asin_bound
                  (sqrt (Haversine.haversine_a lat1 lon1 lat2 lon2))) as [_ Hb].
    unfold Haversine.earth_radius_km. lra.
  - rewrite Haversine.calculate_distance_value.
    replace (Haversine.haversine_a lat1 (lon1 + shift) lat2 (lon2 + shift))
      with (Haversine.haversine_a lat1 lon1 lat2 lon2); [done|].
    unfold Haversine.haversine_a, Haversine.radians.
    replace ((lon2 + shift) * PI / 180 - (lon1 + shift) * PI / 180)%R
      with (lon2 * PI / 180 - lon1 * PI / 180)%R by lra.
    done.
Qed.

(** X6. Along a meridian, and along the equator, the distance is the arc
    length: the radius times the difference of the angles in radians, for
    a difference of at most 180 degrees.  Two antipodal points are half a
    circumference apart. *)
Theorem calculate_distance_arc (a b c : R) :
  (-180 <= b - a <= 180)%R →
  Haversine.calculate_distance a c b c
  = Ok (Haversine.earth_radius_km * Haversine.radians (Rabs (b - a)))%R
  ∧ Haversine.calculate_distance 0 a 0 b
    = Ok (Haversine.earth_radius_km * Haversine.radians (Rabs (b - a)))%R
  ∧ Haversine.calculate_distance 0 c 0 (c + 180)
    = Ok (Haversine.earth_radius_km * PI)%R.
Proof.
  intros Hd. pose proof (radians_bound _ Hd) as Hr.
  assert (Hdiff : (Haversine.radians b - Haversine.radians a
                   = Haversine.radians (b - a))%R).
  { unfold Haversine.radians. lra. }
  split; [|split].
  - rewrite Haversine.calculate_distance_value. do 2 f_equal.
    unfold Haversine.haversine_a.
    replace ((Haversine.radians c - Haversine.radians c) / 2)%R with 0%R
      by lra.
    rewrite sin_0, Hdiff.
    replace (sin (Haversine.radians (b - a) / 2) ^ 2
             + cos (Haversine.radians a) * cos (Haversine.radians b) * 0 ^ 2)%R
      with (sin (Haversine.radians (b - a) / 2) ^ 2)%R by ring.
    rewrite (asin_sqrt_sin_sq _ Hr), radians_abs. lra.
  - rewrite Haversine.calculate_distance_value. do 2 f_equal.
    unfold Haversine.haversine_a. rewrite Hdiff.
    replace (Haversine.radians 0) with 0%R by (unfold Haversine.radians; lra).
    replace ((0 - 0) / 2)%R with 0%R by lra.
    rewrite sin_0, cos_0.
    replace (0 ^ 2 + 1 * 1 * sin (Haversine.radians (b - a) / 2) ^ 2)%R
      with (sin (Haversine.radians (b - a) / 2) ^ 2)%R by ring.
    rewrite (asin_sqrt_sin_sq _ Hr), radians_abs. lra.
  - rewrite Haversine.calculate_distance_value. do 2 f_equal.
    unfold Haversine.haversine_a.
    replace (Haversine.radians 0) with 0%R by (unfold Haversine.radians; lra).
    replace ((Haversine.radians (c + 180) - Haversine.radians c) / 2)%R
      with (PI / 2)%R by (unfold Haversine.radians; lra).
    replace ((0 - 0) / 2)%R with 0%R by lra.
    rewrite sin_0, cos_0, sin_PI2.
    replace (0 ^ 2 + 1 * 1 * 1 ^ 2)%R with 1%R by ring.
    rewrite sqrt_1, asin_1. lra.
Qed.

Lemma calculate_distance_arc_witness :
  Haversine.calculate_distance 10 20 100 20
  = Ok (Haversine.earth_radius_km * Haversine.radians (Rabs (100 - 10)))%R.
Proof.
  apply (proj1 (calculate_distance_arc 10 100 20 ltac:(lra))).
Defined.

(** * custom_group_by *)

Lemma py_eq_refl a : py_eq a a = true.
Proof. by rewrite py_eq_vcmp, vcmp_refl. Qed.

Lemma py_eq_sym a b : py_eq a b = py_eq b a.
Proof.
  rewrite !py_eq_vcmp, (vcmp_antisym a b). by destruct (vcmp a b).
Qed.

Lemma py_eq_true_l a b c : py_eq a b = true → py_eq a c = py_eq b c.
Proof.
  rewrite !py_eq_vcmp. intros H.
  rewrite (vcmp_eq_l a b c); [done|]. by destruct (vcmp a b).
Qed.

Lemma py_eq_true_r a b c : py_eq a b = true → py_eq c a = py_eq c b.
Proof.
  intros H. rewrite (py_eq_sym c a), (py_eq_sym c b). by apply py_eq_true_l.
Qed.

Section GroupBy.
Import CustomAlgorithms.
Variable group_key : string.

(** [groups[k]], or the empty list when [k] is not a key. *)
Definition group_members (groups : list (value * list row)) (k : value)
  : list row :=
  match List.find (λ g, py_eq g.1 k) groups with
  | Some g => g.2
  | None => []
  end.

(** The records whose field [group_key] [==] [k], in the order of [data]. *)
Definition rows_with_key (k : value) (data : list row) : list row :=
  List.filter (λ r, match r !! group_key with
                    | Some v => py_eq v k
                    | None => false
                    end) data.

Definition distinct_keys (groups : list (value * list row)) : Prop :=
  StronglySorted (λ g h, py_eq g.1 h.1 = false) groups.

Definition group_step (groups : list (value * list row)) (record : row)
  : list (value * list row) :=
  match record !! group_key with
  | Some key_value => group_append groups key_value record
  | None => groups
  end.

Lemma custom_group_by_snoc data record :
  custom_group_by (data ++ [record]) group_key
  = group_step (custom_group_by data group_key) record.
Proof. unfold custom_group_by. by rewrite fold_left_app. Qed.

Lemma group_append_members groups key_value record k :
  group_members (group_append groups key_value record) k
  = group_members groups k ++ (if py_eq key_value k then [record] else []).
Proof.
  unfold group_members.
  induction groups as [|[k0 members] groups IH]; simpl.
  { by destruct (py_eq key_value k). }
  destruct (py_eq k0 key_value) eqn:E0; simpl.
  - rewrite <- (py_eq_true_l k0 key_value k E0).
    destruct (py_eq k0 k); simpl; [done|]. by rewrite app_nil_r.
  - destruct (py_eq k0 k) eqn:E1; simpl; [|apply IH].
    rewrite (py_eq_sym key_value k), <- (py_eq_true_l k0 k key_value E1), E0.
    by rewrite app_nil_r.
Qed.

Lemma group_append_keys groups key_value record g :
  In g (group_append groups key_value record) →
  (∃ h, In h groups ∧ h.1 = g.1) ∨ (g.1 = key_value ∧
     Forall (λ h, py_eq h.1 key_value = false) groups).
Proof.
  induction groups as [|[k0 members] groups IH]; simpl.
  { intros [<-|[]]. right. by split. }
  destruct (py_eq k0 key_value) eqn:E0; simpl.
  - intros [<-|Hin]; left.
    + exists (k0, members). split; [by left|done].
    + exists g. split; [by right|done].
  - intros [<-|Hin].
    + left. exists (k0, members). split; [by left|done].
    + destruct (IH Hin) as [(h & Hh & Ek)|[Ek Hall]].
      * left. exists h. split; [by right|done].
      * right. split; [done|]. by constructor.
Qed.

Lemma group_append_distinct groups key_value record :
  distinct_keys groups → distinct_keys (group_append groups key_value record).
Proof.
  induction 1 as [|[k0 members] groups Hs IH Hhead]; simpl.
  { repeat constructor. }
  destruct (py_eq k0 key_value) eqn:E0.
  - constructor; [done|]. exact Hhead.
  - constructor; [done|].
    apply List.Forall_forall. intros g Hg.
    apply group_append_keys in Hg as [(h & Hh & <-)|[-> _]]; [|done].
    by apply (proj1 (List.Forall_forall _ _) Hhead).
Qed.

Lemma group_append_nonempty groups key_value record :
  Forall (λ g, g.2 ≠ []) groups →
  Forall (λ g, g.2 ≠ []) (group_append groups key_value record).
Proof.
  induction 1 as [|[k0 members] groups Hne Hall IH]; simpl.
  { by repeat constructor. }
  destruct (py_eq k0 key_value).
  - constructor; [|done]. simpl. by destruct members.
  - by constructor.
Qed.

Lemma group_append_concat groups key_value record :
  concat (snd <$> group_append groups key_value record)
  ≡ₚ concat (snd <$> groups) ++ [record].
Proof.
  induction groups as [|[k0 members] groups IH]; simpl; [done|].
  destruct (py_eq k0 key_value); simpl.
  - rewrite <- !app_assoc. apply Permutation_app_head, Permutation_app_comm.
  - rewrite IH. by rewrite app_assoc.
Qed.

Lemma group_members_own groups g :
  distinct_keys groups → In g groups → group_members groups g.1 = g.2.
Proof.
  unfold group_members.
  induction 1 as [|h groups Hs IH Hhead]; [done|].
  intros [->|Hin]; simpl.
  - by rewrite py_eq_refl.
  - rewrite (proj1 (List.Forall_forall _ _) Hhead g Hin). by apply IH.
Qed.

Lemma custom_group_by_invariant data :
  let groups := custom_group_by data group_key in
  distinct_keys groups
  ∧ Forall (λ g, g.2 ≠ []) groups
  ∧ (∀ k, group_members groups k = rows_with_key k data)
  ∧ concat (snd <$> groups)
    ≡ₚ List.filter (λ r, bool_decide (is_Some (r !! group_key))) data.
Proof.
  induction data as [|record data IH] using rev_ind.
  { repeat split; try constructor. }
  simpl. rewrite custom_group_by_snoc.
  destruct IH as (Hd & Hne & Hm & Hc). unfold group_step.
  unfold rows_with_key. setoid_rewrite List.filter_app. simpl.
  destruct (record !! group_key) as [v|] eqn:Hv.
  - split; [by apply group_append_distinct|].
    split; [by apply group_append_nonempty|]. split.
    + intros k. rewrite group_append_members, Hm. done.
    + rewrite group_append_concat, Hc.
      rewrite bool_decide_eq_true_2 by by eexists. done.
  - split; [done|]. split; [done|]. split.
    + intros k. rewrite Hm. by rewrite app_nil_r.
    + rewrite Hc. rewrite bool_decide_eq_false_2; [by rewrite app_nil_r|].
      by intros [? ?].
Qed.
End GroupBy.

(** X7. [custom_group_by] partitions the records that have the field: the
    keys of the groups are pairwise different, no group is empty, the group
    of a key holds exactly the records whose field equals the key, in
    their input order, and records without the field are dropped. *)
Theorem custom_group_by_partition (data : list CustomAlgorithms.row)
    (group_key : string) :
  let groups := CustomAlgorithms.custom_group_by data group_key in
  distinct_keys groups
  ∧ (∀ k members, In (k, members) groups →
       members ≠ [] ∧ members = rows_with_key group_key k data)
  ∧ (∀ r v, In r data → r !! group_key = Some v →
       ∃ k members, In (k, members) groups ∧ py_eq k v = true
                    ∧ In r members)
  ∧ concat (snd <$> groups)
    ≡ₚ List.filter (λ r, bool_decide (is_Some (r !! group_key))) data.
Proof.
  destruct (custom_group_by_invariant group_key data)
    as (Hd & Hne & Hm & Hc).
  simpl. split; [done|]. split; [|split; [|done]].
  - intros k members Hin. split.
    + by apply (proj1 (List.Forall_forall _ _) Hne (k, members)).
    + rewrite <- Hm. symmetry.
      by apply (group_members_own _ (k, members)).
  - intros r v Hr Hv.
    assert (Hrow : In r (rows_with_key group_key v data)).
    { apply List.filter_In. split; [done|]. rewrite Hv. apply py_eq_refl. }
    rewrite <- Hm in Hrow. unfold group_members in Hrow.
    destruct (List.find _ _) as [[k members]|] eqn:Hf; [|done].
    apply List.find_some in Hf as [Hin Hk].
    by exists k, members.
Qed.

(** * custom_filter *)

Section Filter.
Import CustomAlgorithms.

(** The record passes every filter, and no comparison raises on the way. *)
Definition passes (filters : list (string * condition)) (record : row)
  : bool :=
  match matches_all record filters with
  | Ok true => true
  | _ => false
  end.

Lemma py_lt_raises a b e : py_lt a b = Raise e → e = TypeError.
Proof. destruct a, b; simpl; congruence. Qed.

Lemma check_condition_raises v c e :
  check_condition v c = Raise e → e = TypeError.
Proof.
  destruct c as [[mn mx inn]|l|w]; simpl; [|done|done].
  destruct mn as [m|]; simpl.
  - destruct (py_lt v m) as [[|]|e'] eqn:E; simpl; [done| |].
    + destruct mx as [m'|]; simpl; [|done].
      unfold py_gt. destruct (py_lt m' v) as [[|]|e''] eqn:E'; simpl;
        [done|done|]. intros [= <-]. by eapply py_lt_raises.
    + intros [= <-]. by eapply py_lt_raises.
  - destruct mx as [m'|]; simpl; [|done].
    unfold py_gt. destruct (py_lt m' v) as [[|]|e''] eqn:E'; simpl;
      [done|done|]. intros [= <-]. by eapply py_lt_raises.
Qed.

Lemma matches_all_raises record filters e :
  matches_all record filters = Raise e → e = TypeError.
Proof.
  induction filters as [|[field c] filters IH]; simpl; [done|].
  destruct (record !! field) as [v|]; [|done].
  destruct (check_condition v c) as [[|]|e'] eqn:E; simpl; [done|done|].
  intros [= <-]. by eapply check_condition_raises.
Qed.

Lemma matches_all_fields record filters :
  matches_all record filters = Ok true →
  ∀ field c, In (field, c) filters →
    ∃ v, record !! field = Some v ∧ check_condition v c = Ok true.
Proof.
  induction filters as [|[field0 c0] filters IH]; simpl; [done|].
  destruct (record !! field0) as [v|] eqn:Hv; [|done].
  destruct (check_condition v c0) as [[|]|e'] eqn:E; simpl; [|done|done].
  intros Hrest field c [[= <- <-]|Hin]; [by exists v|by apply IH].
Qed.

Lemma matches_all_app record filters1 filters2 :
  matches_all record (filters1 ++ filters2)
  = (m ← matches_all record filters1;
     if m : bool then matches_all record filters2 else Ok false).
Proof.
  induction filters1 as [|[field c] filters1 IH]; simpl; [done|].
  destruct (record !! field) as [v|]; [|done].
  destruct (check_condition v c) as [[|]|e']; simpl; done.
Qed.

Lemma custom_filter_ok data filters out :
  custom_filter data filters = Ok out →
  out = List.filter (passes filters) data
  ∧ Forall (λ r, ∃ m, matches_all r filters = Ok m) data.
Proof.
  revert out. induction data as [|r data IH]; simpl; intros out.
  { intros [= <-]. by split. }
  unfold passes at 1.
  destruct (matches_all r filters) as [m|] eqn:Hm; [|done]. simpl.
  destruct (custom_filter data filters) as [rest|] eqn:Hrest; [|done]. simpl.
  intros [= <-]. destruct (IH rest eq_refl) as [-> Hall].
  split; [by destruct m|]. constructor; [by exists m|done].
Qed.

Lemma custom_filter_total data filters :
  Forall (λ r, ∃ m, matches_all r filters = Ok m) data →
  custom_filter data filters = Ok (List.filter (passes filters) data).
Proof.
  induction 1 as [|r data [m Hm] _ IH]; simpl; [done|].
  unfold passes at 1. rewrite Hm, IH. simpl. by destruct m.
Qed.

Lemma custom_filter_raises data filters e :
  custom_filter data filters = Raise e → e = TypeError.
Proof.
  induction data as [|r data IH]; simpl; [done|].
  destruct (matches_all r filters) as [m|e'] eqn:Hm; simpl.
  - destruct (custom_filter data filters) as [rest|e'']; simpl; [done|].
    intros [= <-]. by apply IH.
  - intros [= <-]. by eapply matches_all_raises.
Qed.

Lemma list_filter_sublist {A} (f : A → bool) (l : list A) :
  sublist (List.filter f l) l.
Proof.
  induction l as [|a l IH]; simpl; [constructor|].
  destruct (f a); [by apply sublist_skip|by apply sublist_cons].
Qed.

Lemma passes_true filters r : passes filters r = true ↔
  matches_all r filters = Ok true.
Proof.
  unfold passes. destruct (matches_all r filters) as [[|]|]; split; done.
Qed.

Lemma passes_app filters1 filters2 r :
  passes (filters1 ++ filters2) r = passes filters1 r && passes filters2 r.
Proof.
  unfold passes. rewrite matches_all_app.
  destruct (matches_all r filters1) as [[|]|]; simpl; try done.
Qed.
End Filter.

(** X8. When [custom_filter] returns, the result holds exactly the records
    that pass every filter, in their input order; each of them has every
    filtered field; filtering the result again changes nothing; without
    filters every record is kept.  A record that lacks a filtered field is
    dropped without an error, and the only exception is the [TypeError] of
    a comparison between a number and a string. *)
Theorem custom_filter_spec (data : list CustomAlgorithms.row)
    (filters : list (string * CustomAlgorithms.condition)) :
  (∀ out, CustomAlgorithms.custom_filter data filters = Ok out →
     out = List.filter (passes filters) data
     ∧ sublist out data
     ∧ CustomAlgorithms.custom_filter out filters = Ok out
     ∧ ∀ r field c, In r out → In (field, c) filters →
         ∃ v, r !! field = Some v
              ∧ CustomAlgorithms.check_condition v c = Ok true)
  ∧ (∀ e, CustomAlgorithms.custom_filter data filters = Raise e →
       e = TypeError)
  ∧ CustomAlgorithms.custom_filter data [] = Ok data
  ∧ (∀ r field c, In (field, c) filters → r !! field = None →
       passes filters r = false).
Proof.
  split; [|split; [apply custom_filter_raises|split]].
  - intros out Hout. destruct (custom_filter_ok _ _ _ Hout) as [-> Hall].
    split; [done|]. split; [apply list_filter_sublist|].
    assert (Hpass : ∀ r, In r (List.filter (passes filters) data) →
              CustomAlgorithms.matches_all r filters = Ok true).
    { intros r Hr. apply List.filter_In in Hr as [_ Hr].
      by apply passes_true. }
    split.
    + rewrite custom_filter_total.
      * f_equal. apply List.forallb_filter_id. apply List.forallb_forall.
        intros r Hr. apply passes_true. by apply Hpass.
      * apply List.Forall_forall. intros r Hr. exists true. by apply Hpass.
    + intros r field c Hr Hin.
      by apply (matches_all_fields r filters (Hpass r Hr)).
  - rewrite custom_filter_total.
    + f_equal. by apply List.forallb_filter_id, List.forallb_forall.
    + apply List.Forall_forall. intros r _. by exists true.
  - intros r field c Hin Hnone.
    destruct (passes filters r) eqn:Hp; [|done].
    apply passes_true in Hp.
    destruct (matches_all_fields r filters Hp field c Hin) as (v & Hv & _).
    congruence.
Qed.

(** X9. Filters compose: for two filter dicts without a common field,
    filtering by the first and then by the second gives the result of a
    single call with the dict that holds the entries of both.  A dict
    condition with [min] and [max] on a number admits exactly the closed
    interval. *)
Theorem custom_filter_compose (data mid out : list CustomAlgorithms.row)
    (filters1 filters2 : list (string * CustomAlgorithms.condition)) :
  NoDup ((filters1 ++ filters2).*1) →
  CustomAlgorithms.custom_filter data filters1 = Ok mid →
  CustomAlgorithms.custom_filter mid filters2 = Ok out →
  CustomAlgorithms.custom_filter data (filters1 ++ filters2) = Ok out
  ∧ ∀ x a b : Q,
      CustomAlgorithms.check_condition (VNum x)
        (CustomAlgorithms.CDict
           (CustomAlgorithms.Bounds (Some (VNum a)) (Some (VNum b)) None))
      = Ok (Qle_bool a x && Qle_bool x b).
Proof.
  intros _ H1 H2. split.
  - destruct (custom_filter_ok _ _ _ H1) as [-> Hall1].
    destruct (custom_filter_ok _ _ _ H2) as [-> Hall2].
    rewrite custom_filter_total.
    + f_equal. clear H1 H2 Hall1 Hall2.
      induction data as [|r data IH]; simpl; [done|].
      rewrite passes_app.
      destruct (passes filters1 r); simpl; [|done].
      destruct (passes filters2 r); by rewrite IH.
    + apply List.Forall_forall. intros r Hr. rewrite matches_all_app.
      destruct (proj1 (List.Forall_forall _ _) Hall1 r Hr) as [m1 Hm1].
      rewrite Hm1. simpl. destruct m1; [|by eexists].
      apply (proj1 (List.Forall_forall _ _) Hall2).
      apply List.filter_In. split; [done|]. by apply passes_true.
  - intros x a b. simpl. unfold py_gt. simpl.
    destruct (Qltb x a) eqn:E1; simpl.
    { apply Qltb_true_lt in E1.
      destruct (Qle_bool a x) eqn:F; [|done].
      apply Qle_bool_iff in F. by apply Qlt_not_le in E1. }
    apply Qltb_false_le, Qle_bool_iff in E1. rewrite E1. simpl.
    destruct (Qltb b x) eqn:E2; simpl.
    { apply Qltb_true_lt in E2.
      destruct (Qle_bool x b) eqn:F; [|done].
      apply Qle_bool_iff in F. by apply Qlt_not_le in E2. }
    apply Qltb_false_le, Qle_bool_iff in E2. by rewrite E2.
Qed.

Lemma custom_filter_compose_witness :
  CustomAlgorithms.custom_filter
    [<["zone" := VStr "north"]> (<["fare" := VNum 12]> ∅);
     <["zone" := VStr "south"]> (<["fare" := VNum 30]> ∅);
     <["fare" := VNum 15]> ∅]
    ([("zone", CustomAlgorithms.CList [VStr "north"; VStr "south"])]
     ++ [("fare", CustomAlgorithms.CDict
                    (CustomAlgorithms.Bounds (Some (VNum 10)) (Some (VNum 20))
                       None))])
  = Ok [<["zone" := VStr "north"]> (<["fare" := VNum 12]> ∅)].
Proof.
  apply (custom_filter_compose _
           [<["zone" := VStr "north"]> (<["fare" := VNum 12]> ∅);
            <["zone" := VStr "south"]> (<["fare" := VNum 30]> ∅)]).
  - apply (bool_decide_unpack _). vm_compute. reflexivity.
  - vm_compute. reflexivity.
  - vm_compute. reflexivity.
Defined.

(** * calculate_statistics *)

Section Stats.
Import Statistics.
Local Open Scope R_scope.

Definition Rsum (l : list R) : R := fold_right Rplus 0 l.

Lemma sum_loop_spec values : ∀ total,
  sum_loop total values = total + Rsum values.
Proof.
  unfold sum_loop. induction values as [|v values IH]; intros total; simpl.
  - lra.
  - rewrite IH. lra.
Qed.

Lemma Rsum_cons v l : Rsum (v :: l) = v + Rsum l.
Proof. reflexivity. Qed.

Lemma scan_fold mean values : ∀ variance_sum min_val max_val,
  ∃ min_val' max_val',
    fold_left (scan mean) values (variance_sum, min_val, max_val)
    = (variance_sum + Rsum ((λ v, (v - mean) ^ 2) <$> values),
       min_val', max_val')
    ∧ (min_val' = min_val ∨ In min_val' values)
    ∧ (max_val' = max_val ∨ In max_val' values)
    ∧ min_val' <= min_val ∧ max_val <= max_val'
    ∧ ∀ v, In v values → min_val' <= v <= max_val'.
Proof.
  induction values as [|v values IH]; intros variance_sum min_val max_val.
  { exists min_val, max_val. simpl. rewrite Rplus_0_r.
    repeat split; try lra; tauto. }
  change (fold_left (scan mean) (v :: values) (variance_sum, min_val, max_val))
    with (fold_left (scan mean) values
            (variance_sum + (v - mean) ^ 2,
             if Rlt_dec v min_val then v else min_val,
             if Rgt_dec v max_val then v else max_val)).
  destruct (IH (variance_sum + (v - mean) ^ 2)
               (if Rlt_dec v min_val then v else min_val)
               (if Rgt_dec v max_val then v else max_val))
    as (mn & mx & -> & Hmn & Hmx & Hle & Hge & Hall).
  exists mn, mx. rewrite fmap_cons, Rsum_cons.
  split; [f_equal; f_equal; lra|]. cbn [In].
  destruct (Rlt_dec v min_val) as [L|L], (Rgt_dec v max_val) as [G|G];
    (split; [destruct Hmn as [->|?]; tauto|]);
    (split; [destruct Hmx as [->|?]; tauto|]);
    (split; [lra|]); (split; [lra|]);
    intros w [<-|Hw]; try (by apply Hall); lra.
Qed.

Lemma Rsum_squares_nonneg (l : list R) m :
  0 <= Rsum ((λ v, (v - m) ^ 2) <$> l).
Proof.
  induction l as [|v l IH]; [simpl; lra|].
  rewrite fmap_cons, Rsum_cons.
  pose proof (pow2_ge_0 (v - m)). lra.
Qed.

Lemma calculate_statistics_unfold first rest :
  let values := first :: rest in
  let n := INR (length values) in
  let mean := Rsum values / n in
  let variance := Rsum ((λ v, (v - mean) ^ 2) <$> values) / n in
  ∃ min_val max_val,
    calculate_statistics values
    = Ok (<["range" := max_val - min_val]>
          (<["max" := max_val]>
          (<["min" := min_val]>
          (<["std_dev" := sqrt variance]>
          (<["variance" := variance]>
          (<["mean" := mean]> (<["count" := n]> ∅)))))))
    ∧ In min_val values ∧ In max_val values
    ∧ (∀ v, In v values → min_val <= v <= max_val)
    ∧ 0 < n ∧ 0 <= variance.
Proof.
  intros values n mean variance.
  assert (Hn : 0 < n).
  { unfold n, values. change (length (first :: rest)) with (S (length rest)).
    apply lt_0_INR. lia. }
  assert (Hv : 0 <= variance).
  { unfold variance. apply Rmult_le_pos; [apply Rsum_squares_nonneg|].
    by apply Rlt_le, Rinv_0_lt_compat. }
  destruct (scan_fold mean values 0 first first)
    as (mn & mx & Hfold & Hmn & Hmx & _ & _ & Hall).
  exists mn, mx. split.
  - unfold calculate_statistics. fold values. unfold values at 1.
    cbv iota. fold n.
    rewrite sum_loop_spec, Rplus_0_l. fold mean.
    rewrite Hfold, Rplus_0_l. fold variance.
    unfold Haversine.math_sqrt. destruct (Rle_dec 0 variance); [done|lra].
  - split; [destruct Hmn as [->|?]; [by left|done]|].
    split; [destruct Hmx as [->|?]; [by left|done]|]. done.
Qed.
End Stats.

(** X10. On a non-empty list of values of magnitude at most 10^150 (so
    that no square overflows) [calculate_statistics] returns: the square
    root never gets a negative argument.  [count] is the length, [mean]
    times the length is the sum, [min] and [max] are elements of the list
    that bound every value, [range] is their difference and is not
    negative, the variance is not negative and [std_dev] is its
    non-negative root. *)
Theorem calculate_statistics_spec (values : list R) :
  values ≠ [] →
  (∀ v, In v values → - 10 ^ 150 <= v <= 10 ^ 150)%R →
  ∃ stats mean variance std_dev min_val max_val,
    Statistics.calculate_statistics values = Ok stats
    ∧ stats !! "count" = Some (INR (length values))
    ∧ stats !! "mean" = Some mean
    ∧ stats !! "variance" = Some variance
    ∧ stats !! "std_dev" = Some std_dev
    ∧ stats !! "min" = Some min_val
    ∧ stats !! "max" = Some max_val
    ∧ stats !! "range" = Some (max_val - min_val)%R
    ∧ (mean * INR (length values) = Rsum values)%R
    ∧ In min_val values ∧ In max_val values
    ∧ (∀ v, In v values → min_val <= v <= max_val)%R
    ∧ (0 <= max_val - min_val)%R
    ∧ (0 <= variance)%R
    ∧ (0 <= std_dev)%R ∧ (std_dev * std_dev = variance)%R.
Proof.
  intros Hne _. destruct values as [|first rest]; [done|].
  destruct (calculate_statistics_unfold first rest)
    as (mn & mx & Hres & Hmn & Hmx & Hall & Hn & Hv).
  set (values := first :: rest) in *.
  set (n := INR (length values)) in *.
  set (mean := (Rsum values / n)%R) in *.
  set (variance := (Rsum ((λ v, (v - mean) ^ 2) <$> values) / n)%R) in *.
  eexists _, mean, variance, (sqrt variance), mn, mx.
  split; [exact Hres|].
  do 7 (split; [by simplify_map_eq|]).
  assert (Hmean : (mean * n = Rsum values)%R).
  { unfold mean. field. lra. }
  split; [done|]. do 3 (split; [done|]).
  split; [destruct (Hall mn Hmn); lra|].
  split; [done|]. split; [apply sqrt_pos|]. by apply sqrt_sqrt.
Qed.

Lemma calculate_statistics_spec_witness :
  ∃ stats min_val max_val,
    Statistics.calculate_statistics [4; 2; 7]%R = Ok stats
    ∧ stats !! "count" = Some (INR 3)
    ∧ stats !! "min" = Some min_val ∧ stats !! "max" = Some max_val
    ∧ (min_val <= 2 ∧ 7 <= max_val)%R.
Proof.
  destruct (calculate_statistics_spec [4; 2; 7]%R ltac:(discriminate))
    as (stats & mean & variance & std_dev & min_val & max_val & Hres & Hcount
        & _ & _ & _ & Hmin & Hmax & _ & _ & _ & _ & Hall & _).
  - assert (Hbig : (10 <= 10 ^ 150)%R).
    { rewrite <- (pow_1 10) at 1. apply Rle_pow; [lra|lia]. }
    set (B := (10 ^ 150)%R) in *.
    intros v [<-|[<-|[<-|[]]]]; lra.
  - exists stats, min_val, max_val. do 4 (split; [done|]).
    split; [apply (Hall 2%R)|apply (Hall 7%R)]; simpl; tauto.
Defined.

(** * Further properties of the cleaning pipeline *)

(** ** The statistics of a run *)

Section CleanerCounts.
Context `{Builtins}.
Import TaxiDataCleaner.
Local Open Scope Z_scope.

(** The count that a stage adds to the counter [k]: [n] on its own
    counter, nothing on the others. *)
Definition added (own k : string) (n : Z) : Z :=
  if decide (k = own) then n else 0.

Lemma counter_count_added own k st :
  counter k (count own st) = counter k st + added own k 1.
Proof.
  unfold added. destruct (decide (k = own)) as [->|Hne].
  - apply counter_count.
  - rewrite counter_count_ne by done. lia.
Qed.

Lemma counter_reject own flag ref k st :
  counter k (reject own flag ref st) = counter k st + added own k 1.
Proof. unfold reject. by rewrite counter_set_field, counter_count_added. Qed.

Lemma added_0 own k : added own k 0 = 0.
Proof. unfold added. by destruct (decide _). Qed.

Lemma added_plus own k a b : added own k (a + b) = added own k a + added own k b.
Proof. unfold added. destruct (decide _); lia. Qed.

(** A check counts one on its own counter when it rejects a record. *)
Definition counts_rejects (own : string)
    (check : N → cleaner → result (bool * cleaner)) : Prop :=
  ∀ ref st keep st', check ref st = Ok (keep, st') →
    ∀ k, counter k st' = counter k st + added own k (if keep then 0 else 1).

Lemma counts_rejects_coordinates :
  counts_rejects "coordinate_errors" check_coordinates.
Proof.
  intros ref st keep st' Hc k. unfold check_coordinates in Hc.
  assert (Hbad : ∀ keep st',
    Ok (false, reject "coordinate_errors" "INVALID_COORDINATES" ref st)
    = Ok (keep, st') →
    counter k st' = counter k st
                    + added "coordinate_errors" k (if keep then 0 else 1)).
  { intros ? ? [= <- <-]. apply counter_reject. }
  destruct (_ ≫= _) as [[[[? ?] ?] ?]|]; [|by apply Hbad].
  destruct (_ && _); [|by apply Hbad].
  injection Hc as <- <-. rewrite added_0. lia.
Qed.

Lemma counts_rejects_datetime :
  counts_rejects "datetime_errors" check_datetime.
Proof.
  intros ref st keep st' Hc k. unfold check_datetime in Hc.
  assert (Hbad : ∀ keep st',
    Ok (false, reject "datetime_errors" "INVALID_DATETIME" ref st)
    = Ok (keep, st') →
    counter k st' = counter k st
                    + added "datetime_errors" k (if keep then 0 else 1)).
  { intros ? ? [= <- <-]. apply counter_reject. }
  destruct (dict_get (deref st ref) "pickup_datetime") as [pickup_s|];
    [|done]. simpl in Hc.
  destruct (strptime pickup_s) as [pickup_dt|]; [|by apply Hbad].
  destruct (dict_get (deref st ref) "dropoff_datetime") as [dropoff_s|];
    [|done]. simpl in Hc.
  destruct (strptime dropoff_s) as [dropoff_dt|]; [|by apply Hbad].
  destruct (_ <? _)%Z; [|by apply Hbad].
  injection Hc as <- <-. rewrite counter_set_field, added_0. lia.
Qed.

Lemma counts_rejects_trip_duration :
  counts_rejects "duration_errors" check_trip_duration.
Proof.
  intros ref st keep st' Hc k. unfold check_trip_duration in Hc.
  assert (Hbad : ∀ keep st',
    Ok (false, reject "duration_errors" "INVALID_DURATION_OR_PASSENGERS"
                 ref st)
    = Ok (keep, st') →
    counter k st' = counter k st
                    + added "duration_errors" k (if keep then 0 else 1)).
  { intros ? ? [= <- <-]. apply counter_reject. }
  destruct (_ ≫= _) as [[? ?]|]; [|by apply Hbad].
  destruct (_ && _); [|by apply Hbad].
  injection Hc as <- <-. rewrite added_0. lia.
Qed.

Lemma validate_loop_counts own check data :
  counts_rejects own check → ∀ st valid st',
  validate_loop check data st = Ok (valid, st') →
  ∀ k, counter k st'
       = counter k st
         + added own k (Z.of_nat (length data) - Z.of_nat (length valid)).
Proof.
  intros Hcheck. induction data as [|ref data IH]; intros st valid st' Hrun k.
  { injection Hrun as <- <-. simpl. rewrite added_0. lia. }
  simpl in Hrun.
  destruct (check ref st) as [[keep st1]|] eqn:Hc; [|done]. simpl in Hrun.
  destruct (validate_loop check data st1) as [[valid1 st2]|] eqn:Hrest;
    [|done].
  simpl in Hrun. injection Hrun as <- <-.
  rewrite (IH _ _ _ Hrest k), (Hcheck _ _ _ _ Hc k).
  rewrite <- Z.add_assoc, <- added_plus. f_equal. f_equal.
  destruct keep; simpl length; lia.
Qed.

Lemma remove_duplicates_loop_counts data : ∀ seen st unique st',
  remove_duplicates_loop data seen st = (unique, st') →
  ∀ k, counter k st'
       = counter k st
         + added "duplicates_removed" k
             (Z.of_nat (length data) - Z.of_nat (length unique)).
Proof.
  induction data as [|ref0 data IH]; intros seen st unique st' Hrun k.
  { injection Hrun as <- <-. simpl. rewrite added_0. lia. }
  simpl in Hrun.
  destruct (decide (unique_key (deref st ref0) ∈ seen)) as [Hseen|Hnew].
  - rewrite (IH _ _ _ _ Hrun k), counter_count_added.
    rewrite <- Z.add_assoc, <- added_plus. f_equal. f_equal.
    simpl length. lia.
  - destruct (remove_duplicates_loop data _ st) as [unique1 st1] eqn:Hrest.
    injection Hrun as <- <-.
    rewrite (IH _ _ _ _ Hrest k). f_equal. f_equal. simpl length. lia.
Qed.

Lemma load_rows_counts rows : ∀ next st data st',
  load_rows next rows st = (data, st') →
  ∀ k, counter k st'
       = counter k st + added "total_records" k (Z.of_nat (length rows)).
Proof.
  induction rows as [|row rows IH]; intros next st data st' Hload k.
  { injection Hload as <- <-. simpl. rewrite added_0. lia. }
  simpl in Hload.
  destruct (load_rows (N.succ next) rows _) as [data1 st1] eqn:Hrest.
  injection Hload as <- <-.
  rewrite (IH _ _ _ _ Hrest k), counter_count_added.
  rewrite <- Z.add_assoc, <- added_plus.
  replace (1 + Z.of_nat (length rows)) with (Z.of_nat (length (row :: rows)))
    by (simpl length; lia).
  done.
Qed.

Lemma counter_initial k : counter k (Cleaner ∅ initial_stats) = 0.
Proof.
  unfold counter. simpl.
  destruct (initial_stats !! k) as [z|] eqn:E; [|done].
  apply elem_of_list_to_map_2 in E. simpl.
  repeat (apply elem_of_cons in E as [E|E]; [by injection E|]).
  by apply elem_of_nil in E.
Qed.

(** The records of the list that end up flagged as outliers. *)
Definition flagged_outliers (st : cleaner) (data : list N) : Z :=
  Z.of_nat (length (List.filter
    (λ ref, bool_decide (deref st ref !! "outlier_flag"
                         = Some "DURATION_OUTLIER")) data)).

Lemma mark_outliers_counts outlier_indices data : ∀ start st,
  NoDup data →
  ∀ k, counter k (mark_outliers start outlier_indices data st)
       = counter k st
         + added "outliers_detected" k
             (flagged_outliers (mark_outliers start outlier_indices data st)
                data).
Proof.
  induction data as [|ref data IH]; intros start st Hnd k.
  { simpl. rewrite added_0. lia. }
  pose proof (mark_outliers_flag outlier_indices (ref :: data) start st Hnd
                0 ref eq_refl) as Hflag.
  apply NoDup_cons in Hnd as [Hnotin Hnd].
  unfold flagged_outliers. simpl List.filter.
  simpl mark_outliers in *.
  set (st1 := if decide (start ∈ outlier_indices)
              then count "outliers_detected"
                     (set_field ref "outlier_flag" "DURATION_OUTLIER" st)
              else set_field ref "outlier_flag" "NORMAL" st) in *.
  rewrite (IH (start + 1) st1 Hnd k). unfold flagged_outliers.
  rewrite Hflag, Z.add_0_r. unfold st1.
  destruct (decide (start ∈ outlier_indices)).
  - rewrite bool_decide_eq_true_2 by done. simpl length.
    rewrite counter_count_added, counter_set_field.
    rewrite <- Z.add_assoc, <- added_plus. f_equal. f_equal. lia.
  - rewrite bool_decide_eq_false_2 by done.
    by rewrite counter_set_field.
Qed.

Lemma mark_outliers_flags outlier_indices data : ∀ start st,
  NoDup data → ∀ ref, ref ∈ data →
  ∃ flag, (flag = "NORMAL" ∨ flag = "DURATION_OUTLIER")
    ∧ deref (mark_outliers start outlier_indices data st) ref
      = <["outlier_flag" := flag]> (deref st ref).
Proof.
  induction data as [|ref0 data IH]; intros start st Hnd ref Hin;
    [by apply elem_of_nil in Hin|].
  apply NoDup_cons in Hnd as [Hnotin Hnd]. simpl.
  set (st1 := if decide (start ∈ outlier_indices)
              then count "outliers_detected"
                     (set_field ref0 "outlier_flag" "DURATION_OUTLIER" st)
              else set_field ref0 "outlier_flag" "NORMAL" st).
  apply elem_of_cons in Hin as [->|Hin].
  - destruct (mark_outliers_frame outlier_indices data (start + 1) st1)
      as (Hout & _ & _).
    rewrite (deref_objs _ _ ref0 (Hout ref0 Hnotin)). unfold st1.
    destruct (decide (start ∈ outlier_indices)).
    + exists "DURATION_OUTLIER". split; [by right|].
      by rewrite deref_count, deref_set_field.
    + exists "NORMAL". split; [by left|]. by rewrite deref_set_field.
  - destruct (IH (start + 1) st1 Hnd ref Hin) as (flag & Hflag & ->).
    exists flag. split; [done|]. f_equal. apply deref_objs.
    assert (Hne : ref ≠ ref0) by (intros ->; done).
    unfold st1. destruct (decide _); by apply objs_set_field_ne.
Qed.

Lemma detect_outliers_counts random_sample data st st' :
  NoDup data →
  _detect_outliers random_sample data st = Ok (data, st') →
  (∀ k, counter k st'
        = counter k st + added "outliers_detected" k (flagged_outliers st' data))
  ∧ ∀ ref, ref ∈ data →
      ∃ flag, (flag = "NORMAL" ∨ flag = "DURATION_OUTLIER")
        ∧ deref st' ref = <["outlier_flag" := flag]> (deref st ref).
Proof.
  unfold _detect_outliers. intros Hnd Hrun.
  destruct (if (_ <? _)%Z then _ else _) as [outlier_indices|]; [|done].
  simpl in Hrun. injection Hrun as <-. split.
  - intros k. by apply mark_outliers_counts.
  - intros ref Hin. by apply mark_outliers_flags.
Qed.
End CleanerCounts.

Section CleanerStatistics.
Context `{Builtins}.
Import TaxiDataCleaner.
Local Open Scope Z_scope.

Lemma counter_record_totals k data st :
  k ≠ "valid_records" → k ≠ "invalid_records" →
  counter k (record_totals data st) = counter k st.
Proof.
  intros H1 H2. destruct data; [done|].
  unfold counter, record_totals. simpl.
  by rewrite !lookup_insert_ne.
Qed.

Lemma fix_missing_values_counts data st st' :
  NoDup data → _fix_missing_values data st = (data, st') →
  ∀ k, counter k st'
       = counter k st
         + added "missing_values_fixed" k (records_needing_fix st data).
Proof.
  intros Hnd Hrun k.
  destruct (fix_missing_values_spec data st Hnd)
    as (st2 & Hrun' & _ & _ & Hown & Hother & _).
  assert (st2 = st') as -> by congruence.
  unfold added. destruct (decide _) as [->|Hne]; [done|].
  rewrite Hother by done. lia.
Qed.

Lemma records_needing_fix_bounds st data :
  0 <= records_needing_fix st data <= Z.of_nat (length data).
Proof.
  unfold records_needing_fix.
  pose proof (List.filter_length_le (λ ref, needs_fix (deref st ref)) data).
  lia.
Qed.

Lemma flagged_outliers_bounds st data :
  0 <= flagged_outliers st data <= Z.of_nat (length data).
Proof.
  unfold flagged_outliers.
  pose proof (List.filter_length_le
    (λ ref, bool_decide (deref st ref !! "outlier_flag"
                         = Some "DURATION_OUTLIER")) data).
  lia.
Qed.

(** The counters at the end of a run, before [_write_cleaned_data]. *)
Lemma clean_dataset_counters random_sample raw_data cleaned st :
  clean_dataset random_sample raw_data = Ok (cleaned, st) →
  ∃ unique valid3 valid4 fixed st6,
    st = record_totals cleaned st6
    ∧ cleaned `sublist_of` valid4 ∧ valid4 `sublist_of` valid3
    ∧ valid3 `sublist_of` unique
    ∧ unique `sublist_of` row_refs 0 (length raw_data)
    ∧ 0 <= fixed <= Z.of_nat (length unique)
    ∧ ∀ k, counter k st6
        = added "total_records" k (Z.of_nat (length raw_data))
          + added "duplicates_removed" k
              (Z.of_nat (length raw_data) - Z.of_nat (length unique))
          + added "missing_values_fixed" k fixed
          + added "coordinate_errors" k
              (Z.of_nat (length unique) - Z.of_nat (length valid3))
          + added "datetime_errors" k
              (Z.of_nat (length valid3) - Z.of_nat (length valid4))
          + added "duration_errors" k
              (Z.of_nat (length valid4) - Z.of_nat (length cleaned))
          + added "outliers_detected" k (flagged_outliers st6 cleaned).
Proof.
  intros Hrun.
  destruct (clean_dataset_stages _ _ _ _ Hrun)
    as (data & st0 & unique & st1 & st2 & valid3 & st3 & valid4 & st4 & st5
        & st6 & H0 & H1 & H2 & H3 & H4 & H5 & H6 & ->).
  pose proof (load_rows_counts _ _ _ _ _ H0) as C0.
  destruct (load_spec _ _ _ H0) as [-> _].
  destruct (remove_duplicates_loop_spec _ _ _ _ _ H1) as (_ & S1 & _).
  pose proof (remove_duplicates_loop_counts _ _ _ _ _ H1) as C1.
  assert (Hnd1 : NoDup unique).
  { eapply sublist_NoDup; [apply NoDup_row_refs|exact S1]. }
  pose proof (fix_missing_values_counts _ _ _ Hnd1 H2) as C2.
  destruct (validate_loop_spec _ _ _ flags_rejects_coordinates _ _ _ H3)
    as (S3 & _).
  destruct (validate_loop_spec _ _ _ flags_rejects_datetime _ _ _ H4)
    as (S4 & _).
  destruct (validate_loop_spec _ _ _ flags_rejects_trip_duration _ _ _ H5)
    as (S5 & _).
  pose proof (validate_loop_counts _ _ _ counts_rejects_coordinates _ _ _ H3)
    as C3.
  pose proof (validate_loop_counts _ _ _ counts_rejects_datetime _ _ _ H4)
    as C4.
  pose proof (validate_loop_counts _ _ _ counts_rejects_trip_duration _ _ _ H5)
    as C5.
  assert (Hnd5 : NoDup cleaned).
  { eapply sublist_NoDup; [exact Hnd1|].
    transitivity valid4; [done|]. by transitivity valid3. }
  destruct (detect_outliers_counts _ _ _ _ Hnd5 H6) as [C6 _].
  exists unique, valid3, valid4, (records_needing_fix st1 unique), st6.
  do 5 (split; [done|]).
  split; [apply records_needing_fix_bounds|].
  intros k. rewrite C6, C5, C4, C3, C2, C1, C0, counter_initial.
  unfold row_refs. rewrite length_fmap, length_seq. lia.
Qed.
End CleanerStatistics.

(** X11. The statistics of a run add up: [total_records] is the number of
    rows read, and every row is either in the result or counted once as a
    duplicate, a coordinate error, a datetime error or a duration error.
    When the result is not empty, [valid_records] is its length and
    [invalid_records] the number of all removed rows, duplicates included;
    when it is empty both stay 0.  [outliers_detected] is the number of
    records of the result flagged [DURATION_OUTLIER],
    [missing_values_fixed] is at most the number of rows that are not
    duplicates, and the result lists the rows in file order. *)
Theorem clean_dataset_statistics `{Builtins}
    (random_sample : list Q → nat → list Q) (raw_data : list record)
    (cleaned : list N) (st : TaxiDataCleaner.cleaner) :
  TaxiDataCleaner.clean_dataset random_sample raw_data = Ok (cleaned, st) →
  let n := Z.of_nat (length raw_data) in
  let m := Z.of_nat (length cleaned) in
  counter "total_records" st = n
  ∧ (counter "duplicates_removed" st + counter "coordinate_errors" st
     + counter "datetime_errors" st + counter "duration_errors" st + m = n)%Z
  ∧ (0 <= counter "duplicates_removed" st)%Z
  ∧ (0 <= counter "coordinate_errors" st)%Z
  ∧ (0 <= counter "datetime_errors" st)%Z
  ∧ (0 <= counter "duration_errors" st)%Z
  ∧ (cleaned ≠ [] →
     counter "valid_records" st = m
     ∧ counter "invalid_records" st = (n - m)%Z)
  ∧ (cleaned = [] →
     counter "valid_records" st = 0%Z ∧ counter "invalid_records" st = 0%Z)
  ∧ counter "outliers_detected" st = flagged_outliers st cleaned
  ∧ (0 <= counter "outliers_detected" st <= m)%Z
  ∧ (0 <= counter "missing_values_fixed" st
     <= n - counter "duplicates_removed" st)%Z
  ∧ cleaned `sublist_of` row_refs 0 (length raw_data).
Proof.
  intros Hrun n m.
  destruct (clean_dataset_counters _ _ _ _ Hrun)
    as (unique & valid3 & valid4 & fixed & st6 & -> & S5 & S4 & S3 & S1
        & Hfixed & Hc).
  pose proof (sublist_length _ _ S5) as L5.
  pose proof (sublist_length _ _ S4) as L4.
  pose proof (sublist_length _ _ S3) as L3.
  pose proof (sublist_length _ _ S1) as L1.
  unfold row_refs in L1. rewrite length_fmap, length_seq in L1.
  pose proof (flagged_outliers_bounds st6 cleaned) as Hfl.
  assert (Hsame : flagged_outliers (TaxiDataCleaner.record_totals cleaned st6)
                    cleaned = flagged_outliers st6 cleaned).
  { unfold flagged_outliers, TaxiDataCleaner.deref.
    by rewrite objs_record_totals. }
  assert (Heval : ∀ k, k ≠ "valid_records" → k ≠ "invalid_records" →
    counter k (TaxiDataCleaner.record_totals cleaned st6) = counter k st6).
  { intros k ? ?. by apply counter_record_totals. }
  assert (T : counter "total_records" st6 = n).
  { rewrite Hc. unfold added.
    repeat (first [rewrite decide_True by done|rewrite decide_False by done]).
    unfold n. lia. }
  assert (D : counter "duplicates_removed" st6
              = (n - Z.of_nat (length unique))%Z).
  { rewrite Hc. unfold added.
    repeat (first [rewrite decide_True by done|rewrite decide_False by done]).
    unfold n. lia. }
  assert (C : counter "coordinate_errors" st6
              = (Z.of_nat (length unique) - Z.of_nat (length valid3))%Z).
  { rewrite Hc. unfold added.
    repeat (first [rewrite decide_True by done|rewrite decide_False by done]).
    lia. }
  assert (E : counter "datetime_errors" st6
              = (Z.of_nat (length valid3) - Z.of_nat (length valid4))%Z).
  { rewrite Hc. unfold added.
    repeat (first [rewrite decide_True by done|rewrite decide_False by done]).
    lia. }
  assert (U : counter "duration_errors" st6
              = (Z.of_nat (length valid4) - m)%Z).
  { rewrite Hc. unfold added.
    repeat (first [rewrite decide_True by done|rewrite decide_False by done]).
    unfold m. lia. }
  assert (O : counter "outliers_detected" st6 = flagged_outliers st6 cleaned).
  { rewrite Hc. unfold added.
    repeat (first [rewrite decide_True by done|rewrite decide_False by done]).
    lia. }
  assert (M : counter "missing_values_fixed" st6 = fixed).
  { rewrite Hc. unfold added.
    repeat (first [rewrite decide_True by done|rewrite decide_False by done]).
    lia. }
  assert (V : counter "valid_records" st6 = 0%Z).
  { rewrite Hc. unfold added.
    repeat (first [rewrite decide_True by done|rewrite decide_False by done]).
    lia. }
  assert (I : counter "invalid_records" st6 = 0%Z).
  { rewrite Hc. unfold added.
    repeat (first [rewrite decide_True by done|rewrite decide_False by done]).
    lia. }
  rewrite Hsame.
  rewrite (Heval "total_records"), (Heval "duplicates_removed"),
    (Heval "coordinate_errors"), (Heval "datetime_errors"),
    (Heval "duration_errors"), (Heval "outliers_detected"),
    (Heval "missing_values_fixed") by done.
  split; [done|]. split; [lia|]. do 4 (split; [lia|]).
  split; [|split; [|split; [done|split; [lia|split; [lia|]]]]].
  - intros Hne. destruct cleaned as [|ref cleaned]; [done|]. split.
    + unfold counter, TaxiDataCleaner.record_totals.
      cbn [TaxiDataCleaner.stats].
      rewrite lookup_insert_ne by done. by rewrite lookup_insert_eq.
    + unfold counter at 1. unfold TaxiDataCleaner.record_totals.
      cbn [TaxiDataCleaner.stats]. rewrite lookup_insert_eq.
      fold (counter "total_records" st6). rewrite T. done.
  - by intros ->.
  - transitivity valid4; [done|]. transitivity valid3; [done|].
    by transitivity unique.
Qed.

Lemma clean_dataset_statistics_witness :
  ∃ cleaned st,
    TaxiDataCleaner.clean_dataset (H := DecimalBuiltins.builtins) sample_first
      [evening_trip; evening_trip] = Ok (cleaned, st)
    ∧ counter "total_records" st = 2%Z.
Proof.
  destruct (clean_dataset_total (H := DecimalBuiltins.builtins) sample_first
              [evening_trip; evening_trip])
    as (cleaned & st & Hrun).
  - intros population k Hk. unfold sample_first. rewrite length_take. lia.
  - repeat constructor; by eexists.
  - exists cleaned, st. split; [done|].
    apply (clean_dataset_statistics (H := DecimalBuiltins.builtins)
             sample_first [evening_trip; evening_trip] cleaned st Hrun).
Defined.

(** ** The records of the result *)

Section CleanedRecords.
Context `{Builtins}.
Import TaxiDataCleaner.

(** What a check has established about a record that it keeps, and what it
    has written on it. *)
Definition accepts (established : record → record → Prop)
    (check : N → cleaner → result (bool * cleaner)) : Prop :=
  ∀ ref st st', check ref st = Ok (true, st') →
    established (deref st ref) (deref st' ref).

Lemma validate_loop_accepts flag established check data :
  flags_rejects flag check → accepts established check →
  ∀ st valid st', validate_loop check data st = Ok (valid, st') →
  NoDup data → ∀ ref, ref ∈ valid →
  established (deref st ref) (deref st' ref).
Proof.
  intros Hflags Hacc.
  induction data as [|ref0 data IH]; intros st valid st' Hrun Hnd ref Hin.
  { injection Hrun as <- <-. by apply elem_of_nil in Hin. }
  simpl in Hrun.
  destruct (check ref0 st) as [[keep st1]|] eqn:Hc; [|done]. simpl in Hrun.
  destruct (validate_loop check data st1) as [[valid1 st2]|] eqn:Hrest;
    [|done].
  simpl in Hrun. injection Hrun as <- <-.
  apply NoDup_cons in Hnd as [Hnotin Hnd].
  destruct (Hflags _ _ _ _ Hc) as (Hother & _).
  destruct (validate_loop_spec _ _ _ Hflags _ _ _ Hrest) as (Hsub & Hout & _).
  assert (Hrec : ∀ r, r ∈ valid1 → established (deref st r) (deref st2 r)).
  { intros r Hr.
    assert (Hne : r ≠ ref0).
    { intros ->. apply Hnotin. by eapply elem_of_sublist. }
    rewrite <- (deref_objs st st1 r (Hother r Hne)).
    by apply (IH _ _ _ Hrest Hnd). }
  destruct keep; [|by apply Hrec].
  apply elem_of_cons in Hin as [->|Hin]; [|by apply Hrec].
  rewrite (deref_objs st1 st2 ref0 (Hout ref0 Hnotin)).
  by apply Hacc.
Qed.

(** Both end points lie in the box of the city. *)
Definition within_nyc (lat lon : Q) : Prop :=
  (min_lat <= lat)%Q ∧ (lat <= max_lat)%Q
  ∧ (min_lon <= lon)%Q ∧ (lon <= max_lon)%Q.

Definition coordinates_valid (r : record) : Prop :=
  ∃ pickup_lon pickup_lat dropoff_lon dropoff_lat,
    float_field r "pickup_longitude" 0 = Some pickup_lon
    ∧ float_field r "pickup_latitude" 0 = Some pickup_lat
    ∧ float_field r "dropoff_longitude" 0 = Some dropoff_lon
    ∧ float_field r "dropoff_latitude" 0 = Some dropoff_lat
    ∧ within_nyc pickup_lat pickup_lon
    ∧ within_nyc dropoff_lat dropoff_lon.

(** Both timestamps parse, the pickup is strictly before the dropoff, and
    [duration] is the number of seconds between them. *)
Definition datetimes_valid (r : record) (duration : Z) : Prop :=
  ∃ pickup_s pickup_dt dropoff_s dropoff_dt,
    r !! "pickup_datetime" = Some pickup_s
    ∧ strptime pickup_s = Some pickup_dt
    ∧ r !! "dropoff_datetime" = Some dropoff_s
    ∧ strptime dropoff_s = Some dropoff_dt
    ∧ (dt_epoch pickup_dt < dt_epoch dropoff_dt)%Z
    ∧ duration = (dt_epoch dropoff_dt - dt_epoch pickup_dt)%Z.

Definition duration_valid (r : record) : Prop :=
  ∃ trip_duration passenger_count,
    int_field r "trip_duration" 0 = Some trip_duration
    ∧ int_field r "passenger_count" 1 = Some passenger_count
    ∧ (min_duration <= trip_duration <= max_duration)%Z
    ∧ (1 <= passenger_count <= max_passenger)%Z.

Lemma in_nyc_within lat lon : in_nyc lat lon = true → within_nyc lat lon.
Proof.
  unfold in_nyc, within_nyc. rewrite !andb_true_iff, !Qle_bool_iff. tauto.
Qed.

Lemma accepts_coordinates :
  accepts (λ r r', coordinates_valid r ∧ r' = r) check_coordinates.
Proof.
  intros ref st st' Hc. unfold check_coordinates in Hc.
  unfold coordinates_valid.
  destruct (float_field (deref st ref) "pickup_longitude" 0) as [plon|];
    [|done].
  destruct (float_field (deref st ref) "pickup_latitude" 0) as [plat|];
    [|done].
  destruct (float_field (deref st ref) "dropoff_longitude" 0) as [dlon|];
    [|done].
  destruct (float_field (deref st ref) "dropoff_latitude" 0) as [dlat|];
    [|done].
  simpl in Hc.
  destruct (in_nyc plat plon) eqn:E1; [|done].
  destruct (in_nyc dlat dlon) eqn:E2; [|done].
  simpl in Hc. injection Hc as <-. split; [|done].
  exists plon, plat, dlon, dlat. do 4 (split; [done|]).
  split; by apply in_nyc_within.
Qed.

Lemma accepts_datetime :
  accepts (λ r r', ∃ duration,
             datetimes_valid r duration
             ∧ r' = <["calculated_duration" := str_int duration]> r)
    check_datetime.
Proof.
  intros ref st st' Hc. unfold check_datetime, dict_get in Hc.
  unfold datetimes_valid.
  destruct (deref st ref !! "pickup_datetime") as [pickup_s|] eqn:E1;
    [|done]. simpl in Hc.
  destruct (strptime pickup_s) as [pickup_dt|] eqn:P1; [|done].
  destruct (deref st ref !! "dropoff_datetime") as [dropoff_s|] eqn:E2;
    [|done]. simpl in Hc.
  destruct (strptime dropoff_s) as [dropoff_dt|] eqn:P2; [|done].
  destruct (dt_epoch pickup_dt <? dt_epoch dropoff_dt)%Z eqn:L; [|done].
  injection Hc as <-. apply Z.ltb_lt in L.
  exists (dt_epoch dropoff_dt - dt_epoch pickup_dt)%Z. split.
  - by exists pickup_s, pickup_dt, dropoff_s, dropoff_dt.
  - by rewrite deref_set_field.
Qed.

Lemma accepts_trip_duration :
  accepts (λ r r', duration_valid r ∧ r' = r) check_trip_duration.
Proof.
  intros ref st st' Hc. unfold check_trip_duration in Hc.
  unfold duration_valid.
  destruct (int_field (deref st ref) "trip_duration" 0) as [td|]; [|done].
  destruct (int_field (deref st ref) "passenger_count" 1) as [pc|]; [|done].
  simpl in Hc.
  destruct ((min_duration <=? td)%Z && (td <=? max_duration)%Z) eqn:E1;
    [|done].
  destruct ((1 <=? pc)%Z && (pc <=? max_passenger)%Z) eqn:E2; [|done].
  simpl in Hc. injection Hc as <-. split; [|done].
  exists td, pc. do 2 (split; [done|]).
  apply andb_true_iff in E1 as [?%Z.leb_le ?%Z.leb_le].
  apply andb_true_iff in E2 as [?%Z.leb_le ?%Z.leb_le]. lia.
Qed.

Lemma duration_valid_insert r k v :
  k ≠ "trip_duration" → k ≠ "passenger_count" →
  duration_valid (<[k := v]> r) → duration_valid r.
Proof.
  intros H1 H2 (td & pc & Htd & Hpc & Hb). exists td, pc.
  unfold int_field in *. rewrite lookup_insert_ne in Htd, Hpc by done.
  done.
Qed.

(** The record that the run leaves for a row of the result. *)
Lemma clean_dataset_survivor random_sample raw_data cleaned st ref :
  clean_dataset random_sample raw_data = Ok (cleaned, st) →
  ref ∈ cleaned →
  ∃ i row flag duration,
    ref = N.of_nat i ∧ raw_data !! i = Some row
    ∧ coordinates_valid (filled row)
    ∧ datetimes_valid (filled row) duration
    ∧ duration_valid (filled row)
    ∧ (flag = "NORMAL" ∨ flag = "DURATION_OUTLIER")
    ∧ deref st ref
      = <["outlier_flag" := flag]>
          (<["calculated_duration" := str_int duration]> (filled row)).
Proof.
  intros Hrun Hin.
  destruct (clean_dataset_stages _ _ _ _ Hrun)
    as (data & st0 & unique & st1 & st2 & valid3 & st3 & valid4 & st4 & st5
        & st6 & H0 & H1 & H2 & H3 & H4 & H5 & H6 & ->).
  destruct (load_spec _ _ _ H0) as [-> Hobjs].
  destruct (remove_duplicates_loop_spec _ _ _ _ _ H1) as (O1 & S1 & _).
  assert (Hnd1 : NoDup unique).
  { eapply sublist_NoDup; [apply NoDup_row_refs|exact S1]. }
  destruct (fix_missing_values_spec unique st1 Hnd1)
    as (st2' & H2' & F2 & _).
  assert (st2' = st2) as -> by congruence.
  destruct (validate_loop_spec _ _ _ flags_rejects_coordinates _ _ _ H3)
    as (S3 & _).
  destruct (validate_loop_spec _ _ _ flags_rejects_datetime _ _ _ H4)
    as (S4 & _).
  destruct (validate_loop_spec _ _ _ flags_rejects_trip_duration _ _ _ H5)
    as (S5 & _).
  assert (Hnd3 : NoDup valid3) by (by eapply sublist_NoDup).
  assert (Hnd4 : NoDup valid4) by (by eapply sublist_NoDup).
  assert (Hnd5 : NoDup cleaned) by (by eapply sublist_NoDup).
  assert (Hin4 : ref ∈ valid4) by (by eapply elem_of_sublist).
  assert (Hin3 : ref ∈ valid3) by (by eapply elem_of_sublist).
  assert (Hinu : ref ∈ unique) by (by eapply elem_of_sublist).
  assert (Hinr : ref ∈ row_refs 0 (length raw_data))
    by (by eapply elem_of_sublist).
  apply elem_of_row_refs in Hinr as (i & Hi & Href).
  rewrite N.add_0_l in Href.
  destruct (lookup_lt_is_Some_2 raw_data i Hi) as [row Hrow].
  assert (E1 : deref st1 ref = row).
  { unfold deref. rewrite O1, Href, (Hobjs i row Hrow). done. }
  pose proof (F2 ref Hinu) as E2. rewrite E1 in E2.
  destruct (validate_loop_accepts _ _ _ _ flags_rejects_coordinates
              accepts_coordinates _ _ _ H3 Hnd1 ref Hin3) as [V3 E3].
  destruct (validate_loop_accepts _ _ _ _ flags_rejects_datetime
              accepts_datetime _ _ _ H4 Hnd3 ref Hin4)
    as (duration & V4 & E4).
  destruct (validate_loop_accepts _ _ _ _ flags_rejects_trip_duration
              accepts_trip_duration _ _ _ H5 Hnd4 ref Hin) as [V5 E5].
  destruct (detect_outliers_counts _ _ _ _ Hnd5 H6) as [_ F6].
  destruct (F6 ref Hin) as (flag & Hflag & E6).
  rewrite E3, E2 in E4, V4. rewrite E2 in V3. rewrite E4 in V5, E5.
  exists i, row, flag, duration.
  split; [done|]. split; [done|]. split; [done|]. split; [done|].
  split.
  { by apply (duration_valid_insert _ "calculated_duration"
                (str_int duration)). }
  split; [done|].
  unfold deref at 1. rewrite objs_record_totals.
  fold (deref st6 ref). by rewrite E6, E5.
Qed.
End CleanedRecords.

(** X12. Every record of the result is a row of the input with the three
    defaults filled in, the field [calculated_duration] and the field
    [outlier_flag] added, and nothing else changed; it passed every
    validation: both end points lie in the box of the city, the timestamps
    parse with the pickup strictly before the dropoff and
    [calculated_duration] is their difference in seconds, the trip
    duration is between 60 and 3600 and the passenger count between 1
    and 8.  Its outlier flag is [NORMAL] or [DURATION_OUTLIER]. *)
Theorem cleaned_records_valid `{Builtins}
    (random_sample : list Q → nat → list Q) (raw_data : list record)
    (cleaned : list N) (st : TaxiDataCleaner.cleaner) (ref : N) :
  TaxiDataCleaner.clean_dataset random_sample raw_data = Ok (cleaned, st) →
  ref ∈ cleaned →
  ∃ i row flag duration,
    ref = N.of_nat i ∧ raw_data !! i = Some row
    ∧ coordinates_valid (filled row)
    ∧ datetimes_valid (filled row) duration
    ∧ duration_valid (filled row)
    ∧ (flag = "NORMAL" ∨ flag = "DURATION_OUTLIER")
    ∧ TaxiDataCleaner.deref st ref
      = <["outlier_flag" := flag]>
          (<["calculated_duration" := str_int duration]> (filled row))
    ∧ TaxiDataCleaner.deref st ref !! "validity_flag"
      = row !! "validity_flag".
Proof.
  intros Hrun Hin.
  destruct (clean_dataset_survivor _ _ _ _ _ Hrun Hin)
    as (i & row & flag & duration & Href & Hrow & V1 & V2 & V3 & Hflag & E).
  exists i, row, flag, duration. do 6 (split; [done|]). split; [done|].
  rewrite E. rewrite !lookup_insert_ne by done.
  unfold filled, fill.
  repeat (destruct (TaxiDataCleaner.is_missing _ _);
          rewrite ?lookup_insert_ne by done); done.
Qed.

(** A run on a single valid row keeps it. *)
Lemma evening_trip_cleaned :
  ∃ st,
    TaxiDataCleaner.clean_dataset (H := DecimalBuiltins.builtins) sample_first
      [evening_trip] = Ok ([0%N], st).
Proof. eexists. vm_compute. reflexivity. Qed.

Lemma cleaned_records_valid_witness :
  ∃ st,
    TaxiDataCleaner.clean_dataset (H := DecimalBuiltins.builtins) sample_first
      [evening_trip] = Ok ([0%N], st)
    ∧ ∃ duration,
        datetimes_valid (H := DecimalBuiltins.builtins) (filled evening_trip)
          duration
        ∧ TaxiDataCleaner.deref st 0 !! "calculated_duration"
          = Some (str_int (Builtins := DecimalBuiltins.builtins) duration).
Proof.
  destruct evening_trip_cleaned as [st Hrun].
  exists st. split; [exact Hrun|].
  destruct (cleaned_records_valid (H := DecimalBuiltins.builtins)
              sample_first [evening_trip] [0%N] st 0%N Hrun ltac:(by left))
    as (i & row & flag & duration & Href & Hrow & _ & Hdt & _ & _ & E & _).
  assert (i = 0) as -> by lia. injection Hrow as <-.
  exists duration. split; [done|].
  rewrite E. rewrite lookup_insert_ne by done. by rewrite lookup_insert_eq.
Defined.

(** ** _remove_duplicates keeps the first record of every key *)

Section Duplicates.
Import TaxiDataCleaner.

(** The key of the record behind a reference. *)
Definition key_of (st : cleaner) (ref : N) : string :=
  unique_key (deref st ref).

Lemma remove_duplicates_loop_kept data : ∀ seen st unique st',
  remove_duplicates_loop data seen st = (unique, st') →
  Forall (λ ref, key_of st ref ∉ seen) unique
  ∧ NoDup (key_of st <$> unique)
  ∧ (∀ ref, ref ∈ data →
       key_of st ref ∈ seen
       ∨ ∃ ref', ref' ∈ unique ∧ key_of st ref' = key_of st ref)
  ∧ (NoDup data → ∀ i ref, data !! i = Some ref → ref ∈ unique →
       ∀ j ref', j < i → data !! j = Some ref' →
         key_of st ref' ≠ key_of st ref).
Proof.
  induction data as [|ref0 data IH]; intros seen st unique st' Hrun.
  { injection Hrun as <- <-. split; [constructor|]. split; [constructor|].
    split; [by intros ? ?%elem_of_nil|]. intros _ i ref Hi.
    by rewrite lookup_nil in Hi. }
  simpl in Hrun. fold (key_of st ref0) in Hrun.
  destruct (decide (key_of st ref0 ∈ seen)) as [Hseen|Hnew].
  - destruct (IH _ _ _ _ Hrun) as (Hnot & Hnd & Hall & Hfirst).
    destruct (remove_duplicates_loop_spec _ _ _ _ _ Hrun) as (_ & Hsub & _).
    split; [exact Hnot|]. split; [exact Hnd|]. split.
    + intros r [->|Hr]%elem_of_cons; [by left|].
      destruct (Hall r Hr) as [?|(r' & ? & ?)]; [by left|right].
      by exists r'.
    + intros Hdata i ref Hi Hin j ref' Hj Hj'.
      apply NoDup_cons in Hdata as [Hnotin Hdata].
      destruct i as [|i]; simpl in Hi.
      { injection Hi as <-. destruct Hnotin. by eapply elem_of_sublist. }
      assert (Hkey : key_of st ref ∉ seen).
      { apply (proj1 (Forall_forall _ _) Hnot ref Hin). }
      destruct j as [|j]; simpl in Hj'.
      * injection Hj' as <-. intros E. apply Hkey. by rewrite <- E.
      * apply (Hfirst Hdata i ref Hi Hin j ref'); [lia|done].
  - destruct (remove_duplicates_loop data _ st) as [unique1 st1] eqn:Hrest.
    injection Hrun as <- <-.
    destruct (IH _ _ _ _ Hrest) as (Hnot & Hnd & Hall & Hfirst).
    destruct (remove_duplicates_loop_spec _ _ _ _ _ Hrest) as (_ & Hsub & _).
    assert (Hnot' : ∀ r, r ∈ unique1 →
              key_of st r ≠ key_of st ref0 ∧ key_of st r ∉ seen).
    { intros r Hr. pose proof (proj1 (Forall_forall _ _) Hnot r Hr) as Hk.
      cbv beta in Hk.
      apply not_elem_of_union in Hk as [Hk1%not_elem_of_singleton Hk2].
      done. }
    split; [|split; [|split]].
    + constructor; [done|]. apply Forall_forall. intros r Hr.
      by apply Hnot'.
    + rewrite fmap_cons. apply NoDup_cons. split; [|done].
      intros (r & E & Hr)%list_elem_of_fmap.
      by destruct (Hnot' r Hr) as [Hne _].
    + intros r [->|Hr]%elem_of_cons.
      { right. exists ref0. split; [by left|done]. }
      destruct (Hall r Hr) as [Hin|(r' & ? & ?)].
      * apply elem_of_union in Hin as [Hin%elem_of_singleton|Hin];
          [|by left]. right. exists ref0. split; [by left|done].
      * right. exists r'. split; [by right|done].
    + intros Hdata i ref Hi Hin j ref' Hj Hj'.
      apply NoDup_cons in Hdata as [Hnotin Hdata].
      destruct i as [|i]; [lia|]. simpl in Hi.
      assert (Hin1 : ref ∈ unique1).
      { apply elem_of_cons in Hin as [->|Hin]; [|done].
        destruct Hnotin. by eapply list_elem_of_lookup_2. }
      destruct j as [|j]; simpl in Hj'.
      * injection Hj' as <-. intros E.
        by destruct (Hnot' ref Hin1) as [Hne _].
      * apply (Hfirst Hdata i ref Hi Hin1 j ref'); [lia|done].
Qed.

Lemma remove_duplicates_loop_fixed data : ∀ seen st,
  NoDup (key_of st <$> data) →
  Forall (λ ref, key_of st ref ∉ seen) data →
  remove_duplicates_loop data seen st = (data, st).
Proof.
  induction data as [|ref0 data IH]; intros seen st Hnd Hnot; [done|].
  rewrite fmap_cons in Hnd. apply NoDup_cons in Hnd as [Hhead Hnd].
  apply Forall_cons in Hnot as [Hnew Hnot].
  simpl. fold (key_of st ref0).
  rewrite decide_False by done. rewrite IH; [done|done|].
  apply Forall_forall. intros r Hr.
  rewrite elem_of_union, elem_of_singleton. intros [E|Hin].
  - apply Hhead. rewrite <- E. apply list_elem_of_fmap. by exists r.
  - by apply (proj1 (Forall_forall _ _) Hnot r Hr).
Qed.
End Duplicates.

(** X13. [_remove_duplicates] keeps exactly the first record of every key:
    the keys of the records it keeps are pairwise different, every record
    of the input has its key among them, and a kept record has no earlier
    record with the same key.  It writes on no record, and running it
    again on its result removes nothing and counts nothing. *)
Theorem remove_duplicates_first_occurrences (data unique : list N)
    (st st' : TaxiDataCleaner.cleaner) :
  NoDup data →
  TaxiDataCleaner._remove_duplicates data st = (unique, st') →
  TaxiDataCleaner.objs st' = TaxiDataCleaner.objs st
  ∧ unique `sublist_of` data
  ∧ NoDup (key_of st <$> unique)
  ∧ (∀ ref, ref ∈ data →
       ∃ ref', ref' ∈ unique ∧ key_of st ref' = key_of st ref)
  ∧ (∀ i ref, data !! i = Some ref →
       ref ∈ unique
       ↔ ∀ j ref', j < i → data !! j = Some ref' →
           key_of st ref' ≠ key_of st ref)
  ∧ TaxiDataCleaner._remove_duplicates unique st' = (unique, st').
Proof.
  intros Hdata Hrun. unfold TaxiDataCleaner._remove_duplicates in *.
  destruct (remove_duplicates_loop_spec _ _ _ _ _ Hrun)
    as (Hobjs & Hsub & _ & Hdup).
  destruct (remove_duplicates_loop_kept _ _ _ _ _ Hrun)
    as (_ & Hnd & Hall & Hfirst).
  assert (Hkeys : ∀ r, key_of st' r = key_of st r).
  { intros r. unfold key_of, TaxiDataCleaner.deref. by rewrite Hobjs. }
  split; [done|]. split; [done|]. split; [done|].
  split; [|split].
  - intros ref Hin. destruct (Hall ref Hin) as [Hseen|Hex]; [|done].
    by apply elem_of_empty in Hseen.
  - intros i ref Hi. split; [by apply Hfirst|].
    intros Hearlier. destruct (decide (ref ∈ unique)) as [|Hnot]; [done|].
    destruct (Hdup i ref Hi Hnot) as [Hseen|(j & ref' & Hj & Hj' & E)].
    + by apply elem_of_empty in Hseen.
    + by destruct (Hearlier j ref' Hj Hj').
  - apply remove_duplicates_loop_fixed.
    + erewrite list_fmap_ext; [exact Hnd|]. intros ? r _. apply Hkeys.
    + apply Forall_forall. intros r _. apply not_elem_of_empty.
Qed.

Lemma remove_duplicates_first_occurrences_witness :
  let st := (TaxiDataCleaner.load [evening_trip; evening_trip]).2 in
  ∃ unique st',
    TaxiDataCleaner._remove_duplicates [0%N; 1%N] st = (unique, st')
    ∧ NoDup (key_of st <$> unique).
Proof.
  intros st.
  destruct (TaxiDataCleaner._remove_duplicates [0%N; 1%N] st)
    as [unique st'] eqn:Hrun.
  exists unique, st'. split; [done|].
  apply (remove_duplicates_first_occurrences [0%N; 1%N] unique st st');
    [|exact Hrun].
  apply NoDup_cons. split; [|apply NoDup_singleton].
  intros [Hin|Hin%elem_of_nil]%elem_of_cons; done.
Defined.

(** ** What happens to each row of the input *)

Section Verdicts.
Context `{Builtins}.
Import TaxiDataCleaner.

(** When the loop of [_remove_duplicates] reaches the row at position [i],
    its key is already in [seen_records]: an earlier row has the same
    key. *)
Definition seen_before (raw_data : list record) (i : nat) (row : record)
  : bool :=
  existsb (λ row', String.eqb (unique_key row') (unique_key row))
    (take i raw_data).

(** The test of [_validate_coordinates] on a record: the four coordinates
    parse and both end points are in the box of the city. *)
Definition coordinates_ok (r : record) : bool :=
  let parsed :=
    pickup_lon ← float_field r "pickup_longitude" 0;
    pickup_lat ← float_field r "pickup_latitude" 0;
    dropoff_lon ← float_field r "dropoff_longitude" 0;
    dropoff_lat ← float_field r "dropoff_latitude" 0;
    Some (pickup_lon, pickup_lat, dropoff_lon, dropoff_lat) in
  match parsed with
  | Some (pickup_lon, pickup_lat, dropoff_lon, dropoff_lat) =>
      in_nyc pickup_lat pickup_lon && in_nyc dropoff_lat dropoff_lon
  | None => false
  end.

(** The test of [_validate_datetime]: both timestamps parse and the dropoff
    is after the pickup. *)
Definition datetime_ok (r : record) : bool :=
  match r !! "pickup_datetime" ≫= strptime,
        r !! "dropoff_datetime" ≫= strptime with
  | Some pickup_dt, Some dropoff_dt =>
      (dt_epoch pickup_dt <? dt_epoch dropoff_dt)%Z
  | _, _ => false
  end.

(** The test of [_validate_trip_duration]: both numbers parse and are
    within their bounds. *)
Definition duration_ok (r : record) : bool :=
  let parsed :=
    trip_duration ← int_field r "trip_duration" 0;
    passenger_count ← int_field r "passenger_count" 1;
    Some (trip_duration, passenger_count) in
  match parsed with
  | Some (trip_duration, passenger_count) =>
      ((min_duration <=? trip_duration) && (trip_duration <=? max_duration)
       && ((1 <=? passenger_count) && (passenger_count <=? max_passenger)))%Z
  | None => false
  end.

(** A check keeps a record exactly when the test holds of it. *)
Definition decides (ok : record → bool)
    (check : N → cleaner → result (bool * cleaner)) : Prop :=
  ∀ ref st keep st', check ref st = Ok (keep, st') → keep = ok (deref st ref).

Lemma decides_coordinates : decides coordinates_ok check_coordinates.
Proof.
  intros ref st keep st' Hc. unfold check_coordinates in Hc.
  unfold coordinates_ok.
  destruct (_ ≫= _) as [[[[? ?] ?] ?]|]; [|by injection Hc as <- _].
  destruct (_ && _); by injection Hc as <- _.
Qed.

Lemma decides_datetime : decides datetime_ok check_datetime.
Proof.
  intros ref st keep st' Hc. unfold check_datetime, dict_get in Hc.
  unfold datetime_ok.
  destruct (deref st ref !! "pickup_datetime") as [pickup_s|]; [|done].
  simpl in Hc |- *.
  destruct (strptime pickup_s) as [pickup_dt|]; [|by injection Hc as <- _].
  destruct (deref st ref !! "dropoff_datetime") as [dropoff_s|]; [|done].
  simpl in Hc |- *.
  destruct (strptime dropoff_s) as [dropoff_dt|]; [|by injection Hc as <- _].
  destruct (_ <? _)%Z; by injection Hc as <- _.
Qed.

Lemma decides_trip_duration : decides duration_ok check_trip_duration.
Proof.
  intros ref st keep st' Hc. unfold check_trip_duration in Hc.
  unfold duration_ok.
  destruct (_ ≫= _) as [[? ?]|]; [|by injection Hc as <- _].
  destruct (_ && _); by injection Hc as <- _.
Qed.

Lemma validate_loop_decides flag ok check data :
  flags_rejects flag check → decides ok check →
  ∀ st valid st', validate_loop check data st = Ok (valid, st') →
  NoDup data → ∀ ref, ref ∈ data →
  ref ∈ valid ↔ ok (deref st ref) = true.
Proof.
  intros Hflags Hdec.
  induction data as [|ref0 data IH]; intros st valid st' Hrun Hnd ref Hin.
  { by apply elem_of_nil in Hin. }
  simpl in Hrun.
  destruct (check ref0 st) as [[keep st1]|] eqn:Hc; [|done]. simpl in Hrun.
  destruct (validate_loop check data st1) as [[valid1 st2]|] eqn:Hrest;
    [|done].
  simpl in Hrun. injection Hrun as <- <-.
  apply NoDup_cons in Hnd as [Hnotin Hnd].
  destruct (Hflags _ _ _ _ Hc) as (Hother & _).
  destruct (validate_loop_spec _ _ _ Hflags _ _ _ Hrest) as (Hsub & _).
  assert (Hnot1 : ref0 ∉ valid1).
  { intros Hin1. apply Hnotin. by eapply elem_of_sublist. }
  pose proof (Hdec _ _ _ _ Hc) as Hkeep.
  apply elem_of_cons in Hin as [->|Hin].
  - rewrite <- Hkeep. destruct keep.
    + split; [done|]. intros _. by left.
    + split; [|done]. intros Hin1. by destruct Hnot1.
  - assert (Hne : ref ≠ ref0) by (intros ->; done).
    rewrite <- (deref_objs st st1 ref (Hother ref Hne)).
    rewrite <- (IH _ _ _ Hrest Hnd ref Hin).
    destruct keep; [|done]. split.
    + intros [?|?]%elem_of_cons; done.
    + intros Hin1. by right.
Qed.

Lemma duration_ok_insert (r : record) k v :
  k ≠ "trip_duration" → k ≠ "passenger_count" →
  duration_ok (<[k := v]> r) = duration_ok r.
Proof.
  intros H1 H2. unfold duration_ok, int_field.
  by rewrite !lookup_insert_ne by done.
Qed.

Lemma filled_validity_flag (row : record) :
  filled row !! "validity_flag" = row !! "validity_flag".
Proof.
  unfold filled, fill.
  repeat (destruct (is_missing _ _); rewrite ?lookup_insert_ne by done); done.
Qed.

Lemma seen_before_true raw_data i row :
  seen_before raw_data i row = true ↔ duplicate_row raw_data i row.
Proof.
  unfold seen_before, duplicate_row. rewrite existsb_exists. split.
  - intros (row' & Hin & Hkey). apply String.eqb_eq in Hkey.
    apply list_elem_of_In, list_elem_of_lookup in Hin as [j Hj].
    apply lookup_take_Some in Hj as [Hj Hlt]. by exists j, row'.
  - intros (j & row' & Hlt & Hj & Hkey). exists row'. split.
    + apply list_elem_of_In. apply (list_elem_of_lookup_2 _ j).
      by rewrite lookup_take_lt.
    + by apply String.eqb_eq.
Qed.

(** The fate of the row at position [i] follows the order of the stages:
    the first test that fails decides why the row is dropped. *)
Lemma clean_dataset_verdict random_sample raw_data cleaned st :
  clean_dataset random_sample raw_data = Ok (cleaned, st) →
  ∀ i row, raw_data !! i = Some row →
    let ref := N.of_nat i in
    let flag := deref st ref !! "validity_flag" in
    if seen_before raw_data i row
    then ((ref ∉ cleaned) ∧ objs st !! ref = Some row)
    else if negb (coordinates_ok (filled row))
    then ((ref ∉ cleaned) ∧ flag = Some "INVALID_COORDINATES")
    else if negb (datetime_ok (filled row))
    then ((ref ∉ cleaned) ∧ flag = Some "INVALID_DATETIME")
    else if negb (duration_ok (filled row))
    then ((ref ∉ cleaned) ∧ flag = Some "INVALID_DURATION_OR_PASSENGERS")
    else (ref ∈ cleaned ∧ flag = row !! "validity_flag").
Proof.
  intros Hrun i row Hrow ref flag.
  destruct (clean_dataset_stages _ _ _ _ Hrun)
    as (data & st0 & unique & st1 & st2 & valid3 & st3 & valid4 & st4 & st5
        & st6 & H0 & H1 & H2 & H3 & H4 & H5 & H6 & Est).
  destruct (load_spec _ _ _ H0) as [-> Hobjs].
  destruct (remove_duplicates_loop_spec _ _ _ _ _ H1) as (O1 & S1 & _ & D1).
  destruct (remove_duplicates_loop_kept _ _ _ _ _ H1) as (_ & _ & _ & K1).
  assert (Hnd1 : NoDup unique).
  { eapply sublist_NoDup; [apply NoDup_row_refs|exact S1]. }
  destruct (fix_missing_values_spec unique st1 Hnd1)
    as (st2' & H2' & D2 & F2 & _).
  assert (st2' = st2) as -> by congruence.
  destruct (validate_loop_spec _ _ _ flags_rejects_coordinates _ _ _ H3)
    as (S3 & F3 & _ & V3).
  destruct (validate_loop_spec _ _ _ flags_rejects_datetime _ _ _ H4)
    as (S4 & F4 & _ & V4).
  destruct (validate_loop_spec _ _ _ flags_rejects_trip_duration _ _ _ H5)
    as (S5 & F5 & _ & V5).
  destruct (detect_outliers_result _ _ _ _ _ H6) as (_ & F6 & _ & V6).
  assert (Hnd3 : NoDup valid3) by (by eapply sublist_NoDup).
  assert (Hnd4 : NoDup valid4) by (by eapply sublist_NoDup).
  assert (Hlen : i < length raw_data) by (by eapply lookup_lt_Some).
  assert (Hi : row_refs 0 (length raw_data) !! i = Some ref).
  { rewrite row_refs_lookup by done. by rewrite N.add_0_l. }
  assert (Hfinal : ∀ r, deref st r = deref st6 r).
  { intros r. unfold deref. by rewrite Est, objs_record_totals. }
  assert (Hkeys : ∀ j row', raw_data !! j = Some row' →
            key_of st0 (N.of_nat j) = unique_key row').
  { intros j row' Hj. unfold key_of, deref. by rewrite (Hobjs j row' Hj). }
  (* the duplicate test *)
  assert (Hdup : ref ∈ unique ↔ seen_before raw_data i row = false).
  { rewrite <- not_true_iff_false, seen_before_true. split.
    - intros Hin (j & row' & Hlt & Hj & Hkey).
      apply (K1 (NoDup_row_refs _ _) i ref Hi Hin j (N.of_nat j)); [done| |].
      + rewrite row_refs_lookup by lia. by rewrite N.add_0_l.
      + unfold ref. by rewrite (Hkeys j row' Hj), (Hkeys i row Hrow).
    - intros Hno. destruct (decide (ref ∈ unique)) as [|Hout]; [done|].
      destruct Hno.
      destruct (D1 i ref Hi Hout) as [Hin|(j & ref' & Hj & Hj' & Hkey)];
        [by apply elem_of_empty in Hin|].
      assert (ref' = N.of_nat j) as ->.
      { rewrite row_refs_lookup in Hj' by lia.
        rewrite N.add_0_l in Hj'. congruence. }
      destruct (lookup_lt_is_Some_2 raw_data j) as [row' Hrow']; [lia|].
      exists j, row'. split; [done|]. split; [done|].
      change (key_of st0 (N.of_nat j) = key_of st0 (N.of_nat i)) in Hkey.
      by rewrite (Hkeys j row' Hrow'), (Hkeys i row Hrow) in Hkey. }
  destruct (seen_before raw_data i row) eqn:Eseen.
  { assert (Hu : ref ∉ unique).
    { intros Hin. by apply Hdup in Hin. }
    split.
    - intros Hin. apply Hu.
      eapply elem_of_sublist; [|exact S3].
      eapply elem_of_sublist; [|exact S4].
      by eapply elem_of_sublist.
    - rewrite Est, objs_record_totals.
      rewrite F6, F5, F4, F3, F2, O1; first by apply Hobjs.
      all: intros Hin; apply Hu.
      + done.
      + done.
      + by eapply elem_of_sublist.
      + eapply elem_of_sublist; [|exact S3]. by eapply elem_of_sublist.
      + eapply elem_of_sublist; [|exact S3].
        eapply elem_of_sublist; [|exact S4]. by eapply elem_of_sublist. }
  assert (Hu : ref ∈ unique) by (by apply Hdup).
  assert (E2 : deref st2 ref = filled row).
  { rewrite (D2 ref Hu). f_equal. unfold deref, ref.
    by rewrite O1, (Hobjs i row Hrow). }
  (* the coordinate test *)
  pose proof (validate_loop_decides _ _ _ _ flags_rejects_coordinates
                decides_coordinates _ _ _ H3 Hnd1 ref Hu) as T3.
  rewrite E2 in T3.
  destruct (coordinates_ok (filled row)) eqn:Ecoord; cbn [negb]; cycle 1.
  { assert (H3out : ref ∉ valid3).
    { intros Hin. by apply T3 in Hin. }
    split.
    - intros Hin. apply H3out.
      eapply elem_of_sublist; [|exact S4]. by eapply elem_of_sublist.
    - unfold flag. rewrite Hfinal, V6.
      rewrite (deref_objs st4 st5 ref), (deref_objs st3 st4 ref).
      + specialize (V3 Hnd1 ref Hu). by rewrite decide_False in V3.
      + by apply F4.
      + apply F5. intros Hin. apply H3out. by eapply elem_of_sublist. }
  assert (H3in : ref ∈ valid3) by (by apply T3).
  destruct (validate_loop_accepts _ _ _ _ flags_rejects_coordinates
              accepts_coordinates _ _ _ H3 Hnd1 ref H3in) as [_ E3].
  (* the datetime test *)
  pose proof (validate_loop_decides _ _ _ _ flags_rejects_datetime
                decides_datetime _ _ _ H4 Hnd3 ref H3in) as T4.
  rewrite E3, E2 in T4.
  destruct (datetime_ok (filled row)) eqn:Edt; cbn [negb]; cycle 1.
  { assert (H4out : ref ∉ valid4).
    { intros Hin. by apply T4 in Hin. }
    split.
    - intros Hin. apply H4out. by eapply elem_of_sublist.
    - unfold flag. rewrite Hfinal, V6.
      rewrite (deref_objs st4 st5 ref).
      + specialize (V4 Hnd3 ref H3in). by rewrite decide_False in V4.
      + by apply F5. }
  assert (H4in : ref ∈ valid4) by (by apply T4).
  destruct (validate_loop_accepts _ _ _ _ flags_rejects_datetime
              accepts_datetime _ _ _ H4 Hnd3 ref H4in)
    as (duration & _ & E4).
  (* the duration test *)
  pose proof (validate_loop_decides _ _ _ _ flags_rejects_trip_duration
                decides_trip_duration _ _ _ H5 Hnd4 ref H4in) as T5.
  rewrite E4, E3, E2, duration_ok_insert in T5 by done.
  destruct (duration_ok (filled row)) eqn:Edur; cbn [negb]; cycle 1.
  { assert (H5out : ref ∉ cleaned).
    { intros Hin. by apply T5 in Hin. }
    split; [done|].
    unfold flag. rewrite Hfinal, V6.
    specialize (V5 Hnd4 ref H4in). by rewrite decide_False in V5. }
  assert (H5in : ref ∈ cleaned) by (by apply T5).
  split; [done|].
  unfold flag. rewrite Hfinal, V6.
  specialize (V5 Hnd4 ref H4in). rewrite decide_True in V5 by done.
  rewrite V5, E4, lookup_insert_ne by done.
  by rewrite E3, E2, filled_validity_flag.
Qed.
End Verdicts.

(** Five rows: a valid trip, its exact duplicate, a trip that starts
    outside of the city, a trip that ends before it starts and a trip
    that is too short. *)
Definition mixed_rows : list record :=
  [evening_trip;
   evening_trip;
   <["pickup_latitude" := "41.50"]> evening_trip;
   trip_row "2016-03-14 18:00:00" "2016-03-14 17:00:00" "455" "1";
   trip_row "2016-03-14 09:00:00" "2016-03-14 09:00:30" "30" "1"].

(** C7 (amended). Every row of the input meets the stages in their order,
    and the first test it fails decides what happens to it.  A row whose
    key was seen before is dropped as a duplicate and its record is left
    as it was read: no validity flag is written on it.  A row that fails
    the coordinate test, the datetime test, or the test of the duration
    and the passengers is dropped by that stage and carries the flag of
    that stage, [INVALID_COORDINATES], [INVALID_DATETIME] or
    [INVALID_DURATION_OR_PASSENGERS], at the end of the run.  A row that
    passes every test is in the result, its validity flag untouched.  The
    run does not stop at a rejection: it returns whenever every row
    carries its two timestamps and the sampling call returns as many
    elements as it is asked for. *)
Theorem removed_records_are_flagged `{Builtins}
    (random_sample : list Q → nat → list Q) (raw_data : list record) :
  (∀ cleaned st,
     TaxiDataCleaner.clean_dataset random_sample raw_data = Ok (cleaned, st) →
     ∀ i row, raw_data !! i = Some row →
       let ref := N.of_nat i in
       let flag := TaxiDataCleaner.deref st ref !! "validity_flag" in
       if seen_before raw_data i row
       then ((ref ∉ cleaned) ∧ TaxiDataCleaner.objs st !! ref = Some row)
       else if negb (coordinates_ok (filled row))
       then ((ref ∉ cleaned) ∧ flag = Some "INVALID_COORDINATES")
       else if negb (datetime_ok (filled row))
       then ((ref ∉ cleaned) ∧ flag = Some "INVALID_DATETIME")
       else if negb (duration_ok (filled row))
       then ((ref ∉ cleaned) ∧ flag = Some "INVALID_DURATION_OR_PASSENGERS")
       else (ref ∈ cleaned ∧ flag = row !! "validity_flag"))
  ∧ (sample_sized random_sample → Forall has_datetimes raw_data →
     ∃ cleaned st,
       TaxiDataCleaner.clean_dataset random_sample raw_data
       = Ok (cleaned, st)).
Proof.
  split.
  - intros cleaned st Hrun. by apply (clean_dataset_verdict random_sample).
  - apply clean_dataset_total.
Qed.

Lemma removed_records_are_flagged_witness :
  ∃ cleaned st,
    TaxiDataCleaner.clean_dataset (H := DecimalBuiltins.builtins) sample_first
      mixed_rows = Ok (cleaned, st)
    ∧ (0%N ∈ cleaned
       ∧ TaxiDataCleaner.deref st 0 !! "validity_flag" = None)
    ∧ ((1%N ∉ cleaned)
       ∧ TaxiDataCleaner.objs st !! 1%N = Some evening_trip)
    ∧ ((2%N ∉ cleaned)
       ∧ TaxiDataCleaner.deref st 2 !! "validity_flag"
         = Some "INVALID_COORDINATES")
    ∧ ((3%N ∉ cleaned)
       ∧ TaxiDataCleaner.deref st 3 !! "validity_flag"
         = Some "INVALID_DATETIME")
    ∧ ((4%N ∉ cleaned)
       ∧ TaxiDataCleaner.deref st 4 !! "validity_flag"
         = Some "INVALID_DURATION_OR_PASSENGERS").
Proof.
  destruct (proj2 (removed_records_are_flagged (H := DecimalBuiltins.builtins)
                     sample_first mixed_rows))
    as (cleaned & st & Hrun).
  { intros population k Hk. unfold sample_first. rewrite length_take. lia. }
  { repeat constructor; by eexists. }
  pose proof (proj1 (removed_records_are_flagged
                       (H := DecimalBuiltins.builtins) sample_first mixed_rows)
                cleaned st Hrun) as Hfate.
  exists cleaned, st. split; [exact Hrun|].
  split; [exact (Hfate 0 _ eq_refl)|].
  split; [exact (Hfate 1 _ eq_refl)|].
  split; [exact (Hfate 2 _ eq_refl)|].
  split; [exact (Hfate 3 _ eq_refl)|].
  exact (Hfate 4 _ eq_refl).
Defined.

(** ** _fix_missing_values is idempotent *)

Section FixIdempotent.
Import TaxiDataCleaner.

Lemma fix_record_done ref st :
  needs_fix (deref st ref) = false → fix_record ref st = st.
Proof.
  unfold needs_fix, fix_record, fix_field.
  intros [[H1 H2]%orb_false_iff H3]%orb_false_iff.
  cbn [fst snd]. rewrite H1. cbn [fst snd]. rewrite H2. cbn [fst snd].
  by rewrite H3.
Qed.

Lemma is_missing_default (r r' : record) k v :
  r' !! k = (if is_missing r k then Some v else r !! k) → v ≠ "" →
  is_missing r' k = false.
Proof.
  intros E Hv. unfold is_missing at 1. rewrite E.
  destruct (is_missing r k) eqn:Em; [by apply String.eqb_neq|exact Em].
Qed.

Lemma is_missing_filled r :
  is_missing (filled r) "passenger_count" = false
  ∧ is_missing (filled r) "store_and_fwd_flag" = false
  ∧ is_missing (filled r) "vendor_id" = false.
Proof.
  destruct (filled_lookup r) as (E1 & E2 & E3 & _).
  split; [|split]; by eapply is_missing_default.
Qed.

Lemma needs_fix_filled r : needs_fix (filled r) = false.
Proof.
  destruct (is_missing_filled r) as (E1 & E2 & E3).
  unfold needs_fix. by rewrite E1, E2, E3.
Qed.

Lemma fix_all_done data st :
  Forall (λ ref, needs_fix (deref st ref) = false) data →
  foldl (λ st ref, fix_record ref st) st data = st.
Proof.
  induction 1 as [|ref data Href _ IH]; [done|].
  simpl. by rewrite (fix_record_done ref st Href).
Qed.
End FixIdempotent.

(** X14. [_fix_missing_values] is idempotent: after one pass no record of
    the list lacks one of the three fields, and a second pass writes
    nothing and counts nothing. *)
Theorem fix_missing_values_idempotent (data : list N)
    (st st' : TaxiDataCleaner.cleaner) :
  NoDup data →
  TaxiDataCleaner._fix_missing_values data st = (data, st') →
  TaxiDataCleaner._fix_missing_values data st' = (data, st')
  ∧ records_needing_fix st' data = 0%Z
  ∧ ∀ ref, ref ∈ data →
      TaxiDataCleaner.is_missing (TaxiDataCleaner.deref st' ref)
        "passenger_count" = false
      ∧ TaxiDataCleaner.is_missing (TaxiDataCleaner.deref st' ref)
          "store_and_fwd_flag" = false
      ∧ TaxiDataCleaner.is_missing (TaxiDataCleaner.deref st' ref)
          "vendor_id" = false.
Proof.
  intros Hnd Hrun.
  destruct (fix_missing_values_spec data st Hnd) as (st2 & Hrun' & Hfilled & _).
  assert (st2 = st') as -> by congruence.
  assert (Hdone : Forall (λ ref, needs_fix (TaxiDataCleaner.deref st' ref)
                                 = false) data).
  { apply Forall_forall. intros ref Hin. rewrite (Hfilled ref Hin).
    apply needs_fix_filled. }
  split; [|split].
  - unfold TaxiDataCleaner._fix_missing_values. by rewrite fix_all_done.
  - unfold records_needing_fix.
    replace (List.filter _ data) with (@nil N); [done|].
    symmetry. clear -Hdone. induction Hdone as [|ref data Href _ IH]; [done|].
    simpl. by rewrite Href.
  - intros ref Hin. rewrite (Hfilled ref Hin). apply is_missing_filled.
Qed.

Lemma fix_missing_values_idempotent_witness :
  let st := TaxiDataCleaner.Cleaner {[0%N := <["vendor_id" := "2"]> ∅]}
              TaxiDataCleaner.initial_stats in
  ∃ st', TaxiDataCleaner._fix_missing_values [0%N] st = ([0%N], st')
         ∧ TaxiDataCleaner._fix_missing_values [0%N] st' = ([0%N], st').
Proof.
  intros st. eexists. split; [reflexivity|].
  apply (fix_missing_values_idempotent [0%N] st _ (NoDup_singleton 0%N)
           eq_refl).
Defined.

(** ** The exceptions of a run *)

Section CleanerRaises.
Context `{Builtins}.
Import TaxiDataCleaner.

Lemma validate_loop_raises check data : ∀ st e,
  validate_loop check data st = Raise e →
  ∃ ref st1, ref ∈ data ∧ check ref st1 = Raise e.
Proof.
  induction data as [|ref data IH]; intros st e Hrun; [done|].
  simpl in Hrun.
  destruct (check ref st) as [[keep st1]|e1] eqn:Hc; simpl in Hrun.
  - destruct (validate_loop check data st1) as [[valid1 st2]|e2] eqn:Hrest;
      simpl in Hrun; [done|]. injection Hrun as <-.
    destruct (IH _ _ Hrest) as (r & st' & Hr & He).
    exists r, st'. split; [by right|done].
  - injection Hrun as <-. exists ref, st. split; [by left|done].
Qed.

Lemma check_datetime_raises ref st e :
  check_datetime ref st = Raise e → e = KeyError.
Proof.
  unfold check_datetime, dict_get.
  destruct (deref st ref !! "pickup_datetime") as [pickup_s|];
    [|by intros [= <-]]. simpl.
  destruct (strptime pickup_s) as [pickup_dt|]; [|done].
  destruct (deref st ref !! "dropoff_datetime") as [dropoff_s|];
    [|by intros [= <-]]. simpl.
  destruct (strptime dropoff_s) as [dropoff_dt|]; [|done].
  by destruct (_ <? _)%Z.
Qed.

Lemma detect_outliers_raises random_sample data st e :
  _detect_outliers random_sample data st = Raise e → e = KeyError.
Proof.
  unfold _detect_outliers.
  destruct (_ <? _)%Z.
  - unfold sampled_outliers.
    destruct (detect_outliers_iqr_total
                (random_sample ((λ ref, duration_of (deref st ref)) <$> data)
                   (Z.to_nat (Z.min max_sample_size
                      (Z.of_nat (length
                         ((λ ref, duration_of (deref st ref)) <$> data))))))
                2)
      as (idx & stats & -> & _).
    simpl. unfold dict_get.
    destruct (stats !! "q1"); [|by intros [= <-]]. simpl.
    destruct (stats !! "q3"); [|by intros [= <-]]. done.
  - destruct (detect_outliers_iqr_total
                ((λ ref, duration_of (deref st ref)) <$> data) 2)
      as (idx & stats & -> & _).
    done.
Qed.

Lemma clean_dataset_raises_key_error random_sample raw_data e :
  clean_dataset random_sample raw_data = Raise e → e = KeyError.
Proof.
  unfold clean_dataset. intros Hrun.
  destruct (load raw_data) as [data st0].
  destruct (_remove_duplicates data st0) as [unique st1].
  destruct (_fix_missing_values unique st1) as [fixed st2].
  destruct (_validate_coordinates fixed st2) as [[valid3 st3]|e3] eqn:H3;
    simpl in Hrun; cycle 1.
  { injection Hrun as <-.
    apply validate_loop_raises in H3 as (ref & st' & _ & Hc).
    destruct (check_coordinates_total ref st') as (? & ? & E). congruence. }
  destruct (_validate_datetime valid3 st3) as [[valid4 st4]|e4] eqn:H4;
    simpl in Hrun; cycle 1.
  { injection Hrun as <-.
    apply validate_loop_raises in H4 as (ref & st' & _ & Hc).
    by eapply check_datetime_raises. }
  destruct (_validate_trip_duration valid4 st4) as [[valid5 st5]|e5] eqn:H5;
    simpl in Hrun; cycle 1.
  { injection Hrun as <-.
    apply validate_loop_raises in H5 as (ref & st' & _ & Hc).
    destruct (check_trip_duration_total ref st') as (? & ? & E). congruence. }
  destruct (_detect_outliers random_sample valid5 st5) as [[out st6]|e6] eqn:H6;
    simpl in Hrun; [done|].
  injection Hrun as <-. by eapply detect_outliers_raises.
Qed.

#[local] Instance has_datetimes_dec (r : record) : Decision (has_datetimes r).
Proof. unfold has_datetimes. apply _. Defined.
End CleanerRaises.

(** X15. The only exception a run of the cleaning stages can raise is
    [KeyError].  When the sampling call returns as many elements as it is
    asked for, the run raises only if some row of the input lacks
    [pickup_datetime] or [dropoff_datetime]: unparsable numbers,
    coordinates and timestamps are caught and counted instead. *)
Theorem clean_dataset_raises `{Builtins}
    (random_sample : list Q → nat → list Q) (raw_data : list record)
    (e : exn) :
  TaxiDataCleaner.clean_dataset random_sample raw_data = Raise e →
  e = KeyError
  ∧ (sample_sized random_sample →
     ∃ row, row ∈ raw_data ∧ ¬ has_datetimes row).
Proof.
  intros Hrun. split; [by eapply clean_dataset_raises_key_error|].
  intros Hsample.
  destruct (decide (Forall has_datetimes raw_data)) as [Hall|Hnot].
  - destruct (clean_dataset_total random_sample raw_data Hsample Hall)
      as (cleaned & st & Hok). congruence.
  - apply not_Forall_Exists in Hnot; [|apply _].
    apply Exists_exists in Hnot as (row & Hin & Hrow). by exists row.
Qed.

(** A row without [pickup_datetime] ends the run. *)
Lemma missing_pickup_raises :
  TaxiDataCleaner.clean_dataset (H := DecimalBuiltins.builtins) sample_first
    [evening_trip; delete "pickup_datetime" evening_trip] = Raise KeyError.
Proof. vm_compute. reflexivity. Qed.

Lemma clean_dataset_raises_witness :
  ∃ row, row ∈ [evening_trip; delete "pickup_datetime" evening_trip]
         ∧ ¬ has_datetimes row.
Proof.
  apply (clean_dataset_raises (H := DecimalBuiltins.builtins) sample_first
           [evening_trip; delete "pickup_datetime" evening_trip] KeyError
           missing_pickup_raises).
  intros population k Hk. unfold sample_first. rewrite length_take. lia.
Defined.

(** * Further properties of the feature engineering pipeline *)

(** ** The fields of an enhanced record *)

Section FeatureFields.
Context `{Builtins}.
Import TaxiFeatureEngineer.
Local Open Scope Z_scope.

(** [r'] is [r] with the fields [ks] written: every field of [ks] is
    present, every other field is as in [r]. *)
Definition extends (ks : list string) (r r' : record) : Prop :=
  (∀ k, k ∉ ks → r' !! k = r !! k) ∧ (∀ k, k ∈ ks → is_Some (r' !! k)).

(** The value of a counter of the statistics. *)
Definition tally (k : string) (stats : counters) : Z :=
  default 0 (stats !! k).

Lemma tally_bump k k' n stats :
  tally k (bump k' n stats)
  = tally k stats + (if decide (k = k') then n else 0).
Proof.
  unfold tally, bump. destruct (decide (k = k')) as [->|Hne].
  - by rewrite lookup_insert_eq.
  - rewrite lookup_insert_ne by done. lia.
Qed.

Lemma extends_trans ks1 ks2 r r1 r2 :
  extends ks1 r r1 → extends ks2 r1 r2 → extends (ks1 ++ ks2) r r2.
Proof.
  intros [K1 S1] [K2 S2]. split.
  - intros k Hk. apply not_elem_of_app in Hk as [H1' H2'].
    by rewrite K2, K1.
  - intros k Hk. destruct (decide (k ∈ ks2)) as [Hin|Hnot]; [by apply S2|].
    apply elem_of_app in Hk as [Hk|Hk]; [|done].
    rewrite K2 by done. by apply S1.
Qed.

(** A loop body writes the fields [ks] and creates at most [c] features. *)
Definition writes (ks : list string) (c : Z)
    (body : record → counters → record * counters) : Prop :=
  ∀ r stats,
    extends ks r (body r stats).1
    ∧ tally "features_created" stats
      <= tally "features_created" (body r stats).2
      <= tally "features_created" stats + c
    ∧ tally "records_processed" (body r stats).2
      = tally "records_processed" stats.

Lemma for_each_writes ks c body :
  writes ks c body → ∀ data stats,
  Forall2 (extends ks) data (for_each body data stats).1
  ∧ tally "features_created" stats
    <= tally "features_created" (for_each body data stats).2
    <= tally "features_created" stats + c * Z.of_nat (length data)
  ∧ tally "records_processed" (for_each body data stats).2
    = tally "records_processed" stats.
Proof.
  intros Hbody. induction data as [|r data IH]; intros stats.
  { simpl. split; [constructor|]. split; [lia|done]. }
  simpl. destruct (Hbody r stats) as (Hext & Hfc & Hrp).
  destruct (body r stats) as [r' stats1]. simpl in *.
  destruct (IH stats1) as (Hall & Hfc' & Hrp').
  destruct (for_each body data stats1) as [rest' stats2]. simpl in *.
  split; [by constructor|]. split; [lia|congruence].
Qed.

Ltac extends_tac :=
  split;
  [ let k := fresh "k" in
    let Hk := fresh "Hk" in
    intros k Hk; repeat (apply not_elem_of_cons in Hk as [? Hk]);
    by rewrite ?lookup_insert_ne by done
  | let k := fresh "k" in
    let Hk := fresh "Hk" in
    intros k Hk;
    repeat (apply elem_of_cons in Hk as [->|Hk]);
    try (by apply elem_of_nil in Hk);
    repeat first [rewrite lookup_insert_eq
                 |rewrite lookup_insert_ne by done];
    by eexists ].

Ltac tally_tac :=
  rewrite ?tally_bump;
  repeat (first [rewrite decide_True by done|rewrite decide_False by done]);
  try lia; try done.

Lemma writes_trip_distance : writes ["trip_distance_km"] 1 trip_distance.
Proof.
  intros r stats. unfold trip_distance.
  destruct (_ ≫= _) as [d|]; cbn [fst snd];
    (split; [extends_tac|split; tally_tac]).
Qed.

Lemma writes_trip_speed : writes ["trip_speed_kmh"] 1 trip_speed.
Proof.
  intros r stats. unfold trip_speed.
  destruct (_ ≫= _) as [[distance duration_seconds]|]; cbn [fst snd];
    [destruct (Qltb 0 duration_seconds)|];
    (split; [extends_tac|split; tally_tac]).
Qed.

Lemma writes_temporal_features :
  writes ["pickup_hour"; "time_of_day"; "day_of_week"; "is_weekend";
          "pickup_month"; "is_rush_hour"] 6 temporal_features.
Proof.
  intros r stats. unfold temporal_features.
  destruct (_ ≫= _) as [pickup_dt|]; cbn [fst snd];
    (split; [extends_tac|split; tally_tac]).
Qed.

Lemma writes_efficiency_metrics :
  writes ["distance_per_minute"; "estimated_idle_time"; "efficiency_score";
          "trip_complexity"] 4 efficiency_metrics.
Proof.
  intros r stats. unfold efficiency_metrics.
  destruct (_ ≫= _) as [[[distance duration_seconds] speed_kmh]|];
    cbn [fst snd];
    [destruct (Qltb 0 (duration_seconds / 60)), (Qltb 0 speed_kmh),
       (Qltb 0 distance && Qltb 0 duration_seconds)|];
    (split; [extends_tac|split; tally_tac]).
Qed.

Lemma writes_trip_zones :
  writes ["pickup_borough"; "dropoff_borough"; "trip_type"] 3 trip_zones.
Proof.
  intros r stats. unfold trip_zones.
  destruct (_ ≫= _) as [[pickup_borough dropoff_borough]|]; cbn [fst snd];
    (split; [extends_tac|split; tally_tac]).
Qed.

Lemma writes_trip_patterns sp dp tp :
  writes ["trip_patterns"] 1 (trip_patterns sp dp tp).
Proof.
  intros r stats. unfold trip_patterns.
  destruct (_ ≫= _) as [patterns|]; cbn [fst snd];
    (split; [extends_tac|split; tally_tac]).
Qed.

Definition derived_fields : list string :=
  ["trip_distance_km"; "trip_speed_kmh";
   "pickup_hour"; "time_of_day"; "day_of_week"; "is_weekend";
   "pickup_month"; "is_rush_hour";
   "distance_per_minute"; "estimated_idle_time"; "efficiency_score";
   "trip_complexity";
   "pickup_borough"; "dropoff_borough"; "trip_type";
   "trip_patterns"].

Lemma tally_initial k : tally k initial_stats = 0.
Proof.
  unfold tally.
  destruct (initial_stats !! k) as [z|] eqn:E; [|done].
  apply elem_of_list_to_map_2 in E. simpl.
  repeat (apply elem_of_cons in E as [E|E]; [by injection E|]).
  by apply elem_of_nil in E.
Qed.

Lemma Forall2_extends ks1 ks2 (l l1 l2 : list record) :
  Forall2 (extends ks1) l l1 → Forall2 (extends ks2) l1 l2 →
  Forall2 (extends (ks1 ++ ks2)) l l2.
Proof.
  intros H1. revert l2. induction H1 as [|r r1 l l1 Hr _ IH]; intros l2 H2.
  { inversion H2. constructor. }
  inversion H2 as [|? r2 ? l2' Hr2 Hl2]; subst.
  constructor; [by eapply extends_trans|by apply IH].
Qed.

Lemma engineer_features_writes data enhanced stats :
  engineer_features data = Ok (enhanced, stats) →
  Forall2 (extends derived_fields) data enhanced
  ∧ tally "records_processed" stats = Z.of_nat (length data)
  ∧ 0 <= tally "features_created" stats <= 16 * Z.of_nat (length data).
Proof.
  unfold engineer_features, _calculate_trip_distance, _calculate_trip_speed,
    _extract_temporal_features, _calculate_efficiency_metrics,
    _classify_trip_zones, _detect_trip_patterns.
  set (stats0 := bump _ _ _).
  assert (R0 : tally "records_processed" stats0 = Z.of_nat (length data)).
  { unfold stats0. rewrite tally_bump, tally_initial.
    by rewrite decide_True. }
  assert (F0 : tally "features_created" stats0 = 0).
  { unfold stats0. rewrite tally_bump, tally_initial.
    by rewrite decide_False. }
  destruct (for_each_writes _ _ _ writes_trip_distance data stats0)
    as (E1 & F1 & R1).
  pose proof (for_each_length trip_distance data stats0) as L1.
  destruct (for_each trip_distance data stats0) as [d1 s1].
  destruct (for_each_writes _ _ _ writes_trip_speed d1 s1) as (E2 & F2 & R2).
  pose proof (for_each_length trip_speed d1 s1) as L2.
  destruct (for_each trip_speed d1 s1) as [d2 s2].
  destruct (for_each_writes _ _ _ writes_temporal_features d2 s2)
    as (E3 & F3 & R3).
  pose proof (for_each_length temporal_features d2 s2) as L3.
  destruct (for_each temporal_features d2 s2) as [d3 s3].
  destruct (for_each_writes _ _ _ writes_efficiency_metrics d3 s3)
    as (E4 & F4 & R4).
  pose proof (for_each_length efficiency_metrics d3 s3) as L4.
  destruct (for_each efficiency_metrics d3 s3) as [d4 s4].
  destruct (for_each_writes _ _ _ writes_trip_zones d4 s4) as (E5 & F5 & R5).
  pose proof (for_each_length trip_zones d4 s4) as L5.
  destruct (for_each trip_zones d4 s4) as [d5 s5].
  cbn [fst snd] in *.
  destruct (collect_values d5) as [[speeds distances] durations].
  destruct (CustomAlgorithms.calculate_percentiles speeds _) as [sp|];
    [|done]. simpl.
  destruct (CustomAlgorithms.calculate_percentiles distances _) as [dp|];
    [|done]. simpl.
  destruct (CustomAlgorithms.calculate_percentiles durations _) as [tp|];
    [|done]. simpl.
  destruct (for_each_writes _ _ _ (writes_trip_patterns sp dp tp) d5 s5)
    as (E6 & F6 & R6).
  destruct (for_each (trip_patterns sp dp tp) d5 s5) as [d6 s6].
  cbn [fst snd] in *. intros [= <- <-].
  split; [|split; [congruence|lia]].
  exact (Forall2_extends _ _ _ _ _
           (Forall2_extends _ _ _ _ _
              (Forall2_extends _ _ _ _ _
                 (Forall2_extends _ _ _ _ _
                    (Forall2_extends _ _ _ _ _ E1 E2) E3) E4) E5) E6).
Qed.
End FeatureFields.

(** X16. [engineer_features] returns, for every input record in order, the
    record with the sixteen derived fields written and every other field
    unchanged; after the run [records_processed] is the number of records
    and [features_created] is at most sixteen per record. *)
Theorem engineer_features_fields `{Builtins} (data enhanced : list record)
    (stats : counters) :
  TaxiFeatureEngineer.engineer_features data = Ok (enhanced, stats) →
  (∀ i r, data !! i = Some r →
     ∃ r', enhanced !! i = Some r'
           ∧ (∀ k, k ∉ derived_fields → r' !! k = r !! k)
           ∧ (∀ k, k ∈ derived_fields → is_Some (r' !! k)))
  ∧ tally "records_processed" stats = Z.of_nat (length data)
  ∧ (0 <= tally "features_created" stats <= 16 * Z.of_nat (length data))%Z.
Proof.
  intros Hrun.
  destruct (engineer_features_writes data enhanced stats Hrun)
    as (Hall & Hrp & Hfc).
  split; [|done].
  intros i r Hi.
  destruct (Forall2_lookup_l _ _ _ _ _ Hall Hi) as (r' & Hr' & Hk & Hs).
  by exists r'.
Qed.

Lemma engineer_features_fields_witness :
  ∃ enhanced stats,
    TaxiFeatureEngineer.engineer_features (H := DecimalBuiltins.builtins)
      [evening_trip] = Ok (enhanced, stats)
    ∧ tally "records_processed" stats = 1%Z.
Proof.
  destruct (engineer_features_length (H := DecimalBuiltins.builtins)
              [evening_trip]) as (enhanced & stats & Hrun & _).
  exists enhanced, stats. split; [exact Hrun|].
  apply (engineer_features_fields (H := DecimalBuiltins.builtins)
           [evening_trip] enhanced stats Hrun).
Defined.

(** ** _find_closest_borough and the trip type *)

Section Boroughs.
Context `{Builtins}.
Import TaxiFeatureEngineer.

(** The distance from the point to a borough centre. *)
Definition center_distance (lat lon : Q) (center : string * (Q * Q))
  : option Q :=
  distance_km lat lon center.2.1 center.2.2.

(** The centre at position [i] is the first one at minimal distance [d]. *)
Definition first_closest (lat lon : Q) (centers : list (string * (Q * Q)))
    (i : nat) (d : Q) : Prop :=
  (∃ center, centers !! i = Some center
             ∧ center_distance lat lon center = Some d)
  ∧ ∀ j center, centers !! j = Some center →
      ∃ d', center_distance lat lon center = Some d'
            ∧ (d <= d')%Q ∧ (j < i → (d < d')%Q).

Lemma closest_loop_spec lat lon rest : ∀ seen i d closest_borough b,
  first_closest lat lon seen i d →
  (∃ coords, seen !! i = Some (closest_borough, coords)) →
  closest_loop lat lon rest (Some d) closest_borough = Some b →
  ∃ i' d', first_closest lat lon (seen ++ rest) i' d'
           ∧ ∃ coords, (seen ++ rest) !! i' = Some (b, coords).
Proof.
  induction rest as [|[borough [b_lat b_lon]] rest IH];
    intros seen i d closest_borough b Hfirst Hname Hrun.
  { injection Hrun as <-. exists i, d. by rewrite app_nil_r. }
  simpl in Hrun.
  destruct (distance_km lat lon b_lat b_lon) as [distance|] eqn:Hd; [|done].
  simpl in Hrun.
  destruct Hfirst as [(center & Hi & Hcd) Hmin].
  assert (Hlen : i < length seen) by (by eapply lookup_lt_Some).
  replace (seen ++ (borough, (b_lat, b_lon)) :: rest)
    with ((seen ++ [(borough, (b_lat, b_lon))]) ++ rest)
    by (by rewrite <- app_assoc).
  destruct (Qltb distance d) eqn:Hlt.
  - apply Qltb_true_lt in Hlt.
    apply (IH _ (length seen) distance borough b); [|by eexists; rewrite
      lookup_app_r, Nat.sub_diag by lia|done].
    split.
    + exists (borough, (b_lat, b_lon)).
      by rewrite lookup_app_r, Nat.sub_diag by lia.
    + intros j c Hj.
      destruct (decide (j < length seen)) as [Hjs|Hjs].
      * rewrite lookup_app_l in Hj by done.
        destruct (Hmin j c Hj) as (d' & Hd' & Hle & _).
        exists d'. split; [done|].
        split; [apply Qlt_le_weak|intros _]; by eapply Qlt_le_trans.
      * rewrite lookup_app_r in Hj by lia.
        destruct (j - length seen) as [|n] eqn:E; [|by destruct n].
        injection Hj as <-. exists distance. split; [done|].
        split; [apply Qle_refl|lia].
  - apply Qltb_false_le in Hlt.
    apply (IH _ i d closest_borough b); [| |done].
    + split.
      * exists center. by rewrite lookup_app_l.
      * intros j c Hj.
        destruct (decide (j < length seen)) as [Hjs|Hjs].
        -- rewrite lookup_app_l in Hj by done. by apply Hmin.
        -- rewrite lookup_app_r in Hj by lia.
           destruct (j - length seen) as [|n] eqn:E; [|by destruct n].
           injection Hj as <-. exists distance. split; [done|].
           split; [done|lia].
    + destruct Hname as [coords Hc]. exists coords.
      by rewrite lookup_app_l.
Qed.

Lemma closest_loop_start lat lon centers closest_borough b :
  centers ≠ [] →
  closest_loop lat lon centers None closest_borough = Some b →
  ∃ i d, first_closest lat lon centers i d
         ∧ ∃ coords, centers !! i = Some (b, coords).
Proof.
  intros Hne Hrun. destruct centers as [|[borough [b_lat b_lon]] rest];
    [done|].
  simpl in Hrun.
  destruct (distance_km lat lon b_lat b_lon) as [distance|] eqn:Hd; [|done].
  simpl in Hrun.
  apply (closest_loop_spec lat lon rest [(borough, (b_lat, b_lon))] 0
           distance borough b); [|by eexists|done].
  split; [by eexists|].
  intros [|j] c Hj; [|done]. injection Hj as <-.
  exists distance. split; [done|]. split; [apply Qle_refl|lia].
Qed.

Lemma closest_loop_none lat lon centers : ∀ m closest_borough,
  closest_loop lat lon centers m closest_borough = None ↔
  ∃ center, center ∈ centers ∧ center_distance lat lon center = None.
Proof.
  induction centers as [|[borough [b_lat b_lon]] rest IH];
    intros m closest_borough; simpl.
  { split; [done|]. by intros (? & ?%elem_of_nil & _). }
  destruct (distance_km lat lon b_lat b_lon) as [distance|] eqn:Hd; simpl.
  - assert (Hrest : ∀ m' c',
      closest_loop lat lon rest m' c' = None ↔
      ∃ center, center ∈ (borough, (b_lat, b_lon)) :: rest
                ∧ center_distance lat lon center = None).
    { intros m' c'. rewrite IH. split.
      - intros (c & Hc & Hn). exists c. split; [by right|done].
      - intros (c & [->|Hc]%elem_of_cons & Hn).
        + unfold center_distance in Hn. simpl in Hn. congruence.
        + by exists c. }
    destruct (match m with Some m0 => Qltb distance m0 | None => true end);
      apply Hrest.
  - split; [|done]. intros _. exists (borough, (b_lat, b_lon)).
    split; [by left|done].
Qed.
End Boroughs.

(** X17. [_find_closest_borough] returns the first of the five borough
    centres at minimal distance: no centre is closer and every earlier
    centre is strictly farther; the initial name is never returned by
    default.  It fails exactly when the distance to some centre cannot be
    computed. *)
Theorem find_closest_borough_first_minimum `{Builtins} (lat lon : Q) :
  (∀ b, TaxiFeatureEngineer._find_closest_borough lat lon = Some b →
     ∃ i d coords,
       TaxiFeatureEngineer.borough_centers !! i = Some (b, coords)
       ∧ center_distance lat lon (b, coords) = Some d
       ∧ ∀ j center, TaxiFeatureEngineer.borough_centers !! j = Some center →
           ∃ d', center_distance lat lon center = Some d'
                 ∧ (d <= d')%Q ∧ (j < i → (d < d')%Q))
  ∧ (TaxiFeatureEngineer._find_closest_borough lat lon = None ↔
     ∃ center, center ∈ TaxiFeatureEngineer.borough_centers
               ∧ center_distance lat lon center = None).
Proof.
  split; [|apply closest_loop_none].
  intros b Hrun.
  destruct (closest_loop_start lat lon TaxiFeatureEngineer.borough_centers
              "Manhattan" b ltac:(done) Hrun)
    as (i & d & [(center & Hi & Hd) Hmin] & coords & Hb).
  exists i, d, coords. split; [done|]. split; [congruence|done].
Qed.

Lemma find_closest_borough_first_minimum_witness :
  ∃ b i coords,
    TaxiFeatureEngineer._find_closest_borough (H := DecimalBuiltins.builtins)
      (40.75) (-73.98) = Some b
    ∧ TaxiFeatureEngineer.borough_centers !! i = Some (b, coords).
Proof.
  eexists. 
  assert (Hrun : TaxiFeatureEngineer._find_closest_borough
                   (H := DecimalBuiltins.builtins) (40.75) (-73.98)
                 = Some "Manhattan") by (vm_compute; reflexivity).
  destruct (proj1 (find_closest_borough_first_minimum
                     (H := DecimalBuiltins.builtins) (40.75) (-73.98))
              "Manhattan" Hrun) as (i & d & coords & Hi & _).
  exists i, coords. split; [exact Hrun|exact Hi].
Defined.

Section Zones.
Context `{Builtins}.
Import TaxiFeatureEngineer.

Lemma find_closest_borough_name lat lon b :
  _find_closest_borough lat lon = Some b → b ∈ borough_centers.*1.
Proof.
  intros Hrun.
  destruct (closest_loop_start lat lon borough_centers "Manhattan" b
              ltac:(done) Hrun) as (i & d & _ & coords & Hb).
  apply list_elem_of_fmap. exists (b, coords). split; [done|].
  by eapply list_elem_of_lookup_2.
Qed.
End Zones.

(** X18. The three zone fields agree with each other: either the
    coordinates could not be classified and all three are [Unknown], or
    both boroughs are among the five borough names and the trip type is
    [Intra-borough] exactly when they are equal, [Inter-borough]
    otherwise. *)
Theorem trip_zones_consistent `{Builtins} (r : record) (stats : counters) :
  let r' := (TaxiFeatureEngineer.trip_zones r stats).1 in
  ∃ pickup dropoff trip_type,
    r' !! "pickup_borough" = Some pickup
    ∧ r' !! "dropoff_borough" = Some dropoff
    ∧ r' !! "trip_type" = Some trip_type
    ∧ ((trip_type = "Unknown" ∧ pickup = "Unknown" ∧ dropoff = "Unknown")
       ∨ (pickup ∈ TaxiFeatureEngineer.borough_centers.*1
          ∧ dropoff ∈ TaxiFeatureEngineer.borough_centers.*1
          ∧ ((trip_type = "Intra-borough" ∧ pickup = dropoff)
             ∨ (trip_type = "Inter-borough" ∧ pickup ≠ dropoff)))).
Proof.
  unfold TaxiFeatureEngineer.trip_zones.
  destruct (TaxiFeatureEngineer.required_float r "pickup_latitude")
    as [plat|]; cbn [mbind option_bind]; cycle 1.
  { exists "Unknown", "Unknown", "Unknown". cbn [fst].
    rewrite lookup_insert_ne, lookup_insert_ne, lookup_insert_eq by done.
    rewrite lookup_insert_ne, lookup_insert_eq by done.
    rewrite lookup_insert_eq. do 3 (split; [done|]). by left. }
  destruct (TaxiFeatureEngineer.required_float r "pickup_longitude")
    as [plon|]; cbn [mbind option_bind]; cycle 1.
  { exists "Unknown", "Unknown", "Unknown". cbn [fst].
    rewrite lookup_insert_ne, lookup_insert_ne, lookup_insert_eq by done.
    rewrite lookup_insert_ne, lookup_insert_eq by done.
    rewrite lookup_insert_eq. do 3 (split; [done|]). by left. }
  destruct (TaxiFeatureEngineer.required_float r "dropoff_latitude")
    as [dlat|]; cbn [mbind option_bind]; cycle 1.
  { exists "Unknown", "Unknown", "Unknown". cbn [fst].
    rewrite lookup_insert_ne, lookup_insert_ne, lookup_insert_eq by done.
    rewrite lookup_insert_ne, lookup_insert_eq by done.
    rewrite lookup_insert_eq. do 3 (split; [done|]). by left. }
  destruct (TaxiFeatureEngineer.required_float r "dropoff_longitude")
    as [dlon|]; cbn [mbind option_bind]; cycle 1.
  { exists "Unknown", "Unknown", "Unknown". cbn [fst].
    rewrite lookup_insert_ne, lookup_insert_ne, lookup_insert_eq by done.
    rewrite lookup_insert_ne, lookup_insert_eq by done.
    rewrite lookup_insert_eq. do 3 (split; [done|]). by left. }
  destruct (TaxiFeatureEngineer._find_closest_borough plat plon)
    as [pickup|] eqn:Hp; cbn [mbind option_bind]; cycle 1.
  { exists "Unknown", "Unknown", "Unknown". cbn [fst].
    rewrite lookup_insert_ne, lookup_insert_ne, lookup_insert_eq by done.
    rewrite lookup_insert_ne, lookup_insert_eq by done.
    rewrite lookup_insert_eq. do 3 (split; [done|]). by left. }
  destruct (TaxiFeatureEngineer._find_closest_borough dlat dlon)
    as [dropoff|] eqn:Hd; cbn [mbind option_bind]; cycle 1.
  { exists "Unknown", "Unknown", "Unknown". cbn [fst].
    rewrite lookup_insert_ne, lookup_insert_ne, lookup_insert_eq by done.
    rewrite lookup_insert_ne, lookup_insert_eq by done.
    rewrite lookup_insert_eq. do 3 (split; [done|]). by left. }
  eexists pickup, dropoff, _. cbn [fst].
  rewrite lookup_insert_ne, lookup_insert_ne, lookup_insert_eq by done.
  rewrite lookup_insert_ne, lookup_insert_eq by done.
  rewrite lookup_insert_eq. do 3 (split; [done|]). right.
  split; [by eapply find_closest_borough_name|].
  split; [by eapply find_closest_borough_name|].
  destruct (String.eqb_spec pickup dropoff) as [->|Hne]; [by left|by right].
Qed.

(** X19. The temporal fields agree with each other: a trip flagged as
    rush hour is never on a weekend and its time of day is [Morning] or
    [Evening]; the weekend flag is [True] exactly on a Saturday or Sunday;
    the time of day is [Unknown] exactly when the pickup timestamp is
    missing or cannot be parsed, and then the hour is 0 and the month
    is 1. *)
Theorem temporal_features_consistent `{Builtins} (r : record)
    (stats : counters) :
  let r' := (TaxiFeatureEngineer.temporal_features r stats).1 in
  (r' !! "is_rush_hour" = Some "True" →
   r' !! "is_weekend" = Some "False"
   ∧ (r' !! "time_of_day" = Some "Morning"
      ∨ r' !! "time_of_day" = Some "Evening"))
  ∧ (r' !! "is_weekend" = Some "True" ↔
     r' !! "day_of_week" = Some "Saturday"
     ∨ r' !! "day_of_week" = Some "Sunday")
  ∧ (r' !! "time_of_day" = Some "Unknown" ↔
     r !! "pickup_datetime" ≫= strptime = None)
  ∧ (r !! "pickup_datetime" ≫= strptime = None →
     r' !! "pickup_hour" = Some "0" ∧ r' !! "pickup_month" = Some "1"
     ∧ r' !! "is_rush_hour" = Some "False").
Proof.
  unfold TaxiFeatureEngineer.temporal_features.
  destruct (r !! "pickup_datetime" ≫= strptime) as [pickup_dt|]; cbn [fst].
  - set (hour := dt_hour pickup_dt). set (day := dt_day_name pickup_dt).
    rewrite !lookup_insert_eq.
    rewrite (lookup_insert_ne _ "is_rush_hour" "is_weekend") by done.
    rewrite (lookup_insert_ne _ "pickup_month" "is_weekend") by done.
    rewrite lookup_insert_eq.
    rewrite (lookup_insert_ne _ "is_rush_hour" "time_of_day") by done.
    rewrite (lookup_insert_ne _ "pickup_month" "time_of_day") by done.
    rewrite (lookup_insert_ne _ "is_weekend" "time_of_day") by done.
    rewrite (lookup_insert_ne _ "day_of_week" "time_of_day") by done.
    rewrite lookup_insert_eq.
    rewrite (lookup_insert_ne _ "is_rush_hour" "day_of_week") by done.
    rewrite (lookup_insert_ne _ "pickup_month" "day_of_week") by done.
    rewrite (lookup_insert_ne _ "is_weekend" "day_of_week") by done.
    rewrite lookup_insert_eq.
    split; [|split; [|split; [|done]]].
    + unfold TaxiFeatureEngineer.py_bool, TaxiFeatureEngineer.time_of_day.
      destruct (String.eqb day "Saturday" || String.eqb day "Sunday");
        [by rewrite andb_false_r|].
      rewrite andb_true_r. intros Hrush. split; [done|].
      destruct ((7 <=? hour)%Z && (hour <=? 9)%Z) eqn:E1.
      * apply andb_true_iff in E1 as [?%Z.leb_le ?%Z.leb_le]. left.
        destruct ((5 <=? hour)%Z && (hour <? 12)%Z) eqn:E; [done|].
        apply andb_false_iff in E as [?%Z.leb_gt|?%Z.ltb_ge]; lia.
      * destruct ((17 <=? hour)%Z && (hour <=? 19)%Z) eqn:E2; [|done].
        apply andb_true_iff in E2 as [?%Z.leb_le ?%Z.leb_le]. right.
        destruct ((5 <=? hour)%Z && (hour <? 12)%Z) eqn:E.
        { apply andb_true_iff in E as [?%Z.leb_le ?%Z.ltb_lt]. lia. }
        destruct ((12 <=? hour)%Z && (hour <? 17)%Z) eqn:E'.
        { apply andb_true_iff in E' as [?%Z.leb_le ?%Z.ltb_lt]. lia. }
        destruct ((17 <=? hour)%Z && (hour <? 21)%Z) eqn:E''; [done|].
        apply andb_false_iff in E'' as [?%Z.leb_gt|?%Z.ltb_ge]; lia.
    + unfold TaxiFeatureEngineer.py_bool.
      destruct (String.eqb_spec day "Saturday") as [->|N1]; simpl.
      { split; [by left|done]. }
      destruct (String.eqb_spec day "Sunday") as [->|N2]; simpl.
      { split; [by right|done]. }
      split; [done|]. intros [[= ?]|[= ?]]; done.
    + unfold TaxiFeatureEngineer.time_of_day.
      split; [|done].
      destruct (_ && _); [done|]. destruct (_ && _); [done|].
      by destruct (_ && _).
  - rewrite !lookup_insert_eq.
    rewrite (lookup_insert_ne _ "is_rush_hour" "is_weekend") by done.
    rewrite (lookup_insert_ne _ "pickup_month" "is_weekend") by done.
    rewrite lookup_insert_eq.
    rewrite (lookup_insert_ne _ "is_rush_hour" "time_of_day") by done.
    rewrite (lookup_insert_ne _ "pickup_month" "time_of_day") by done.
    rewrite (lookup_insert_ne _ "is_weekend" "time_of_day") by done.
    rewrite (lookup_insert_ne _ "day_of_week" "time_of_day") by done.
    rewrite lookup_insert_eq.
    rewrite (lookup_insert_ne _ "is_rush_hour" "day_of_week") by done.
    rewrite (lookup_insert_ne _ "pickup_month" "day_of_week") by done.
    rewrite (lookup_insert_ne _ "is_weekend" "day_of_week") by done.
    rewrite lookup_insert_eq.
    rewrite (lookup_insert_ne _ "is_rush_hour" "pickup_month") by done.
    rewrite lookup_insert_eq.
    rewrite (lookup_insert_ne _ "is_rush_hour" "pickup_hour") by done.
    rewrite (lookup_insert_ne _ "pickup_month" "pickup_hour") by done.
    rewrite (lookup_insert_ne _ "is_weekend" "pickup_hour") by done.
    rewrite (lookup_insert_ne _ "day_of_week" "pickup_hour") by done.
    rewrite (lookup_insert_ne _ "time_of_day" "pickup_hour") by done.
    rewrite lookup_insert_eq.
    split; [done|]. split; [|done].
    split; [done|]. intros [[= ?]|[= ?]]; done.
Qed.

(** * find_top_k: the heap and the k largest items *)

(** ** The order of the keys *)

(** [a] is not greater than [b]. *)
Definition vle (a b : value) : Prop := vcmp a b ≠ Gt.

Lemma vle_refl a : vle a a.
Proof. unfold vle. by rewrite vcmp_refl. Qed.

Lemma vle_trans a b c : vle a b → vle b c → vle a c.
Proof.
  unfold vle. intros Hab Hbc.
  destruct (vcmp a b) eqn:E1; [| |done].
  - by rewrite (vcmp_eq_l a b c E1).
  - destruct (vcmp b c) eqn:E2; [| |done].
    + by rewrite <- (vcmp_eq_r b c a E2), E1.
    + by rewrite (vcmp_trans a b c E1 E2).
Qed.

Lemma vle_of_lt a b : is_Lt (vcmp a b) = true → vle a b.
Proof. unfold vle. by destruct (vcmp a b). Qed.

Lemma vle_of_not_lt a b : is_Lt (vcmp a b) = false → vle b a.
Proof.
  unfold vle. rewrite (vcmp_antisym a b). by destruct (vcmp a b).
Qed.

Lemma vlt_trans a b c :
  is_Lt (vcmp a b) = true → is_Lt (vcmp b c) = true →
  is_Lt (vcmp a c) = true.
Proof.
  intros H1 H2. rewrite (vcmp_trans a b c); [done| |].
  - by destruct (vcmp a b).
  - by destruct (vcmp b c).
Qed.

Lemma vlt_le_trans a b c :
  is_Lt (vcmp a b) = true → vle b c → vle a c.
Proof. intros H1 H2. eapply vle_trans; [by apply vle_of_lt|done]. Qed.

(** ** Positions in the heap *)

Definition parent (i : nat) : nat := (i - 1) / 2.

Lemma parent_lt i : 0 < i → parent i < i.
Proof.
  intros Hi. unfold parent. apply Nat.Div0.div_lt_upper_bound. lia.
Qed.

Lemma parent_children i j :
  0 < j → parent j = i ↔ j = 2 * i + 1 ∨ j = 2 * i + 2.
Proof.
  intros Hj. unfold parent.
  pose proof (Nat.div_mod_eq (j - 1) 2) as E.
  pose proof (Nat.mod_upper_bound (j - 1) 2 ltac:(lia)) as B.
  split; [intros Hp; subst i; lia|]. intros [Hc|Hc]; subst j.
  - replace (2 * i + 1 - 1) with (i * 2) by lia. by rewrite Nat.div_mul.
  - replace (2 * i + 2 - 1) with (1 + i * 2) by lia.
    rewrite Nat.div_add by lia. done.
Qed.

Section Heap.
Import CustomAlgorithms.
Variable key_index : nat.
Variable kind : value.

(** The key of [heap[i]]. *)
Definition hkey (heap : list tuple) (i : nat) : value :=
  key_at key_index (heap !!! i).

Definition all_keyed (heap : list tuple) : Prop :=
  Forall (keyed key_index kind) heap.

(** The heap property of a min-heap. *)
Definition heap_ok (heap : list tuple) : Prop :=
  ∀ j, 0 < j < length heap → vle (hkey heap (parent j)) (hkey heap j).

Lemma heap_key_hkey heap i :
  all_keyed heap → i < length heap →
  heap_key heap i key_index = Ok (hkey heap i)
  ∧ same_kind (hkey heap i) kind.
Proof.
  intros Hk Hi. unfold heap_key, hkey, getitem.
  rewrite (list_lookup_lookup_total_lt heap i Hi). simpl.
  apply keyed_getitem.
  apply (proj1 (Forall_forall _ _) Hk).
  apply list_elem_of_lookup_total_2; done.
Qed.

Lemma heap_lt heap i j :
  all_keyed heap → i < length heap → j < length heap →
  (a ← heap_key heap i key_index;
   b ← heap_key heap j key_index;
   py_lt a b) = Ok (is_Lt (vcmp (hkey heap i) (hkey heap j))).
Proof.
  intros Hk Hi Hj.
  destruct (heap_key_hkey heap i Hk Hi) as [-> Ki].
  destruct (heap_key_hkey heap j Hk Hj) as [-> Kj]. simpl.
  apply py_lt_vcmp. by eapply same_kind_trans_r.
Qed.

Lemma swap_spec heap i j :
  i < length heap → j < length heap →
  swap heap i j = Ok (<[j := heap !!! i]> (<[i := heap !!! j]> heap))
  ∧ <[j := heap !!! i]> (<[i := heap !!! j]> heap) ≡ₚ heap.
Proof.
  intros Hi Hj. unfold swap, getitem.
  rewrite (list_lookup_lookup_total_lt heap j Hj). simpl.
  rewrite (list_lookup_lookup_total_lt heap i Hi). simpl.
  split; [done|].
  apply Permutation_insert_swap;
    by apply list_lookup_lookup_total_lt.
Qed.

Lemma hkey_swap heap i j m :
  i < length heap → j < length heap → i ≠ j →
  hkey (<[j := heap !!! i]> (<[i := heap !!! j]> heap)) m
  = if decide (m = j) then hkey heap i
    else if decide (m = i) then hkey heap j
    else hkey heap m.
Proof.
  intros Hi Hj Hne. unfold hkey.
  destruct (decide (m = j)) as [->|Hmj].
  { by rewrite list_lookup_total_insert_eq by by rewrite length_insert. }
  rewrite list_lookup_total_insert_ne by done.
  destruct (decide (m = i)) as [->|Hmi].
  { by rewrite list_lookup_total_insert_eq. }
  by rewrite list_lookup_total_insert_ne.
Qed.

(** *** _heapify_up *)

(** The heap property holds everywhere except between [i] and its
    parent, and the children of [i] are not below the parent of [i]. *)
Definition up_inv (heap : list tuple) (i : nat) : Prop :=
  (∀ j, 0 < j < length heap → j ≠ i →
     vle (hkey heap (parent j)) (hkey heap j))
  ∧ (∀ j, 0 < j < length heap → parent j = i → 0 < i →
       vle (hkey heap (parent i)) (hkey heap j)).

Lemma heapify_up_rec_step depth heap index :
  _heapify_up_rec depth heap index key_index
  = (c ← (if 0 <? index
          then a ← heap_key heap index key_index;
               b ← heap_key heap (parent index) key_index;
               py_lt a b
          else Ok false);
     if c : bool then
       match depth with
       | O => Raise RecursionError
       | S depth' =>
           heap' ← swap heap index (parent index);
           _heapify_up_rec depth' heap' (parent index) key_index
       end
     else Ok heap).
Proof. by destruct depth. Qed.

Lemma heapify_up_rec_spec depth : ∀ heap index,
  all_keyed heap → index < length heap → index ≤ depth →
  up_inv heap index →
  ∃ heap', _heapify_up_rec depth heap index key_index = Ok heap'
           ∧ heap' ≡ₚ heap ∧ heap_ok heap'.
Proof.
  induction depth as [|depth IH]; intros heap index Hk Hlen Hdepth [I1 I2].
  { assert (index = 0) as -> by lia.
    exists heap. split; [done|]. split; [done|].
    intros j Hj. apply I1; [done|lia]. }
  rewrite heapify_up_rec_step.
  destruct (0 <? index) eqn:Hpos; cycle 1.
  { apply Nat.ltb_ge in Hpos. assert (index = 0) as -> by lia.
    exists heap. split; [done|]. split; [done|].
    intros j Hj. apply I1; [done|lia]. }
  apply Nat.ltb_lt in Hpos.
  pose proof (parent_lt index Hpos) as Hp.
  rewrite (heap_lt heap index (parent index) Hk Hlen) by lia. simpl.
  destruct (is_Lt (vcmp (hkey heap index) (hkey heap (parent index))))
    eqn:Hlt; cycle 1.
  { exists heap. split; [done|]. split; [done|].
    intros j Hj. destruct (decide (j = index)) as [->|Hne].
    - by apply vle_of_not_lt.
    - by apply I1. }
  destruct (swap_spec heap index (parent index)) as [-> Hperm]; [done|lia|].
  simpl.
  set (heap' := <[parent index := heap !!! index]>
                  (<[index := heap !!! parent index]> heap)) in *.
  assert (Hlen' : length heap' = length heap).
  { unfold heap'. by rewrite !length_insert. }
  assert (Hkey : ∀ m, hkey heap' m
                 = if decide (m = parent index) then hkey heap index
                   else if decide (m = index) then hkey heap (parent index)
                   else hkey heap m).
  { intros m. apply hkey_swap; lia. }
  destruct (IH heap' (parent index)) as (out & Hout & Hperm' & Hok).
  - unfold all_keyed. by rewrite Hperm.
  - lia.
  - lia.
  - split.
    + intros j Hj Hne. rewrite Hlen' in Hj. rewrite !Hkey.
      rewrite (decide_False (P := j = parent index)) by done.
      destruct (decide (j = index)) as [->|Hji].
      * rewrite decide_True by done. by apply vle_of_lt.
      * destruct (decide (parent j = parent index)) as [E|Hq].
        -- eapply vlt_le_trans; [exact Hlt|].
           rewrite <- E. by apply I1.
        -- destruct (decide (parent j = index)) as [E|Hq'].
           ++ by apply I2.
           ++ by apply I1.
    + intros j Hj Hpar Hpp. rewrite Hlen' in Hj. rewrite !Hkey.
      pose proof (parent_lt (parent index) Hpp) as Hg.
      rewrite (decide_False (P := parent (parent index) = parent index))
        by lia.
      rewrite (decide_False (P := parent (parent index) = index)) by lia.
      assert (Hj' : parent j < j) by (apply parent_lt; lia).
      rewrite (decide_False (P := j = parent index)) by lia.
      assert (Hgp : vle (hkey heap (parent (parent index)))
                        (hkey heap (parent index))).
      { apply I1; lia. }
      destruct (decide (j = index)) as [->|Hji]; [done|].
      eapply vle_trans; [exact Hgp|]. rewrite <- Hpar. by apply I1.
  - exists out. split; [done|]. split; [|done]. by rewrite Hperm'.
Qed.

(** *** _heapify_down *)

(** The heap property holds everywhere except between [i] and its
    children, and the children of [i] are not below the parent of [i]. *)
Definition down_inv (heap : list tuple) (i : nat) : Prop :=
  (∀ j, 0 < j < length heap → parent j ≠ i →
     vle (hkey heap (parent j)) (hkey heap j))
  ∧ (∀ j, 0 < j < length heap → parent j = i → 0 < i →
       vle (hkey heap (parent i)) (hkey heap j)).

Lemma child_smaller_spec heap child smallest :
  all_keyed heap → smallest < length heap →
  child_smaller heap child smallest key_index
  = Ok (bool_decide (child < length heap)
        && is_Lt (vcmp (hkey heap child) (hkey heap smallest))).
Proof.
  intros Hk Hs. unfold child_smaller.
  destruct (child <? length heap) eqn:E.
  - apply Nat.ltb_lt in E. rewrite bool_decide_eq_true_2 by done.
    by rewrite heap_lt.
  - apply Nat.ltb_ge in E. rewrite bool_decide_eq_false_2 by lia. done.
Qed.

Lemma heapify_down_rec_step depth heap index :
  _heapify_down_rec depth heap index key_index
  = (c1 ← child_smaller heap (2 * index + 1) index key_index;
     c2 ← child_smaller heap (2 * index + 2)
            (if c1 : bool then 2 * index + 1 else index) key_index;
     if (if c2 : bool then 2 * index + 2
         else if c1 : bool then 2 * index + 1 else index) =? index
     then Ok heap
     else
       match depth with
       | O => Raise RecursionError
       | S depth' =>
           heap' ← swap heap index
                     (if c2 : bool then 2 * index + 2
                      else if c1 : bool then 2 * index + 1 else index);
           _heapify_down_rec depth' heap'
             (if c2 : bool then 2 * index + 2
              else if c1 : bool then 2 * index + 1 else index) key_index
       end).
Proof. by destruct depth. Qed.

(** The choice of [smallest] made by the two guards: it is [index] when no
    child is smaller, otherwise a child that is smaller than [index] and
    not greater than the other child. *)
Lemma smallest_choice heap index :
  let l := 2 * index + 1 in
  let r := 2 * index + 2 in
  let c1 := bool_decide (l < length heap)
            && is_Lt (vcmp (hkey heap l) (hkey heap index)) in
  let s1 := if c1 then l else index in
  let c2 := bool_decide (r < length heap)
            && is_Lt (vcmp (hkey heap r) (hkey heap s1)) in
  let s := if c2 then r else s1 in
  (s = index
   ∧ (l < length heap → vle (hkey heap index) (hkey heap l))
   ∧ (r < length heap → vle (hkey heap index) (hkey heap r)))
  ∨ ((s = l ∨ s = r) ∧ s < length heap
     ∧ is_Lt (vcmp (hkey heap s) (hkey heap index)) = true
     ∧ (l < length heap → vle (hkey heap s) (hkey heap l))
     ∧ (r < length heap → vle (hkey heap s) (hkey heap r))).
Proof.
  intros l r c1 s1 c2 s. unfold s, c2, s1, c1.
  destruct (bool_decide (l < length heap)) eqn:Bl;
    destruct (bool_decide (r < length heap)) eqn:Br;
    try apply bool_decide_eq_true in Bl;
    try apply bool_decide_eq_true in Br;
    try apply bool_decide_eq_false in Bl;
    try apply bool_decide_eq_false in Br;
    cbn [andb].
  - destruct (is_Lt (vcmp (hkey heap l) (hkey heap index))) eqn:E1.
    + destruct (is_Lt (vcmp (hkey heap r) (hkey heap l))) eqn:E2.
      * right. split; [by right|]. split; [done|].
        split; [by eapply vlt_trans|].
        split; intros _; [by apply vle_of_lt|apply vle_refl].
      * right. split; [by left|]. split; [done|]. split; [done|].
        split; intros _; [apply vle_refl|by apply vle_of_not_lt].
    + destruct (is_Lt (vcmp (hkey heap r) (hkey heap index))) eqn:E2.
      * right. split; [by right|]. split; [done|]. split; [done|].
        split; intros _; [|apply vle_refl].
        eapply vlt_le_trans; [exact E2|]. by apply vle_of_not_lt.
      * left. split; [done|].
        split; intros _; by apply vle_of_not_lt.
  - destruct (is_Lt (vcmp (hkey heap l) (hkey heap index))) eqn:E1.
    + right. split; [by left|]. split; [done|]. split; [done|].
      split; [intros _; apply vle_refl|done].
    + left. split; [done|]. split; [intros _; by apply vle_of_not_lt|done].
  - lia.
  - left. done.
Qed.

Lemma heapify_down_rec_spec depth : ∀ heap index,
  all_keyed heap → index < length heap → length heap ≤ depth + index →
  down_inv heap index →
  ∃ heap', _heapify_down_rec depth heap index key_index = Ok heap'
           ∧ heap' ≡ₚ heap ∧ heap_ok heap'.
Proof.
  induction depth as [|depth IH]; intros heap index Hk Hlen Hdepth [I1 I2];
    [lia|].
  rewrite heapify_down_rec_step.
  rewrite (child_smaller_spec heap (2 * index + 1) index Hk Hlen).
  cbn [mbind result_bind].
  set (c1 := bool_decide (2 * index + 1 < length heap)
             && is_Lt (vcmp (hkey heap (2 * index + 1)) (hkey heap index))).
  assert (Hs1 : (if c1 then 2 * index + 1 else index) < length heap).
  { unfold c1. destruct (bool_decide _) eqn:B; [|done].
    apply bool_decide_eq_true in B. by destruct (is_Lt _). }
  rewrite (child_smaller_spec heap (2 * index + 2) _ Hk Hs1).
  cbn [mbind result_bind].
  set (c2 := bool_decide (2 * index + 2 < length heap)
             && is_Lt (vcmp (hkey heap (2 * index + 2))
                            (hkey heap (if c1 then 2 * index + 1 else index)))).
  set (s := if c2 then 2 * index + 2
            else if c1 then 2 * index + 1 else index).
  pose proof (smallest_choice heap index) as Hchoice.
  cbv zeta in Hchoice. fold c1 in Hchoice. fold c2 in Hchoice.
  fold s in Hchoice.
  destruct Hchoice as [(Hs & Hl & Hr)|(Hs & Hslen & Hlt & Hl & Hr)].
  { (* no child is smaller *)
    rewrite Hs, Nat.eqb_refl. exists heap. split; [done|]. split; [done|].
    intros j Hj. destruct (decide (parent j = index)) as [E|Hne];
      [|by apply I1].
    rewrite E. apply parent_children in E; [|lia].
    destruct E as [E|E]; subst j.
    - apply Hl. lia.
    - apply Hr. lia. }
  assert (Hsi : index < s) by lia.
  assert (Hps : parent s = index).
  { apply parent_children; lia. }
  destruct (s =? index) eqn:E; [apply Nat.eqb_eq in E; lia|].
  destruct (swap_spec heap index s) as [-> Hperm]; [done|done|].
  cbn [mbind result_bind].
  set (heap' := <[s := heap !!! index]> (<[index := heap !!! s]> heap)) in *.
  assert (Hlen' : length heap' = length heap).
  { unfold heap'. by rewrite !length_insert. }
  assert (Hkey : ∀ m, hkey heap' m
                 = if decide (m = s) then hkey heap index
                   else if decide (m = index) then hkey heap s
                   else hkey heap m).
  { intros m. apply hkey_swap; lia. }
  assert (Hchild : ∀ j, 0 < j < length heap → parent j = index →
                        vle (hkey heap s) (hkey heap j)).
  { intros j Hj Hp. apply parent_children in Hp; [|lia].
    destruct Hp as [Hp|Hp]; subst j.
    - apply Hl. lia.
    - apply Hr. lia. }
  destruct (IH heap' s) as (out & Hout & Hperm' & Hok).
  - unfold all_keyed. by rewrite Hperm.
  - lia.
  - lia.
  - split.
    + intros j Hj Hne. rewrite Hlen' in Hj. rewrite !Hkey.
      rewrite (decide_False (P := parent j = s)) by done.
      assert (Hpj : parent j < j) by (apply parent_lt; lia).
      destruct (decide (j = s)) as [->|Hjs].
      * rewrite Hps, decide_True by done. by apply vle_of_lt.
      * destruct (decide (j = index)) as [->|Hji].
        -- rewrite (decide_False (P := parent index = index)) by lia.
           apply I2; [lia|done|lia].
        -- destruct (decide (parent j = index)) as [Hp|Hp].
           ++ by apply Hchild.
           ++ by apply I1.
    + intros j Hj Hpar Hpos. rewrite Hlen' in Hj. rewrite !Hkey.
      assert (Hpj : parent j < j) by (apply parent_lt; lia).
      rewrite Hps, (decide_False (P := index = s)) by lia.
      rewrite decide_True by done.
      rewrite (decide_False (P := j = s)) by lia.
      rewrite (decide_False (P := j = index)) by lia.
      rewrite <- Hpar. apply I1; [done|lia].
  - exists out. split; [done|]. split; [|done]. by rewrite Hperm'.
Qed.

(** The root of a heap is a smallest item. *)
Lemma heap_root_min heap :
  heap_ok heap → ∀ i, i < length heap → vle (hkey heap 0) (hkey heap i).
Proof.
  intros Hok i. induction i as [i IH] using lt_wf_ind. intros Hi.
  destruct (decide (i = 0)) as [->|Hne]; [apply vle_refl|].
  eapply vle_trans; [|apply Hok; lia].
  pose proof (parent_lt i ltac:(lia)). apply IH; lia.
Qed.
End Heap.

(** ** The loop of find_top_k *)

Section TopK.
Import CustomAlgorithms.
Variable key_index : nat.
Variable kind : value.

(** The key of [a] is not greater than the key of [b]. *)
Definition tle (a b : tuple) : Prop :=
  vle (key_at key_index a) (key_at key_index b).

Lemma hkey_lookup heap i t :
  heap !! i = Some t → hkey key_index heap i = key_at key_index t.
Proof.
  intros Hi. unfold hkey. by rewrite (list_lookup_total_correct _ _ _ Hi).
Qed.

Lemma heap_root_least root tl t :
  heap_ok key_index (root :: tl) → t ∈ root :: tl → tle root t.
Proof.
  intros Hok Hin. apply list_elem_of_lookup in Hin as [i Hi].
  pose proof (heap_root_min key_index _ Hok i
                (lookup_lt_Some _ _ _ Hi)) as Hmin.
  by rewrite (hkey_lookup _ _ _ Hi) in Hmin.
Qed.

Lemma up_inv_snoc heap item :
  heap_ok key_index heap →
  up_inv key_index (heap ++ [item]) (length heap).
Proof.
  intros Hok. split.
  - intros j Hj Hne. rewrite length_app in Hj. simpl in Hj.
    assert (Hjl : j < length heap) by lia.
    pose proof (parent_lt j ltac:(lia)) as Hp.
    unfold hkey. rewrite !lookup_total_app_l by lia.
    apply Hok. lia.
  - intros j Hj Hpar _. rewrite length_app in Hj. simpl in Hj.
    pose proof (parent_lt j ltac:(lia)). lia.
Qed.

Lemma down_inv_root root tl item :
  heap_ok key_index (root :: tl) → down_inv key_index (item :: tl) 0.
Proof.
  intros Hok. split; [|lia].
  intros j Hj Hne. specialize (Hok j Hj).
  destruct j as [|j]; [lia|].
  unfold hkey in *. destruct (parent (S j)) as [|q] eqn:E; [done|].
  exact Hok.
Qed.

Lemma top_k_loop_spec (K : nat) data : ∀ heap dropped,
  1 ≤ K → all_keyed key_index kind heap → all_keyed key_index kind data →
  heap_ok key_index heap → length heap ≤ K →
  (length heap < K → dropped = []) →
  (∀ a b, a ∈ heap → b ∈ dropped → tle b a) →
  ∃ heap' dropped',
    top_k_loop data (Z.of_nat K) key_index heap = Ok heap'
    ∧ all_keyed key_index kind heap'
    ∧ heap' ++ dropped' ≡ₚ heap ++ dropped ++ data
    ∧ length heap' = min K (length heap + length data)
    ∧ (∀ a b, a ∈ heap' → b ∈ dropped' → tle b a).
Proof.
  induction data as [|item data IH];
    intros heap dropped HK Hk Hkd Hok Hlen Hfull Hord.
  { exists heap, dropped. split; [done|]. split; [done|].
    split; [by rewrite app_nil_r|]. split; [simpl; lia|done]. }
  apply Forall_cons in Hkd as [Hitem Hkd].
  destruct (keyed_getitem key_index kind item Hitem) as [Hgi Hki].
  simpl.
  destruct (Z.of_nat (length heap) <? Z.of_nat K)%Z eqn:Hroom.
  - (* the heap is not full *)
    apply Z.ltb_lt in Hroom.
    assert (Hempty : dropped = []) by (apply Hfull; lia).
    destruct (heapify_up_rec_spec key_index kind (length heap)
                (heap ++ [item]) (length heap))
      as (heap1 & Hup & Hperm & Hok1).
    + apply Forall_app. split; [done|by constructor].
    + rewrite length_app. simpl. lia.
    + done.
    + by apply up_inv_snoc.
    + unfold _heapify_up. rewrite Hup. simpl.
      assert (Hlen1 : length heap1 = S (length heap)).
      { rewrite Hperm, length_app. simpl. lia. }
      destruct (IH heap1 []) as (heap' & dropped' & Hrun & Hk' & Hp' & Hl' & Ho').
      * done.
      * unfold all_keyed. rewrite Hperm. apply Forall_app.
        split; [done|by constructor].
      * done.
      * done.
      * lia.
      * done.
      * by intros a b _ ?%elem_of_nil.
      * exists heap', dropped'. split; [done|]. split; [done|].
        split; [|split; [|done]].
        -- rewrite Hp', Hperm, Hempty. solve_Permutation.
        -- rewrite Hl', Hlen1. simpl. lia.
  - (* the heap is full *)
    apply Z.ltb_ge in Hroom.
    destruct heap as [|root tl]; [simpl in *; lia|].
    assert (Hroot : keyed key_index kind root) by (by inversion Hk).
    destruct (keyed_getitem key_index kind root Hroot) as [Hgr Hkr].
    rewrite Hgi. simpl. unfold heap_key. simpl. rewrite Hgr. simpl.
    unfold py_gt. rewrite py_lt_vcmp by by eapply same_kind_trans_r.
    simpl.
    destruct (is_Lt (vcmp (key_at key_index root) (key_at key_index item)))
      eqn:Hlt.
    + (* the item replaces the root *)
      destruct (heapify_down_rec_spec key_index kind (length (item :: tl))
                  (item :: tl) 0)
        as (heap1 & Hdown & Hperm & Hok1).
      * constructor; [done|by inversion Hk].
      * simpl. lia.
      * lia.
      * by eapply down_inv_root.
      * unfold _heapify_down. rewrite Hdown. simpl.
        assert (Hlen1 : length heap1 = length (root :: tl)).
        { by rewrite Hperm. }
        destruct (IH heap1 (root :: dropped))
          as (heap' & dropped' & Hrun & Hk' & Hp' & Hl' & Ho').
        -- done.
        -- unfold all_keyed. rewrite Hperm.
           constructor; [done|by inversion Hk].
        -- done.
        -- done.
        -- lia.
        -- intros ?. lia.
        -- intros a b Ha Hb. rewrite Hperm in Ha.
           assert (Hra : tle root a).
           { apply elem_of_cons in Ha as [->|Ha].
             - by apply vle_of_lt.
             - apply (heap_root_least root tl); [done|by right]. }
           apply elem_of_cons in Hb as [->|Hb]; [done|].
           eapply vle_trans; [|exact Hra].
           apply Hord; [by left|done].
        -- exists heap', dropped'. split; [done|]. split; [done|].
           split; [|split; [|done]].
           ++ rewrite Hp', Hperm. solve_Permutation.
           ++ rewrite Hl', Hlen1. simpl in *. lia.
    + (* the item is dropped *)
      destruct (IH (root :: tl) (item :: dropped))
        as (heap' & dropped' & Hrun & Hk' & Hp' & Hl' & Ho').
      * done.
      * done.
      * done.
      * done.
      * done.
      * intros ?. simpl in *. lia.
      * intros a b Ha Hb.
        apply elem_of_cons in Hb as [->|Hb]; [|by apply Hord].
        eapply vle_trans; [by apply vle_of_not_lt|].
        by apply (heap_root_least root tl).
      * exists heap', dropped'. split; [done|]. split; [done|].
        split; [|split; [|done]].
        -- rewrite Hp'. solve_Permutation.
        -- rewrite Hl'. simpl in *. lia.
Qed.
End TopK.

Section TopKOrder.
Variable key_index : nat.
Variable kind : value.

Lemma tle_key_ordered a b :
  keyed key_index kind a → keyed key_index kind b →
  tle key_index b a → key_ordered key_index true a b.
Proof.
  intros (x & Hx & Kx) (y & Hy & Ky) Hle.
  exists x, y. split; [done|]. split; [done|].
  unfold tle, key_at in Hle. rewrite Hx, Hy in Hle. simpl in Hle.
  rewrite py_lt_vcmp by by eapply same_kind_trans_r.
  unfold vle in Hle. rewrite (vcmp_antisym y x).
  by destruct (vcmp y x).
Qed.
End TopKOrder.

(** X20. [_heapify_up] and [_heapify_down] restore the heap.  On a list
    with comparable keys that is a min-heap except at the position of a
    freshly appended last item, [_heapify_up] returns a permutation that is
    a min-heap; on a min-heap whose root has been replaced,
    [_heapify_down] does the same.  Neither raises, and the depth of the
    recursion stays within the index, respectively the length of the
    heap. *)
Theorem heapify_restores_heap (key_index : nat) (kind : value)
    (heap : list tuple) (item : tuple) :
  all_keyed key_index kind heap → keyed key_index kind item →
  heap_ok key_index heap →
  (∃ heap', CustomAlgorithms._heapify_up (heap ++ [item]) (length heap)
              key_index = Ok heap'
            ∧ heap' ≡ₚ heap ++ [item] ∧ heap_ok key_index heap')
  ∧ (heap ≠ [] →
     ∃ heap', CustomAlgorithms._heapify_down (<[0 := item]> heap) 0 key_index
              = Ok heap'
              ∧ heap' ≡ₚ <[0 := item]> heap ∧ heap_ok key_index heap').
Proof.
  intros Hk Hitem Hok. split.
  - apply (heapify_up_rec_spec key_index kind).
    + apply Forall_app. split; [done|by constructor].
    + rewrite length_app. simpl. lia.
    + done.
    + by apply up_inv_snoc.
  - intros Hne. destruct heap as [|root tl]; [done|]. simpl.
    apply (heapify_down_rec_spec key_index kind).
    + constructor; [done|by inversion Hk].
    + simpl. lia.
    + lia.
    + by eapply down_inv_root.
Qed.

Lemma heapify_restores_heap_witness :
  ∃ heap', CustomAlgorithms._heapify_up ([[VNum 3]; [VNum 5]] ++ [[VNum 1]])
             2 0 = Ok heap'
           ∧ heap_ok 0 heap'.
Proof.
  destruct (proj1 (heapify_restores_heap 0 (VNum 0) [[VNum 3]; [VNum 5]]
                     [VNum 1]
                     ltac:(repeat constructor; by eexists)
                     ltac:(by eexists)
                     ltac:(intros [|[|j]] Hj; simpl in Hj;
                           [lia|by vm_compute|lia])))
    as (heap' & Hrun & _ & Hok).
  by exists heap'.
Defined.

(** X21. For [k] of at least 1 and comparable keys, [find_top_k] returns
    the [k] largest items in descending order: the result has
    [min(k, len(data))] items, it is ordered by the key from the largest
    down, together with the items left out it is a permutation of the
    input, and no item left out has a key greater than the key of an item
    of the result. *)
Theorem find_top_k_largest (data : list tuple) (k : Z) (key_index : nat) :
  comparable_keys key_index data → (1 <= k)%Z →
  ∃ out rest,
    CustomAlgorithms.find_top_k data k key_index = Ok out
    ∧ out ++ rest ≡ₚ data
    ∧ length out = min (Z.to_nat k) (length data)
    ∧ StronglySorted (key_ordered key_index true) out
    ∧ ∀ a b, a ∈ out → b ∈ rest → key_ordered key_index true a b.
Proof.
  intros Hc Hk. unfold CustomAlgorithms.find_top_k.
  destruct (Z.of_nat (length data) <=? k)%Z eqn:Hall.
  - apply Z.leb_le in Hall.
    destruct (quick_sort_sorts data key_index true Hc)
      as (out & Hout & Hperm & Hsorted & _).
    exists out, []. split; [done|]. split; [by rewrite app_nil_r|].
    split; [rewrite Hperm; lia|]. split; [done|].
    by intros a b _ ?%elem_of_nil.
  - apply Z.leb_gt in Hall.
    destruct (comparable_keys_keyed _ _ Hc) as [kind Hkd].
    destruct (top_k_loop_spec key_index kind (Z.to_nat k) data [] [])
      as (heap & dropped & Hrun & Hkh & Hperm & Hlen & Hord);
      [lia|constructor|done|intros j Hj; simpl in Hj; lia|simpl; lia|done
      |by intros a b ?%elem_of_nil|].
    rewrite Z2Nat.id in Hrun by lia. rewrite Hrun. simpl.
    simpl in Hperm, Hlen.
    destruct (quick_sort_sorts heap key_index true
                (keyed_comparable _ _ _ Hkh))
      as (out & Hout & Hperm' & Hsorted & _).
    exists out, dropped. split; [done|].
    split; [by rewrite Hperm'|]. split; [by rewrite Hperm'|].
    split; [done|].
    intros a b Ha Hb. rewrite Hperm' in Ha.
    assert (Hkb : keyed key_index kind b).
    { apply (proj1 (Forall_forall _ _) Hkd b).
      rewrite <- Hperm. apply elem_of_app. by right. }
    apply (tle_key_ordered key_index kind).
    + by apply (proj1 (Forall_forall _ _) Hkh a).
    + done.
    + by apply Hord.
Qed.


Lemma find_top_k_largest_witness :
  ∃ out rest,
    CustomAlgorithms.find_top_k [[VNum 2]; [VNum 9]; [VNum 4]] 2 0 = Ok out
    ∧ out ++ rest ≡ₚ [[VNum 2]; [VNum 9]; [VNum 4]]
    ∧ length out = 2.
Proof.
  destruct (find_top_k_largest [[VNum 2]; [VNum 9]; [VNum 4]] 2 0)
    as (out & rest & Hrun & Hperm & Hlen & _).
  - left. repeat constructor; by eexists.
  - lia.
  - by exists out, rest.
Defined.

Lemma find_top_k_runs (data : list tuple) (k : Z) (key_index : nat) :
  comparable_keys key_index data → (1 <= k)%Z →
  ∃ out, CustomAlgorithms.find_top_k data k key_index = Ok out.
Proof.
  intros Hc Hk. unfold CustomAlgorithms.find_top_k.
  destruct (Z.of_nat (length data) <=? k)%Z.
  - destruct (quick_sort_sorts data key_index true Hc) as (out & Hout & _).
    by exists out.
  - destruct (comparable_keys_keyed _ _ Hc) as [kind Hkd].
    destruct (top_k_loop_spec key_index kind (Z.to_nat k) data [] [])
      as (heap & dropped & Hrun & Hkh & _);
      [lia|constructor|done|intros j Hj; simpl in Hj; lia|simpl; lia|done
      |by intros a b ?%elem_of_nil|].
    rewrite Z2Nat.id in Hrun by lia. rewrite Hrun. simpl.
    destruct (quick_sort_sorts heap key_index true
                (keyed_comparable _ _ _ Hkh)) as (out & Hout & _).
    by exists out.
Qed.

Lemma find_top_k_nonpositive (data : list tuple) (k : Z) (key_index : nat) :
  data ≠ [] → (k <= 0)%Z →
  CustomAlgorithms.find_top_k data k key_index = Raise IndexError.
Proof.
  intros Hne Hk. destruct data as [|item rest]; [done|].
  unfold CustomAlgorithms.find_top_k.
  destruct (Z.of_nat (length (item :: rest)) <=? k)%Z eqn:E.
  { apply Z.leb_le in E. simpl length in E. lia. }
  simpl. change (Z.of_nat 0) with 0%Z.
  destruct (0 <? k)%Z eqn:E'; [apply Z.ltb_lt in E'; lia|].
  unfold getitem. destruct (item !! key_index); done.
Qed.

(** X22. On a list with comparable keys [find_top_k] returns exactly when
    [k] is at least 1 or the list is empty: for every [k] below 1 a
    non-empty list makes the loop read the root of the empty heap, which
    raises [IndexError], whatever the keys. *)
Theorem find_top_k_returns_iff (data : list tuple) (k : Z) (key_index : nat) :
  (comparable_keys key_index data →
   (∃ out, CustomAlgorithms.find_top_k data k key_index = Ok out)
   ↔ (1 <= k)%Z ∨ data = [])
  ∧ (data ≠ [] → (k <= 0)%Z →
     CustomAlgorithms.find_top_k data k key_index = Raise IndexError).
Proof.
  split; [|apply find_top_k_nonpositive].
  intros Hc. split.
  - intros [out Hout].
    destruct (decide (1 <= k)%Z) as [?|Hk]; [by left|right].
    destruct data as [|item rest]; [done|].
    rewrite find_top_k_nonpositive in Hout; [done|done|lia].
  - intros [Hk|Hempty].
    + by apply find_top_k_runs.
    + subst data. exists []. unfold CustomAlgorithms.find_top_k. simpl.
      by destruct (Z.of_nat 0 <=? k)%Z.
Qed.

Lemma find_top_k_returns_iff_witness :
  ∃ out, CustomAlgorithms.find_top_k [[VStr "b"]; [VStr "a"]] 1 0 = Ok out.
Proof.
  apply (proj1 (find_top_k_returns_iff [[VStr "b"]; [VStr "a"]] 1 0)).
  - right. repeat constructor; by eexists.
  - left. lia.
Defined.

(** * Outlier flags of a dataset below the sampling threshold *)

Section SmallOutliers.
Context `{Builtins}.
Import TaxiDataCleaner.

(** The flag written for a duration, given the quartiles. *)
Definition outlier_flag_of (q1 q3 d : Q) : string :=
  if Qltb d (q1 - 2 * (q3 - q1)) || Qltb (q3 + 2 * (q3 - q1)) d
  then "DURATION_OUTLIER" else "NORMAL".

Lemma detect_outliers_small random_sample data st :
  NoDup data → (Z.of_nat (length data) <= large_dataset_threshold)%Z →
  ∃ outlier_indices stats st',
    CustomAlgorithms.detect_outliers_iqr
      ((λ ref, duration_of (deref st ref)) <$> data) 2
    = Ok (outlier_indices, stats)
    ∧ _detect_outliers random_sample data st = Ok (data, st')
    ∧ ∀ i ref, data !! i = Some ref →
        deref st' ref !! "outlier_flag"
        = Some (if decide (Z.of_nat i ∈ py_set outlier_indices)
                then "DURATION_OUTLIER" else "NORMAL").
Proof.
  intros Hnd Hsmall.
  destruct (detect_outliers_iqr_total
              ((λ ref, duration_of (deref st ref)) <$> data) 2)
    as (idx & stats & Hiqr & _).
  exists idx, stats. eexists. split; [done|].
  unfold _detect_outliers. rewrite length_fmap.
  destruct (large_dataset_threshold <? Z.of_nat (length data))%Z eqn:E;
    [apply Z.ltb_lt in E; lia|].
  rewrite Hiqr. simpl. split; [reflexivity|].
  intros i ref Hi.
  rewrite (mark_outliers_flag (py_set idx) data 0 st Hnd i ref Hi).
  by rewrite Z.add_0_l.
Qed.

Lemma outlier_scan_flag lower_bound upper_bound values (i : nat) v :
  values !! i = Some v →
  In (Z.of_nat i) (CustomAlgorithms.outlier_scan 0 lower_bound upper_bound
                     values)
  ↔ Qltb v lower_bound || Qltb upper_bound v = true.
Proof.
  intros Hv. rewrite outlier_scan_spec, Z.sub_0_r, Nat2Z.id.
  rewrite orb_true_iff, !Qltb_true_lt. split.
  - intros (v' & _ & Hv' & Hout). by simplify_eq.
  - intros Hout. exists v. split; [lia|done].
Qed.
End SmallOutliers.

(** X23. Up to 100000 records the outlier stage does not sample and always
    returns.  With fewer than four records every record is flagged
    [NORMAL].  With four or more, a record is flagged [DURATION_OUTLIER]
    exactly when its duration lies outside of
    [Q1 - 2 * IQR, Q3 + 2 * IQR], taken over the durations of all records,
    and at least one record is flagged [NORMAL]. *)
Theorem detect_outliers_small_flags `{Builtins}
    (random_sample : list Q → nat → list Q) (data : list N)
    (st : TaxiDataCleaner.cleaner) :
  NoDup data → (Z.of_nat (length data) <= 100000)%Z →
  let duration := λ ref,
    TaxiDataCleaner.duration_of (TaxiDataCleaner.deref st ref) in
  ∃ st',
    TaxiDataCleaner._detect_outliers random_sample data st = Ok (data, st')
    ∧ (length data < 4 →
       ∀ ref, ref ∈ data →
         TaxiDataCleaner.deref st' ref !! "outlier_flag" = Some "NORMAL")
    ∧ (4 ≤ length data →
       ∃ percentiles q1 q3,
         CustomAlgorithms.calculate_percentiles (duration <$> data)
           [25; 75]%Z = Ok percentiles
         ∧ percentiles !! 25%Z = Some q1 ∧ percentiles !! 75%Z = Some q3
         ∧ (∀ ref, ref ∈ data →
              TaxiDataCleaner.deref st' ref !! "outlier_flag"
              = Some (outlier_flag_of q1 q3 (duration ref)))
         ∧ ∃ ref, ref ∈ data
                  ∧ TaxiDataCleaner.deref st' ref !! "outlier_flag"
                    = Some "NORMAL").
Proof.
  intros Hnd Hsmall duration.
  destruct (detect_outliers_small random_sample data st Hnd Hsmall)
    as (idx & stats & st' & Hiqr & Hrun & Hflags).
  fold duration in Hiqr.
  exists st'. split; [done|]. split.
  - intros Hshort ref Hin.
    unfold CustomAlgorithms.detect_outliers_iqr in Hiqr.
    rewrite length_fmap in Hiqr.
    destruct (length data <? 4) eqn:E; [|apply Nat.ltb_ge in E; lia].
    injection Hiqr as <- _.
    apply list_elem_of_lookup in Hin as [i Hi].
    rewrite (Hflags i ref Hi). rewrite decide_False; [done|].
    by intros Hin%elem_of_py_set.
  - intros Hlong.
    destruct (detect_outliers_iqr_long (duration <$> data) 2)
      as (ps & q1 & q3 & Hps & Hq1 & Hq3 & Hval);
      [by rewrite length_fmap|].
    simpl in Hval. rewrite Hval in Hiqr. injection Hiqr as <- _.
    exists ps, q1, q3. do 3 (split; [done|]).
    assert (Hflag : ∀ i ref, data !! i = Some ref →
      TaxiDataCleaner.deref st' ref !! "outlier_flag"
      = Some (outlier_flag_of q1 q3 (duration ref))).
    { intros i ref Hi. rewrite (Hflags i ref Hi). unfold outlier_flag_of.
      assert (Hd : (duration <$> data) !! i = Some (duration ref)).
      { by rewrite list_lookup_fmap, Hi. }
      pose proof (outlier_scan_flag (q1 - 2 * (q3 - q1))
                    (q3 + 2 * (q3 - q1)) _ i _ Hd) as Hiff.
      destruct (decide _) as [Hin|Hout].
      - apply elem_of_py_set in Hin. by rewrite (proj1 Hiff Hin).
      - destruct (_ || _); [|done]. destruct Hout.
        by apply elem_of_py_set, Hiff. }
    split.
    + intros ref Hin. apply list_elem_of_lookup in Hin as [i Hi].
      by apply (Hflag i).
    + destruct (quartiles_enclose (duration <$> data) ps q1 q3)
        as (v & Hv & Hv1 & Hv3); [by rewrite length_fmap|done|done|done|].
      apply list_elem_of_In, list_elem_of_fmap in Hv as (ref & -> & Hin).
      exists ref. split; [done|].
      apply list_elem_of_lookup in Hin as [i Hi].
      rewrite (Hflag i ref Hi). unfold outlier_flag_of.
      replace (Qltb (duration ref) (q1 - 2 * (q3 - q1))) with false.
      * replace (Qltb (q3 + 2 * (q3 - q1)) (duration ref)) with false;
          [done|].
        symmetry. apply not_true_iff_false. rewrite Qltb_true_lt. lra.
      * symmetry. apply not_true_iff_false. rewrite Qltb_true_lt. lra.
Qed.

Lemma detect_outliers_small_flags_witness :
  let st2 := (TaxiDataCleaner.load [evening_trip; evening_trip]).2 in
  let st5 := (TaxiDataCleaner.load short_rows).2 in
  (∃ st',
     TaxiDataCleaner._detect_outliers (H := DecimalBuiltins.builtins)
       sample_first [0%N; 1%N] st2 = Ok ([0%N; 1%N], st')
     ∧ TaxiDataCleaner.deref st' 0 !! "outlier_flag" = Some "NORMAL")
  ∧ ∃ st' q1 q3,
      TaxiDataCleaner._detect_outliers (H := DecimalBuiltins.builtins)
        sample_first [0%N; 1%N; 2%N; 3%N; 4%N] st5
      = Ok ([0%N; 1%N; 2%N; 3%N; 4%N], st')
      ∧ (q1 == 110)%Q ∧ (q3 == 130)%Q
      ∧ TaxiDataCleaner.deref st' 0 !! "outlier_flag"
        = Some (outlier_flag_of q1 q3 900)
      ∧ outlier_flag_of q1 q3 900 = "DURATION_OUTLIER"
      ∧ TaxiDataCleaner.deref st' 1 !! "outlier_flag" = Some "NORMAL".
Proof.
  intros st2 st5. split.
  - destruct (detect_outliers_small_flags (H := DecimalBuiltins.builtins)
                sample_first [0%N; 1%N] st2)
      as (st' & Hrun & Hshort & _).
    + apply (bool_decide_unpack _). vm_compute. reflexivity.
    + simpl. lia.
    + exists st'. split; [exact Hrun|]. apply Hshort; [simpl; lia|by left].
  - destruct (detect_outliers_small_flags (H := DecimalBuiltins.builtins)
                sample_first [0%N; 1%N; 2%N; 3%N; 4%N] st5)
      as (st' & Hrun & _ & Hlong).
    + apply (bool_decide_unpack _). vm_compute. reflexivity.
    + simpl. lia.
    + destruct Hlong as (ps & q1 & q3 & Hps & Hq1 & Hq3 & Hflags & _);
        [simpl; lia|].
      vm_compute in Hps. injection Hps as <-.
      vm_compute in Hq1. injection Hq1 as <-.
      vm_compute in Hq3. injection Hq3 as <-.
      pose proof (Hflags 0%N ltac:(by left)) as H0.
      pose proof (Hflags 1%N ltac:(by right; left)) as H1.
      match type of H0 with
      | _ = Some (outlier_flag_of ?a ?b _) => exists st', a, b
      end.
      split; [exact Hrun|].
      split; [vm_compute; reflexivity|]. split; [vm_compute; reflexivity|].
      split; [exact H0|]. split; [vm_compute; reflexivity|].
      etransitivity; [exact H1|]. vm_compute. reflexivity.
Defined.

(** * The thresholds of _detect_trip_patterns *)

Section PatternThresholds.
Context `{Builtins}.
Import TaxiFeatureEngineer.

(** Both thresholds are present, and the tag of a value is decided by
    them: the test against the 90th percentile is made only when the test
    against the 10th has failed. *)
Definition thresholds_present (percentiles : gmap Z Q) : Prop :=
  ∃ p10 p90,
    percentiles !! 10%Z = Some p10 ∧ percentiles !! 90%Z = Some p90
    ∧ ∀ x low high,
        relative_tag x percentiles low high
        = Some (if Qltb x p10 then [low]
                else if Qltb p90 x then [high] else []).

Lemma percentiles_10_90 values percentiles :
  CustomAlgorithms.calculate_percentiles values [10; 90]%Z = Ok percentiles →
  thresholds_present percentiles.
Proof.
  intros Hps.
  assert (Hboth : ∃ p10 p90,
            percentiles !! 10%Z = Some p10 ∧ percentiles !! 90%Z = Some p90).
  { destruct values as [|v values].
    - injection Hps as <-. exists 0%Q, 0%Q.
      split; [apply (zero_sentinel_lookup [10; 90]%Z); by left|].
      apply (zero_sentinel_lookup [10; 90]%Z); by right; left.
    - destruct (calculate_percentiles_nonempty (v :: values) [10; 90]%Z)
        as (res & sorted & Hres & _ & Hsorted & Hin); [done|].
      assert (res = percentiles) as -> by congruence.
      destruct (Hin 10%Z) as (x & Hx & Hx'); [by left|lia|].
      destruct (Hin 90%Z) as (y & Hy & Hy'); [by right; left|lia|].
      by exists x, y. }
  destruct Hboth as (p10 & p90 & H10 & H90).
  exists p10, p90. do 2 (split; [done|]).
  intros x low high.
  unfold relative_tag. rewrite H10. simpl.
  destruct (Qltb x p10); [done|]. by rewrite H90.
Qed.

Lemma collect_values_lengths data :
  length (collect_values data).2 ≤ length (collect_values data).1.2
  ∧ length (collect_values data).1.2 ≤ length (collect_values data).1.1
  ∧ length (collect_values data).1.1 ≤ length data.
Proof.
  induction data as [|r data IH]; simpl; [lia|].
  destruct (collect_values data) as [[speeds distances] durations].
  simpl in IH.
  destruct (float_field r "trip_speed_kmh" 0); [|simpl; lia].
  destruct (float_field r "trip_distance_km" 0); [|simpl; lia].
  destruct (float_field r "trip_duration" 0); simpl; lia.
Qed.
End PatternThresholds.

(** X24. In [_detect_trip_patterns] the three lists of the first loop can
    differ in length, because a record whose conversion fails has already
    been appended to the lists before the failing field: there are at most
    as many durations as distances and as many distances as speeds.  The
    stage returns, also on an empty list and when every conversion fails:
    the percentile lookups of the second loop never raise [KeyError], for
    each measure both thresholds are present, and the tag of a value is
    the low one when it is below the 10th percentile, else the high one
    when it is above the 90th, else none. *)
Theorem detect_trip_patterns_thresholds `{Builtins} (data : list record)
    (stats : counters) :
  ∃ speeds distances durations speed_percentiles distance_percentiles
      duration_percentiles,
    TaxiFeatureEngineer.collect_values data = (speeds, distances, durations)
    ∧ length durations ≤ length distances
    ∧ length distances ≤ length speeds
    ∧ length speeds ≤ length data
    ∧ CustomAlgorithms.calculate_percentiles speeds [10; 90]%Z
      = Ok speed_percentiles
    ∧ CustomAlgorithms.calculate_percentiles distances [10; 90]%Z
      = Ok distance_percentiles
    ∧ CustomAlgorithms.calculate_percentiles durations [10; 90]%Z
      = Ok duration_percentiles
    ∧ TaxiFeatureEngineer._detect_trip_patterns data stats
      = Ok (TaxiFeatureEngineer.for_each
              (TaxiFeatureEngineer.trip_patterns speed_percentiles
                 distance_percentiles duration_percentiles) data stats)
    ∧ thresholds_present speed_percentiles
    ∧ thresholds_present distance_percentiles
    ∧ thresholds_present duration_percentiles.
Proof.
  pose proof (collect_values_lengths data) as (L1 & L2 & L3).
  unfold TaxiFeatureEngineer._detect_trip_patterns.
  destruct (TaxiFeatureEngineer.collect_values data)
    as [[speeds distances] durations]. simpl in L1, L2, L3.
  destruct (calculate_percentiles_total speeds [10; 90]%Z) as [sp Hsp].
  destruct (calculate_percentiles_total distances [10; 90]%Z) as [dp Hdp].
  destruct (calculate_percentiles_total durations [10; 90]%Z) as [tp Htp].
  exists speeds, distances, durations, sp, dp, tp.
  rewrite Hsp, Hdp, Htp. simpl.
  do 8 (split; [done|]).
  split; [by eapply percentiles_10_90|].
  split; by eapply percentiles_10_90.
Qed.

(** * The comparison counter of quick_sort *)

Section Comparisons.
Import CustomAlgorithms.
Variable key_index : nat.
Variable reverse : bool.

Lemma partition_loop_counted_spec pivot_value arr : ∀ comparison_count,
  partition_loop_counted key_index reverse pivot_value arr comparison_count
  = (b ← partition_loop key_index reverse pivot_value arr;
     Ok (b, comparison_count + length arr)).
Proof.
  induction arr as [|item arr IH]; intros c; simpl.
  { by rewrite Nat.add_0_r. }
  destruct (getitem item key_index) as [item_value|]; [|done]. simpl.
  destruct (goes_left reverse item_value pivot_value) as [l|]; [|done].
  simpl. rewrite IH.
  destruct (partition_loop key_index reverse pivot_value arr) as [b|];
    [|done].
  simpl. do 2 f_equal. lia.
Qed.

Lemma quick_sort_counted_rec_step d arr comparison_count :
  quick_sort_counted_rec (S d) arr key_index reverse comparison_count
  = if length arr <=? 1 then Ok (arr, comparison_count)
    else
      pivot ← getitem arr (length arr / 2);
      pivot_value ← getitem pivot key_index;
      '(b, comparison_count) ←
        partition_loop_counted key_index reverse pivot_value arr
          comparison_count;
      '(sorted_left, comparison_count) ←
        quick_sort_counted_rec d (b_left b) key_index reverse
          comparison_count;
      '(sorted_right, comparison_count) ←
        quick_sort_counted_rec d (b_right b) key_index reverse
          comparison_count;
      Ok (sorted_left ++ b_middle b ++ sorted_right, comparison_count).
Proof. reflexivity. Qed.

(** The buckets left and right of the pivot together are shorter than the
    list. *)
Lemma partition_loop_shorter arr pivot pivot_value b :
  In pivot arr → pivot !! key_index = Some pivot_value →
  partition_loop key_index reverse pivot_value arr = Ok b →
  length (b_left b) + length (b_right b) < length arr.
Proof.
  intros Hin Hpv Hb.
  pose proof (partition_loop_ok_keyed _ _ _ _ _ Hb) as Hk.
  rewrite (partition_loop_filter key_index reverse pivot_value arr Hk) in Hb.
  injection Hb as <-. simpl.
  pose proof (three_way_perm (side key_index reverse pivot_value) arr) as Hp.
  apply Permutation_length in Hp. rewrite !length_app in Hp.
  assert (Hmid : 0 < length (List.filter
            (λ t, is_Eq (side key_index reverse pivot_value t)) arr)).
  { assert (He : In pivot (List.filter
              (λ t, is_Eq (side key_index reverse pivot_value t)) arr)).
    { apply List.filter_In. split; [done|].
      assert (Hkey : key_at key_index pivot = pivot_value).
      { unfold key_at. by rewrite Hpv. }
      by rewrite <- Hkey, side_pivot. }
    clear Hp.
    destruct (List.filter
                (λ t, is_Eq (side key_index reverse pivot_value t)) arr);
      [done|simpl; lia]. }
  lia.
Qed.

(** The comparisons of a call do not depend on the counter it starts
    from; [n] is their number. *)
Lemma quick_sort_counted_rec_spec depth : ∀ arr,
  ∃ n,
    (∀ comparison_count,
       quick_sort_counted_rec depth arr key_index reverse comparison_count
       = (out ← quick_sort_rec depth arr key_index reverse;
          Ok (out, comparison_count + n)))
    ∧ 2 * n ≤ length arr * (length arr + 1)
    ∧ (length arr ≤ 1 → n = 0)
    ∧ (2 ≤ length arr →
       (∃ out, quick_sort_rec depth arr key_index reverse = Ok out) →
       length arr ≤ n).
Proof.
  induction depth as [|d IH]; intros arr.
  { exists 0. split; [|split; [lia|split; [done|]]].
    - intros c. simpl. destruct (length arr <=? 1); [|done].
      simpl. by rewrite Nat.add_0_r.
    - intros Hlong [out Hout]. simpl in Hout.
      destruct (length arr <=? 1) eqn:E; [|done].
      apply Nat.leb_le in E. lia. }
  assert (Hfail : ∀ e,
    quick_sort_rec (S d) arr key_index reverse = Raise e →
    (∀ c, quick_sort_counted_rec (S d) arr key_index reverse c = Raise e) →
    ∃ n,
      (∀ c, quick_sort_counted_rec (S d) arr key_index reverse c
            = (out ← quick_sort_rec (S d) arr key_index reverse;
               Ok (out, c + n)))
      ∧ 2 * n ≤ length arr * (length arr + 1)
      ∧ (length arr ≤ 1 → n = 0)
      ∧ (2 ≤ length arr →
         (∃ out, quick_sort_rec (S d) arr key_index reverse = Ok out) →
         length arr ≤ n)).
  { intros e He Hc. exists 0. rewrite He.
    split; [done|]. split; [lia|]. split; [done|].
    by intros _ [out Hout]. }
  destruct (length arr <=? 1) eqn:Hshort.
  { exists 0. rewrite quick_sort_rec_step, Hshort.
    apply Nat.leb_le in Hshort.
    split; [|split; [lia|split; [done|lia]]].
    intros c. rewrite quick_sort_counted_rec_step.
    destruct (length arr <=? 1) eqn:E; [|apply Nat.leb_gt in E; lia].
    simpl. by rewrite Nat.add_0_r. }
  pose proof Hshort as Hlong. apply Nat.leb_gt in Hlong.
  destruct (getitem arr (length arr / 2)) as [pivot|e] eqn:Hgp; cycle 1.
  { apply (Hfail e).
    - by rewrite quick_sort_rec_step, Hshort, Hgp.
    - intros c. by rewrite quick_sort_counted_rec_step, Hshort, Hgp. }
  destruct (getitem pivot key_index) as [pivot_value|e] eqn:Hgv; cycle 1.
  { apply (Hfail e).
    - by rewrite quick_sort_rec_step, Hshort, Hgp; simpl; rewrite Hgv.
    - intros c.
      by rewrite quick_sort_counted_rec_step, Hshort, Hgp; simpl;
        rewrite Hgv. }
  destruct (partition_loop key_index reverse pivot_value arr) as [b|e]
    eqn:Hb; cycle 1.
  { apply (Hfail e).
    - rewrite quick_sort_rec_step, Hshort, Hgp. simpl. rewrite Hgv. simpl.
      by rewrite Hb.
    - intros c. rewrite quick_sort_counted_rec_step, Hshort, Hgp. simpl.
      rewrite Hgv. simpl. by rewrite partition_loop_counted_spec, Hb. }
  destruct (IH (b_left b)) as (n1 & E1 & B1 & _ & _).
  destruct (IH (b_right b)) as (n2 & E2 & B2 & _ & _).
  assert (Hstep : ∀ c,
    quick_sort_counted_rec (S d) arr key_index reverse c
    = ('(sorted_left, c1) ←
         (out ← quick_sort_rec d (b_left b) key_index reverse;
          Ok (out, c + length arr + n1));
       '(sorted_right, c2) ←
         (out ← quick_sort_rec d (b_right b) key_index reverse;
          Ok (out, c1 + n2));
       Ok (sorted_left ++ b_middle b ++ sorted_right, c2))).
  { intros c. rewrite quick_sort_counted_rec_step, Hshort, Hgp. simpl.
    rewrite Hgv. simpl. rewrite partition_loop_counted_spec, Hb. simpl.
    rewrite E1.
    destruct (quick_sort_rec d (b_left b) key_index reverse) as [sl|];
      [|done].
    simpl. by rewrite E2. }
  assert (Hplain :
    quick_sort_rec (S d) arr key_index reverse
    = (sorted_left ← quick_sort_rec d (b_left b) key_index reverse;
       sorted_right ← quick_sort_rec d (b_right b) key_index reverse;
       Ok (sorted_left ++ b_middle b ++ sorted_right))).
  { rewrite quick_sort_rec_step, Hshort, Hgp. simpl. rewrite Hgv. simpl.
    by rewrite Hb. }
  destruct (quick_sort_rec d (b_left b) key_index reverse) as [sl|e] eqn:Hl;
    cycle 1.
  { apply (Hfail e); [by rewrite Hplain|]. intros c. by rewrite Hstep. }
  destruct (quick_sort_rec d (b_right b) key_index reverse) as [sr|e] eqn:Hr;
    cycle 1.
  { apply (Hfail e); [by rewrite Hplain|]. intros c. by rewrite Hstep. }
  assert (Hin : In pivot arr).
  { unfold getitem in Hgp.
    destruct (arr !! (length arr / 2)) as [t|] eqn:Ht; [|done].
    injection Hgp as ->. apply list_elem_of_In.
    by eapply list_elem_of_lookup_2. }
  assert (Hpv : pivot !! key_index = Some pivot_value).
  { unfold getitem in Hgv. by destruct (pivot !! key_index) as [v|];
      [injection Hgv as ->|]. }
  pose proof (partition_loop_shorter arr pivot pivot_value b Hin Hpv Hb)
    as Hless.
  exists (length arr + n1 + n2). rewrite Hplain.
  split; [|split; [|split; [lia|lia]]].
  - intros c. rewrite Hstep. simpl. do 2 f_equal. lia.
  - nia.
Qed.
End Comparisons.

(** X25. The comparison counter: [quick_sort] as a method returns the list
    that the sort returns, fails exactly when the sort fails and with the
    same exception, and adds to [comparison_count] a number of comparisons
    that does not depend on the start value, is 0 for a list of at most
    one item, at least the length of the list otherwise, and at most
    [n * (n + 1) / 2]: the quadratic worst case of the docstring. *)
Theorem quick_sort_comparisons (arr : list tuple) (key_index : nat)
    (reverse : bool) :
  ∃ n,
    (∀ comparison_count,
       CustomAlgorithms.quick_sort_counted arr key_index reverse
         comparison_count
       = (out ← CustomAlgorithms.quick_sort arr key_index reverse;
          Ok (out, comparison_count + n)))
    ∧ 2 * n ≤ length arr * (length arr + 1)
    ∧ (length arr ≤ 1 → n = 0)
    ∧ (2 ≤ length arr →
       (∃ out, CustomAlgorithms.quick_sort arr key_index reverse = Ok out) →
       length arr ≤ n).
Proof.
  unfold CustomAlgorithms.quick_sort_counted, CustomAlgorithms.quick_sort.
  destruct (quick_sort_counted_rec_spec key_index reverse (length arr) arr)
    as (n & Heq & Hbound & Hshort & Hlong).
  by exists n.
Qed.

(** * Records with missing fields *)

Section MissingFields.
Context `{Builtins}.
Import TaxiDataCleaner.

Lemma in_nyc_zero_lat lon : in_nyc 0 lon = false.
Proof. reflexivity. Qed.

Lemma in_nyc_zero_lon lat : in_nyc lat 0 = false.
Proof. unfold in_nyc. by rewrite andb_false_r. Qed.

Lemma float_field_missing (r : record) k dflt :
  r !! k = None → float_field r k dflt = Some dflt.
Proof. intros E. unfold float_field. by rewrite E. Qed.

Lemma check_coordinates_missing ref st k :
  k ∈ ["pickup_longitude"; "pickup_latitude"; "dropoff_longitude";
       "dropoff_latitude"] →
  deref st ref !! k = None →
  check_coordinates ref st
  = Ok (false, reject "coordinate_errors" "INVALID_COORDINATES" ref st).
Proof.
  intros Hk Hnone. unfold check_coordinates.
  repeat (apply elem_of_cons in Hk as [->|Hk]);
    [| | | |by apply elem_of_nil in Hk];
    rewrite (float_field_missing _ _ 0 Hnone);
    repeat (match goal with
            | |- context [float_field ?r ?f 0] =>
                destruct (float_field r f 0); simpl; try done
            end);
    rewrite ?in_nyc_zero_lat, ?in_nyc_zero_lon, ?andb_false_r; done.
Qed.

Lemma check_trip_duration_missing ref st :
  deref st ref !! "trip_duration" = None →
  check_trip_duration ref st
  = Ok (false, reject "duration_errors" "INVALID_DURATION_OR_PASSENGERS"
                 ref st).
Proof.
  intros Hnone. unfold check_trip_duration, int_field. rewrite Hnone.
  simpl. by destruct (match deref st ref !! "passenger_count" with
                      | Some s => py_int s
                      | None => Some 1%Z
                      end).
Qed.
End MissingFields.

(** X26. A record without one of the four coordinate fields is rejected by
    [_validate_coordinates] as [INVALID_COORDINATES], and a record without
    [trip_duration] by [_validate_trip_duration] as
    [INVALID_DURATION_OR_PASSENGERS]: the default 0 of [record.get] lies
    outside of the admitted ranges, so a missing field is counted as an
    error and never raises. *)
Theorem missing_fields_rejected `{Builtins} (ref : N)
    (st : TaxiDataCleaner.cleaner) :
  (∀ k, k ∈ ["pickup_longitude"; "pickup_latitude"; "dropoff_longitude";
             "dropoff_latitude"] →
     TaxiDataCleaner.deref st ref !! k = None →
     ∃ st', TaxiDataCleaner.check_coordinates ref st = Ok (false, st')
            ∧ TaxiDataCleaner.deref st' ref !! "validity_flag"
              = Some "INVALID_COORDINATES"
            ∧ counter "coordinate_errors" st'
              = (counter "coordinate_errors" st + 1)%Z)
  ∧ (TaxiDataCleaner.deref st ref !! "trip_duration" = None →
     ∃ st', TaxiDataCleaner.check_trip_duration ref st = Ok (false, st')
            ∧ TaxiDataCleaner.deref st' ref !! "validity_flag"
              = Some "INVALID_DURATION_OR_PASSENGERS"
            ∧ counter "duration_errors" st'
              = (counter "duration_errors" st + 1)%Z).
Proof.
  split.
  - intros k Hk Hnone. eexists.
    split; [by eapply check_coordinates_missing|].
    split; [by rewrite deref_reject, lookup_insert_eq|].
    unfold TaxiDataCleaner.reject.
    by rewrite counter_set_field, counter_count.
  - intros Hnone. eexists.
    split; [by apply check_trip_duration_missing|].
    split; [by rewrite deref_reject, lookup_insert_eq|].
    unfold TaxiDataCleaner.reject.
    by rewrite counter_set_field, counter_count.
Qed.

Lemma missing_fields_rejected_witness :
  let st := TaxiDataCleaner.Cleaner
              {[0%N := delete "pickup_latitude" evening_trip]}
              TaxiDataCleaner.initial_stats in
  ∃ st', TaxiDataCleaner.check_coordinates (H := DecimalBuiltins.builtins)
           0 st = Ok (false, st').
Proof.
  intros st.
  destruct (proj1 (missing_fields_rejected (H := DecimalBuiltins.builtins)
                     0%N st) "pickup_latitude")
    as (st' & Hrun & _).
  - right. by left.
  - vm_compute. reflexivity.
  - by exists st'.
Defined.

(** * Feature engineering of a record without coordinates *)

Section NoCoordinates.
Context `{Builtins}.
Import TaxiFeatureEngineer.

Lemma for_each_lookup body data : ∀ stats i r,
  data !! i = Some r →
  ∃ s, (for_each body data stats).1 !! i = Some (body r s).1.
Proof.
  induction data as [|r0 data IH]; intros stats i r Hi;
    [by rewrite lookup_nil in Hi|].
  simpl. destruct (body r0 stats) as [r' stats1] eqn:Hb.
  specialize (IH stats1).
  destruct (for_each body data stats1) as [rest' stats2]. simpl in *.
  destruct i as [|i]; simpl in *.
  - injection Hi as <-. exists stats. by rewrite Hb.
  - by apply IH.
Qed.

Definition coordinate_fields : list string :=
  ["pickup_latitude"; "pickup_longitude"; "dropoff_latitude";
   "dropoff_longitude"].

Lemma required_float_missing (r : record) k :
  r !! k = None → required_float r k = None.
Proof. intros E. unfold required_float. by rewrite E. Qed.

Lemma trip_distance_missing r stats k :
  k ∈ coordinate_fields → r !! k = None →
  (trip_distance r stats).1 !! "trip_distance_km" = Some "0.000".
Proof.
  intros Hk Hnone. unfold trip_distance, coordinate_fields in *.
  repeat (apply elem_of_cons in Hk as [->|Hk]);
    [| | | |by apply elem_of_nil in Hk];
    rewrite (required_float_missing _ _ Hnone);
    repeat (match goal with
            | |- context [required_float ?r ?f] =>
                destruct (required_float r f); simpl
            end);
    by rewrite lookup_insert_eq.
Qed.

Lemma trip_zones_missing r stats k :
  k ∈ coordinate_fields → r !! k = None →
  (trip_zones r stats).1
  = <["trip_type" := "Unknown"]>
      (<["dropoff_borough" := "Unknown"]>
         (<["pickup_borough" := "Unknown"]> r)).
Proof.
  intros Hk Hnone. unfold trip_zones, coordinate_fields in *.
  repeat (apply elem_of_cons in Hk as [->|Hk]);
    [| | | |by apply elem_of_nil in Hk];
    rewrite (required_float_missing _ _ Hnone);
    repeat (match goal with
            | |- context [required_float ?r ?f] =>
                destruct (required_float r f); simpl
            end);
    done.
Qed.

Lemma engineer_features_lookup data enhanced stats i r :
  engineer_features data = Ok (enhanced, stats) → data !! i = Some r →
  ∃ s1 s2 s3 s4 s5 s6 sp dp tp,
    enhanced !! i
    = Some (trip_patterns sp dp tp
              (trip_zones
                 (efficiency_metrics
                    (temporal_features
                       (trip_speed (trip_distance r s1).1 s2).1 s3).1 s4).1
                 s5).1 s6).1.
Proof.
  unfold engineer_features, _calculate_trip_distance, _calculate_trip_speed,
    _extract_temporal_features, _calculate_efficiency_metrics,
    _classify_trip_zones, _detect_trip_patterns.
  set (stats0 := bump _ _ _). intros Hrun Hi.
  destruct (for_each_lookup trip_distance data stats0 i r Hi) as [s1 H1].
  destruct (for_each trip_distance data stats0) as [d1 t1].
  destruct (for_each_lookup trip_speed d1 t1 i _ H1) as [s2 H2].
  destruct (for_each trip_speed d1 t1) as [d2 t2].
  destruct (for_each_lookup temporal_features d2 t2 i _ H2) as [s3 H3].
  destruct (for_each temporal_features d2 t2) as [d3 t3].
  destruct (for_each_lookup efficiency_metrics d3 t3 i _ H3) as [s4 H4].
  destruct (for_each efficiency_metrics d3 t3) as [d4 t4].
  destruct (for_each_lookup trip_zones d4 t4 i _ H4) as [s5 H5].
  destruct (for_each trip_zones d4 t4) as [d5 t5].
  cbn [fst snd] in *.
  destruct (collect_values d5) as [[speeds distances] durations].
  destruct (CustomAlgorithms.calculate_percentiles speeds _) as [sp|];
    [|done]. simpl in Hrun.
  destruct (CustomAlgorithms.calculate_percentiles distances _) as [dp|];
    [|done]. simpl in Hrun.
  destruct (CustomAlgorithms.calculate_percentiles durations _) as [tp|];
    [|done]. simpl in Hrun.
  destruct (for_each_lookup (trip_patterns sp dp tp) d5 t5 i _ H5)
    as [s6 H6].
  destruct (for_each (trip_patterns sp dp tp) d5 t5) as [d6 t6].
  cbn [fst snd] in *. injection Hrun as <- <-.
  by exists s1, s2, s3, s4, s5, s6, sp, dp, tp.
Qed.
End NoCoordinates.

(** X27. A record without one of the four coordinate fields goes through
    the whole of [engineer_features] with the fallback values: its
    distance is [0.000] and its boroughs and trip type are [Unknown];
    no later stage overwrites what an earlier stage wrote, and the later
    stages still see the original fields. *)
Theorem engineer_features_without_coordinates `{Builtins}
    (data enhanced : list record) (stats : counters) (i : nat) (r : record)
    (k : string) :
  TaxiFeatureEngineer.engineer_features data = Ok (enhanced, stats) →
  data !! i = Some r → k ∈ coordinate_fields → r !! k = None →
  ∃ r', enhanced !! i = Some r'
        ∧ r' !! "trip_distance_km" = Some "0.000"
        ∧ r' !! "pickup_borough" = Some "Unknown"
        ∧ r' !! "dropoff_borough" = Some "Unknown"
        ∧ r' !! "trip_type" = Some "Unknown"
        ∧ r' !! k = None.
Proof.
  intros Hrun Hi Hk Hnone.
  destruct (engineer_features_lookup data enhanced stats i r Hrun Hi)
    as (s1 & s2 & s3 & s4 & s5 & s6 & sp & dp & tp & Hr').
  eexists. split; [exact Hr'|].
  set (r1 := (TaxiFeatureEngineer.trip_distance r s1).1) in *.
  set (r2 := (TaxiFeatureEngineer.trip_speed r1 s2).1) in *.
  set (r3 := (TaxiFeatureEngineer.temporal_features r2 s3).1) in *.
  set (r4 := (TaxiFeatureEngineer.efficiency_metrics r3 s4).1) in *.
  set (r5 := (TaxiFeatureEngineer.trip_zones r4 s5).1) in *.
  destruct (writes_trip_distance r s1) as [[F1 _] _].
  destruct (writes_trip_speed r1 s2) as [[F2 _] _].
  destruct (writes_temporal_features r2 s3) as [[F3 _] _].
  destruct (writes_efficiency_metrics r3 s4) as [[F4 _] _].
  destruct (writes_trip_zones r4 s5) as [[F5 _] _].
  destruct (writes_trip_patterns sp dp tp r5 s6) as [[F6 _] _].
  fold r1 in F1. fold r2 in F2. fold r3 in F3. fold r4 in F4.
  fold r5 in F5.
  assert (Hfresh : ∀ f, f ∈ derived_fields → f ≠ k).
  { intros f Hf ->. unfold derived_fields, coordinate_fields in *.
    repeat (apply elem_of_cons in Hk as [->|Hk]);
      [| | | |by apply elem_of_nil in Hk];
      repeat (apply elem_of_cons in Hf as [Hf|Hf]; [done|]);
      by apply elem_of_nil in Hf. }
  assert (N1 : k ∉ ["trip_distance_km"]).
  { intros Hin. apply (Hfresh k); [|done]. unfold derived_fields.
    apply list_elem_of_In. apply list_elem_of_In in Hin.
    cbn [In] in Hin |- *. tauto. }
  assert (N2 : k ∉ ["trip_speed_kmh"]).
  { intros Hin. apply (Hfresh k); [|done]. unfold derived_fields.
    apply list_elem_of_In. apply list_elem_of_In in Hin.
    cbn [In] in Hin |- *. tauto. }
  assert (N3 : k ∉ ["pickup_hour"; "time_of_day"; "day_of_week";
                    "is_weekend"; "pickup_month"; "is_rush_hour"]).
  { intros Hin. apply (Hfresh k); [|done]. unfold derived_fields.
    apply list_elem_of_In. apply list_elem_of_In in Hin.
    cbn [In] in Hin |- *. tauto. }
  assert (N4 : k ∉ ["distance_per_minute"; "estimated_idle_time";
                    "efficiency_score"; "trip_complexity"]).
  { intros Hin. apply (Hfresh k); [|done]. unfold derived_fields.
    apply list_elem_of_In. apply list_elem_of_In in Hin.
    cbn [In] in Hin |- *. tauto. }
  assert (N5 : k ∉ ["pickup_borough"; "dropoff_borough"; "trip_type"]).
  { intros Hin. apply (Hfresh k); [|done]. unfold derived_fields.
    apply list_elem_of_In. apply list_elem_of_In in Hin.
    cbn [In] in Hin |- *. tauto. }
  assert (N6 : k ∉ ["trip_patterns"]).
  { intros Hin. apply (Hfresh k); [|done]. unfold derived_fields.
    apply list_elem_of_In. apply list_elem_of_In in Hin.
    cbn [In] in Hin |- *. tauto. }
  assert (H4none : r4 !! k = None).
  { by rewrite (F4 k N4), (F3 k N3), (F2 k N2), (F1 k N1). }
  assert (E5 : r5 = <["trip_type" := "Unknown"]>
                      (<["dropoff_borough" := "Unknown"]>
                         (<["pickup_borough" := "Unknown"]> r4))).
  { by apply (trip_zones_missing r4 s5 k). }
  assert (Hother : ∀ (a : string) (ks : list string),
            Forall (λ b, a ≠ b) ks → a ∉ ks).
  { intros a ks Hall Hin. by apply (proj1 (Forall_forall _ _) Hall a Hin). }
  split; [|split; [|split; [|split]]].
  - rewrite F6, F5, F4, F3, F2
      by (apply Hother; repeat constructor; done).
    by apply (trip_distance_missing r s1 k).
  - rewrite F6 by (apply Hother; repeat constructor; done). rewrite E5.
    rewrite !lookup_insert_ne by done. by rewrite lookup_insert_eq.
  - rewrite F6 by (apply Hother; repeat constructor; done). rewrite E5.
    rewrite lookup_insert_ne by done. by rewrite lookup_insert_eq.
  - rewrite F6 by (apply Hother; repeat constructor; done). rewrite E5.
    by rewrite lookup_insert_eq.
  - rewrite (F6 k N6), (F5 k N5). done.
Qed.

Lemma engineer_features_without_coordinates_witness :
  ∃ enhanced stats r',
    TaxiFeatureEngineer.engineer_features (H := DecimalBuiltins.builtins)
      [delete "pickup_latitude" evening_trip] = Ok (enhanced, stats)
    ∧ enhanced !! 0 = Some r'
    ∧ r' !! "trip_type" = Some "Unknown".
Proof.
  destruct (engineer_features_length (H := DecimalBuiltins.builtins)
              [delete "pickup_latitude" evening_trip])
    as (enhanced & stats & Hrun & _).
  destruct (engineer_features_without_coordinates
              (H := DecimalBuiltins.builtins)
              [delete "pickup_latitude" evening_trip] enhanced stats 0
              (delete "pickup_latitude" evening_trip) "pickup_latitude"
              Hrun eq_refl ltac:(by left)
              ltac:(apply lookup_delete_eq))
    as (r' & Hr' & _ & _ & _ & Htype & _).
  exists enhanced, stats, r'.
  split; [exact Hrun|]. split; [exact Hr'|exact Htype].
Defined.
